(** * lacc: type layout, System V classification, x86-64 encoding, parser buffer

    A shallow embedding of four translation units of the compiler:
    - [parser/type.c]            (modules [Types] and [Heap]),
    - [backend/x86_64/abi.c]     (module [Abi]),
    - [backend/x86_64/instructions.c] (module [Encoder]),
    - [parser/declaration.c]     (module [Parser]).

    Conventions.  C [int] values are integers of [Z]; [/] and [%] are the
    truncating [Z.quot] and [Z.rem] of C.  Signed overflow is undefined in
    C: the sums and products of [Types] and [Abi] are those of [Z], which
    are those of the program where they fit an [int]; [Heap] and the array
    declarators of [Parser] compute in [int] (module [CInt]).  A failed
    [assert], a call of [exit] after [error], a null dereference and a
    division by zero all end the run: the embedded function then yields no
    value ([None] in [Types], [Heap] and [Abi], a fault in [Encoder], an
    error in [Parser]).  In [Types] a pointer to a type stands for the
    value that it points to when it is used, and a function that writes
    through a pointer argument returns the object after the writes; this
    is the C object as long as no node that it points to is written to
    afterwards.  In [Heap] the nodes live in a store and are referred to
    by address, so that a node that is extended after it became the type
    of a member is seen in its new state through the member.  The
    symbols, whose type the initializer code overwrites through an alias,
    live in a store and are referred to by address as well. *)

From Stdlib Require Import ZArith String Lia Bool.
From stdpp Require Import base option list strings.

Local Open Scope Z_scope.

(** ** parser/type.c

    The types as values: a node with everything that it points to, as it
    is when it is handed to a function.  Module [Heap] below has the same
    functions on nodes in their store. *)

Module Types.

(** Modelled from the spec: [enum type] of the header [lacc/typetree.h],
    which is not part of the sources at hand (shape of a TypeTree). *)
Inductive type_kind : Type :=
| T_SIGNED | T_UNSIGNED | T_REAL | T_POINTER | T_FUNCTION
| T_ARRAY | T_STRUCT | T_UNION | T_VOID.

Definition type_kind_eqb (a b : type_kind) : bool :=
  match a, b with
  | T_SIGNED, T_SIGNED | T_UNSIGNED, T_UNSIGNED | T_REAL, T_REAL
  | T_POINTER, T_POINTER | T_FUNCTION, T_FUNCTION | T_ARRAY, T_ARRAY
  | T_STRUCT, T_STRUCT | T_UNION, T_UNION | T_VOID, T_VOID => true
  | _, _ => false
  end.

Definition Q_NONE : Z := 0.
Definition Q_CONST : Z := 1.
Definition Q_VOLATILE : Z := 2.

(** Modelled from the spec: [struct typetree] and [struct member] of
    [lacc/typetree.h]; [struct member_list] is the one of type.c (the
    [length] field is the length of [member], [cap] is allocation
    bookkeeping and is left out). *)
#[warnings="-register-all"]
Inductive typetree : Type :=
  Typetree {
    t_type : type_kind;
    t_size : Z;
    t_qualifier : Z;
    t_member_list : option member_list;
    t_tag_name : option string;
    t_next : option typetree }
with member_list : Type :=
  MemberList {
    func_vararg : bool;
    member : list member_t }
with member_t : Type :=
  Member {
    m_name : option string;
    m_type : typetree;
    m_offset : Z }.

Definition basic (k : type_kind) (sz q : Z) : typetree :=
  Typetree k sz q None None None.

Definition basic_type__void := basic T_VOID 0 Q_NONE.
Definition basic_type__const_void := basic T_VOID 0 Q_CONST.
Definition basic_type__char := basic T_SIGNED 1 Q_NONE.
Definition basic_type__short := basic T_SIGNED 2 Q_NONE.
Definition basic_type__int := basic T_SIGNED 4 Q_NONE.
Definition basic_type__long := basic T_SIGNED 8 Q_NONE.
Definition basic_type__unsigned_char := basic T_UNSIGNED 1 Q_NONE.
Definition basic_type__unsigned_short := basic T_UNSIGNED 2 Q_NONE.
Definition basic_type__unsigned_int := basic T_UNSIGNED 4 Q_NONE.
Definition basic_type__unsigned_long := basic T_UNSIGNED 8 Q_NONE.
Definition basic_type__float := basic T_REAL 4 Q_NONE.
Definition basic_type__double := basic T_REAL 8 Q_NONE.

(** Modelled from the spec: the classification macros of
    [lacc/typetree.h].  A Tag is a struct or union node whose [next]
    points to the tagged object. *)
Definition is_integer (t : typetree) : bool :=
  type_kind_eqb (t_type t) T_SIGNED || type_kind_eqb (t_type t) T_UNSIGNED.
Definition is_pointer (t : typetree) : bool := type_kind_eqb (t_type t) T_POINTER.
Definition is_function (t : typetree) : bool := type_kind_eqb (t_type t) T_FUNCTION.
Definition is_array (t : typetree) : bool := type_kind_eqb (t_type t) T_ARRAY.
Definition is_struct (t : typetree) : bool := type_kind_eqb (t_type t) T_STRUCT.
Definition is_union (t : typetree) : bool := type_kind_eqb (t_type t) T_UNION.
Definition is_void (t : typetree) : bool := type_kind_eqb (t_type t) T_VOID.
Definition is_struct_or_union (t : typetree) : bool := is_struct t || is_union t.
Definition is_object (t : typetree) : bool := negb (is_function t).
Definition is_tagged (t : typetree) : bool :=
  is_struct_or_union t && bool_decide (is_Some (t_next t)).

Definition unwrapped (t : typetree) : typetree :=
  if is_tagged t then
    match t_next t with Some n => n | None => t end
  else t.

Definition size_of (t : typetree) : Z :=
  if is_tagged t then
    match t_next t with Some n => t_size n | None => t_size t end
  else t_size t.

Definition members (t : typetree) : list member_t :=
  match t_member_list t with Some l => member l | None => [] end.

Definition nmembers (t : typetree) : Z := Z.of_nat (length (members t)).

Definition get_member (t : typetree) (n : Z) : option member_t :=
  if n <? 0 then None else members t !! Z.to_nat n.

Definition is_vararg (t : typetree) : option bool :=
  guard (is_function t = true);;
  Some (match t_member_list t with Some l => func_vararg l | None => false end).

(** [type_alignment]: the loop over the members of a struct or union is the
    local [members_alignment]; [m] is the running maximum.  [unwrapped] and
    [nmembers]/[get_member] are written out so that the recursion is
    visibly structural; [type_alignment_struct] states the usual form. *)
Fixpoint type_alignment (t : typetree) : option Z :=
  match t_type t with
  | T_FUNCTION => None
  | T_ARRAY =>
      match t_next t with
      | Some n => type_alignment n
      | None => None
      end
  | T_STRUCT | T_UNION =>
      let fix members_alignment (ms : list member_t) (m : Z) : option Z :=
        match ms with
        | [] => Some m
        | f :: ms' =>
            match type_alignment (m_type f) with
            | Some d => members_alignment ms' (if d >? m then d else m)
            | None => None
            end
        end in
      let of_list (l : option member_list) :=
        match l with
        | Some l => members_alignment (member l) 0
        | None => Some 0
        end in
      let m :=
        match t_next t with
        | Some n => if is_tagged t then of_list (t_member_list n)
                    else of_list (t_member_list t)
        | None => of_list (t_member_list t)
        end in
      match m with
      | Some m => if m =? 0 then None else Some m
      | None => None
      end
  | _ => Some (t_size t)
  end.

(** The member loop of [type_alignment] as a function of its own. *)
Fixpoint members_alignment (ms : list member_t) (m : Z) : option Z :=
  match ms with
  | [] => Some m
  | f :: ms' =>
      match type_alignment (m_type f) with
      | Some d => members_alignment ms' (if d >? m then d else m)
      | None => None
      end
  end.

(** [type_init(tt, ...)]: [next] and [arg] stand for the variable
    arguments, read according to [tt] ([next] for pointers and arrays,
    [arg] is the [int] that [va_arg] gives, the element count of an array
    or the size of an integer).  The size of an array is the product in
    [Z], which is the one of the program where it fits an [int].  The
    registry of allocated nodes only serves [cleanup] and is left out. *)
Definition type_init (tt : type_kind) (next : option typetree) (arg : Z)
  : option typetree :=
  match tt with
  | T_POINTER =>
      Some (Typetree tt 8 Q_NONE None None next)
  | T_ARRAY =>
      n ← next;
      Some (Typetree tt (size_of n * arg) Q_NONE None None next)
  | T_UNSIGNED | T_SIGNED =>
      guard ((arg =? 8) || (arg =? 4) || (arg =? 2) || (arg =? 1) = true);;
      Some (Typetree tt arg Q_NONE None None None)
  | _ => Some (Typetree tt 0 Q_NONE None None None)
  end.

Definition type_tagged_copy (t : typetree) (name : option string)
  : option typetree :=
  guard (is_tagged t = false);;
  guard (is_struct_or_union t = true);;
  Some (Typetree (t_type t) 0 Q_NONE None name (Some t)).

Definition set_offset (f : member_t) (o : Z) : member_t :=
  Member (m_name f) (m_type f) o.

(** The [for] loop of [align_struct_members] from field [i] on: [size] and
    [max_alignment] are the loop variables, the fields come back with their
    [offset] written.  The sums are those of [Z], which are those of the
    program where they fit an [int]; [Heap.align_fields] has the sums of
    [int]. *)
Fixpoint align_fields (fields : list member_t) (size max_alignment : Z)
  : option (list member_t * Z * Z) :=
  match fields with
  | [] => Some ([], size, max_alignment)
  | field :: rest =>
      alignment ← type_alignment (m_type field);
      let max_alignment :=
        if alignment >? max_alignment then alignment else max_alignment in
      guard (alignment ≠ 0);;
      let size :=
        if Z.rem size alignment =? 0 then size
        else size + (alignment - Z.rem size alignment) in
      guard (Z.rem size alignment = 0);;
      let field := set_offset field size in
      let size := size + size_of (m_type field) in
      '(rest, size, max_alignment) ← align_fields rest size max_alignment;
      Some (field :: rest, size, max_alignment)
  end.

Definition align_struct_members (list : member_list)
  : option (member_list * Z) :=
  '(fields, size, max_alignment) ← align_fields (member list) 0 0;
  guard (max_alignment ≠ 0);;
  let size :=
    if Z.rem size max_alignment =? 0 then size
    else size + (max_alignment - Z.rem size max_alignment) in
  Some (MemberList (func_vararg list) fields, size).

Definition set_members (t : typetree) (l : member_list) (sz : Z) : typetree :=
  Typetree (t_type t) sz (t_qualifier t) (Some l) (t_tag_name t) (t_next t).

(** [type_add_member] returns the container after the update made in place
    by the C function.  [member_type] is [None] for the null pointer passed
    together with the name "...".  The C function stores the pointer
    [member_type]; here the member has the value that the pointer points
    to at the call, which is what is read through the member as long as
    that node is not written to afterwards ([Heap.type_add_member] stores
    the pointer). *)
Definition type_add_member (t : typetree) (member_name : option string)
    (member_type : option typetree) : option typetree :=
  guard (is_struct_or_union t || is_function t = true);;
  va ← (if is_function t then is_vararg t else Some false);
  guard (va = false);;
  guard (is_tagged t = false);;
  let list := default (MemberList false []) (t_member_list t) in
  if is_function t && bool_decide (member_name = Some "..."%string) then
    Some (set_members t (MemberList true (member list)) (t_size t))
  else
    mt ← member_type;
    mt ← (if is_function t && is_array mt
          then type_init T_POINTER (t_next mt) 0 else Some mt);
    let list :=
      MemberList (func_vararg list) (member list ++ [Member member_name mt 0]) in
    if is_struct t then
      '(list, sz) ← align_struct_members list;
      Some (set_members t list sz)
    else if is_union t then
      Some (set_members t list
              (if t_size t <? size_of mt then size_of mt else t_size t))
    else Some (set_members t list (t_size t)).

(** A struct built by successive calls of [type_add_member] on a fresh
    node, as [member_declaration_list] does. *)
Fixpoint add_members (t : typetree) (fields : list (option string * typetree))
  : option typetree :=
  match fields with
  | [] => Some t
  | (n, ty) :: rest => t' ← type_add_member t n (Some ty); add_members t' rest
  end.

Definition struct_of (fields : list (option string * typetree))
  : option typetree :=
  t ← type_init T_STRUCT None 0; add_members t fields.

Definition field_sig (f : member_t) : option string * typetree :=
  (m_name f, m_type f).

(** Layout in declaration order with minimal padding: starting at byte
    [e], every field sits at the first multiple of its alignment that is
    not below the end of the field before it. *)
Inductive packed : Z → list member_t → Z → Prop :=
| packed_nil e : packed e [] e
| packed_cons e f fs a e' :
    type_alignment (m_type f) = Some a →
    0 < a →
    Z.rem (m_offset f) a = 0 →
    e ≤ m_offset f < e + a →
    packed (m_offset f + size_of (m_type f)) fs e' →
    packed e (f :: fs) e'.

(** *** Layout of structs *)

Definition pad (size alignment : Z) : Z :=
  if Z.rem size alignment =? 0 then size
  else size + (alignment - Z.rem size alignment).

Lemma pad_spec size a :
  0 ≤ size → 0 < a →
  Z.rem (pad size a) a = 0 ∧ size ≤ pad size a < size + a.
Proof.
  intros Hs Ha. unfold pad.
  rewrite (Z.rem_mod_nonneg size a) by lia.
  pose proof (Z.mod_pos_bound size a Ha) as Hb.
  destruct (Z.eqb_spec (size mod a) 0) as [E|E].
  - rewrite Z.rem_mod_nonneg by lia. lia.
  - split; [|lia].
    replace (size + (a - size mod a)) with ((size / a + 1) * a)
      by (pose proof (Z.div_mod size a); lia).
    apply Z.rem_mul; lia.
Qed.

(** A field type that can be laid out: it has a positive alignment and a
    size that is not negative. *)
Definition layable (ty : typetree) : Prop :=
  ∃ a, type_alignment ty = Some a ∧ 0 < a ∧ 0 ≤ size_of ty.

Lemma type_alignment_struct t :
  is_struct_or_union t = true →
  type_alignment t =
    m ← members_alignment (members (unwrapped t)) 0;
    if m =? 0 then None else Some m.
Proof.
  destruct t as [k sz q ml tg nx]; unfold is_struct_or_union, is_struct, is_union.
  destruct k; simpl; try discriminate; intros _;
    unfold unwrapped, is_tagged, is_struct_or_union, is_struct, is_union, members;
    simpl; destruct nx as [[? ? ? [[]|] ? ?]|], ml as [[]|]; reflexivity.
Qed.

Lemma is_tagged_no_next t : t_next t = None → is_tagged t = false.
Proof. unfold is_tagged. intros ->. apply andb_false_r. Qed.

Lemma unwrapped_no_next t : t_next t = None → unwrapped t = t.
Proof. intros H. unfold unwrapped. now rewrite is_tagged_no_next. Qed.

Lemma size_of_no_next t : t_next t = None → size_of t = t_size t.
Proof. intros H. unfold size_of. now rewrite is_tagged_no_next. Qed.

Lemma members_alignment_sig fs :
  ∀ gs m, field_sig <$> fs = field_sig <$> gs →
          members_alignment fs m = members_alignment gs m.
Proof.
  induction fs as [|f fs IH]; intros [|g gs] m Hsig; try discriminate; auto.
  rewrite !fmap_cons in Hsig. injection Hsig as _ Hty Hrest.
  cbn. rewrite Hty. destruct (type_alignment (m_type g)); auto.
Qed.

Lemma align_fields_spec fields :
  ∀ size m,
    Forall (λ f, layable (m_type f)) fields → 0 ≤ size → 0 ≤ m →
    ∃ fields' e m',
      align_fields fields size m = Some (fields', e, m') ∧
      field_sig <$> fields' = field_sig <$> fields ∧
      packed size fields' e ∧
      members_alignment fields m = Some m' ∧
      size ≤ e ∧ m ≤ m' ∧ (fields ≠ [] → 0 < m').
Proof.
  induction fields as [|f fs IH]; intros size m Hall Hs Hm.
  - exists [], size, m. repeat split; try constructor; try lia. congruence.
  - inversion Hall as [|? ? (a & Ha & Hpos & Hsz) Hrest]; subst.
    pose proof (pad_spec size a Hs Hpos) as [Hrem Hrange].
    set (m1 := if a >? m then a else m).
    assert (Hm1 : 0 ≤ m1 ∧ m ≤ m1 ∧ a ≤ m1)
      by (unfold m1; destruct (Z.gtb_spec a m); lia).
    destruct (IH (pad size a + size_of (m_type f)) m1 Hrest) as
      (fs' & e & m' & Hal & Hsig & Hpk & Hma & Hle & Hmm & _); [lia|lia|].
    exists (set_offset f (pad size a) :: fs'), e, m'.
    cbn [align_fields members_alignment]. rewrite Ha. cbn [mbind option_bind].
    rewrite option_guard_True by lia. cbn [mbind option_bind].
    fold (pad size a). rewrite option_guard_True by exact Hrem.
    cbn [mbind option_bind set_offset m_type]. fold m1. rewrite Hal.
    cbn [mbind option_bind]. repeat split; try lia.
    + cbn. unfold field_sig at 1 3. cbn. now f_equal.
    + econstructor; cbn; eauto.
    + exact Hma.
Qed.

(** The structs that [type_add_member] is called on while they are being
    declared: struct nodes that are not tags, with fields that can be laid
    out. *)
Definition open_struct (t : typetree) : Prop :=
  is_struct t = true ∧ t_next t = None ∧
  Forall (λ f, layable (m_type f)) (members t).

Definition well_laid_out (t : typetree) : Prop :=
  ∃ e m,
    type_alignment t = Some m ∧
    Z.rem (size_of t) m = 0 ∧
    packed 0 (members t) e ∧
    e ≤ size_of t < e + m.

Lemma type_add_member_struct t n ty :
  open_struct t → layable ty →
  ∃ t', type_add_member t n (Some ty) = Some t' ∧
        open_struct t' ∧ well_laid_out t' ∧
        field_sig <$> members t' = (field_sig <$> members t) ++ [(n, ty)].
Proof.
  intros (Hst & Hnx & Hall) Hty.
  assert (Hk : t_type t = T_STRUCT)
    by (unfold is_struct in Hst; destruct (t_type t); simpl in Hst; congruence).
  assert (Hall' : Forall (λ f, layable (m_type f)) (members t ++ [Member n ty 0]))
    by (apply Forall_app; split; [exact Hall | repeat constructor; exact Hty]).
  destruct (align_fields_spec _ 0 0 Hall') as
    (fs' & e & m & Hal & Hsig & Hpk & Hma & Hle & _ & Hm); [lia|lia|].
  specialize (Hm ltac:(destruct (members t); discriminate)).
  pose proof (pad_spec e m Hle Hm) as [Hrem Hrange]. fold (pad e m) in *.
  set (l' := MemberList
               (func_vararg (default (MemberList false []) (t_member_list t))) fs').
  exists (set_members t l' (pad e m)).
  assert (Hmem : member (default (MemberList false []) (t_member_list t)) = members t)
    by (unfold members; destruct (t_member_list t); reflexivity).
  assert (Hsig' : field_sig <$> fs' = (field_sig <$> members t) ++ [(n, ty)])
    by (rewrite Hsig, fmap_app; reflexivity).
  assert (Hlay : Forall (λ f, layable (m_type f)) fs').
  { apply Forall_forall. intros f Hf.
    apply (list_elem_of_fmap_2 field_sig) in Hf. rewrite Hsig in Hf.
    apply list_elem_of_fmap in Hf as (g & Hg & Hin).
    rewrite Forall_forall in Hall'. specialize (Hall' g Hin).
    unfold field_sig in Hg. injection Hg as _ ->. exact Hall'. }
  split; [|split; [|split]].
  - unfold type_add_member, is_struct_or_union, is_function, is_tagged,
      is_struct_or_union, is_struct, is_union, is_array.
    rewrite Hk, Hnx. cbn. unfold align_struct_members. cbn [member func_vararg].
    rewrite Hmem, Hal. cbn [mbind option_bind].
    rewrite !option_guard_True by (reflexivity || lia). cbn [mbind option_bind].
    fold (pad e m). reflexivity.
  - unfold open_struct, is_struct, set_members, members. cbn.
    rewrite Hk, Hnx. auto.
  - exists e, m.
    assert (Hma' : members_alignment fs' 0 = Some m).
    { rewrite <- Hma. apply members_alignment_sig. exact Hsig. }
    assert (Hnx' : t_next (set_members t l' (pad e m)) = None) by exact Hnx.
    split.
    { rewrite type_alignment_struct
        by (unfold is_struct_or_union, is_struct; cbn; rewrite Hk; reflexivity).
      rewrite unwrapped_no_next by exact Hnx'.
      change (members (set_members t l' (pad e m))) with fs'.
      rewrite Hma'. cbn. destruct (Z.eqb_spec m 0); [lia|reflexivity]. }
    rewrite size_of_no_next by exact Hnx'.
    change (members (set_members t l' (pad e m))) with fs'.
    change (t_size (set_members t l' (pad e m))) with (pad e m). auto.
  - unfold set_members, members. cbn. exact Hsig'.
Qed.

Lemma add_members_struct fields :
  ∀ t, open_struct t → Forall (λ f, layable f.2) fields →
    ∃ t', add_members t fields = Some t' ∧ open_struct t' ∧
          field_sig <$> members t' = (field_sig <$> members t) ++ fields ∧
          (fields ≠ [] → well_laid_out t').
Proof.
  induction fields as [|[n ty] fs IH]; intros t Ht Hall.
  - exists t. rewrite app_nil_r. repeat split; try apply Ht. congruence.
  - inversion Hall as [|? ? Hty Hrest]; subst.
    destruct (type_add_member_struct t n ty Ht Hty) as (t1 & E1 & Ho1 & Hw1 & Hs1).
    destruct (IH t1 Ho1 Hrest) as (t' & E' & Ho' & Hs' & Hw').
    exists t'. cbn [add_members]. rewrite E1. cbn [mbind option_bind].
    split; [exact E'|]. split; [exact Ho'|]. split.
    + rewrite Hs', Hs1, <- app_assoc. reflexivity.
    + intros _. destruct fs as [|f fs'].
      * cbn in E'. injection E' as <-. exact Hw1.
      * apply Hw'. discriminate.
Qed.

Lemma packed_offsets e fs e' :
  packed e fs e' →
  Forall (λ f, ∃ a, type_alignment (m_type f) = Some a ∧
                     Z.rem (m_offset f) a = 0) fs.
Proof. induction 1; constructor; eauto. Qed.

(** Scenario "struct S { char a; int b; char c; }": size 12, offsets
    0, 4 and 8, alignment 4. *)
Definition struct_S : option typetree :=
  struct_of [(Some "a"%string, basic_type__char);
             (Some "b"%string, basic_type__int);
             (Some "c"%string, basic_type__char)].

Example struct_S_layout :
  (size_of <$> struct_S) = Some 12 ∧
  (struct_S ≫= type_alignment) = Some 4 ∧
  ((λ t, m_offset <$> members t) <$> struct_S) = Some [0; 4; 8].
Proof. repeat split; vm_compute; reflexivity. Qed.

(** Scenario "union U { int i; double d; char s[5]; }": size 8, all
    offsets 0, alignment 8. *)
Definition union_U : option typetree :=
  s5 ← type_init T_ARRAY (Some basic_type__char) 5;
  u ← type_init T_UNION None 0;
  add_members u [(Some "i"%string, basic_type__int);
                 (Some "d"%string, basic_type__double);
                 (Some "s"%string, s5)].

Example union_U_layout :
  (size_of <$> union_U) = Some 8 ∧
  (union_U ≫= type_alignment) = Some 8 ∧
  ((λ t, m_offset <$> members t) <$> union_U) = Some [0; 0; 0].
Proof. repeat split; vm_compute; reflexivity. Qed.


(** ** parser/type.c, continued

    The rest of the translation unit, and what the functions above and
    below guarantee to their callers. *)

(** *** Adding a member to a struct *)

(** [align_struct_members] writes every offset anew: what it returns
    depends on the names and types of the fields only. *)
Lemma align_fields_sig fs :
  ∀ gs size m, field_sig <$> fs = field_sig <$> gs →
               align_fields fs size m = align_fields gs size m.
Proof.
  induction fs as [|f fs IH]; intros [|g gs] size m Hsig; try discriminate; auto.
  rewrite !fmap_cons in Hsig. injection Hsig as Hn Hty Hrest.
  cbn [align_fields]. rewrite Hty.
  destruct (type_alignment (m_type g)) as [a|]; [|reflexivity].
  cbn [mbind option_bind].
  destruct (guard (a ≠ 0)); [|reflexivity]. cbn [mbind option_bind].
  match goal with |- context [guard ?P] => destruct (guard P) end;
    [|reflexivity].
  cbn [mbind option_bind set_offset m_type]. rewrite Hty.
  rewrite (IH gs _ _ Hrest). unfold set_offset. rewrite Hn, Hty. reflexivity.
Qed.

Lemma align_fields_app fs :
  ∀ gs size m,
    align_fields (fs ++ gs) size m =
    '(fs', size', m') ← align_fields fs size m;
    '(gs', size'', m'') ← align_fields gs size' m';
    Some (fs' ++ gs', size'', m'').
Proof.
  induction fs as [|f fs IH]; intros gs size m.
  - cbn. destruct (align_fields gs size m) as [[[? ?] ?]|]; reflexivity.
  - cbn [app align_fields].
    destruct (type_alignment (m_type f)) as [a|]; [|reflexivity].
    cbn [mbind option_bind].
    destruct (guard (a ≠ 0)); [|reflexivity]. cbn [mbind option_bind].
    match goal with |- context [guard ?P] => destruct (guard P) end;
      [|reflexivity].
    cbn [mbind option_bind]. rewrite IH.
    match goal with |- context [align_fields fs ?s ?m] =>
      destruct (align_fields fs s m) as [[[fs' s'] m']|] end; [|reflexivity].
    cbn [mbind option_bind].
    destruct (align_fields gs s' m') as [[[gs' s''] m'']|]; reflexivity.
Qed.

Lemma align_fields_keeps_sig fs :
  ∀ size m fs' e m', align_fields fs size m = Some (fs', e, m') →
                     field_sig <$> fs' = field_sig <$> fs.
Proof.
  induction fs as [|f fs IH]; intros size m fs' e m'; cbn [align_fields].
  - intros [= <- _ _]. reflexivity.
  - destruct (type_alignment (m_type f)) as [a|]; [|discriminate].
    cbn [mbind option_bind].
    destruct (guard (a ≠ 0)); [|discriminate]. cbn [mbind option_bind].
    match goal with |- context [guard ?P] => destruct (guard P) end;
      [|discriminate].
    cbn [mbind option_bind].
    match goal with |- context [align_fields fs ?s ?m] =>
      destruct (align_fields fs s m) as [[[fs1 s1] m1]|] eqn:E end;
      [|discriminate].
    cbn [mbind option_bind]. intros [= <- _ _]. apply IH in E.
    rewrite !fmap_cons, E. reflexivity.
Qed.

Lemma align_fields_idem fs size m fs' e m' :
  align_fields fs size m = Some (fs', e, m') →
  align_fields fs' size m = Some (fs', e, m').
Proof.
  intros H. rewrite <- H. apply align_fields_sig.
  eapply align_fields_keeps_sig. exact H.
Qed.

(** A struct whose stored offsets are the ones [align_struct_members]
    computes: every struct that [type_add_member] has returned. *)
Definition laid_out (t : typetree) : Prop :=
  ∃ e m, align_fields (members t) 0 0 = Some (members t, e, m).

(** The members of a packed list lie between its start and its end. *)
Lemma packed_bounds e fs e' :
  packed e fs e' →
  Forall (λ f, 0 ≤ size_of (m_type f)) fs →
  e ≤ e' ∧ Forall (λ f, e ≤ m_offset f ∧
                         m_offset f + size_of (m_type f) ≤ e') fs.
Proof.
  induction 1 as [|e f fs a e' Ha Hpos Hrem Hoff Hpk IH]; intros Hsz.
  - split; [lia|constructor].
  - inversion Hsz as [|? ? Hf Hrest]; subst.
    destruct (IH Hrest) as [Hle Hall]. split; [lia|].
    constructor; [lia|].
    eapply Forall_impl; [exact Hall|]. cbn. intros; lia.
Qed.

Lemma type_add_member_struct_members t n ty t' :
  open_struct t → type_add_member t n (Some ty) = Some t' →
  ∃ e m, align_fields (members t ++ [Member n ty 0]) 0 0 =
           Some (members t', e, m).
Proof.
  intros (Hst & Hnx & _).
  assert (Hk : t_type t = T_STRUCT)
    by (unfold is_struct in Hst; destruct (t_type t); simpl in Hst; congruence).
  assert (Hmem : member (default (MemberList false []) (t_member_list t)) = members t)
    by (unfold members; destruct (t_member_list t); reflexivity).
  unfold type_add_member, is_struct_or_union, is_function, is_tagged,
    is_struct_or_union, is_struct, is_union, is_array.
  rewrite Hk, Hnx. cbn. unfold align_struct_members. cbn [member func_vararg].
  rewrite Hmem.
  destruct (align_fields (members t ++ [Member n ty 0]) 0 0)
    as [[[fs' e] m]|]; [|discriminate].
  cbn [mbind option_bind].
  destruct (guard (m ≠ 0)); [|discriminate]. cbn [mbind option_bind].
  intros [= <-]. exists e, m. reflexivity.
Qed.

Lemma type_add_member_struct_stable t n ty :
  open_struct t → laid_out t → layable ty →
  ∃ t' m, type_add_member t n (Some ty) = Some t' ∧
          open_struct t' ∧ laid_out t' ∧ well_laid_out t' ∧
          members t' = members t ++ [m] ∧ m_name m = n ∧ m_type m = ty.
Proof.
  intros Ho (e & m & Hl) Hty.
  destruct (type_add_member_struct t n ty Ho Hty) as (t' & E & Ho' & Hw & _).
  destruct (type_add_member_struct_members t n ty t' Ho E) as (e' & m' & Hal).
  pose proof (align_fields_idem _ _ _ _ _ _ Hal) as Hidem.
  rewrite align_fields_app, Hl in Hal. cbn [mbind option_bind] in Hal.
  cbn [align_fields m_type] in Hal.
  destruct (type_alignment ty) as [a|]; [|discriminate].
  cbn [mbind option_bind] in Hal.
  destruct (guard (a ≠ 0)); [|discriminate]. cbn [mbind option_bind] in Hal.
  match type of Hal with context [guard ?P] => destruct (guard P) end;
    [|discriminate].
  cbn [mbind option_bind] in Hal. injection Hal as Hm _ _.
  eexists t', _. split; [exact E|]. split; [exact Ho'|].
  split; [exists e', m'; exact Hidem|]. split; [exact Hw|].
  split; [symmetry; exact Hm|]. split; reflexivity.
Qed.

Lemma add_member_stable fields :
  ∀ t, open_struct t → laid_out t → Forall (λ f, layable f.2) fields →
    ∃ t', add_members t fields = Some t' ∧ open_struct t' ∧ laid_out t' ∧
          (fields ≠ [] → well_laid_out t') ∧
          ∃ ms, members t' = members t ++ ms ∧ field_sig <$> ms = fields.
Proof.
  induction fields as [|[n ty] fs IH]; intros t Ho Hl Hall.
  - exists t. repeat split; try apply Ho; try exact Hl; try congruence.
    exists []. now rewrite app_nil_r.
  - inversion Hall as [|? ? Hty Hrest]; subst.
    destruct (type_add_member_struct_stable t n ty Ho Hl Hty)
      as (t1 & m & E1 & Ho1 & Hl1 & Hw1 & Hm1 & Hn & Hty1).
    destruct (IH t1 Ho1 Hl1 Hrest) as (t' & E' & Ho' & Hl' & Hw' & ms & Hms & Hsig).
    exists t'. cbn [add_members]. rewrite E1. cbn [mbind option_bind].
    split; [exact E'|]. split; [exact Ho'|]. split; [exact Hl'|]. split.
    + intros _. destruct fs as [|f fs'].
      * cbn in E'. injection E' as <-. exact Hw1.
      * apply Hw'. discriminate.
    + exists (m :: ms). split.
      * rewrite Hms, Hm1, <- app_assoc. reflexivity.
      * rewrite fmap_cons, Hsig. unfold field_sig at 1. now rewrite Hn, Hty1.
Qed.

Lemma add_members_app fs :
  ∀ gs t, add_members t (fs ++ gs) = t' ← add_members t fs; add_members t' gs.
Proof.
  induction fs as [|[n ty] fs IH]; intros gs t; [reflexivity|].
  cbn [app add_members].
  destruct (type_add_member t n (Some ty)); [apply IH|reflexivity].
Qed.

(** A struct and the struct with one more member: what the two calls of
    [struct_of] return. *)
Lemma struct_of_snoc (fields : list (option string * typetree))
    (n : option string) (ty : typetree) :
  Forall (λ f, layable f.2) fields → layable ty →
  ∃ t t' m,
    struct_of fields = Some t ∧
    struct_of (fields ++ [(n, ty)]) = Some t' ∧
    open_struct t ∧ open_struct t' ∧ well_laid_out t' ∧
    field_sig <$> members t = fields ∧
    members t' = members t ++ [m] ∧ m_name m = n ∧ m_type m = ty.
Proof.
  intros Hall Hty. unfold struct_of. cbn [type_init mbind option_bind].
  set (t0 := Typetree T_STRUCT 0 Q_NONE None None None).
  assert (Ho0 : open_struct t0) by (repeat split; constructor).
  assert (Hl0 : laid_out t0) by (exists 0, 0; reflexivity).
  destruct (add_member_stable fields t0 Ho0 Hl0 Hall)
    as (t & E & Ho & Hl & _ & ms & Hms & Hsig).
  destruct (type_add_member_struct_stable t n ty Ho Hl Hty)
    as (t' & m & E' & Ho' & _ & Hw & Hm & Hn & Hmt).
  exists t, t', m. split; [exact E|]. split.
  { rewrite add_members_app, E. cbn [mbind option_bind add_members].
    rewrite E'. reflexivity. }
  split; [exact Ho|]. split; [exact Ho'|]. split; [exact Hw|].
  split; [rewrite Hms; exact Hsig|]. auto.
Qed.

(** The kinds of type whose alignment is their size. *)
Definition scalar_kind (k : type_kind) : bool :=
  match k with
  | T_SIGNED | T_UNSIGNED | T_REAL | T_POINTER => true
  | _ => false
  end.

Lemma layable_basic k sz :
  scalar_kind k = true → 0 < sz → layable (basic k sz Q_NONE).
Proof.
  intros Hk Hsz. exists sz. destruct k; try discriminate; repeat split; cbn; lia.
Qed.

(** *** The parameters of a function type *)

Lemma is_function_kind f : is_function f = true → t_type f = T_FUNCTION.
Proof. unfold is_function. destruct (t_type f); cbn; congruence. Qed.

(** X3.  The parameter list of a function type that is not yet variadic.
    A parameter whose type is no array is appended as it is; a parameter of
    array type is appended as a pointer, of size 8, to the element type;
    the name "..." appends nothing and makes the function variadic, after
    which every further [type_add_member] stops at its assertion.  The
    return type in [next] is never touched. *)
Theorem function_parameters (f : typetree) :
  is_function f = true → is_vararg f = Some false →
  (∀ n ty, n ≠ Some "..."%string → is_array ty = false →
     ∃ f', type_add_member f n (Some ty) = Some f' ∧
           members f' = members f ++ [Member n ty 0] ∧
           is_vararg f' = Some false ∧ t_next f' = t_next f) ∧
  (∀ n ty, n ≠ Some "..."%string → is_array ty = true →
     ∃ f', type_add_member f n (Some ty) = Some f' ∧
           members f' =
             members f ++
               [Member n (Typetree T_POINTER 8 Q_NONE None None (t_next ty)) 0] ∧
           is_vararg f' = Some false ∧ t_next f' = t_next f) ∧
  (∀ ty, ∃ f', type_add_member f (Some "..."%string) ty = Some f' ∧
               members f' = members f ∧ t_next f' = t_next f ∧
               is_vararg f' = Some true ∧
               ∀ n ty', type_add_member f' n ty' = None).
Proof.
  intros Hf Hva. pose proof (is_function_kind f Hf) as Hk.
  assert (Hflag : match t_member_list f with
                  | Some l => func_vararg l | None => false end = false).
  { unfold is_vararg in Hva. rewrite option_guard_True in Hva by exact Hf.
    cbn [mbind option_bind] in Hva. congruence. }
  assert (Hflag' : func_vararg (default (MemberList false []) (t_member_list f))
                   = false)
    by (destruct (t_member_list f); [exact Hflag|reflexivity]).
  assert (Hmem : member (default (MemberList false []) (t_member_list f))
                 = members f)
    by (unfold members; destruct (t_member_list f); reflexivity).
  assert (Hhead : ∀ n ty, n ≠ Some "..."%string →
            type_add_member f n (Some ty) =
            mt ← (if is_array ty then type_init T_POINTER (t_next ty) 0
                  else Some ty);
            Some (set_members f
                    (MemberList false (members f ++ [Member n mt 0]))
                    (t_size f))).
  { intros n ty Hn. unfold type_add_member.
    rewrite Hva. unfold is_struct_or_union, is_struct, is_union, is_tagged,
      is_struct_or_union, is_struct, is_union. rewrite Hf, Hk. cbn.
    rewrite bool_decide_eq_false_2 by exact Hn. rewrite Hflag', Hmem.
    destruct (is_array ty); reflexivity. }
  split; [|split].
  - intros n ty Hn Harr. eexists. rewrite (Hhead n ty Hn), Harr.
    cbn [mbind option_bind]. split; [reflexivity|].
    split; [reflexivity|]. split; [|reflexivity].
    unfold is_vararg, is_function. cbn. rewrite Hk. reflexivity.
  - intros n ty Hn Harr. eexists. rewrite (Hhead n ty Hn), Harr.
    cbn [mbind option_bind type_init]. split; [reflexivity|].
    split; [reflexivity|]. split; [|reflexivity].
    unfold is_vararg, is_function. cbn. rewrite Hk. reflexivity.
  - intros ty. eexists. split.
    { unfold type_add_member.
      rewrite Hva. unfold is_struct_or_union, is_struct, is_union, is_tagged,
        is_struct_or_union, is_struct, is_union. rewrite Hf, Hk. cbn.
      rewrite Hmem. reflexivity. }
    split; [reflexivity|]. split; [reflexivity|]. split.
    { unfold is_vararg, is_function. cbn. rewrite Hk. reflexivity. }
    intros n ty'. unfold type_add_member, is_vararg, is_struct_or_union,
      is_struct, is_union, is_function. cbn. rewrite Hk. reflexivity.
Qed.

Lemma function_parameters_witness :
  (is_function (Typetree T_FUNCTION 0 Q_NONE None None (Some basic_type__int))
     = true ∧
   is_vararg (Typetree T_FUNCTION 0 Q_NONE None None (Some basic_type__int))
     = Some false) ∧
  ∃ f', type_add_member
          (Typetree T_FUNCTION 0 Q_NONE None None (Some basic_type__int))
          (Some "..."%string) None = Some f' ∧
        members f' = [] ∧ t_next f' = Some basic_type__int ∧
        is_vararg f' = Some true ∧
        ∀ n ty', type_add_member f' n ty' = None.
Proof.
  split; [split; reflexivity|].
  exact (proj2 (proj2 (function_parameters
                         (Typetree T_FUNCTION 0 Q_NONE None None
                                   (Some basic_type__int))
                         eq_refl eq_refl)) None).
Defined.

(** *** Tags *)

(** [type_deref]: a null [next] is undefined. *)
Definition type_deref (t : typetree) : option typetree :=
  guard (is_pointer t = true);;
  n ← t_next t;
  Some (unwrapped n).

Lemma is_struct_or_union_kind t :
  is_struct_or_union t = true → t_type t = T_STRUCT ∨ t_type t = T_UNION.
Proof.
  unfold is_struct_or_union, is_struct, is_union.
  destruct (t_type t); cbn; try discriminate; auto.
Qed.

(** X4.  The tag that [type_tagged_copy] makes of a struct or union that
    is no tag itself: [unwrapped] gives back the object, the tag has the
    size and the alignment of the object, a pointer to the tag
    dereferences to the object, and the tag is closed: [type_add_member]
    on it and [type_tagged_copy] of it stop at their assertions. *)
Theorem tagged_copy (t : typetree) (name : option string) :
  is_struct_or_union t = true → is_tagged t = false →
  ∃ tag,
    type_tagged_copy t name = Some tag ∧
    is_tagged tag = true ∧
    unwrapped tag = t ∧
    size_of tag = size_of t ∧
    type_alignment tag = type_alignment t ∧
    (∀ n ty, type_add_member tag n ty = None) ∧
    (∀ name', type_tagged_copy tag name' = None) ∧
    (∀ p, type_init T_POINTER (Some tag) 0 = Some p → type_deref p = Some t).
Proof.
  intros Hsu Htag. unfold type_tagged_copy. rewrite Htag, Hsu.
  cbn [mbind option_bind]. rewrite !option_guard_True by reflexivity.
  cbn [mbind option_bind]. eexists. split; [reflexivity|].
  set (tag := Typetree (t_type t) 0 Q_NONE None name (Some t)).
  assert (Hsu' : is_struct_or_union tag = true) by exact Hsu.
  assert (Ht : is_tagged tag = true).
  { unfold is_tagged. rewrite Hsu'. reflexivity. }
  assert (Hun : unwrapped tag = t) by (unfold unwrapped; now rewrite Ht).
  split; [exact Ht|]. split; [exact Hun|]. split.
  { unfold size_of. rewrite Ht, Htag. reflexivity. }
  split.
  { rewrite !type_alignment_struct by assumption. rewrite Hun.
    unfold unwrapped at 1. now rewrite Htag. }
  split.
  { intros n ty. unfold type_add_member. rewrite Hsu'. cbn [orb].
    rewrite option_guard_True by reflexivity. cbn [mbind option_bind].
    destruct (is_function tag); cbn; [destruct (is_vararg tag) as [[]|]; cbn|];
      try reflexivity; rewrite Ht; reflexivity. }
  split.
  { intros name'. unfold type_tagged_copy. rewrite Ht. reflexivity. }
  intros p [= <-]. unfold type_deref. cbn. exact (f_equal Some Hun).
Qed.

Lemma tagged_copy_witness :
  (is_struct_or_union (Typetree T_STRUCT 0 Q_NONE None None None) = true ∧
   is_tagged (Typetree T_STRUCT 0 Q_NONE None None None) = false) ∧
  ∃ tag,
    type_tagged_copy (Typetree T_STRUCT 0 Q_NONE None None None)
      (Some "S"%string) = Some tag ∧
    is_tagged tag = true ∧
    unwrapped tag = Typetree T_STRUCT 0 Q_NONE None None None ∧
    size_of tag = size_of (Typetree T_STRUCT 0 Q_NONE None None None) ∧
    type_alignment tag =
      type_alignment (Typetree T_STRUCT 0 Q_NONE None None None) ∧
    (∀ n ty, type_add_member tag n ty = None) ∧
    (∀ name', type_tagged_copy tag name' = None) ∧
    (∀ p, type_init T_POINTER (Some tag) 0 = Some p →
          type_deref p = Some (Typetree T_STRUCT 0 Q_NONE None None None)).
Proof.
  split; [split; reflexivity|].
  exact (tagged_copy (Typetree T_STRUCT 0 Q_NONE None None None)
           (Some "S"%string) eq_refl eq_refl).
Defined.

(** *** Looking up a member *)

(** The loop of [find_type_member] over the members that are left.  The
    outer [None] is the undefined [strcmp] with a null member name; the
    inner one is the null pointer returned when no member matches. *)
Fixpoint find_member_from (ms : list member_t) (name : string)
  : option (option member_t) :=
  match ms with
  | [] => Some None
  | member :: rest =>
      n ← m_name member;
      if String.eqb name n then Some (Some member)
      else find_member_from rest name
  end.

Definition find_type_member (t : typetree) (name : string)
  : option (option member_t) :=
  guard (is_struct_or_union t = true);;
  find_member_from (members (unwrapped t)) name.

(** Members that all have a name. *)
Definition named (ms : list member_t) : Prop :=
  Forall (λ m, is_Some (m_name m)) ms.

Lemma find_member_from_spec ms name :
  named ms →
  (∃ i m, find_member_from ms name = Some (Some m) ∧
          ms !! i = Some m ∧ m_name m = Some name ∧
          ∀ j m', (j < i)%nat → ms !! j = Some m' → m_name m' ≠ Some name) ∨
  (find_member_from ms name = Some None ∧
   ∀ m, m ∈ ms → m_name m ≠ Some name).
Proof.
  induction 1 as [|m ms [n Hn] Hrest IH]; cbn [find_member_from].
  - right. split; [reflexivity|]. intros m Hm. inversion Hm.
  - rewrite Hn. cbn [mbind option_bind].
    destruct (String.eqb_spec name n) as [->|Hne].
    + left. exists 0%nat, m. repeat split; auto. intros j m' Hj. lia.
    + destruct IH as [(i & m1 & Hf & Hi & Hm1 & Hfirst)|[Hf Hnone]].
      * left. exists (S i), m1. repeat split; auto.
        intros [|j] m' Hj; cbn.
        -- intros [= <-]. congruence.
        -- apply Hfirst. lia.
      * right. split; [exact Hf|]. intros m' Hm'.
        apply elem_of_cons in Hm' as [->|Hm']; [congruence|now apply Hnone].
Qed.

(** X5.  [find_type_member] on a struct or union whose members have
    names returns the first member of the given name, counted in the order
    of declaration, and the null pointer exactly when no member has the
    name.  A tag is looked through. *)
Theorem find_type_member_first (t : typetree) (name : string) :
  is_struct_or_union t = true → named (members (unwrapped t)) →
  (∃ i m, find_type_member t name = Some (Some m) ∧
          members (unwrapped t) !! i = Some m ∧ m_name m = Some name ∧
          ∀ j m', (j < i)%nat → members (unwrapped t) !! j = Some m' →
                  m_name m' ≠ Some name) ∨
  (find_type_member t name = Some None ∧
   ∀ m, m ∈ members (unwrapped t) → m_name m ≠ Some name).
Proof.
  intros Hsu Hnamed. unfold find_type_member.
  rewrite option_guard_True by exact Hsu. cbn [mbind option_bind].
  now apply find_member_from_spec.
Qed.

Lemma find_type_member_first_witness :
  ∃ t, struct_S = Some t ∧
    (is_struct_or_union t = true ∧ named (members (unwrapped t))) ∧
    ((∃ i m, find_type_member t "b" = Some (Some m) ∧
             members (unwrapped t) !! i = Some m ∧
             m_name m = Some "b"%string ∧
             ∀ j m', (j < i)%nat → members (unwrapped t) !! j = Some m' →
                     m_name m' ≠ Some "b"%string) ∨
     (find_type_member t "b" = Some None ∧
      ∀ m, m ∈ members (unwrapped t) → m_name m ≠ Some "b"%string)).
Proof.
  pose (t := Typetree T_STRUCT 12 0
               (Some (MemberList false
                        [Member (Some "a"%string) basic_type__char 0;
                         Member (Some "b"%string) basic_type__int 4;
                         Member (Some "c"%string) basic_type__char 8]))
               None None).
  exists t. split; [vm_compute; reflexivity|].
  assert (Hn : named (members (unwrapped t)))
    by (repeat constructor; eexists; reflexivity).
  split; [split; [reflexivity|exact Hn]|].
  exact (find_type_member_first t "b" eq_refl Hn).
Defined.

Lemma find_member_from_app ms gs name :
  named ms →
  find_member_from (ms ++ gs) name =
  match find_member_from ms name with
  | Some None => find_member_from gs name
  | r => r
  end.
Proof.
  induction 1 as [|m ms [n Hn] Hrest IH]; cbn [app find_member_from].
  - destruct (find_member_from gs name) as [[?|]|]; reflexivity.
  - rewrite Hn. cbn [mbind option_bind].
    destruct (String.eqb name n); [reflexivity|exact IH].
Qed.

Lemma named_sig ms fields :
  field_sig <$> ms = fields → Forall (λ f, is_Some f.1) fields → named ms.
Proof.
  intros <- H. unfold named. rewrite Forall_fmap in H.
  eapply Forall_impl; [exact H|]. now intros m.
Qed.

(** X6.  Lookup after insert.  When a struct has no member called [n],
    [find_type_member] returns the null pointer for [n]; once a member
    [n] of type [ty] has been added it returns that member, of type [ty]
    and at an offset that is a multiple of the alignment of [ty]; and
    the lookup of every other name gives what it gave before. *)
Theorem find_added_member (fields : list (option string * typetree))
    (n : string) (ty : typetree) :
  Forall (λ f, layable f.2) fields → layable ty →
  Forall (λ f, is_Some f.1 ∧ f.1 ≠ Some n) fields →
  ∃ t t' m a,
    struct_of fields = Some t ∧
    struct_of (fields ++ [(Some n, ty)]) = Some t' ∧
    find_type_member t n = Some None ∧
    find_type_member t' n = Some (Some m) ∧
    m_type m = ty ∧
    type_alignment ty = Some a ∧ Z.rem (m_offset m) a = 0 ∧
    ∀ k, k ≠ n → find_type_member t' k = find_type_member t k.
Proof.
  intros Hall Hty Hnames.
  destruct (struct_of_snoc fields (Some n) ty Hall Hty)
    as (t & t' & m & E & E' & Ho & Ho' & (e & al & _ & _ & Hpk & _) & Hsig &
        Hm & Hn & Hmt).
  assert (Hnamed : named (members t)).
  { apply (named_sig _ fields Hsig). eapply Forall_impl; [exact Hnames|].
    cbn. tauto. }
  assert (Hfresh : ∀ f, f ∈ members t → m_name f ≠ Some n).
  { intros f Hf. apply (list_elem_of_fmap_2 field_sig) in Hf. rewrite Hsig in Hf.
    rewrite Forall_forall in Hnames. exact (proj2 (Hnames _ Hf)). }
  assert (Hfind : ∀ x, open_struct x →
            ∀ k, find_type_member x k = find_member_from (members x) k).
  { intros x (Hs & Hnx & _) k. unfold find_type_member, is_struct_or_union.
    rewrite Hs. cbn [orb]. rewrite option_guard_True by reflexivity.
    cbn [mbind option_bind]. now rewrite unwrapped_no_next. }
  assert (Hbefore : find_member_from (members t) n = Some None).
  { destruct (find_member_from_spec (members t) n Hnamed)
      as [(i & m1 & _ & Hi & Hm1 & _)|[H _]]; [|exact H].
    exfalso. apply (Hfresh m1); [|exact Hm1].
    apply list_elem_of_lookup. eauto. }
  apply packed_offsets in Hpk. rewrite Hm in Hpk.
  apply Forall_app in Hpk as [_ Hlast].
  inversion Hlast as [|? ? (a & Ha & Hrem) _]; subst.
  exists t, t', m, a. split; [exact E|]. split; [exact E'|].
  rewrite !Hfind by assumption. split; [exact Hbefore|].
  rewrite Hm. split.
  { rewrite find_member_from_app, Hbefore by exact Hnamed.
    cbn [find_member_from]. rewrite Hn. cbn [mbind option_bind].
    now rewrite String.eqb_refl. }
  split; [reflexivity|]. split; [exact Ha|]. split; [exact Hrem|].
  intros k Hk. rewrite !Hfind by assumption. rewrite Hm.
  rewrite find_member_from_app by exact Hnamed.
  destruct (find_member_from (members t) k) as [[?|]|]; try reflexivity.
  cbn [find_member_from]. rewrite Hn. cbn [mbind option_bind].
  destruct (String.eqb_spec k n); [contradiction|reflexivity].
Qed.

Lemma find_added_member_witness :
  ∃ t t' m a,
    struct_of [(Some "a"%string, basic_type__char)] = Some t ∧
    struct_of ([(Some "a"%string, basic_type__char)] ++
               [(Some "b"%string, basic_type__int)]) = Some t' ∧
    find_type_member t "b" = Some None ∧
    find_type_member t' "b" = Some (Some m) ∧
    m_type m = basic_type__int ∧
    type_alignment basic_type__int = Some a ∧ Z.rem (m_offset m) a = 0 ∧
    ∀ k, k ≠ "b"%string → find_type_member t' k = find_type_member t k.
Proof.
  apply find_added_member.
  - repeat constructor; apply layable_basic; (lia || reflexivity).
  - apply layable_basic; (lia || reflexivity).
  - repeat constructor; [eexists; reflexivity|discriminate].
Defined.

(** *** Integer promotion and the usual arithmetic conversions *)

(** Modelled from the spec: the macros [is_unsigned] and [is_arithmetic]
    of [lacc/typetree.h] (the shape Unsigned; the arithmetic shapes are
    Signed, Unsigned and Real). *)
Definition is_unsigned (t : typetree) : bool :=
  type_kind_eqb (t_type t) T_UNSIGNED.

Definition is_arithmetic (t : typetree) : bool :=
  is_integer t || type_kind_eqb (t_type t) T_REAL.

(** [remove_qualifiers] returns the type itself, or a copy without its
    qualifiers. *)
Definition remove_qualifiers (t : typetree) : option typetree :=
  if negb (t_qualifier t =? 0) then
    guard (nmembers t = 0);;
    Some (Typetree (t_type t) (t_size t) 0 (t_member_list t) (t_tag_name t)
                   (t_next t))
  else Some t.

Definition promote_integer (t : typetree) : option typetree :=
  guard (is_integer t = true);;
  Some (if t_size t <? 4 then
          if is_unsigned t then basic_type__unsigned_int else basic_type__int
        else t).

Definition usual_arithmetic_conversion (t1 t2 : typetree) : option typetree :=
  guard (is_arithmetic t1 && is_arithmetic t2 = true);;
  (* Skip everything dealing with floating point types. *)
  guard (is_integer t1 && is_integer t2 = true);;
  t1 ← promote_integer t1;
  t2 ← promote_integer t2;
  if t1.(t_size) >? t2.(t_size) then remove_qualifiers t1
  else if t2.(t_size) >? t1.(t_size) then remove_qualifiers t2
  else if is_unsigned t1 then remove_qualifiers t1 else remove_qualifiers t2.

(** An integer type as [type_init] and the basic types have it: no
    members, no tag, no [next]. *)
Definition plain_integer (t : typetree) : Prop :=
  is_integer t = true ∧ t_member_list t = None ∧ t_tag_name t = None ∧
  t_next t = None.

(** The size and the signedness of [t] after promotion. *)
Definition promoted_size (t : typetree) : Z := Z.max 4 (t_size t).

Lemma promote_integer_spec t :
  is_integer t = true →
  ∃ p, promote_integer t = Some p ∧
       is_integer p = true ∧ is_unsigned p = is_unsigned t ∧
       t_size p = promoted_size t ∧
       (t_size t < 4 → p = basic T_SIGNED 4 Q_NONE ∨ p = basic T_UNSIGNED 4 Q_NONE) ∧
       (4 ≤ t_size t → p = t).
Proof.
  intros Hi. unfold promote_integer, promoted_size.
  rewrite option_guard_True by exact Hi. cbn [mbind option_bind].
  eexists. split; [reflexivity|].
  destruct (Z.ltb_spec (t_size t) 4) as [Hlt|Hge].
  - destruct (is_unsigned t) eqn:Hu; cbn; repeat split; try lia; auto.
  - repeat split; try lia; auto.
Qed.

Lemma remove_qualifiers_plain t :
  plain_integer t →
  remove_qualifiers t =
    Some (Typetree (t_type t) (t_size t) 0 None None None).
Proof.
  intros (_ & Hml & Htg & Hnx). unfold remove_qualifiers, nmembers, members.
  rewrite Hml, Htg, Hnx. destruct (Z.eqb_spec (t_qualifier t) 0) as [E|E]; cbn.
  - destruct t; cbn in *; subst; reflexivity.
  - reflexivity.
Qed.

Lemma promote_plain t p :
  plain_integer t → promote_integer t = Some p → plain_integer p.
Proof.
  intros Hp. unfold promote_integer. destruct Hp as (Hi & Hp).
  rewrite option_guard_True by exact Hi. cbn [mbind option_bind].
  intros [= <-]. destruct (t_size t <? 4); [|now split].
  destruct (is_unsigned t); repeat split.
Qed.

(** X7.  The usual arithmetic conversions on two integer types: both are
    promoted, which makes a type below 4 bytes [int] or, when it is
    unsigned, [unsigned int]; the result is the promoted type of greater
    size and, when the sizes are equal, the unsigned one if there is one.
    The result carries no qualifier, and the order of the operands does
    not matter. *)
Theorem usual_arithmetic_conversion_integers (t1 t2 : typetree) :
  plain_integer t1 → plain_integer t2 →
  ∃ r, usual_arithmetic_conversion t1 t2 = Some r ∧
       plain_integer r ∧ t_qualifier r = 0 ∧
       t_size r = Z.max 4 (Z.max (t_size t1) (t_size t2)) ∧
       is_unsigned r =
         (if Z.max 4 (t_size t1) >? Z.max 4 (t_size t2) then is_unsigned t1
          else if Z.max 4 (t_size t2) >? Z.max 4 (t_size t1) then is_unsigned t2
          else is_unsigned t1 || is_unsigned t2) ∧
       usual_arithmetic_conversion t2 t1 = Some r.
Proof.
  intros H1 H2. pose proof H1 as (Hi1 & _). pose proof H2 as (Hi2 & _).
  destruct (promote_integer_spec t1 Hi1) as (p1 & E1 & Hp1 & Hu1 & Hs1 & _).
  destruct (promote_integer_spec t2 Hi2) as (p2 & E2 & Hp2 & Hu2 & Hs2 & _).
  pose proof (promote_plain _ _ H1 E1) as Hpl1.
  pose proof (promote_plain _ _ H2 E2) as Hpl2.
  unfold promoted_size in *.
  assert (Hk : ∀ p, is_integer p = true →
            t_type p = if is_unsigned p then T_UNSIGNED else T_SIGNED).
  { intros p. unfold is_integer, is_unsigned.
    destruct (t_type p); cbn; congruence. }
  unfold usual_arithmetic_conversion, is_arithmetic.
  rewrite Hi1, Hi2. cbn [orb andb].
  rewrite !option_guard_True by reflexivity. cbn [mbind option_bind].
  rewrite E1, E2. cbn [mbind option_bind].
  rewrite !(remove_qualifiers_plain p1), !(remove_qualifiers_plain p2)
    by assumption.
  rewrite (Hk p1 Hp1), (Hk p2 Hp2), Hs1, Hs2, Hu1, Hu2.
  destruct (Z.gtb_spec (Z.max 4 (t_size t1)) (Z.max 4 (t_size t2))) as [G1|G1];
    destruct (Z.gtb_spec (Z.max 4 (t_size t2)) (Z.max 4 (t_size t1))) as [G2|G2];
    try lia;
    destruct (is_unsigned t1), (is_unsigned t2);
    (eexists; split; [reflexivity|]);
    repeat split; cbn [t_size]; try lia;
    try (f_equal; f_equal; lia).
Qed.

Lemma usual_arithmetic_conversion_integers_witness :
  (plain_integer basic_type__unsigned_short ∧ plain_integer basic_type__int) ∧
  ∃ r, usual_arithmetic_conversion basic_type__unsigned_short basic_type__int
         = Some r ∧
       plain_integer r ∧ t_qualifier r = 0 ∧
       t_size r = Z.max 4 (Z.max (t_size basic_type__unsigned_short)
                                 (t_size basic_type__int)) ∧
       is_unsigned r =
         (if Z.max 4 (t_size basic_type__unsigned_short) >?
             Z.max 4 (t_size basic_type__int)
          then is_unsigned basic_type__unsigned_short
          else if Z.max 4 (t_size basic_type__int) >?
                  Z.max 4 (t_size basic_type__unsigned_short)
               then is_unsigned basic_type__int
               else is_unsigned basic_type__unsigned_short ||
                    is_unsigned basic_type__int) ∧
       usual_arithmetic_conversion basic_type__int basic_type__unsigned_short
         = Some r.
Proof.
  assert (H1 : plain_integer basic_type__unsigned_short) by (repeat split).
  assert (H2 : plain_integer basic_type__int) by (repeat split).
  split; [split; assumption|].
  exact (usual_arithmetic_conversion_integers _ _ H1 H2).
Defined.

(** *** Type equality *)

Section TypeEqual.

(** [a->next == b->next], the comparison of two pointers: [same] stands
    for it.  Two tags are the same type when they point to the same
    object; values do not tell two objects of equal content apart. *)
Context (same : typetree → typetree → bool).

(** [strcmp(x, y) != 0]; a null name is undefined. *)
Definition names_differ (x y : option string) : option bool :=
  x ← x; y ← y; Some (negb (String.eqb x y)).

(** [type_equal(a, b)] for [a] and [b] that are not null.  The two calls
    on pointers that may be null, [a->next] and [b->next], are
    [equal_next]; the loop over the members is [over_members], entered
    when both lists have the same length.  [unwrapped(a)] is written out
    through [t_next] so that the recursion is visibly structural;
    [type_equal_unfold] states the usual form. *)
Fixpoint type_equal (a b : typetree) {struct a} : option bool :=
  let b' := unwrapped b in
  let body (kind : type_kind) (size : Z) (next : option typetree)
      (ml : option member_list) : option bool :=
    let ms := match ml with Some l => member l | None => [] end in
    let equal_next :=
      match next, t_next b' with
      | None, None => Some true
      | Some x, Some y => type_equal x y
      | _, _ => Some false
      end in
    let fix over_members (ms ns : list member_t) : option bool :=
      match ms, ns with
      | m :: ms, n :: ns =>
          match type_equal (m_type m) (m_type n) with
          | Some true =>
              d ← (if type_kind_eqb kind T_STRUCT || type_kind_eqb kind T_UNION
                   then names_differ (m_name m) (m_name n) else Some false);
              if (d : bool) then Some false
              else
                guard (m_offset m = m_offset n);;
                over_members ms ns
          | Some false => Some false
          | None => None
          end
      | _, _ => Some true
      end in
    if type_kind_eqb kind (t_type b') && (size =? t_size b') &&
       (Z.of_nat (length ms) =? nmembers b') &&
       Bool.eqb (type_kind_eqb kind T_UNSIGNED)
                (type_kind_eqb (t_type b') T_UNSIGNED)
    then
      match equal_next with
      | Some true =>
          match ml with
          | Some l => over_members (member l) (members b')
          | None => Some true
          end
      | Some false => Some false
      | None => None
      end
    else Some false in
  match t_next a with
  | Some n =>
      if is_tagged a then
        if is_tagged b then y ← t_next b; Some (same n y)
        else body (t_type n) (t_size n) (t_next n) (t_member_list n)
      else body (t_type a) (t_size a) (t_next a) (t_member_list a)
  | None => body (t_type a) (t_size a) (t_next a) (t_member_list a)
  end.

(** [type_equal] on pointers that may be null. *)
Definition type_equal_ptr (a b : option typetree) : option bool :=
  match a, b with
  | None, None => Some true
  | Some a, Some b => type_equal a b
  | _, _ => Some false
  end.

(** The member loop of [type_equal] as a function of its own. *)
Fixpoint members_equal (su : bool) (ms ns : list member_t) : option bool :=
  match ms, ns with
  | m :: ms, n :: ns =>
      match type_equal (m_type m) (m_type n) with
      | Some true =>
          d ← (if su then names_differ (m_name m) (m_name n) else Some false);
          if (d : bool) then Some false
          else
            guard (m_offset m = m_offset n);;
            members_equal su ms ns
      | Some false => Some false
      | None => None
      end
  | _, _ => Some true
  end.

Definition is_compatible (l r : typetree) : option bool := type_equal l r.

End TypeEqual.

Lemma type_equal_unfold same a b :
  type_equal same a b =
  if is_tagged a && is_tagged b then
    x ← t_next a; y ← t_next b; Some (same x y)
  else
    let a := unwrapped a in
    let b := unwrapped b in
    if type_kind_eqb (t_type a) (t_type b) && (t_size a =? t_size b) &&
       (nmembers a =? nmembers b) &&
       Bool.eqb (is_unsigned a) (is_unsigned b)
    then
      match type_equal_ptr same (t_next a) (t_next b) with
      | Some true =>
          members_equal same (is_struct_or_union a) (members a) (members b)
      | Some false => Some false
      | None => None
      end
    else Some false.
Proof.
  assert (Hloop : ∀ k ms ns,
    (fix over_members (ms ns : list member_t) : option bool :=
      match ms, ns with
      | m :: ms, n :: ns =>
          match type_equal same (m_type m) (m_type n) with
          | Some true =>
              d ← (if type_kind_eqb k T_STRUCT || type_kind_eqb k T_UNION
                   then names_differ (m_name m) (m_name n) else Some false);
              if (d : bool) then Some false
              else
                guard (m_offset m = m_offset n);;
                over_members ms ns
          | Some false => Some false
          | None => None
          end
      | _, _ => Some true
      end) ms ns =
    members_equal same (type_kind_eqb k T_STRUCT || type_kind_eqb k T_UNION)
      ms ns).
  { intros k. induction ms as [|m ms IH]; intros [|n ns]; try reflexivity.
    cbn. destruct (type_equal same (m_type m) (m_type n)) as [[]|];
      try reflexivity.
    destruct (if type_kind_eqb k T_STRUCT || type_kind_eqb k T_UNION
              then names_differ (m_name m) (m_name n) else Some false)
      as [[]|]; try reflexivity.
    cbn. destruct (guard (m_offset m = m_offset n)); [|reflexivity].
    cbn. apply IH. }
  assert (Hfin : ∀ x : typetree,
    (if type_kind_eqb (t_type x) (t_type (unwrapped b)) &&
        (t_size x =? t_size (unwrapped b)) &&
        (Z.of_nat (length match t_member_list x with
                          | Some l => member l | None => [] end) =?
         nmembers (unwrapped b)) &&
        Bool.eqb (type_kind_eqb (t_type x) T_UNSIGNED)
                 (type_kind_eqb (t_type (unwrapped b)) T_UNSIGNED)
     then
       match
         match t_next x, t_next (unwrapped b) with
         | None, None => Some true
         | Some x, Some y => type_equal same x y
         | _, _ => Some false
         end
       with
       | Some true =>
           match t_member_list x with
           | Some l =>
               members_equal same
                 (type_kind_eqb (t_type x) T_STRUCT ||
                  type_kind_eqb (t_type x) T_UNION)
                 (member l) (members (unwrapped b))
           | None => Some true
           end
       | Some false => Some false
       | None => None
       end
     else Some false) =
    (if type_kind_eqb (t_type x) (t_type (unwrapped b)) &&
        (t_size x =? t_size (unwrapped b)) &&
        (nmembers x =? nmembers (unwrapped b)) &&
        Bool.eqb (is_unsigned x) (is_unsigned (unwrapped b))
     then
       match type_equal_ptr same (t_next x) (t_next (unwrapped b)) with
       | Some true =>
           members_equal same (is_struct_or_union x) (members x)
             (members (unwrapped b))
       | Some false => Some false
       | None => None
       end
     else Some false)).
  { intros x. unfold nmembers, members, is_unsigned, is_struct_or_union,
      is_struct, is_union, type_equal_ptr.
    destruct (t_member_list x); reflexivity. }
  destruct a as [k sz q ml tg [[k' sz' q' ml' tg' nx']|]].
  - set (n := Typetree k' sz' q' ml' tg' nx').
    set (a := Typetree k sz q ml tg (Some n)).
    destruct (is_tagged a) eqn:Ht.
    + assert (Hun : unwrapped a = n) by (unfold unwrapped; now rewrite Ht).
      destruct (is_tagged b) eqn:Hb.
      * unfold a, n. cbn [type_equal t_next]. fold n. fold a.
        rewrite Ht, Hb. reflexivity.
      * cbn [andb]. cbv zeta. rewrite Hun, <- (Hfin n).
        unfold a, n. cbn [type_equal t_next]. fold n. fold a.
        rewrite Ht, Hb. unfold n. cbn [t_member_list t_type t_size t_next].
        destruct ml' as [l|]; [rewrite Hloop|]; reflexivity.
    + assert (Hun : unwrapped a = a) by (unfold unwrapped; now rewrite Ht).
      cbn [andb]. cbv zeta. rewrite Hun, <- (Hfin a).
      unfold a at 1, n. cbn [type_equal t_next]. fold n. fold a.
      rewrite Ht. unfold a. cbn [t_member_list t_type t_size t_next].
      destruct ml as [l|]; [rewrite Hloop|]; reflexivity.
  - set (a := Typetree k sz q ml tg None).
    rewrite (is_tagged_no_next a) by reflexivity. cbn [andb]. cbv zeta.
    rewrite (unwrapped_no_next a), <- (Hfin a) by reflexivity.
    unfold a. cbn [type_equal t_member_list t_type t_size t_next].
    destruct ml as [l|]; [rewrite Hloop|]; reflexivity.
Qed.

End Types.

(** ** Registers *)

(** Modelled from the spec: [enum reg] of the header
    [backend/x86_64/instructions.h], which is not among the sources.  The
    enumerators are the integers the spec fixes: [(r - 1) % 8] is the
    three-bit encoding, [r > DI] holds of R8..R15 (and of XMM0..XMM7). *)
Module Reg.

Definition reg : Type := Z.

Definition AX : reg := 1.
Definition CX : reg := 2.
Definition DX : reg := 3.
Definition BX : reg := 4.
Definition SP : reg := 5.
Definition BP : reg := 6.
Definition SI : reg := 7.
Definition DI : reg := 8.
Definition R8 : reg := 9.
Definition R9 : reg := 10.
Definition R10 : reg := 11.
Definition R11 : reg := 12.
Definition R12 : reg := 13.
Definition R13 : reg := 14.
Definition R14 : reg := 15.
Definition R15 : reg := 16.
Definition XMM0 : reg := 17.
Definition XMM1 : reg := 18.
Definition XMM2 : reg := 19.
Definition XMM3 : reg := 20.
Definition XMM4 : reg := 21.
Definition XMM5 : reg := 22.
Definition XMM6 : reg := 23.
Definition XMM7 : reg := 24.

End Reg.

(** ** backend/x86_64/abi.c *)

Module Abi.
Import Types Reg.

Definition param_int_reg : list reg := [DI; SI; DX; CX; R8; R9].
Definition ret_int_reg : list reg := [AX; DX].

(** Modelled from the spec: [enum param_class] and [N_EIGHTBYTES] of the
    header [abi.h].  [PC_NO_CLASS] is the zero that [calloc] and [memset]
    write; [N_EIGHTBYTES(t)] is the number of eightbytes that hold
    [size_of(t)] bytes. *)
Inductive param_class : Type :=
| PC_NO_CLASS | PC_INTEGER | PC_SSE | PC_SSEUP | PC_MEMORY.

#[export] Instance param_class_eq_dec : EqDecision param_class.
Proof. solve_decision. Defined.

Definition N_EIGHTBYTES (t : typetree) : Z := Z.quot (size_of t + 7) 8.

(** The loop of [has_unaligned_fields] over the members from index [i]. *)
Fixpoint unaligned_from (ms : list member_t) : option bool :=
  match ms with
  | [] => Some false
  | member :: rest =>
      guard (size_of (m_type member) ≠ 0);;
      if negb (Z.rem (m_offset member) (size_of (m_type member)) =? 0)
      then Some true
      else unaligned_from rest
  end.

Definition has_unaligned_fields (t : typetree) : option bool :=
  if is_struct_or_union t then unaligned_from (members (unwrapped t))
  else Some false.

Definition combine (a b : param_class) : param_class :=
  if bool_decide (a = b) then a
  else if bool_decide (a = PC_NO_CLASS) then b
  else if bool_decide (b = PC_NO_CLASS) then a
  else if bool_decide (a = PC_MEMORY) || bool_decide (b = PC_MEMORY) then PC_MEMORY
  else if bool_decide (a = PC_INTEGER) || bool_decide (b = PC_INTEGER) then PC_INTEGER
  else PC_SSE.

(** [l[i] = combine(l[i], c)]; an index outside the array is undefined
    behaviour. *)
Definition combine_at (l : list param_class) (i : Z) (c : param_class)
  : option (list param_class) :=
  guard (0 ≤ i);;
  x ← l !! Z.to_nat i;
  Some (<[Z.to_nat i := combine x c]> l).

(** [flatten(l, t, offset)] returns the array [l] after the traversal.  The
    member loop is [over_members], the array loop is [over_elements] (the
    elements [i], [i+1], ... below [count]; [k] bounds the iterations). *)
Fixpoint flatten (t : typetree) (offset : Z) (l : list param_class)
  : option (list param_class) :=
  match t_type t with
  | T_REAL | T_UNSIGNED | T_SIGNED | T_POINTER =>
      combine_at l (Z.quot offset 8)
        (if type_kind_eqb (t_type t) T_REAL then PC_SSE else PC_INTEGER)
  | T_STRUCT | T_UNION =>
      let fix over_members (ms : list member_t) (l : list param_class) :=
        match ms with
        | [] => Some l
        | member :: rest =>
            match flatten (m_type member) (m_offset member + offset) l with
            | Some l => over_members rest l
            | None => None
            end
        end in
      let of_list (ml : option member_list) :=
        match ml with
        | Some ml => over_members (member ml) l
        | None => Some l
        end in
      match t_next t with
      | Some n => if is_tagged t then of_list (t_member_list n)
                  else of_list (t_member_list t)
      | None => of_list (t_member_list t)
      end
  | T_ARRAY =>
      match t_next t with
      | Some n =>
          let fix over_elements (k : nat) (i : Z) (l : list param_class) :=
            match k with
            | O => Some l
            | S k =>
                match flatten n (i * size_of n + offset) l with
                | Some l => over_elements k (i + 1) l
                | None => None
                end
            end in
          if size_of n =? 0 then None
          else over_elements (Z.to_nat (Z.quot (t_size t) (size_of n))) 0 l
      | None => None
      end
  | _ => None
  end.

(** The two loops of [flatten] as functions of their own. *)
Definition flatten_members (offset : Z)
  : list member_t → list param_class → option (list param_class) :=
  fix over_members (ms : list member_t) (l : list param_class) :=
    match ms with
    | [] => Some l
    | member :: rest =>
        match flatten (m_type member) (m_offset member + offset) l with
        | Some l => over_members rest l
        | None => None
        end
    end.

Definition flatten_elements (n : typetree) (offset : Z)
  : nat → Z → list param_class → option (list param_class) :=
  fix over_elements (k : nat) (i : Z) (l : list param_class) :=
    match k with
    | O => Some l
    | S k =>
        match flatten n (i * size_of n + offset) l with
        | Some l => over_elements k (i + 1) l
        | None => None
        end
    end.

(** The scanning loop of [merge]: [Some has_sseup] when it runs to the
    end, [None] when it returns 1 at a [PC_MEMORY]. *)
Fixpoint merge_scan (l : list param_class) (has_sseup : bool) : option bool :=
  match l with
  | [] => Some has_sseup
  | c :: rest =>
      if bool_decide (c = PC_MEMORY) then None
      else if bool_decide (c = PC_SSEUP) then merge_scan rest true
      else merge_scan rest has_sseup
  end.

Definition merge (l : list param_class) (n : Z) : bool :=
  match merge_scan (take (Z.to_nat n) l) false with
  | None => true
  | Some has_sseup =>
      (n >? 2) && (negb (bool_decide (l !! 0%nat = Some PC_SSE)) || negb has_sseup)
  end.

(** [classify] returns the array it allocates, as a list of its slots. *)
Definition classify (t : typetree) : option (list param_class) :=
  guard (is_function t = false);;
  guard (is_void t = false);;
  if is_integer t || is_pointer t then Some [PC_INTEGER]
  else
    big_or_unaligned ←
      (if N_EIGHTBYTES t >? 4 then Some true else has_unaligned_fields t);
    if (big_or_unaligned : bool) then Some [PC_MEMORY]
    else if is_struct_or_union t then
      let n := N_EIGHTBYTES t in
      eb ← flatten t 0 (replicate (Z.to_nat n) PC_NO_CLASS);
      if merge eb n then Some [PC_MEMORY] else Some eb
    else Some [PC_MEMORY].

(** The placement loop of [classify_call].  [next_integer_reg] is the loop
    variable of the source.  Besides what the source keeps, the model
    records for every argument the indices into [param_int_reg] that the
    loop hands to it: [next_integer_reg, ..., next_integer_reg + chunks - 1]
    for an argument that stays in registers, none for one in memory. *)
Fixpoint place_args (args : list typetree) (params : list (list param_class))
    (next_integer_reg : Z)
  : option (list (list param_class) * list (list Z)) :=
  match args, params with
  | [], [] => Some ([], [])
  | arg :: args, p :: params =>
      c ← head p;
      if negb (bool_decide (c = PC_MEMORY)) then
        let chunks := N_EIGHTBYTES arg in
        if next_integer_reg + chunks <=? 6 then
          '(ps, rs) ← place_args args params (next_integer_reg + chunks);
          Some (p :: ps,
                seqZ next_integer_reg chunks :: rs)
        else
          '(ps, rs) ← place_args args params next_integer_reg;
          Some (<[0%nat := PC_MEMORY]> p :: ps, [] :: rs)
      else
        '(ps, rs) ← place_args args params next_integer_reg;
        Some (p :: ps, [] :: rs)
  | _, _ => None
  end.

(** What a call of [classify_call] leaves: the array it returns, the
    classes written through [res], and (not part of what the source
    returns) the registers [param_int_reg[k]] for the counter values [k]
    that the placement loop gives to each argument. *)
Record call_classes : Type := CallClasses {
  params : list (list param_class);
  res : list param_class;
  int_regs : list (list reg) }.

Definition classify_call (args : list typetree) (ret : typetree)
  : option call_classes :=
  params ← mapM classify args;
  '(res, next_integer_reg) ←
    (if negb (is_void ret) then
       res ← classify ret;
       c ← head res;
       Some (res, if bool_decide (c = PC_MEMORY) then 1 else 0)
     else Some ([PC_NO_CLASS], 0));
  '(params, slots) ← place_args args params next_integer_reg;
  regs ← mapM (mapM (λ i : Z, param_int_reg !! Z.to_nat i)) slots;
  Some (CallClasses params res regs).

Definition classify_signature (func : typetree) : option call_classes :=
  guard (is_function func = true);;
  ret ← t_next func;
  classify_call (m_type <$> members func) ret.

(** [sym_alignment] reads only the type of the symbol. *)
Definition sym_alignment (sym_type : typetree) : option Z :=
  align ← type_alignment sym_type;
  Some (if is_array sym_type && (align <? 16) then 16 else align).

(** *** Scenarios *)

Definition field (n : string) (ty : typetree) : option string * typetree :=
  (Some n, ty).

(** [struct { double x; double y; }] *)
Definition struct_dd : option typetree :=
  struct_of [field "x" basic_type__double; field "y" basic_type__double].

(** [struct { long a; long b; long c; }] *)
Definition struct_lll : option typetree :=
  struct_of [field "a" basic_type__long; field "b" basic_type__long;
             field "c" basic_type__long].

(** [struct { int a; int b; int c; }] *)
Definition struct_iii : option typetree :=
  struct_of [field "a" basic_type__int; field "b" basic_type__int;
             field "c" basic_type__int].

(** The type of [void f(int, struct { long a; long b; long c; }, int)], as
    [parameter_list] builds it: a function node whose [next] is the return
    type, with one [type_add_member] per parameter. *)
Definition func_int_lll_int : option typetree :=
  s ← struct_lll;
  f ← type_init T_FUNCTION None 0;
  let f := Typetree (t_type f) (t_size f) (t_qualifier f) (t_member_list f)
             (t_tag_name f) (Some basic_type__void) in
  add_members f [(None, basic_type__int); (None, s); (None, basic_type__int)].

(** [char a[4]] *)
Definition array_char_4 : option typetree :=
  type_init T_ARRAY (Some basic_type__char) 4.

(** *** Facts about [flatten] and [classify] *)

(** Nesting depth of a type, the measure for induction over type trees. *)
Fixpoint height (t : typetree) : nat :=
  S (Nat.max
       (match t_next t with Some n => height n | None => 0 end)
       (match t_member_list t with
        | Some ml =>
            (fix over (ms : list member_t) : nat :=
               match ms with
               | [] => 0
               | m :: ms => Nat.max (height (m_type m)) (over ms)
               end) (member ml)
        | None => 0
        end))%nat.

Lemma height_next t n : t_next t = Some n → (height n < height t)%nat.
Proof. destruct t; cbn. intros ->. lia. Qed.

Lemma height_member t m : m ∈ members t → (height (m_type m) < height t)%nat.
Proof.
  destruct t as [k sz q [[va ms]|] tg nx]; unfold members; cbn;
    [|intros H; inversion H].
  intros Hin. apply Nat.lt_succ_r. etransitivity; [|apply Nat.le_max_r].
  induction Hin; cbn; lia.
Qed.

Lemma height_unwrapped_member t m :
  m ∈ members (unwrapped t) → (height (m_type m) < height t)%nat.
Proof.
  unfold unwrapped. destruct (is_tagged t); [|apply height_member].
  destruct (t_next t) as [n|] eqn:E; [|apply height_member].
  intros H. apply height_member in H. apply height_next in E. lia.
Qed.

Lemma flatten_unfold t offset l :
  flatten t offset l =
  match t_type t with
  | T_REAL | T_UNSIGNED | T_SIGNED | T_POINTER =>
      combine_at l (Z.quot offset 8)
        (if type_kind_eqb (t_type t) T_REAL then PC_SSE else PC_INTEGER)
  | T_STRUCT | T_UNION => flatten_members offset (members (unwrapped t)) l
  | T_ARRAY =>
      n ← t_next t;
      if size_of n =? 0 then None
      else flatten_elements n offset
             (Z.to_nat (Z.quot (t_size t) (size_of n))) 0 l
  | _ => None
  end.
Proof.
  destruct t as [k sz q ml tg nx].
  destruct k; try reflexivity;
    unfold unwrapped, is_tagged, is_struct_or_union, is_struct, is_union, members;
    cbn; destruct nx as [[? ? ? [[]|] ? ?]|], ml as [[]|]; reflexivity.
Qed.

Lemma combine_at_length l i c l' :
  combine_at l i c = Some l' → length l' = length l.
Proof.
  unfold combine_at. intros H.
  destruct (guard (0 ≤ i)); [|discriminate]. cbn in H.
  destruct (l !! Z.to_nat i); [|discriminate]. cbn in H.
  injection H as <-. apply length_insert.
Qed.

Lemma flatten_length t :
  ∀ offset l l', flatten t offset l = Some l' → length l' = length l.
Proof.
  remember (height t) as h eqn:Hh. revert t Hh.
  induction h as [h IH] using lt_wf_ind. intros t -> offset l l'.
  rewrite flatten_unfold.
  assert (Hmem : ∀ ms, (∀ m, m ∈ ms → (height (m_type m) < height t)%nat) →
            ∀ l l', flatten_members offset ms l = Some l' → length l' = length l).
  { induction ms as [|m ms IHms]; intros Hms l0 l0'; cbn.
    - now intros [= <-].
    - destruct (flatten (m_type m) (m_offset m + offset) l0) as [l1|] eqn:E;
        [|discriminate].
      intros H. apply IHms in H; [|intros; apply Hms; now right].
      rewrite H. eapply IH; [apply Hms; now left|reflexivity|exact E]. }
  assert (Harr : ∀ n, (height n < height t)%nat →
            ∀ k i l l', flatten_elements n offset k i l = Some l' →
                        length l' = length l).
  { intros n Hn. induction k as [|k IHk]; intros i l0 l0'; cbn.
    - now intros [= <-].
    - destruct (flatten n (i * size_of n + offset) l0) as [l1|] eqn:E;
        [|discriminate].
      intros H. apply IHk in H. rewrite H.
      eapply IH; [exact Hn|reflexivity|exact E]. }
  destruct (t_type t) eqn:Hk; try discriminate;
    try (apply combine_at_length).
  - destruct (t_next t) as [n|] eqn:En; [|discriminate]. cbn.
    destruct (size_of n =? 0); [discriminate|].
    apply Harr. now apply height_next.
  - apply Hmem. intros m. apply height_unwrapped_member.
  - apply Hmem. intros m. apply height_unwrapped_member.
Qed.

(** The sizes that [type_init] gives to scalars: 1, 2, 4 or 8 bytes for an
    integer, 8 for a pointer. *)
Definition scalar_size_ok (t : typetree) : Prop :=
  (is_integer t = true → t_size t ∈ [1; 2; 4; 8]) ∧
  (is_pointer t = true → t_size t = 8).

Lemma scalar_not_tagged t :
  is_integer t || is_pointer t = true → size_of t = t_size t.
Proof.
  unfold size_of, is_tagged, is_struct_or_union, is_struct, is_union,
    is_integer, is_pointer.
  destruct (t_type t); cbn; try discriminate; reflexivity.
Qed.

Lemma scalar_one_eightbyte t :
  scalar_size_ok t → is_integer t || is_pointer t = true →
  N_EIGHTBYTES t = 1 ∧ 0 < size_of t ≤ 8.
Proof.
  intros [Hi Hp] Hs. unfold N_EIGHTBYTES. rewrite (scalar_not_tagged t Hs).
  apply orb_true_iff in Hs as [H|H].
  - specialize (Hi H).
    repeat (apply elem_of_cons in Hi as [-> | Hi]; [split; [reflexivity|lia]|]).
    inversion Hi.
  - rewrite (Hp H). split; [reflexivity|lia].
Qed.

Lemma classify_slots t l c :
  scalar_size_ok t →
  classify t = Some l → head l = Some c → c ≠ PC_MEMORY →
  Z.of_nat (length l) = N_EIGHTBYTES t ∧
  8 * (N_EIGHTBYTES t - 1) < size_of t ≤ 8 * N_EIGHTBYTES t.
Proof.
  intros Hok Hcl Hhd Hc. unfold classify in Hcl.
  destruct (guard (is_function t = false)); [|discriminate]. cbn in Hcl.
  destruct (guard (is_void t = false)); [|discriminate]. cbn in Hcl.
  destruct (is_integer t || is_pointer t) eqn:Hs.
  - injection Hcl as <-.
    destruct (scalar_one_eightbyte t Hok Hs) as [-> ?]. cbn. lia.
  - assert (Hmem : ∀ x : option (list param_class),
              x = Some l → x ≠ Some [PC_MEMORY])
      by (intros x -> [= ->]; cbn in Hhd; congruence).
    destruct (if N_EIGHTBYTES t >? 4 then Some true else has_unaligned_fields t)
      as [[]|]; cbn in Hcl; try discriminate;
      [now apply Hmem in Hcl|].
    destruct (is_struct_or_union t); [|now apply Hmem in Hcl].
    destruct (flatten t 0 (replicate (Z.to_nat (N_EIGHTBYTES t)) PC_NO_CLASS))
      as [eb|] eqn:Ef; cbn in Hcl; [|discriminate].
    destruct (merge eb (N_EIGHTBYTES t)); [now apply Hmem in Hcl|].
    injection Hcl as ->. apply flatten_length in Ef.
    rewrite length_replicate in Ef.
    assert (0 < length l)%nat by (destruct l; [discriminate|cbn; lia]).
    assert (HN : 1 ≤ N_EIGHTBYTES t) by lia.
    split; [lia|]. unfold N_EIGHTBYTES in *.
    pose proof (Z.quot_rem' (size_of t + 7) 8) as Hq.
    assert (0 ≤ size_of t + 7).
    { destruct (Z_lt_le_dec (size_of t + 7) 0) as [Hneg|]; [|assumption].
      pose proof (Z.quot_opp_l (size_of t + 7) 8 ltac:(lia)).
      pose proof (Z.quot_pos (- (size_of t + 7)) 8 ltac:(lia) ltac:(lia)). lia. }
    pose proof (Z.rem_bound_pos (size_of t + 7) 8 ltac:(lia) ltac:(lia)). lia.
Qed.

(** *** Claims on the classifier *)

Lemma func_int_lll_int_classes :
  (func_int_lll_int ≫= classify_signature) =
  Some (CallClasses [[PC_INTEGER]; [PC_MEMORY]; [PC_INTEGER]]
                    [PC_NO_CLASS]
                    [[8]; []; [7]]).
Proof. vm_compute. reflexivity. Qed.

(** C1 (as amended).  For [void f(int, struct { long a; long b; long c; },
    int)] the struct argument is classified [PC_MEMORY] and takes no
    integer register, and the two [int] arguments take the first two
    integer registers in left-to-right order: [DI] and [SI]. *)
Theorem classify_call_int_struct_int :
  (func_int_lll_int ≫= classify_signature) =
  Some (CallClasses [[PC_INTEGER]; [PC_MEMORY]; [PC_INTEGER]]
                    [PC_NO_CLASS]
                    [[DI]; []; [SI]]).
Proof. vm_compute. reflexivity. Qed.

(** C1 as stated fails: the second [int] is not given [DX]. *)
Lemma classify_call_second_int_not_DX :
  ¬ ∃ c, (func_int_lll_int ≫= classify_signature) = Some c ∧
         params c = [[PC_INTEGER]; [PC_MEMORY]; [PC_INTEGER]] ∧
         int_regs c = [[DI]; []; [DX]].
Proof.
  intros (c & Hc & _ & Hregs).
  rewrite func_int_lll_int_classes in Hc. injection Hc as <-.
  discriminate Hregs.
Qed.

(** C2.  [sym_alignment] on the array [char a[4]], of 4 bytes: the type
    has alignment 1 and the symbol is given alignment 16. *)
Theorem sym_alignment_array_char_4 :
  (size_of <$> array_char_4) = Some 4 ∧
  (array_char_4 ≫= type_alignment) = Some 1 ∧
  (array_char_4 ≫= sym_alignment) = Some 16.
Proof. repeat split; vm_compute; reflexivity. Qed.

(** C6.  [classify] gives [SSE, SSE] for [struct { double x; double y; }],
    [Memory] for [struct { long a; long b; long c; }] and
    [Integer, Integer] for [struct { int a; int b; int c; }]; and whenever
    the first class of a result is not [PC_MEMORY], the number of slots is
    [N_EIGHTBYTES(t)], the least number of eightbytes that hold
    [size_of(t)] bytes. *)
Theorem classify_scenarios :
  (struct_dd ≫= classify) = Some [PC_SSE; PC_SSE] ∧
  (struct_lll ≫= classify) = Some [PC_MEMORY] ∧
  (struct_iii ≫= classify) = Some [PC_INTEGER; PC_INTEGER] ∧
  ∀ t l c,
    scalar_size_ok t →
    classify t = Some l → head l = Some c → c ≠ PC_MEMORY →
    Z.of_nat (length l) = N_EIGHTBYTES t ∧
    8 * (N_EIGHTBYTES t - 1) < size_of t ≤ 8 * N_EIGHTBYTES t.
Proof.
  split; [vm_compute; reflexivity|].
  split; [vm_compute; reflexivity|].
  split; [vm_compute; reflexivity|].
  exact classify_slots.
Qed.

Lemma classify_scenarios_witness :
  ∃ t, struct_iii = Some t ∧
       (scalar_size_ok t ∧
        classify t = Some [PC_INTEGER; PC_INTEGER] ∧
        head [PC_INTEGER; PC_INTEGER] = Some PC_INTEGER ∧
        PC_INTEGER ≠ PC_MEMORY) ∧
       (Z.of_nat (length [PC_INTEGER; PC_INTEGER]) = N_EIGHTBYTES t ∧
        8 * (N_EIGHTBYTES t - 1) < size_of t ≤ 8 * N_EIGHTBYTES t).
Proof.
  eexists. split; [vm_compute; reflexivity|].
  assert (Hok : ∀ t, is_integer t = false → is_pointer t = false →
                     scalar_size_ok t)
    by (intros t Hi Hp; split; congruence).
  split.
  - split; [apply Hok; reflexivity|].
    split; [vm_compute; reflexivity|]. split; [reflexivity|discriminate].
  - apply (proj2 (proj2 (proj2 classify_scenarios)) _ _ PC_INTEGER).
    + apply Hok; reflexivity.
    + vm_compute; reflexivity.
    + reflexivity.
    + discriminate.
Defined.


(** *** More on [combine], [classify] and [classify_call] *)

(** X10.  [combine] is commutative, associative and idempotent;
    [PC_NO_CLASS] is neutral and [PC_MEMORY] absorbs; and [combine] makes
    no [PC_SSEUP] out of other classes.  The class of an eightbyte does
    not depend on the order in which [flatten] meets the members. *)
Theorem combine_semilattice (a b c : param_class) :
  combine a b = combine b a ∧
  combine a (combine b c) = combine (combine a b) c ∧
  combine a a = a ∧
  combine PC_NO_CLASS a = a ∧
  combine PC_MEMORY a = PC_MEMORY ∧
  (a ≠ PC_SSEUP → b ≠ PC_SSEUP → combine a b ≠ PC_SSEUP).
Proof.
  destruct a, b, c; repeat split; try reflexivity;
    compute; intros; congruence.
Qed.

(** The classes that [flatten] writes. *)
Definition flat_class (c : param_class) : Prop :=
  c = PC_NO_CLASS ∨ c = PC_INTEGER ∨ c = PC_SSE.

Lemma combine_flat a b : flat_class a → flat_class b → flat_class (combine a b).
Proof.
  intros [->|[->| ->]] [->|[->| ->]]; compute; auto.
Qed.

Lemma combine_at_flat l i c l' :
  combine_at l i c = Some l' → flat_class c →
  Forall flat_class l → Forall flat_class l'.
Proof.
  unfold combine_at. intros H Hc Hl.
  destruct (guard (0 ≤ i)); [|discriminate]. cbn in H.
  destruct (l !! Z.to_nat i) as [x|] eqn:Ex; [|discriminate]. cbn in H.
  injection H as <-. apply Forall_insert; [exact Hl|].
  apply combine_flat; [|exact Hc].
  rewrite Forall_forall in Hl. apply Hl. apply list_elem_of_lookup. eauto.
Qed.

Lemma flatten_flat t :
  ∀ offset l l', flatten t offset l = Some l' →
                 Forall flat_class l → Forall flat_class l'.
Proof.
  remember (height t) as h eqn:Hh. revert t Hh.
  induction h as [h IH] using lt_wf_ind. intros t -> offset l l'.
  rewrite flatten_unfold.
  assert (Hmem : ∀ ms, (∀ m, m ∈ ms → (height (m_type m) < height t)%nat) →
            ∀ l l', flatten_members offset ms l = Some l' →
                    Forall flat_class l → Forall flat_class l').
  { induction ms as [|m ms IHms]; intros Hms l0 l0'; cbn.
    - now intros [= <-].
    - destruct (flatten (m_type m) (m_offset m + offset) l0) as [l1|] eqn:E;
        [|discriminate].
      intros H Hl0. apply IHms in H; [exact H|intros; apply Hms; now right|].
      eapply IH; [apply Hms; now left|reflexivity|exact E|exact Hl0]. }
  assert (Harr : ∀ n, (height n < height t)%nat →
            ∀ k i l l', flatten_elements n offset k i l = Some l' →
                        Forall flat_class l → Forall flat_class l').
  { intros n Hn. induction k as [|k IHk]; intros i l0 l0'; cbn.
    - now intros [= <-].
    - destruct (flatten n (i * size_of n + offset) l0) as [l1|] eqn:E;
        [|discriminate].
      intros H Hl0. apply IHk in H; [exact H|].
      eapply IH; [exact Hn|reflexivity|exact E|exact Hl0]. }
  destruct (t_type t) eqn:Hk; try discriminate;
    try (intros H; apply (combine_at_flat _ _ _ _ H); cbn;
         unfold flat_class; auto).
  - destruct (t_next t) as [n|] eqn:En; [|discriminate]. cbn.
    destruct (size_of n =? 0); [discriminate|].
    apply Harr. now apply height_next.
  - apply Hmem. intros m. apply height_unwrapped_member.
  - apply Hmem. intros m. apply height_unwrapped_member.
Qed.

Lemma merge_scan_flat l b :
  Forall flat_class l → merge_scan l b = Some b.
Proof.
  induction 1 as [|c l Hc Hl IH]; [reflexivity|]. cbn.
  destruct Hc as [->|[->| ->]]; cbn; exact IH.
Qed.

(** X11.  What [classify] returns: [PC_MEMORY] alone; or [PC_INTEGER]
    alone, for an integer or a pointer; or, for a struct or union of at
    most 16 bytes, at most two classes, each of them [PC_NO_CLASS],
    [PC_INTEGER] or [PC_SSE].  Floating point scalars, arrays and
    aggregates above 16 bytes are always [PC_MEMORY], and [PC_SSEUP] is
    never returned. *)
Theorem classify_shape (t : typetree) (l : list param_class) :
  classify t = Some l →
  l = [PC_MEMORY] ∨
  (is_integer t || is_pointer t = true ∧ l = [PC_INTEGER]) ∨
  (is_struct_or_union t = true ∧ size_of t ≤ 16 ∧ (length l ≤ 2)%nat ∧
   Forall flat_class l).
Proof.
  unfold classify. intros Hcl.
  destruct (guard (is_function t = false)); [|discriminate]. cbn in Hcl.
  destruct (guard (is_void t = false)); [|discriminate]. cbn in Hcl.
  destruct (is_integer t || is_pointer t) eqn:Hs.
  - injection Hcl as <-. right. left. split; reflexivity.
  - destruct (if N_EIGHTBYTES t >? 4 then Some true else has_unaligned_fields t)
      as [[]|]; cbn in Hcl; try discriminate; [left; congruence|].
    destruct (is_struct_or_union t) eqn:Hsu; [|left; congruence].
    destruct (flatten t 0 (replicate (Z.to_nat (N_EIGHTBYTES t)) PC_NO_CLASS))
      as [eb|] eqn:Ef; cbn in Hcl; [|discriminate].
    assert (Hflat : Forall flat_class eb).
    { apply (flatten_flat _ _ _ _ Ef). apply Forall_replicate. now left. }
    destruct (merge eb (N_EIGHTBYTES t)) eqn:Hm; [left; congruence|].
    injection Hcl as ->. right. right. split; [reflexivity|].
    unfold merge in Hm.
    rewrite merge_scan_flat in Hm by (now apply Forall_take).
    cbn [negb] in Hm. rewrite orb_true_r, andb_true_r in Hm.
    apply flatten_length in Ef. rewrite length_replicate in Ef.
    destruct (Z.gtb_spec (N_EIGHTBYTES t) 2) as [|H2]; [discriminate|].
    split; [|split; [lia|exact Hflat]].
    unfold N_EIGHTBYTES in H2.
    destruct (Z_lt_le_dec (size_of t + 7) 0) as [Hneg|Hpos]; [lia|].
    pose proof (Z.quot_rem' (size_of t + 7) 8).
    pose proof (Z.rem_bound_pos (size_of t + 7) 8 Hpos ltac:(lia)). lia.
Qed.

Lemma classify_shape_witness :
  classify basic_type__long = Some [PC_INTEGER] ∧
  ([PC_INTEGER] = [PC_MEMORY] ∨
   (is_integer basic_type__long || is_pointer basic_type__long = true ∧
    [PC_INTEGER] = [PC_INTEGER]) ∨
   (is_struct_or_union basic_type__long = true ∧
    size_of basic_type__long ≤ 16 ∧ (length [PC_INTEGER] ≤ 2)%nat ∧
    Forall flat_class [PC_INTEGER])).
Proof.
  split; [reflexivity|].
  exact (classify_shape basic_type__long [PC_INTEGER] eq_refl).
Defined.

(** *** The register budget of [classify_call] *)

(** The eightbytes of the arguments that are left in registers. *)
Fixpoint reg_use (args : list typetree) (ps : list (list param_class)) : Z :=
  match args, ps with
  | arg :: args, p :: ps =>
      (if bool_decide (head p = Some PC_MEMORY) then 0 else N_EIGHTBYTES arg)
      + reg_use args ps
  | _, _ => 0
  end.

Lemma N_EIGHTBYTES_nonneg t : 0 ≤ size_of t → 0 ≤ N_EIGHTBYTES t.
Proof. intros H. unfold N_EIGHTBYTES. apply Z.quot_pos; lia. Qed.

Lemma seqZ_app_next n k k' :
  0 ≤ k → 0 ≤ k' → seqZ n k ++ seqZ (n + k) k' = seqZ n (k + k').
Proof. intros. rewrite seqZ_app by lia. reflexivity. Qed.

Lemma place_args_budget args :
  ∀ params n ps rs,
    Forall (λ t, 0 ≤ size_of t) args →
    place_args args params n = Some (ps, rs) →
    0 ≤ reg_use args ps ∧
    (n ≤ 6 → n + reg_use args ps ≤ 6) ∧
    concat rs = seqZ n (reg_use args ps) ∧
    Forall2 (λ arg r, r = [] ∨ Z.of_nat (length r) = N_EIGHTBYTES arg) args rs ∧
    Forall2 (λ p p', p' = p ∨ p' = <[0%nat := PC_MEMORY]> p) params ps.
Proof.
  induction args as [|arg args IH]; intros [|p params] n ps rs Hsz;
    cbn [place_args]; try discriminate.
  - intros [= <- <-]. cbn. repeat split; try lia; constructor.
  - inversion Hsz as [|? ? Harg Hrest]; subst.
    pose proof (N_EIGHTBYTES_nonneg arg Harg) as Hn.
    destruct (head p) as [c|] eqn:Hc; [|discriminate]. cbn [mbind option_bind].
    destruct (bool_decide (c = PC_MEMORY)) eqn:Hmem; cbn [negb].
    + destruct (place_args args params n) as [[ps' rs']|] eqn:E; [|discriminate].
      cbn [mbind option_bind]. intros [= <- <-].
      destruct (IH _ _ _ _ Hrest E) as (H0 & H6 & Hcat & Hlen & Hps).
      apply bool_decide_eq_true in Hmem. subst c. cbn [reg_use].
      rewrite Hc, bool_decide_eq_true_2 by reflexivity.
      cbn [concat app]. repeat split; try lia; auto.
    + apply bool_decide_eq_false in Hmem.
      destruct (Z.leb_spec (n + N_EIGHTBYTES arg) 6) as [Hfit|Hover].
      * destruct (place_args args params (n + N_EIGHTBYTES arg))
          as [[ps' rs']|] eqn:E; [|discriminate].
        cbn [mbind option_bind]. intros [= <- <-].
        destruct (IH _ _ _ _ Hrest E) as (H0 & H6 & Hcat & Hlen & Hps).
        cbn [reg_use]. rewrite Hc, bool_decide_eq_false_2 by congruence.
        cbn [concat]. rewrite Hcat, seqZ_app_next by lia.
        repeat split; try lia; auto.
        constructor; [|exact Hlen]. right. rewrite length_seqZ. lia.
      * destruct (place_args args params n) as [[ps' rs']|] eqn:E; [|discriminate].
        cbn [mbind option_bind]. intros [= <- <-].
        destruct (IH _ _ _ _ Hrest E) as (H0 & H6 & Hcat & Hlen & Hps).
        cbn [reg_use].
        assert (Hhd : head (<[0%nat := PC_MEMORY]> p) = Some PC_MEMORY)
          by (destruct p; [discriminate|reflexivity]).
        rewrite Hhd, bool_decide_eq_true_2 by reflexivity.
        cbn [concat app]. repeat split; try lia; auto.
Qed.

Lemma mapM_lookup_seqZ (l : list reg) n k :
  0 ≤ n → 0 ≤ k → n + k ≤ Z.of_nat (length l) →
  mapM (λ i : Z, l !! Z.to_nat i) (seqZ n k) =
  Some (take (Z.to_nat k) (drop (Z.to_nat n) l)).
Proof.
  intros Hn Hk Hle. apply mapM_Some. apply Forall2_same_length_lookup.
  split.
  - rewrite length_seqZ, length_take, length_drop. lia.
  - intros i x y Hx Hy. apply lookup_seqZ in Hx as [-> Hi].
    rewrite lookup_take_Some in Hy. destruct Hy as [Hy _].
    rewrite lookup_drop in Hy. rewrite <- Hy. f_equal. lia.
Qed.

Lemma mapM_concat {A B} (f : A → option B) (ls : list (list A)) rs :
  mapM (mapM f) ls = Some rs → mapM f (concat ls) = Some (concat rs).
Proof.
  rewrite !mapM_Some. induction 1 as [|l r ls rs Hr _ IH]; cbn [concat].
  - constructor.
  - apply Forall2_app; [now apply mapM_Some|exact IH].
Qed.

(** The integer register that a return value in memory takes: the hidden
    first argument. *)
Definition hidden_pointer (c : call_classes) : Z :=
  if bool_decide (head (res c) = Some PC_MEMORY) then 1 else 0.

(** X12.  The register budget of [classify_call], for arguments whose
    sizes are not negative.  The eightbytes of the arguments that are
    left in registers, plus one when the return value is in memory, are
    at most six; the registers handed out are the next ones of
    [param_int_reg], in order, starting after the one of the hidden
    pointer; and an argument gets a register for each of its eightbytes
    or none at all. *)
Theorem classify_call_budget (args : list typetree) (ret : typetree)
    (c : call_classes) :
  Forall (λ t, 0 ≤ size_of t) args →
  classify_call args ret = Some c →
  length (params c) = length args ∧
  0 ≤ reg_use args (params c) ∧
  hidden_pointer c + reg_use args (params c) ≤ 6 ∧
  concat (int_regs c) =
    take (Z.to_nat (reg_use args (params c)))
         (drop (Z.to_nat (hidden_pointer c)) param_int_reg) ∧
  Forall2 (λ arg r, r = [] ∨ Z.of_nat (length r) = N_EIGHTBYTES arg)
          args (int_regs c).
Proof.
  intros Hsz. unfold classify_call.
  destruct (mapM classify args) as [ps0|] eqn:Hps0; [|discriminate].
  cbn [mbind option_bind].
  set (r := if negb (is_void ret)
            then res ← classify ret; c ← head res;
                 Some (res, if bool_decide (c = PC_MEMORY) then 1 else 0)
            else Some ([PC_NO_CLASS], 0)).
  destruct r as [[rs n]|] eqn:Hr; [|discriminate]. cbn [mbind option_bind].
  assert (Hn : n = if bool_decide (head rs = Some PC_MEMORY) then 1 else 0).
  { subst r. destruct (negb (is_void ret)).
    - destruct (classify ret) as [rs'|]; [|discriminate].
      cbn [mbind option_bind] in Hr.
      destruct (head rs') as [c0|] eqn:Hc0; [|discriminate].
      cbn [mbind option_bind] in Hr. injection Hr as <- <-. rewrite Hc0.
      destruct (decide (c0 = PC_MEMORY)) as [->|Hne].
      + now rewrite !bool_decide_eq_true_2.
      + rewrite !bool_decide_eq_false_2; congruence.
    - injection Hr as <- <-. reflexivity. }
  destruct (place_args args ps0 n) as [[ps slots]|] eqn:Hpl; [|discriminate].
  cbn [mbind option_bind].
  destruct (mapM (mapM (λ i : Z, param_int_reg !! Z.to_nat i)) slots)
    as [regs|] eqn:Hregs; [|discriminate].
  cbn [mbind option_bind]. intros [= <-]. unfold hidden_pointer.
  cbn [params res int_regs]. rewrite <- Hn.
  destruct (place_args_budget _ _ _ _ _ Hsz Hpl) as (H0 & H6 & Hcat & Hlen & Hps).
  assert (Hn01 : 0 ≤ n ≤ 1) by (rewrite Hn; case_bool_decide; lia).
  split.
  { apply Forall2_length in Hps. apply length_mapM in Hps0. lia. }
  split; [exact H0|]. split; [lia|]. split.
  - apply mapM_concat in Hregs. rewrite Hcat in Hregs.
    rewrite mapM_lookup_seqZ in Hregs by (cbn; lia). congruence.
  - apply mapM_Some in Hregs.
    assert (Hl : Forall2 (λ s r, length r = length s) slots regs).
    { eapply Forall2_impl; [exact Hregs|]. cbn. intros s rg Hsr.
      apply length_mapM in Hsr. lia. }
    clear -Hlen Hl. revert regs Hl.
    induction Hlen as [|arg s args slots Hs _ IH]; intros regs Hl;
      inversion Hl as [|? rg ? regs' Hr Hrest]; subst; constructor.
    + destruct Hs as [->|Hs]; [left; now destruct rg|right; lia].
    + now apply IH.
Qed.

Lemma classify_call_budget_witness :
  (Forall (λ t, 0 ≤ size_of t) [basic_type__int; basic_type__long] ∧
   classify_call [basic_type__int; basic_type__long] basic_type__void =
     Some (CallClasses [[PC_INTEGER]; [PC_INTEGER]] [PC_NO_CLASS]
                       [[DI]; [SI]])) ∧
  length [[PC_INTEGER]; [PC_INTEGER]] =
    length [basic_type__int; basic_type__long] ∧
  0 ≤ reg_use [basic_type__int; basic_type__long]
        [[PC_INTEGER]; [PC_INTEGER]] ∧
  hidden_pointer (CallClasses [[PC_INTEGER]; [PC_INTEGER]] [PC_NO_CLASS]
                              [[DI]; [SI]]) +
    reg_use [basic_type__int; basic_type__long]
      [[PC_INTEGER]; [PC_INTEGER]] ≤ 6 ∧
  concat [[DI]; [SI]] =
    take (Z.to_nat (reg_use [basic_type__int; basic_type__long]
                      [[PC_INTEGER]; [PC_INTEGER]]))
         (drop (Z.to_nat (hidden_pointer
                            (CallClasses [[PC_INTEGER]; [PC_INTEGER]]
                               [PC_NO_CLASS] [[DI]; [SI]])))
               param_int_reg) ∧
  Forall2 (λ arg r, r = [] ∨ Z.of_nat (length r) = N_EIGHTBYTES arg)
          [basic_type__int; basic_type__long] [[DI]; [SI]].
Proof.
  assert (Hsz : Forall (λ t, 0 ≤ size_of t) [basic_type__int; basic_type__long])
    by (repeat constructor; vm_compute; discriminate).
  split; [split; [exact Hsz|reflexivity]|].
  exact (classify_call_budget [basic_type__int; basic_type__long]
           basic_type__void
           (CallClasses [[PC_INTEGER]; [PC_INTEGER]] [PC_NO_CLASS] [[DI]; [SI]])
           Hsz eq_refl).
Defined.

(** *** Integer and pointer arguments *)

(** An argument of integer or pointer type, of a size that [type_init]
    gives. *)
Definition scalar_arg (t : typetree) : Prop :=
  is_integer t || is_pointer t = true ∧ scalar_size_ok t.

Lemma classify_scalar t : scalar_arg t → classify t = Some [PC_INTEGER].
Proof.
  intros [Hs _]. unfold classify.
  assert (Hk : is_function t = false ∧ is_void t = false).
  { unfold is_integer, is_pointer, is_function, is_void in *.
    destruct (t_type t); cbn in *; auto; discriminate. }
  rewrite !option_guard_True by apply Hk. cbn [mbind option_bind].
  now rewrite Hs.
Qed.

Lemma mapM_classify_scalars args :
  Forall scalar_arg args →
  mapM classify args = Some (replicate (length args) [PC_INTEGER]).
Proof.
  intros H. apply mapM_Some. induction H as [|t args Ht _ IH]; cbn.
  - constructor.
  - constructor; [now apply classify_scalar|exact IH].
Qed.

Lemma place_args_scalars args :
  ∀ n, 0 ≤ n ≤ 6 → Forall scalar_arg args →
    place_args args (replicate (length args) [PC_INTEGER]) n =
    Some (replicate (length args `min` Z.to_nat (6 - n)) [PC_INTEGER] ++
          replicate (length args - Z.to_nat (6 - n)) [PC_MEMORY],
          ((λ i, [i]) <$> seqZ n (Z.of_nat (length args `min` Z.to_nat (6 - n))))
          ++ replicate (length args - Z.to_nat (6 - n)) []).
Proof.
  induction args as [|arg args IH]; intros n Hn Hall.
  - reflexivity.
  - inversion Hall as [|? ? [Hs Hok] Hrest]; subst.
    destruct (scalar_one_eightbyte arg Hok Hs) as [Hone _].
    cbn [length replicate place_args head mbind option_bind].
    rewrite bool_decide_eq_false_2 by discriminate. cbn [negb]. rewrite Hone.
    destruct (Z.leb_spec (n + 1) 6) as [Hfit|Hfull].
    + rewrite IH by (auto; lia). cbn [mbind option_bind].
      replace (Z.to_nat (6 - n)) with (S (Z.to_nat (6 - (n + 1)))) by lia.
      cbn [Nat.min Nat.sub replicate app].
      set (k := Z.of_nat (length args `min` Z.to_nat (6 - (n + 1)))).
      assert (H1 : seqZ n 1 = [n]) by (rewrite seqZ_cons by lia; reflexivity).
      assert (Hk : seqZ n (Z.of_nat (S (length args `min` Z.to_nat (6 - (n + 1)))))
                   = n :: seqZ (n + 1) k).
      { rewrite seqZ_cons by lia. f_equal. f_equal; lia. }
      rewrite H1, Hk. reflexivity.
    + assert (n = 6) by lia. subst n.
      rewrite IH by (auto; lia). cbn [mbind option_bind].
      change (Z.to_nat (6 - 6)) with 0%nat.
      rewrite !Nat.min_0_r, !Nat.sub_0_r. reflexivity.
Qed.

(** The registers left for the arguments. *)
Definition argument_registers (hidden : Z) : list reg :=
  drop (Z.to_nat hidden) param_int_reg.

(** X13.  Arguments that are all integers or pointers: the first ones
    are classified [PC_INTEGER] and take the registers of [param_int_reg]
    one by one in its order ([DI], [SI], [DX], [CX], [R8], [R9]; from [SI]
    on when the return value is in memory); the arguments for which no
    register is left are classified [PC_MEMORY] and take none. *)
Theorem scalar_arguments_in_order (args : list typetree) (ret : typetree)
    (c : call_classes) :
  Forall scalar_arg args →
  classify_call args ret = Some c →
  params c =
    replicate (length args `min` length (argument_registers (hidden_pointer c)))
              [PC_INTEGER] ++
    replicate (length args - length (argument_registers (hidden_pointer c)))
              [PC_MEMORY] ∧
  int_regs c =
    ((λ r, [r]) <$> take (length args) (argument_registers (hidden_pointer c)))
    ++ replicate (length args - length (argument_registers (hidden_pointer c)))
                 [].
Proof.
  intros Hall. unfold classify_call.
  rewrite (mapM_classify_scalars args Hall). cbn [mbind option_bind].
  set (r := if negb (is_void ret)
            then res ← classify ret; c ← head res;
                 Some (res, if bool_decide (c = PC_MEMORY) then 1 else 0)
            else Some ([PC_NO_CLASS], 0)).
  destruct r as [[rs n]|] eqn:Hr; [|discriminate]. cbn [mbind option_bind].
  assert (Hn : n = if bool_decide (head rs = Some PC_MEMORY) then 1 else 0).
  { subst r. destruct (negb (is_void ret)).
    - destruct (classify ret) as [rs'|]; [|discriminate].
      cbn [mbind option_bind] in Hr.
      destruct (head rs') as [c0|] eqn:Hc0; [|discriminate].
      cbn [mbind option_bind] in Hr. injection Hr as <- <-. rewrite Hc0.
      destruct (decide (c0 = PC_MEMORY)) as [->|Hne].
      + now rewrite !bool_decide_eq_true_2.
      + rewrite !bool_decide_eq_false_2; congruence.
    - injection Hr as <- <-. reflexivity. }
  assert (Hn01 : n = 0 ∨ n = 1) by (rewrite Hn; case_bool_decide; auto).
  rewrite place_args_scalars by (auto; lia). cbn [mbind option_bind].
  match goal with |- context [mapM ?f ?l] => destruct (mapM f l) as [regs|] eqn:Hregs end;
    [|discriminate].
  cbn [mbind option_bind]. intros [= <-]. unfold hidden_pointer.
  cbn [params res int_regs]. rewrite <- Hn.
  assert (Hlen : length (argument_registers n) = Z.to_nat (6 - n))
    by (destruct Hn01 as [-> | ->]; reflexivity).
  rewrite Hlen. split; [reflexivity|].
  apply mapM_Some in Hregs.
  apply Forall2_app_inv_l in Hregs as (r1 & r2 & H1 & H2 & ->).
  f_equal.
  - clear H2. apply Forall2_fmap_l in H1.
    apply list_eq. intros i. rewrite list_lookup_fmap.
    destruct (decide (i < length args `min` Z.to_nat (6 - n))%nat) as [Hi|Hi].
    + destruct (lookup_lt_is_Some_2 (seqZ n (Z.of_nat (length args `min` Z.to_nat (6 - n)))) i)
        as [x Hx]; [rewrite length_seqZ; lia|].
      destruct (Forall2_lookup_l _ _ _ _ _ H1 Hx) as (y & Hy & Hxy).
      rewrite Hy. apply lookup_seqZ in Hx as [-> _].
      cbn in Hxy. destruct (param_int_reg !! Z.to_nat (n + Z.of_nat i)) as [rg|] eqn:E;
        [|discriminate].
      cbn in Hxy. injection Hxy as <-.
      rewrite lookup_take_lt by lia. unfold argument_registers.
      rewrite lookup_drop.
      replace (Z.to_nat n + i)%nat with (Z.to_nat (n + Z.of_nat i)) by lia.
      now rewrite E.
    + apply Forall2_length in H1. rewrite length_seqZ in H1.
      rewrite lookup_ge_None_2 by lia.
      rewrite lookup_ge_None_2; [reflexivity|].
      rewrite length_take, Hlen. lia.
  - clear H1. revert r2 H2.
    induction (length args - Z.to_nat (6 - n))%nat as [|k IH]; intros r2 H2;
      inversion H2 as [|? y ? ys Hy Hys]; subst; [reflexivity|].
    cbn in Hy. injection Hy as <-. cbn [replicate]. f_equal. now apply IH.
Qed.

Lemma scalar_arg_signed sz :
  (sz =? 1) || (sz =? 2) || (sz =? 4) || (sz =? 8) = true →
  scalar_arg (basic T_SIGNED sz Q_NONE).
Proof.
  intros H. split; [reflexivity|]. split; [intros _|discriminate].
  cbn [t_size basic].
  repeat (apply orb_true_iff in H as [H|H]);
    apply Z.eqb_eq in H as ->; apply list_elem_of_lookup;
    [now exists 0%nat|now exists 1%nat|now exists 2%nat|now exists 3%nat].
Qed.

Lemma scalar_arguments_in_order_witness :
  (Forall scalar_arg [basic_type__int; basic_type__long] ∧
   classify_call [basic_type__int; basic_type__long] basic_type__void =
     Some (CallClasses [[PC_INTEGER]; [PC_INTEGER]] [PC_NO_CLASS]
                       [[DI]; [SI]])) ∧
  [[PC_INTEGER]; [PC_INTEGER]] =
    replicate (2 `min` length (argument_registers 0)) [PC_INTEGER] ++
    replicate (2 - length (argument_registers 0)) [PC_MEMORY] ∧
  [[DI]; [SI]] =
    ((λ r, [r]) <$> take 2 (argument_registers 0)) ++
    replicate (2 - length (argument_registers 0)) [].
Proof.
  assert (Hall : Forall scalar_arg [basic_type__int; basic_type__long])
    by (repeat constructor; apply scalar_arg_signed; reflexivity).
  split; [split; [exact Hall|reflexivity]|].
  exact (scalar_arguments_in_order [basic_type__int; basic_type__long]
           basic_type__void
           (CallClasses [[PC_INTEGER]; [PC_INTEGER]] [PC_NO_CLASS] [[DI]; [SI]])
           Hall eq_refl).
Defined.

(** *** Structs of scalars *)

(** A scalar member type: an integer, a floating point number or a
    pointer, of 1 to 8 bytes. *)
Definition scalar_field (ty : typetree) : Prop :=
  scalar_kind (t_type ty) = true ∧ 0 < t_size ty ≤ 8.

Lemma scalar_field_facts ty :
  scalar_field ty →
  type_alignment ty = Some (t_size ty) ∧ size_of ty = t_size ty ∧ layable ty.
Proof.
  intros [Hk Hsz].
  assert (Ha : type_alignment ty = Some (t_size ty))
    by (destruct ty as [[] ? ? ? ? ?]; cbn in *; congruence).
  assert (Hs : size_of ty = t_size ty).
  { unfold size_of, is_tagged, is_struct_or_union, is_struct, is_union.
    destruct (t_type ty); cbn in *; congruence. }
  split; [exact Ha|]. split; [exact Hs|].
  exists (t_size ty). rewrite Hs. repeat split; auto; lia.
Qed.

Lemma unaligned_from_scalars e ms e' :
  packed e ms e' → Forall (λ m, scalar_field (m_type m)) ms →
  unaligned_from ms = Some false.
Proof.
  induction 1 as [|e f fs a e' Ha Hpos Hrem Hoff Hpk IH]; intros Hall;
    [reflexivity|].
  inversion Hall as [|? ? Hf Hrest]; subst.
  destruct (scalar_field_facts _ Hf) as (Ha' & Hs & _).
  rewrite Ha in Ha'. injection Ha' as ->.
  cbn [unaligned_from]. rewrite Hs.
  rewrite option_guard_True by lia. cbn [mbind option_bind].
  rewrite Hrem. cbn. now apply IH.
Qed.

Lemma flatten_members_scalars ms :
  ∀ l n, Z.of_nat (length l) = n →
    Forall (λ m, scalar_field (m_type m) ∧
                 0 ≤ m_offset m ∧ m_offset m < 8 * n) ms →
    ∃ l', flatten_members 0 ms l = Some l' ∧ length l' = length l.
Proof.
  induction ms as [|m ms IH]; intros l n Hl Hall.
  - exists l. split; reflexivity.
  - inversion Hall as [|? ? ([Hk Hsz] & H0 & Hlt) Hrest]; subst.
    cbn [flatten_members]. rewrite flatten_unfold.
    assert (Hidx : 0 ≤ Z.quot (m_offset m + 0) 8 < Z.of_nat (length l)).
    { rewrite Z.add_0_r. split; [apply Z.quot_pos; lia|].
      apply Z.quot_lt_upper_bound; lia. }
    assert (Hc : ∀ c, ∃ l1, combine_at l (Z.quot (m_offset m + 0) 8) c = Some l1).
    { intros c. unfold combine_at. rewrite option_guard_True by lia.
      cbn [mbind option_bind].
      destruct (lookup_lt_is_Some_2 l (Z.to_nat (Z.quot (m_offset m + 0) 8)))
        as [x ->]; [lia|]. cbn. eauto. }
    assert (Hstep : ∃ l1, flatten (m_type m) (m_offset m + 0) l = Some l1).
    { rewrite flatten_unfold.
      destruct (t_type (m_type m)); try discriminate; apply Hc. }
    destruct Hstep as (l1 & E1). rewrite <- flatten_unfold, E1.
    pose proof (flatten_length _ _ _ _ E1) as Hl1.
    destruct (IH l1 (Z.of_nat (length l)) ltac:(lia) Hrest) as (l' & E' & Hl').
    exists l'. split; [exact E'|lia].
Qed.

(** X14.  A struct of scalar members, as [type_add_member] lays it out:
    [has_unaligned_fields] finds no unaligned field, and [classify] puts
    the struct in memory exactly when it is larger than 16 bytes;
    otherwise it returns one class for each eightbyte, none of them
    [PC_MEMORY] or [PC_SSEUP]. *)
Theorem classify_struct_of_scalars
    (fields : list (option string * typetree)) :
  fields ≠ [] → Forall (λ f, scalar_field f.2) fields →
  ∃ t l,
    struct_of fields = Some t ∧
    has_unaligned_fields t = Some false ∧
    classify t = Some l ∧
    (16 < size_of t → l = [PC_MEMORY]) ∧
    (size_of t ≤ 16 →
     Z.of_nat (length l) = N_EIGHTBYTES t ∧ Forall flat_class l).
Proof.
  intros Hne Hall.
  assert (Hlay : Forall (λ f, layable f.2) fields).
  { eapply Forall_impl; [exact Hall|]. intros f Hf.
    apply (scalar_field_facts _ Hf). }
  unfold struct_of. cbn [type_init mbind option_bind].
  set (t0 := Typetree T_STRUCT 0 Q_NONE None None None).
  destruct (add_members_struct fields t0) as (t & E & Ho & Hsig & Hw);
    [repeat split; constructor|exact Hlay|].
  destruct (Hw Hne) as (e & a & Hta & Hrem & Hpk & Hrange).
  destruct Ho as (Hst & Hnx & _).
  assert (Hk : t_type t = T_STRUCT)
    by (unfold is_struct in Hst; destruct (t_type t); simpl in Hst; congruence).
  assert (Hms : Forall (λ m, scalar_field (m_type m)) (members t)).
  { apply Forall_forall. intros m Hm.
    apply (list_elem_of_fmap_2 field_sig) in Hm. rewrite Hsig in Hm.
    rewrite Forall_forall in Hall. exact (Hall _ Hm). }
  assert (Hua : has_unaligned_fields t = Some false).
  { unfold has_unaligned_fields, is_struct_or_union. rewrite Hst. cbn [orb].
    rewrite unwrapped_no_next by exact Hnx.
    exact (unaligned_from_scalars _ _ _ Hpk Hms). }
  assert (Hb : 0 ≤ e ∧ Forall (λ m, 0 ≤ m_offset m ∧
                 m_offset m + size_of (m_type m) ≤ e) (members t)).
  { apply (packed_bounds _ _ _ Hpk).
    eapply Forall_impl; [exact Hms|]. intros m Hm. cbn.
    destruct (scalar_field_facts _ Hm) as (_ & -> & _). destruct Hm; lia. }
  destruct Hb as [He Hb].
  assert (Hsz : 0 ≤ size_of t) by lia.
  assert (HN : 8 * N_EIGHTBYTES t - 8 < size_of t ≤ 8 * N_EIGHTBYTES t).
  { unfold N_EIGHTBYTES.
    pose proof (Z.quot_rem' (size_of t + 7) 8).
    pose proof (Z.rem_bound_pos (size_of t + 7) 8 ltac:(lia) ltac:(lia)). lia. }
  assert (Hfl : ∃ eb, flatten t 0
                  (replicate (Z.to_nat (N_EIGHTBYTES t)) PC_NO_CLASS) = Some eb ∧
                  Z.of_nat (length eb) = N_EIGHTBYTES t ∧ Forall flat_class eb).
  { rewrite flatten_unfold, Hk. rewrite unwrapped_no_next by exact Hnx.
    destruct (flatten_members_scalars (members t)
                (replicate (Z.to_nat (N_EIGHTBYTES t)) PC_NO_CLASS)
                (N_EIGHTBYTES t)) as (eb & Eeb & Hlen).
    - rewrite length_replicate. lia.
    - rewrite Forall_forall in Hms, Hb. apply Forall_forall. intros m Hm.
      split; [now apply Hms|]. specialize (Hb m Hm).
      destruct (scalar_field_facts _ (Hms m Hm)) as (_ & Hs & _).
      destruct (Hms m Hm) as [_ ?]. lia.
    - exists eb. split; [exact Eeb|]. rewrite length_replicate in Hlen.
      split; [lia|].
      assert (Hf : flatten t 0 (replicate (Z.to_nat (N_EIGHTBYTES t)) PC_NO_CLASS)
                   = Some eb).
      { rewrite flatten_unfold, Hk. now rewrite unwrapped_no_next. }
      apply (flatten_flat _ _ _ _ Hf). apply Forall_replicate. now left. }
  destruct Hfl as (eb & Eeb & Hlen & Hflat).
  assert (Hcl : classify t =
                Some (if N_EIGHTBYTES t >? 2 then [PC_MEMORY] else eb)).
  { unfold classify, is_function, is_void, is_integer, is_pointer,
      is_struct_or_union. rewrite Hst, Hk. cbn.
    destruct (Z.gtb_spec (N_EIGHTBYTES t) 4) as [H4|H4].
    - cbn. destruct (Z.gtb_spec (N_EIGHTBYTES t) 2); [reflexivity|lia].
    - rewrite Hua. cbn [mbind option_bind]. rewrite Eeb.
      cbn [mbind option_bind]. unfold merge.
      rewrite merge_scan_flat by (now apply Forall_take).
      cbn [negb]. rewrite orb_true_r, andb_true_r.
      destruct (N_EIGHTBYTES t >? 2); reflexivity. }
  exists t, (if N_EIGHTBYTES t >? 2 then [PC_MEMORY] else eb).
  split; [exact E|]. split; [exact Hua|]. split; [exact Hcl|].
  destruct (Z.gtb_spec (N_EIGHTBYTES t) 2) as [H2|H2].
  - split; [reflexivity|]. intros H16. lia.
  - split; [intros H16; lia|]. intros _. split; [exact Hlen|exact Hflat].
Qed.

Lemma classify_struct_of_scalars_witness :
  ∃ t l,
    struct_of [field "a" basic_type__int; field "b" basic_type__double]
      = Some t ∧
    has_unaligned_fields t = Some false ∧
    classify t = Some l ∧
    (16 < size_of t → l = [PC_MEMORY]) ∧
    (size_of t ≤ 16 →
     Z.of_nat (length l) = N_EIGHTBYTES t ∧ Forall flat_class l).
Proof.
  apply classify_struct_of_scalars; [discriminate|].
  repeat constructor; cbn; lia.
Defined.

End Abi.

(** ** parser/type.c: type equality *)

Module TypeFacts.
Import Types Abi.

(** The types on which [type_equal] reads no null name: on the way down
    from [t], through [next] and the member types and not beyond a tag,
    every member of a struct or union has a name. *)
#[warnings="-register-all"]
Inductive names_ok : typetree → Prop :=
| names_ok_tag t : is_tagged t = true → names_ok t
| names_ok_node t :
    is_tagged t = false →
    (∀ n, t_next t = Some n → names_ok n) →
    Forall (λ m, names_ok (m_type m) ∧
                 (is_struct_or_union t = true → is_Some (m_name m)))
           (members t) →
    names_ok t.

Lemma is_tagged_next t : is_tagged t = true → is_Some (t_next t).
Proof.
  unfold is_tagged. intros H. apply andb_true_iff in H as [_ H].
  now apply bool_decide_eq_true in H.
Qed.

Lemma unwrapped_untagged t : is_tagged t = false → unwrapped t = t.
Proof. intros H. unfold unwrapped. now rewrite H. Qed.

Lemma type_kind_eqb_refl k : type_kind_eqb k k = true.
Proof. destruct k; reflexivity. Qed.

Lemma type_kind_eqb_sym k k' : type_kind_eqb k k' = type_kind_eqb k' k.
Proof. destruct k, k'; reflexivity. Qed.

Lemma type_kind_eqb_eq k k' : type_kind_eqb k k' = true → k = k'.
Proof. destruct k, k'; cbn; congruence. Qed.

Section Equal.

Context (same : typetree → typetree → bool).

Lemma type_equal_refl_aux (Hsame : ∀ x, same x x = true) (h : nat) :
  ∀ a, height a = h → names_ok a → type_equal same a a = Some true.
Proof.
  induction h as [h IH] using lt_wf_ind. intros a <- Hok.
  rewrite type_equal_unfold.
  inversion Hok as [t Ht|t Ht Hnext Hmem]; subst t.
  - rewrite Ht. cbn [andb].
    destruct (is_tagged_next a Ht) as [n ->]. cbn. now rewrite Hsame.
  - rewrite Ht. cbn [andb]. cbv zeta. rewrite (unwrapped_untagged a Ht).
    rewrite type_kind_eqb_refl, !Z.eqb_refl, eqb_reflx. cbn [andb].
    assert (Hn : type_equal_ptr same (t_next a) (t_next a) = Some true).
    { destruct (t_next a) as [n|] eqn:En; [|reflexivity]. cbn.
      apply (IH (height n)); [now apply height_next|reflexivity|now apply Hnext]. }
    rewrite Hn.
    assert (Hall : ∀ ms, (∀ m, m ∈ ms → m ∈ members a) →
              members_equal same (is_struct_or_union a) ms ms = Some true).
    { induction ms as [|m ms IHms]; intros Hsub; [reflexivity|].
      cbn [members_equal].
      assert (Hm : m ∈ members a) by (apply Hsub; now left).
      rewrite Forall_forall in Hmem. destruct (Hmem m Hm) as [Hmok Hname].
      rewrite (IH (height (m_type m))); [|now apply height_member|reflexivity|exact Hmok].
      assert (Hd : (if is_struct_or_union a
                    then names_differ (m_name m) (m_name m) else Some false)
                   = Some false).
      { destruct (is_struct_or_union a); [|reflexivity].
        destruct (Hname eq_refl) as [s ->]. cbn. now rewrite String.eqb_refl. }
      rewrite Hd. cbn [mbind option_bind].
      rewrite option_guard_True by reflexivity. cbn [mbind option_bind].
      apply IHms. intros m' Hm'. apply Hsub. now right. }
    apply Hall. auto.
Qed.

Lemma names_differ_sym x y : names_differ x y = names_differ y x.
Proof.
  destruct x as [x|], y as [y|]; try reflexivity. cbn.
  now rewrite String.eqb_sym.
Qed.

Lemma type_equal_sym_aux (Hsame : ∀ x y, same x y = same y x) (h : nat) :
  ∀ a b, height a = h → type_equal same a b = type_equal same b a.
Proof.
  induction h as [h IH] using lt_wf_ind. intros a b <-.
  rewrite (type_equal_unfold same a b), (type_equal_unfold same b a).
  rewrite (andb_comm (is_tagged b)).
  destruct (is_tagged a && is_tagged b) eqn:Htt.
  - apply andb_true_iff in Htt as [Ha Hb].
    destruct (is_tagged_next a Ha) as [x ->], (is_tagged_next b Hb) as [y ->].
    cbn. now rewrite Hsame.
  - cbv zeta.
    rewrite (type_kind_eqb_sym (t_type (unwrapped b))),
      (Z.eqb_sym (t_size (unwrapped b))), (Z.eqb_sym (nmembers (unwrapped b))).
    replace (eqb (is_unsigned (unwrapped b)) (is_unsigned (unwrapped a)))
      with (eqb (is_unsigned (unwrapped a)) (is_unsigned (unwrapped b)))
      by (destruct (is_unsigned (unwrapped a)), (is_unsigned (unwrapped b));
          reflexivity).
    destruct (type_kind_eqb (t_type (unwrapped a)) (t_type (unwrapped b)))
      eqn:Hk; [|reflexivity].
    cbn [andb].
    match goal with |- (if ?c then _ else _) = _ => destruct c end;
      [|reflexivity].
    assert (Hsu : is_struct_or_union (unwrapped b) =
                  is_struct_or_union (unwrapped a)).
    { unfold is_struct_or_union, is_struct, is_union.
      now rewrite (type_kind_eqb_eq _ _ Hk). }
    rewrite Hsu.
    assert (Hsub : ∀ n, t_next (unwrapped a) = Some n →
                        (height n < height a)%nat).
    { intros n Hn. unfold unwrapped in Hn.
      destruct (is_tagged a); [|now apply height_next].
      destruct (t_next a) as [n'|] eqn:E; [|now apply height_next].
      apply height_next in Hn. apply height_next in E. lia. }
    assert (Hn : type_equal_ptr same (t_next (unwrapped a)) (t_next (unwrapped b))
                 = type_equal_ptr same (t_next (unwrapped b)) (t_next (unwrapped a))).
    { destruct (t_next (unwrapped a)) as [x|] eqn:Ex,
        (t_next (unwrapped b)) as [y|]; try reflexivity. cbn.
      apply (IH (height x)); [now apply Hsub|reflexivity]. }
    rewrite Hn.
    destruct (type_equal_ptr same (t_next (unwrapped b)) (t_next (unwrapped a)))
      as [[]|]; try reflexivity.
    generalize (members (unwrapped b)) as ns.
    assert (Hall : ∀ ms, (∀ m, m ∈ ms → m ∈ members (unwrapped a)) →
              ∀ ns, members_equal same (is_struct_or_union (unwrapped a)) ms ns =
                    members_equal same (is_struct_or_union (unwrapped a)) ns ms).
    { induction ms as [|m ms IHms]; intros Hin [|n ns]; try reflexivity.
      cbn [members_equal].
      rewrite <- (IH (height (m_type m)) ltac:(apply height_unwrapped_member;
                                               apply Hin; now left)
                    (m_type m) (m_type n) eq_refl).
      destruct (type_equal same (m_type m) (m_type n)) as [[]|];
        try reflexivity.
      rewrite (names_differ_sym (m_name n)).
      destruct (if is_struct_or_union (unwrapped a)
                then names_differ (m_name m) (m_name n) else Some false)
        as [[]|]; try reflexivity.
      cbn [mbind option_bind].
      destruct (decide (m_offset m = m_offset n)) as [E|E].
      - rewrite !option_guard_True by congruence. cbn [mbind option_bind].
        apply IHms. intros m' Hm'. apply Hin. now right.
      - rewrite !option_guard_False by congruence. reflexivity. }
    apply Hall. auto.
Qed.

End Equal.

(** X8.  [type_equal] is reflexive, and so is [is_compatible]: a type
    compared with itself gives 1, for every type in which the members of
    structs and unions have names (a tag compared with itself points to
    the same object twice). *)
Theorem type_equal_reflexive (same : typetree → typetree → bool)
    (t : typetree) :
  (∀ x, same x x = true) → names_ok t →
  type_equal same t t = Some true ∧ is_compatible same t t = Some true.
Proof.
  intros Hsame Hok. split; exact (type_equal_refl_aux same Hsame _ t eq_refl Hok).
Qed.

(** X9.  [type_equal] is symmetric: both orders of the arguments give
    the same answer, and stop at the assertion or at a null name alike. *)
Theorem type_equal_symmetric (same : typetree → typetree → bool)
    (a b : typetree) :
  (∀ x y, same x y = same y x) →
  type_equal same a b = type_equal same b a.
Proof.
  intros Hsame. exact (type_equal_sym_aux same Hsame _ a b eq_refl).
Qed.

Lemma type_equal_reflexive_witness :
  ((∀ x, (λ _ _ : typetree, true) x x = true) ∧
   names_ok (Typetree T_POINTER 8 Q_NONE None None (Some basic_type__int))) ∧
  type_equal (λ _ _, true)
    (Typetree T_POINTER 8 Q_NONE None None (Some basic_type__int))
    (Typetree T_POINTER 8 Q_NONE None None (Some basic_type__int)) = Some true ∧
  is_compatible (λ _ _, true)
    (Typetree T_POINTER 8 Q_NONE None None (Some basic_type__int))
    (Typetree T_POINTER 8 Q_NONE None None (Some basic_type__int)) = Some true.
Proof.
  assert (Hsame : ∀ x, (λ _ _ : typetree, true) x x = true) by reflexivity.
  assert (Hok : names_ok (Typetree T_POINTER 8 Q_NONE None None
                            (Some basic_type__int))).
  { apply names_ok_node; [reflexivity| |constructor].
    intros n [= <-]. apply names_ok_node; [reflexivity| |constructor].
    intros n [=]. }
  split; [split; assumption|].
  exact (type_equal_reflexive (λ _ _, true) _ Hsame Hok).
Defined.

Lemma type_equal_symmetric_witness :
  (∀ x y, (λ _ _ : typetree, true) x y = (λ _ _ : typetree, true) y x) ∧
  type_equal (λ _ _, true) basic_type__int basic_type__unsigned_int =
  type_equal (λ _ _, true) basic_type__unsigned_int basic_type__int.
Proof.
  assert (Hsame : ∀ x y, (λ _ _ : typetree, true) x y =
                         (λ _ _ : typetree, true) y x) by reflexivity.
  split; [exact Hsame|].
  exact (type_equal_symmetric (λ _ _, true) basic_type__int
           basic_type__unsigned_int Hsame).
Defined.

End TypeFacts.

(** ** The arithmetic of [int]

    The value of an integer converted to [int] is its low 32 bits, read
    as a signed number.  Where a sum or a product of two [int] does not
    fit, which C leaves undefined, modules [Heap] and [Parser] keep the low
    32 bits, as the compiled code does; what is proved of such a result
    is proved where it fits. *)

Module CInt.

Definition to_int (z : Z) : Z := (z + 2 ^ 31) mod 2 ^ 32 - 2 ^ 31.

Definition INT_MIN : Z := -2147483648.
Definition INT_MAX : Z := 2147483647.

Lemma to_int_small z : INT_MIN ≤ z ≤ INT_MAX → to_int z = z.
Proof.
  unfold to_int, INT_MIN, INT_MAX. intros H.
  change (2 ^ 31) with 2147483648. change (2 ^ 32) with 4294967296.
  rewrite Z.mod_small by lia. lia.
Qed.

Lemma to_int_period z : to_int (z + 2 ^ 32) = to_int z.
Proof.
  unfold to_int.
  replace (z + 2 ^ 32 + 2 ^ 31) with (z + 2 ^ 31 + 1 * 2 ^ 32) by lia.
  now rewrite Z.mod_add by discriminate.
Qed.

End CInt.

(** ** parser/type.c: the nodes in their store

    [type_add_member] stores the pointer to the member's type that it is
    given, [type_init] and [type_tagged_copy] the pointer [next], and
    [type_alignment] and [size_of] follow these pointers when they are
    called.  A node that is extended after it became the type of a member
    is seen in its new state by everything that points to it.  Module
    [Types] takes a type as the value that it has when it is used; here
    the nodes live in a store and are referred to by address, and the
    arithmetic is that of [int]. *)

Module Heap.
Import Types CInt.

(** A [struct typetree *] and a [struct member_list *]: the place of the
    object in the registry that holds it. *)
Definition type_ptr : Type := nat.
Definition list_ptr : Type := nat.

(** Modelled from the spec: [struct member] of [lacc/typetree.h]. *)
Record member_t : Type := Member {
  m_name : option string;
  m_type : type_ptr;
  m_offset : Z }.

(** [struct member_list] of type.c: [length] is the length of [member],
    [cap] is allocation bookkeeping and is left out. *)
Record member_list : Type := MemberList {
  func_vararg : bool;
  member : list member_t }.

(** Modelled from the spec: [struct typetree] of [lacc/typetree.h], with
    the pointers [member_list] and [next] as places in the store. *)
Record typetree : Type := Typetree {
  t_type : type_kind;
  t_size : Z;
  t_qualifier : Z;
  t_member_list : option list_ptr;
  t_tag_name : option string;
  t_next : option type_ptr }.

(** The nodes and the member lists that have been allocated.  Nodes that
    are not allocated by [calloc_type] (the basic types, the type inside
    a symbol) have a place in [types] like the others. *)
Record heap : Type := HeapOf {
  types : list typetree;
  lists : list member_list }.

(** Reading and writing through a pointer.  The functions below write
    where they have read before; a write to a place that holds no object
    leaves the store as it is. *)
Definition deref (h : heap) (type : type_ptr) : option typetree :=
  types h !! type.

Definition set_node (h : heap) (type : type_ptr) (t : typetree) : heap :=
  HeapOf (<[type := t]> (types h)) (lists h).

Definition set_list (h : heap) (l : list_ptr) (ml : member_list) : heap :=
  HeapOf (types h) (<[l := ml]> (lists h)).

(** [calloc_type] and [allocmembers], with the content that the caller
    writes into the fresh object. *)
Definition calloc_type (h : heap) (t : typetree) : heap * type_ptr :=
  (HeapOf (types h ++ [t]) (lists h), length (types h)).

Definition allocmembers (h : heap) : heap * list_ptr :=
  (HeapOf (types h) (lists h ++ [MemberList false []]), length (lists h)).

(** Modelled from the spec: the classification macros of
    [lacc/typetree.h], as in [Types]. *)
Definition is_function (t : typetree) : bool :=
  type_kind_eqb (t_type t) T_FUNCTION.
Definition is_array (t : typetree) : bool := type_kind_eqb (t_type t) T_ARRAY.
Definition is_struct (t : typetree) : bool := type_kind_eqb (t_type t) T_STRUCT.
Definition is_union (t : typetree) : bool := type_kind_eqb (t_type t) T_UNION.
Definition is_struct_or_union (t : typetree) : bool :=
  is_struct t || is_union t.
Definition is_object (t : typetree) : bool := negb (is_function t).
Definition is_tagged (t : typetree) : bool :=
  is_struct_or_union t && bool_decide (is_Some (t_next t)).

Definition unwrapped (h : heap) (type : type_ptr) : option type_ptr :=
  t ← deref h type;
  if is_tagged t then t_next t else Some type.

Definition size_of (h : heap) (type : type_ptr) : option Z :=
  t ← deref h type;
  if is_tagged t then n ← t_next t; tn ← deref h n; Some (t_size tn)
  else Some (t_size t).

(** The members of a node: [get_member(type, 0)], ...,
    [get_member(type, nmembers(type) - 1)]. *)
Definition members (h : heap) (t : typetree) : option (list member_t) :=
  match t_member_list t with
  | Some l => ml ← lists h !! l; Some (member ml)
  | None => Some []
  end.

Definition is_vararg (h : heap) (t : typetree) : option bool :=
  guard (is_function t = true);;
  match t_member_list t with
  | Some l => ml ← lists h !! l; Some (func_vararg ml)
  | None => Some false
  end.

(** The loop of [type_alignment] over the members of a struct or union;
    [m] is the running maximum and [alignment] the recursive call. *)
Fixpoint members_alignment (alignment : type_ptr → option Z)
    (ms : list member_t) (m : Z) : option Z :=
  match ms with
  | [] => Some m
  | f :: ms =>
      d ← alignment (m_type f);
      members_alignment alignment ms (if d >? m then d else m)
  end.

(** [type_alignment]; [fuel] bounds the depth of the recursion, which has
    no end on a struct that is reached again from the types of its own
    members. *)
Fixpoint type_alignment (fuel : nat) (h : heap) (type : type_ptr)
  : option Z :=
  match fuel with
  | O => None
  | S fuel =>
      t ← deref h type;
      guard (is_object t = true);;
      match t_type t with
      | T_ARRAY => n ← t_next t; type_alignment fuel h n
      | T_STRUCT | T_UNION =>
          u ← unwrapped h type;
          tu ← deref h u;
          ms ← members h tu;
          m ← members_alignment (type_alignment fuel h) ms 0;
          guard (m ≠ 0);;
          Some m
      | _ => Some (t_size t)
      end
  end.

Definition set_offset (f : member_t) (o : Z) : member_t :=
  Member (m_name f) (m_type f) o.

(** [x += y] on an [int], and [size += alignment - (size % alignment)]
    when [size % alignment] is not 0. *)
Definition pad_int (size alignment : Z) : Z :=
  if Z.rem size alignment =? 0 then size
  else to_int (size + to_int (alignment - Z.rem size alignment)).

(** The [for] loop of [align_struct_members] from field [i] on: [size] and
    [max_alignment] are the loop variables, the fields come back with their
    [offset] written.  What the loop reads of the store, the alignment and
    the size of the fields' types, does not depend on the offsets that it
    writes. *)
Fixpoint align_fields (fuel : nat) (h : heap) (fields : list member_t)
    (size max_alignment : Z) : option (list member_t * Z * Z) :=
  match fields with
  | [] => Some ([], size, max_alignment)
  | field :: rest =>
      alignment ← type_alignment fuel h (m_type field);
      let max_alignment :=
        if alignment >? max_alignment then alignment else max_alignment in
      guard (alignment ≠ 0);;
      let size := pad_int size alignment in
      guard (Z.rem size alignment = 0);;
      let field := set_offset field size in
      field_size ← size_of h (m_type field);
      let size := to_int (size + field_size) in
      '(rest, size, max_alignment) ← align_fields fuel h rest size max_alignment;
      Some (field :: rest, size, max_alignment)
  end.

(** [align_struct_members] on the list at [l]: the store with the offsets
    written, and the size. *)
Definition align_struct_members (fuel : nat) (h : heap) (l : list_ptr)
  : option (heap * Z) :=
  list ← lists h !! l;
  '(fields, size, max_alignment) ← align_fields fuel h (member list) 0 0;
  guard (max_alignment ≠ 0);;
  Some (set_list h l (MemberList (func_vararg list) fields),
        pad_int size max_alignment).

(** [type_init(tt, ...)]: [next] and [arg] stand for the variable
    arguments, read according to [tt]; [arg] is what [va_arg(args, int)]
    gives. *)
Definition type_init (h : heap) (tt : type_kind) (next : option type_ptr)
    (arg : Z) : option (heap * type_ptr) :=
  match tt with
  | T_POINTER => Some (calloc_type h (Typetree tt 8 Q_NONE None None next))
  | T_ARRAY =>
      n ← next;
      sz ← size_of h n;
      Some (calloc_type h
              (Typetree tt (to_int (sz * arg)) Q_NONE None None next))
  | T_UNSIGNED | T_SIGNED =>
      guard ((arg =? 8) || (arg =? 4) || (arg =? 2) || (arg =? 1) = true);;
      Some (calloc_type h (Typetree tt arg Q_NONE None None None))
  | _ => Some (calloc_type h (Typetree tt 0 Q_NONE None None None))
  end.

Definition type_tagged_copy (h : heap) (type : type_ptr)
    (name : option string) : option (heap * type_ptr) :=
  t ← deref h type;
  guard (is_tagged t = false);;
  guard (is_struct_or_union t = true);;
  Some (calloc_type h (Typetree (t_type t) 0 Q_NONE None name (Some type))).

Definition set_size (t : typetree) (sz : Z) : typetree :=
  Typetree (t_type t) sz (t_qualifier t) (t_member_list t) (t_tag_name t)
           (t_next t).

Definition set_member_list (t : typetree) (l : list_ptr) : typetree :=
  Typetree (t_type t) (t_size t) (t_qualifier t) (Some l) (t_tag_name t)
           (t_next t).

(** [if (!type->member_list) type->member_list = allocmembers();
    list = type->member_list;] for the node [t] at [type]. *)
Definition member_list_of (h : heap) (type : type_ptr) (t : typetree)
  : heap * list_ptr :=
  match t_member_list t with
  | Some l => (h, l)
  | None =>
      let '(h, l) := allocmembers h in
      (set_node h type (set_member_list t l), l)
  end.

(** [type_add_member]: the store after the call.  [member_type] is [None]
    for the null pointer passed together with the name "...". *)
Definition type_add_member (fuel : nat) (h : heap) (type : type_ptr)
    (member_name : option string) (member_type : option type_ptr)
  : option heap :=
  t ← deref h type;
  guard (is_struct_or_union t || is_function t = true);;
  va ← (if is_function t then is_vararg h t else Some false);
  guard (va = false);;
  guard (is_tagged t = false);;
  let '(h, l) := member_list_of h type t in
  list ← lists h !! l;
  if is_function t && bool_decide (member_name = Some "..."%string) then
    Some (set_list h l (MemberList true (member list)))
  else
    mt ← member_type;
    '(h, mt) ←
      (if is_function t then
         mtn ← deref h mt;
         if is_array mtn then type_init h T_POINTER (t_next mtn) 0
         else Some (h, mt)
       else Some (h, mt));
    let h :=
      set_list h l
        (MemberList (func_vararg list) (member list ++ [Member member_name mt 0])) in
    t ← deref h type;
    if is_struct t then
      '(h, sz) ← align_struct_members fuel h l;
      Some (set_node h type (set_size t sz))
    else if is_union t then
      sz ← size_of h mt;
      Some (if t_size t <? sz then set_node h type (set_size t sz) else h)
    else Some h.

(** Successive calls of [type_add_member] on one node. *)
Fixpoint add_members (fuel : nat) (h : heap) (type : type_ptr)
    (fields : list (option string * type_ptr)) : option heap :=
  match fields with
  | [] => Some h
  | (n, ty) :: rest =>
      h ← type_add_member fuel h type n (Some ty);
      add_members fuel h type rest
  end.

(** *** A struct whose member is extended after it was added

    The calls that the declaration
    [struct In { char a; struct Out { char c; struct In in; } *p; long b; };]
    makes, in the order in which parser/declaration.c makes them. *)

(** Modelled from the spec: [sym_add] belongs to the symbol table, which
    is not part of the sources at hand.  A symbol holds its type as a
    member (declaration.c reads [sym->type.type] and takes [&sym->type]),
    so that [sym_add] keeps a copy of the node that it is given;
    [struct_or_union_declaration] works on [&sym->type], the copy, which
    has its place in the store like an allocated node. *)
Definition sym_add (h : heap) (type : type_ptr) : option (heap * type_ptr) :=
  t ← deref h type; Some (calloc_type h t).

(** [declaration_specifiers] on a basic type:
    [type = type_init(T_STRUCT); *type = get_basic_type_from_specifier(spec)]. *)
Definition basic_specifier (h : heap) (k : type_kind) (sz : Z)
  : option (heap * type_ptr) :=
  '(h, type) ← type_init h T_STRUCT None 0;
  Some (set_node h type (Typetree k sz Q_NONE None None None), type).

(** [struct_or_union_declaration] on a tag that is not yet known:
    [type_init(kind)], [sym_add], and [type = &sym->type]. *)
Definition new_tag (h : heap) (kind : type_kind) : option (heap * type_ptr) :=
  '(h, type) ← type_init h kind None 0;
  sym_add h type.

(** One member declarator in [member_declaration_list], once its type
    [decl_type] is known: a type of size 0 ends the run ("Field '%s' has
    incomplete type '%t'."), any other is added. *)
Definition member_declarator (fuel : nat) (h : heap) (type : type_ptr)
    (name : string) (decl_type : type_ptr) : option heap :=
  sz ← size_of h decl_type;
  guard (sz ≠ 0);;
  type_add_member fuel h type (Some name) (Some decl_type).

(** The end of a struct declaration with a tag: [assert(type->size)] and
    [type_tagged_copy(&sym->type, sym->name)]. *)
Definition close_tag (h : heap) (type : type_ptr) (name : string)
  : option (heap * type_ptr) :=
  t ← deref h type;
  guard (t_size t ≠ 0);;
  type_tagged_copy h type (Some name).

(** The store after the declaration, with the places of [In], of [Out],
    and of the type of the member [in]. *)
Definition struct_In_Out (fuel : nat)
  : option (heap * type_ptr * type_ptr * type_ptr) :=
  let h := HeapOf [] [] in
  '(h, In) ← new_tag h T_STRUCT;
  (* char a; *)
  '(h, char_a) ← basic_specifier h T_SIGNED 1;
  h ← member_declarator fuel h In "a" char_a;
  (* struct Out { *)
  '(h, Out) ← new_tag h T_STRUCT;
  (* char c; *)
  '(h, char_c) ← basic_specifier h T_SIGNED 1;
  h ← member_declarator fuel h Out "c" char_c;
  (* struct In in; *)
  '(h, tag_In) ← type_tagged_copy h In (Some "In"%string);
  h ← member_declarator fuel h Out "in" tag_In;
  (* } *p; *)
  '(h, tag_Out) ← close_tag h Out "Out";
  '(h, pointer) ← type_init h T_POINTER (Some tag_Out) 0;
  h ← member_declarator fuel h In "p" pointer;
  (* long b; *)
  '(h, long_b) ← basic_specifier h T_SIGNED 8;
  h ← member_declarator fuel h In "b" long_b;
  (* } *)
  '(h, _) ← close_tag h In "In";
  Some (h, In, Out, tag_In).

(** The members of the node at [type]. *)
Definition members_of (h : heap) (type : type_ptr) : option (list member_t) :=
  t ← deref h type; members h t.

(** C5.  The declaration
    [struct In { char a; struct Out { char c; struct In in; } *p; long b; };]
    is accepted: when [in] is declared [In] has the size 1 of its first
    member, so that the test for an incomplete member type lets it pass.
    [Out] is laid out with [in] at offset 1 and size 2.  [In] then gets
    its members [p] and [b]; the member [in] points to the same node, which
    now has size 24 and alignment 8.  In the store after the declaration
    [Out] has size 2 and alignment 8, and its member [in], of alignment 8
    and size 24, is at offset 1: the size of [Out] is no multiple of its
    alignment, the offset of [in] is no multiple of the alignment of its
    type, and [in] does not end inside [Out]. *)
Theorem struct_member_extended_after_add (k : nat) :
  ∃ h In Out tag_In c f ms,
    struct_In_Out (4 + k) = Some (h, In, Out, tag_In) ∧
    members_of h Out = Some [c; f] ∧
    m_name f = Some "in"%string ∧ m_type f = tag_In ∧
    unwrapped h tag_In = Some In ∧
    size_of h Out = Some 2 ∧
    type_alignment (4 + k) h Out = Some 8 ∧
    Z.rem 2 8 ≠ 0 ∧
    m_offset f = 1 ∧
    type_alignment (4 + k) h (m_type f) = Some 8 ∧
    Z.rem (m_offset f) 8 ≠ 0 ∧
    size_of h (m_type f) = Some 24 ∧
    members_of h In = Some ms ∧
    m_name <$> ms = [Some "a"; Some "p"; Some "b"]%string ∧
    m_offset <$> ms = [0; 8; 16].
Proof.
  do 7 eexists. cbn [Nat.add].
  split; [vm_compute; reflexivity|].
  repeat split; try (vm_compute; reflexivity); vm_compute; discriminate.
Qed.

(** *** Reading and writing the store *)

Lemma deref_set_node_eq h s t :
  is_Some (deref h s) → deref (set_node h s t) s = Some t.
Proof.
  intros Hs. unfold deref, set_node. cbn [types].
  apply list_lookup_insert_eq. now apply lookup_lt_is_Some.
Qed.

Lemma deref_set_node_ne h s t p :
  p ≠ s → deref (set_node h s t) p = deref h p.
Proof.
  intros Hp. unfold deref, set_node. cbn [types].
  apply list_lookup_insert_ne. congruence.
Qed.

Lemma lists_set_list_eq h l ml :
  is_Some (lists h !! l) → lists (set_list h l ml) !! l = Some ml.
Proof.
  intros Hl. unfold set_list. cbn [lists].
  apply list_lookup_insert_eq. now apply lookup_lt_is_Some.
Qed.

Lemma lists_set_list_ne h l ml l' :
  l' ≠ l → lists (set_list h l ml) !! l' = lists h !! l'.
Proof.
  intros Hl. unfold set_list. cbn [lists].
  apply list_lookup_insert_ne. congruence.
Qed.

Lemma is_tagged_open t : t_next t = None → is_tagged t = false.
Proof. unfold is_tagged. intros ->. apply andb_false_r. Qed.

(** An aggregate under declaration: the node [t] at [s] is a struct or a
    union that is no tag, and [ms] are its members. *)
Definition open_at (h : heap) (s : type_ptr) (t : typetree)
    (ms : list member_t) : Prop :=
  deref h s = Some t ∧ is_struct_or_union t = true ∧ t_next t = None ∧
  match t_member_list t with
  | Some l => ∃ fv, lists h !! l = Some (MemberList fv ms)
  | None => ms = []
  end.

Lemma open_at_members h s t ms : open_at h s t ms → members_of h s = Some ms.
Proof.
  intros (Hs & _ & _ & Hl). unfold members_of, members. rewrite Hs.
  cbn [mbind option_bind]. destruct (t_member_list t) as [l|].
  - destruct Hl as [fv ->]. reflexivity.
  - now subst.
Qed.

Lemma struct_or_union_object t :
  is_struct_or_union t = true → is_function t = false.
Proof.
  unfold is_struct_or_union, is_struct, is_union, is_function.
  destruct (t_type t); cbn; congruence.
Qed.

(** The store in which [type_add_member] lays out the members: the member
    is appended to the list of the node, which is allocated if need be. *)
Lemma member_list_of_open h s t ms :
  open_at h s t ms →
  ∃ h1 l fv,
    member_list_of h s t = (h1, l) ∧
    lists h1 !! l = Some (MemberList fv ms) ∧
    deref h1 s = Some (set_member_list t l) ∧
    (∀ p, p ≠ s → deref h1 p = deref h p) ∧
    (∀ l', l' ≠ l → lists h1 !! l' = lists h !! l') ∧
    (t_member_list t = Some l ∨
     t_member_list t = None ∧ l = length (lists h)).
Proof.
  intros (Hs & Hk & Hnx & Hl). unfold member_list_of.
  destruct (t_member_list t) as [l|] eqn:El.
  - destruct Hl as [fv Hl]. exists h, l, fv. repeat split; auto.
    rewrite Hs. f_equal. destruct t; cbn in *. now subst.
  - subst ms. cbn [allocmembers]. eexists _, _, false. split; [reflexivity|].
    split; [|split; [|split; [|split]]].
    + cbn [set_node lists]. apply list_lookup_middle. reflexivity.
    + apply deref_set_node_eq. exact (ex_intro _ _ Hs).
    + intros p Hp. now rewrite deref_set_node_ne.
    + intros l' Hl'. cbn [set_node lists].
      destruct (decide (l' < length (lists h))%nat).
      * now rewrite lookup_app_l.
      * rewrite !lookup_ge_None_2; [reflexivity|lia|].
        rewrite length_app. cbn. lia.
    + right. auto.
Qed.

Lemma type_add_member_open fuel h s t ms n ty :
  open_at h s t ms →
  ∃ h1 l fv,
    member_list_of h s t = (h1, l) ∧
    lists h1 !! l = Some (MemberList fv ms) ∧
    deref h1 s = Some (set_member_list t l) ∧
    let h2 := set_list h1 l (MemberList fv (ms ++ [Member n ty 0])) in
    let t2 := set_member_list t l in
    type_add_member fuel h s n (Some ty) =
      if is_struct t then
        '(h, sz) ← align_struct_members fuel h2 l;
        Some (set_node h s (set_size t2 sz))
      else
        sz ← size_of h2 ty;
        Some (if t_size t <? sz then set_node h2 s (set_size t2 sz) else h2).
Proof.
  intros Ho.
  destruct (member_list_of_open h s t ms Ho)
    as (h1 & l & fv & E & Hl & Hs1 & _).
  destruct Ho as (Hs & Hk & Hnx & _).
  exists h1, l, fv. split; [exact E|]. split; [exact Hl|]. split; [exact Hs1|].
  intros h2 t2. unfold type_add_member. rewrite Hs. cbn [mbind option_bind].
  rewrite Hk, (struct_or_union_object t Hk), (is_tagged_open t Hnx).
  cbn [orb]. rewrite !option_guard_True by reflexivity.
  cbn [mbind option_bind andb]. rewrite E, Hl. cbn [mbind option_bind func_vararg member].
  fold h2. replace (deref h2 s) with (Some t2) by (symmetry; exact Hs1).
  cbn [mbind option_bind].
  change (is_struct t2) with (is_struct t). change (is_union t2) with (is_union t).
  change (t_size t2) with (t_size t).
  destruct (is_struct t) eqn:Est; [reflexivity|].
  unfold is_struct_or_union in Hk. rewrite Est in Hk. cbn in Hk. rewrite Hk.
  reflexivity.
Qed.

(** *** Layout of unions *)

Lemma is_tagged_shape t t' :
  t_type t' = t_type t → t_next t' = t_next t → is_tagged t' = is_tagged t.
Proof.
  unfold is_tagged, is_struct_or_union, is_struct, is_union.
  now intros -> ->.
Qed.

(** [size_of] reads the kinds, the sizes and the pointers [next], and
    nothing of the member lists. *)
Lemma size_of_set_list h l ml p : size_of (set_list h l ml) p = size_of h p.
Proof. reflexivity. Qed.

(** A write to the node at [s] that keeps its kind and its [next]: the
    size read through [p] is what it was, or it is the one just written
    where it was the one of [s]. *)
Lemma size_of_set_node h s t t' p z :
  deref h s = Some t → t_type t' = t_type t → t_next t' = t_next t →
  size_of h p = Some z →
  size_of (set_node h s t') p = Some z ∨
  size_of (set_node h s t') p = Some (t_size t') ∧ z = t_size t.
Proof.
  intros Hs Hk Hnx. unfold size_of.
  pose proof (is_tagged_shape t t' Hk Hnx) as Htag.
  assert (Hs' : deref (set_node h s t') s = Some t')
    by (apply deref_set_node_eq; eauto).
  destruct (decide (p = s)) as [->|Hp].
  - rewrite Hs, Hs'. cbn [mbind option_bind]. rewrite Htag, Hnx.
    destruct (is_tagged t); [|intros [= <-]; auto].
    destruct (t_next t) as [n|]; [|discriminate]. cbn [mbind option_bind].
    destruct (decide (n = s)) as [->|Hn].
    + rewrite Hs, Hs'. cbn. intros [= <-]. auto.
    + rewrite deref_set_node_ne by exact Hn. auto.
  - rewrite deref_set_node_ne by exact Hp.
    destruct (deref h p) as [tp|]; [|discriminate]. cbn [mbind option_bind].
    destruct (is_tagged tp); [|auto].
    destruct (t_next tp) as [n|]; [|discriminate]. cbn [mbind option_bind].
    destruct (decide (n = s)) as [->|Hn].
    + rewrite Hs, Hs'. cbn. intros [= <-]. auto.
    + rewrite deref_set_node_ne by exact Hn. auto.
Qed.

Lemma size_of_set_node_same h s t t' p :
  deref h s = Some t → t_type t' = t_type t → t_next t' = t_next t →
  t_size t' = t_size t →
  size_of (set_node h s t') p = size_of h p.
Proof.
  intros Hs Hk Hnx Hsz. unfold size_of.
  pose proof (is_tagged_shape t t' Hk Hnx) as Htag.
  assert (Hs' : deref (set_node h s t') s = Some t')
    by (apply deref_set_node_eq; eauto).
  assert (Hn : ∀ n, (deref (set_node h s t') n ≫= λ tn, Some (t_size tn)) =
                    (deref h n ≫= λ tn, Some (t_size tn))).
  { intros n. destruct (decide (n = s)) as [->|Hn].
    - rewrite Hs, Hs'. cbn. now rewrite Hsz.
    - now rewrite deref_set_node_ne. }
  destruct (decide (p = s)) as [->|Hp].
  - rewrite Hs, Hs'. cbn [mbind option_bind]. rewrite Htag, Hnx, Hsz.
    destruct (is_tagged t); [|reflexivity].
    destruct (t_next t) as [n|]; [|reflexivity]. cbn [mbind option_bind].
    apply Hn.
  - rewrite deref_set_node_ne by exact Hp.
    destruct (deref h p) as [tp|]; [|reflexivity]. cbn [mbind option_bind].
    destruct (is_tagged tp); [|reflexivity].
    destruct (t_next tp) as [n|]; [|reflexivity]. cbn [mbind option_bind].
    apply Hn.
Qed.

Lemma size_of_member_list_of h s t ms h1 l p :
  open_at h s t ms → member_list_of h s t = (h1, l) →
  size_of h1 p = size_of h p.
Proof.
  intros (Hs & _ & _ & _). unfold member_list_of.
  destruct (t_member_list t) as [l0|] eqn:El; [now intros [= <- _]|].
  cbn [allocmembers]. intros [= <- _].
  exact (size_of_set_node_same
           (HeapOf (types h) (lists h ++ [MemberList false []])) s t
           (set_member_list t (length (lists h))) p Hs eq_refl eq_refl eq_refl).
Qed.

(** The union under declaration at [s], with members [ms]: none of them
    is larger than the union, and the size of the union is the size of
    one of them, or 0. *)
Definition union_inv (h : heap) (s : type_ptr) (ms : list member_t) : Prop :=
  ∃ t, open_at h s t ms ∧ is_union t = true ∧ 0 ≤ t_size t ∧
       Forall (λ f, ∃ z, size_of h (m_type f) = Some z ∧ z ≤ t_size t) ms ∧
       (t_size t = 0 ∨
        ∃ f, f ∈ ms ∧ size_of h (m_type f) = Some (t_size t)).

Lemma is_union_not_struct t : is_union t = true → is_struct t = false.
Proof. unfold is_union, is_struct. destruct (t_type t); cbn; congruence. Qed.

Lemma type_add_member_union fuel h s ms n ty :
  union_inv h s ms → is_Some (size_of h ty) →
  ∃ h', type_add_member fuel h s n (Some ty) = Some h' ∧
        union_inv h' s (ms ++ [Member n ty 0]) ∧
        (∀ p, p ≠ s → deref h' p = deref h p) ∧
        (∀ p, is_Some (size_of h p) → is_Some (size_of h' p)).
Proof.
  intros (t & Ho & Hu & Hpos & Hall & Hmax) [r Hr].
  destruct (type_add_member_open fuel h s t ms n ty Ho)
    as (h1 & l & fv & E & Hl & Hs1 & Hadd).
  destruct (member_list_of_open h s t ms Ho)
    as (h1' & l' & fv' & E' & _ & _ & Hfr & _).
  rewrite E in E'. injection E' as <- <-. clear fv'.
  cbn zeta in Hadd. rewrite (is_union_not_struct t Hu) in Hadd.
  set (m := Member n ty 0) in *.
  set (h2 := set_list h1 l (MemberList fv (ms ++ [m]))) in *.
  set (t2 := set_member_list t l) in *.
  assert (Hsz1 : ∀ p, size_of h2 p = size_of h p).
  { intros p. unfold h2. rewrite size_of_set_list.
    exact (size_of_member_list_of h s t ms h1 l p Ho E). }
  assert (Hl2 : lists h2 !! l = Some (MemberList fv (ms ++ [m])))
    by (apply lists_set_list_eq; eauto).
  assert (Hs2 : deref h2 s = Some t2) by exact Hs1.
  assert (Hfr2 : ∀ p, p ≠ s → deref h2 p = deref h p) by exact Hfr.
  destruct Ho as (Hs & Hk & Hnx & _).
  rewrite Hsz1, Hr in Hadd. cbn [mbind option_bind] in Hadd.
  destruct (Z.ltb_spec (t_size t) r) as [Hlt|Hge].
  - (* the union grows to the size of the new member *)
    set (t3 := set_size t2 r) in *.
    set (h3 := set_node h2 s t3) in *.
    assert (Hrd : ∀ p z, size_of h p = Some z →
                         size_of h3 p = Some z ∨
                         size_of h3 p = Some r ∧ z = t_size t).
    { intros p z Hz. rewrite <- Hsz1 in Hz.
      exact (size_of_set_node h2 s t2 t3 p z Hs2 eq_refl eq_refl Hz). }
    exists h3. split; [exact Hadd|]. split; [|split].
    + exists t3. split; [|split; [exact Hu|split; [cbn; lia|split]]].
      * split; [apply deref_set_node_eq; eauto|].
        split; [exact Hk|]. split; [exact Hnx|]. cbn. exists fv. exact Hl2.
      * change (t_size t3) with r. apply Forall_app. split.
        -- eapply Forall_impl; [exact Hall|]. cbn. intros f (z & Hz & Hle).
           destruct (Hrd _ _ Hz) as [H|[H _]]; eauto with lia.
        -- repeat constructor. cbn [m m_type].
           destruct (Hrd _ _ Hr) as [H|[H _]]; eauto with lia.
      * right. exists m. split; [apply elem_of_app; right; constructor|].
        change (t_size t3) with r. cbn [m m_type].
        destruct (Hrd _ _ Hr) as [H|[H _]]; exact H.
    + intros p Hp. unfold h3. rewrite deref_set_node_ne by exact Hp. auto.
    + intros p [z Hz]. destruct (Hrd _ _ Hz) as [H|[H _]]; eauto.
  - (* the union keeps its size *)
    exists h2. split; [exact Hadd|]. split; [|split].
    + exists t2. split; [|split; [exact Hu|split; [exact Hpos|split]]].
      * split; [exact Hs2|]. split; [exact Hk|]. split; [exact Hnx|].
        cbn. exists fv. exact Hl2.
      * change (t_size t2) with (t_size t). apply Forall_app. split.
        -- eapply Forall_impl; [exact Hall|]. cbn. intros f (z & Hz & Hle).
           exists z. rewrite Hsz1. auto.
        -- repeat constructor. cbn [m m_type]. exists r. rewrite Hsz1. auto.
      * change (t_size t2) with (t_size t).
        destruct Hmax as [H0|(f & Hf & Hz)]; [now left|right].
        exists f. split; [apply elem_of_app; now left|]. now rewrite Hsz1.
    + exact Hfr2.
    + intros p. now rewrite Hsz1.
Qed.

Lemma add_members_union fuel s fields :
  ∀ h ms, union_inv h s ms → Forall (λ f, is_Some (size_of h f.2)) fields →
    ∃ h', add_members fuel h s fields = Some h' ∧
          union_inv h' s (ms ++ ((λ f, Member f.1 f.2 0) <$> fields)) ∧
          (∀ p, p ≠ s → deref h' p = deref h p).
Proof.
  induction fields as [|[n ty] fs IH]; intros h ms Hinv Hall.
  - exists h. rewrite app_nil_r. auto.
  - inversion Hall as [|? ? Hty Hrest]; subst.
    destruct (type_add_member_union fuel h s ms n ty Hinv Hty)
      as (h1 & E1 & Hinv1 & Hfr1 & Hsz1).
    destruct (IH h1 _ Hinv1) as (h' & E' & Hinv' & Hfr').
    { eapply Forall_impl; [exact Hrest|]. cbn. intros f. apply Hsz1. }
    exists h'. cbn [add_members]. rewrite E1. cbn [mbind option_bind].
    split; [exact E'|]. split.
    + rewrite fmap_cons. cbn [fst snd].
      rewrite <- app_assoc in Hinv'. exact Hinv'.
    + intros p Hp. rewrite Hfr' by exact Hp. auto.
Qed.

(** X1.  A union built by any sequence of [type_add_member] calls on a
    node as [type_init] leaves it, with member types that are in the
    store, is produced.  Right after the calls it has the members in
    declaration order, all at offset 0; no member is larger than the
    union, and the size of the union is the size of one of its members (0
    when there is none of positive size).  The size is not rounded up to
    the alignment, and no node but the union is written to.  (The calls
    compare sizes as they are when a member is added: the size of the
    union is not looked at again when the type of a member is extended
    later.) *)
Theorem union_members_added (fuel : nat) (h : heap) (s : type_ptr)
    (q : Z) (tag : option string) (fields : list (option string * type_ptr)) :
  deref h s = Some (Typetree T_UNION 0 q None tag None) →
  Forall (λ f, is_Some (size_of h f.2)) fields →
  ∃ h' sz,
    add_members fuel h s fields = Some h' ∧
    members_of h' s = Some ((λ f, Member f.1 f.2 0) <$> fields) ∧
    size_of h' s = Some sz ∧ 0 ≤ sz ∧
    Forall (λ f, ∃ z, size_of h' f.2 = Some z ∧ z ≤ sz) fields ∧
    (sz = 0 ∨ ∃ f, f ∈ fields ∧ size_of h' f.2 = Some sz) ∧
    (∀ p, p ≠ s → deref h' p = deref h p).
Proof.
  intros Hs Hall.
  destruct (add_members_union fuel s fields h []) as (h' & E & Hinv & Hfr).
  { exists (Typetree T_UNION 0 q None tag None).
    split; [|split; [reflexivity|split; [cbn; lia|split]]].
    - split; [exact Hs|]. repeat split.
    - constructor.
    - now left. }
  { exact Hall. }
  rewrite app_nil_l in Hinv.
  destruct Hinv as (t & Ho & Hu & Hpos & Hle & Hmax).
  exists h', (t_size t). split; [exact E|].
  split; [exact (open_at_members _ _ _ _ Ho)|]. split.
  { destruct Ho as (Hs' & _ & Hnx & _). unfold size_of. rewrite Hs'.
    cbn [mbind option_bind]. now rewrite (is_tagged_open t Hnx). }
  split; [exact Hpos|]. split; [|split; [|exact Hfr]].
  - rewrite Forall_fmap in Hle. eapply Forall_impl; [exact Hle|].
    cbn. auto.
  - destruct Hmax as [H0|(f & Hf & Hz)]; [now left|right].
    apply list_elem_of_fmap in Hf as (g & -> & Hg). exists g. auto.
Qed.

(** *** What a part of the store depends on

    A part of the store, the nodes in [T] and the member lists in [L],
    that is closed under the pointers: [next] and [member_list] of a node
    in [T] and the types of the members of a list in [L] are in the part
    again.  What [type_alignment] and [size_of] return for a node of such
    a part depends on nothing outside of it. *)

Section Region.

Variable T : type_ptr → Prop.
Variable L : list_ptr → Prop.

Definition closed_in (h : heap) : Prop :=
  (∀ p, T p → ∃ t, deref h p = Some t ∧
                   (∀ n, t_next t = Some n → T n) ∧
                   (∀ l, t_member_list t = Some l → L l)) ∧
  (∀ l, L l → ∃ ml, lists h !! l = Some ml ∧
                    Forall (λ f, T (m_type f)) (member ml)).

(** The two stores hold the same in the part. *)
Definition agree (h h' : heap) : Prop :=
  (∀ p, T p → deref h' p = deref h p) ∧
  (∀ l, L l → lists h' !! l = lists h !! l).

Lemma agree_refl h : agree h h.
Proof. split; reflexivity. Qed.

Lemma agree_trans h1 h2 h3 : agree h1 h2 → agree h2 h3 → agree h1 h3.
Proof.
  intros [A1 B1] [A2 B2]. split; intros x Hx.
  - now rewrite A2, A1.
  - now rewrite B2, B1.
Qed.

Lemma closed_in_agree h h' : closed_in h → agree h h' → closed_in h'.
Proof.
  intros [Cn Cl] [An Al]. split.
  - intros p Hp. rewrite An by exact Hp. auto.
  - intros l Hl. rewrite Al by exact Hl. auto.
Qed.

Lemma agree_set_node h s t : ¬ T s → agree h (set_node h s t).
Proof.
  intros Hs. split; [|reflexivity].
  intros p Hp. apply deref_set_node_ne. congruence.
Qed.

Lemma agree_set_list h l ml : ¬ L l → agree h (set_list h l ml).
Proof.
  intros Hl. split; [reflexivity|].
  intros l' Hl'. apply lists_set_list_ne. congruence.
Qed.

Lemma size_of_agree h h' p :
  closed_in h → agree h h' → T p → size_of h' p = size_of h p.
Proof.
  intros [Cn _] [An _] Hp. unfold size_of. rewrite An by exact Hp.
  destruct (Cn p Hp) as (t & -> & Hnx & _). cbn [mbind option_bind].
  destruct (is_tagged t); [|reflexivity].
  destruct (t_next t) as [n|] eqn:En; [|reflexivity]. cbn [mbind option_bind].
  now rewrite An by auto.
Qed.

Lemma members_alignment_ext (f g : type_ptr → option Z) ms :
  Forall (λ m, f (m_type m) = g (m_type m)) ms →
  ∀ m, members_alignment f ms m = members_alignment g ms m.
Proof.
  induction 1 as [|x ms Hx _ IH]; intros m; [reflexivity|].
  cbn [members_alignment]. rewrite Hx. destruct (g (m_type x)); cbn; auto.
Qed.

Lemma type_alignment_agree h h' :
  closed_in h → agree h h' →
  ∀ fuel p, T p → type_alignment fuel h' p = type_alignment fuel h p.
Proof.
  intros [Cn Cl] [An Al]. induction fuel as [|fuel IH]; intros p Hp;
    [reflexivity|].
  cbn [type_alignment]. rewrite An by exact Hp.
  destruct (Cn p Hp) as (t & -> & Hnx & Hml). cbn [mbind option_bind].
  destruct (guard (is_object t = true)); [|reflexivity].
  cbn [mbind option_bind].
  assert (Hagg :
    (unwrapped h' p ≫= λ u, deref h' u ≫= λ tu, members h' tu ≫= λ ms,
       members_alignment (type_alignment fuel h') ms 0 ≫= λ m,
       guard (m ≠ 0);; Some m) =
    (unwrapped h p ≫= λ u, deref h u ≫= λ tu, members h tu ≫= λ ms,
       members_alignment (type_alignment fuel h) ms 0 ≫= λ m,
       guard (m ≠ 0);; Some m)).
  { unfold unwrapped. rewrite An by exact Hp.
    destruct (Cn p Hp) as (t' & E' & Hnx' & _). rewrite E'.
    cbn [mbind option_bind].
    assert (Hu : ∀ u, T u →
      (deref h' u ≫= λ tu, members h' tu ≫= λ ms,
         members_alignment (type_alignment fuel h') ms 0 ≫= λ m,
         guard (m ≠ 0);; Some m) =
      (deref h u ≫= λ tu, members h tu ≫= λ ms,
         members_alignment (type_alignment fuel h) ms 0 ≫= λ m,
         guard (m ≠ 0);; Some m)).
    { intros u Hu. rewrite An by exact Hu.
      destruct (Cn u Hu) as (tu & -> & _ & Hlu). cbn [mbind option_bind].
      unfold members. destruct (t_member_list tu) as [l|] eqn:El;
        [|reflexivity].
      rewrite Al by auto. destruct (Cl l (Hlu l eq_refl)) as (ml & -> & Hms).
      cbn [mbind option_bind].
      rewrite (members_alignment_ext (type_alignment fuel h')
                 (type_alignment fuel h)); [reflexivity|].
      eapply Forall_impl; [exact Hms|]. cbn. intros f Hf. now apply IH. }
    destruct (is_tagged t'); [|now apply Hu].
    destruct (t_next t') as [n|] eqn:En; [|reflexivity].
    cbn [mbind option_bind]. apply Hu. auto. }
  destruct (t_type t); try reflexivity; try exact Hagg.
  destruct (t_next t) as [n|] eqn:En; [|reflexivity]. cbn [mbind option_bind].
  apply IH. auto.
Qed.

End Region.

(** *** Layout of structs *)

(** A type that can be the type of a field: it has a positive alignment
    and a size that is not negative. *)
Definition layable (fuel : nat) (h : heap) (ty : type_ptr) : Prop :=
  ∃ a sz, type_alignment fuel h ty = Some a ∧ 0 < a ∧
          size_of h ty = Some sz ∧ 0 ≤ sz.

(** The layout of [align_struct_members] in integers without bound.
    [alignment_of] and [size_in] read the store; [laid] gives the fields
    their offsets from byte [size] on, [layout_end] is the end of the last
    field, [max_alignment] the running maximum of the loop, and
    [struct_size] the end rounded up to the strongest alignment. *)
Definition alignment_of (fuel : nat) (h : heap) (ty : type_ptr) : Z :=
  match type_alignment fuel h ty with Some a => a | None => 1 end.

Definition size_in (h : heap) (ty : type_ptr) : Z :=
  match size_of h ty with Some sz => sz | None => 0 end.

Fixpoint laid (fuel : nat) (h : heap) (fields : list member_t) (size : Z)
  : list member_t :=
  match fields with
  | [] => []
  | f :: fields =>
      let o := pad size (alignment_of fuel h (m_type f)) in
      set_offset f o :: laid fuel h fields (o + size_in h (m_type f))
  end.

Fixpoint layout_end (fuel : nat) (h : heap) (tys : list type_ptr) (size : Z)
  : Z :=
  match tys with
  | [] => size
  | ty :: tys =>
      layout_end fuel h tys
        (pad size (alignment_of fuel h ty) + size_in h ty)
  end.

Fixpoint max_alignment (fuel : nat) (h : heap) (tys : list type_ptr) (m : Z)
  : Z :=
  match tys with
  | [] => m
  | ty :: tys =>
      let a := alignment_of fuel h ty in
      max_alignment fuel h tys (if a >? m then a else m)
  end.

Definition struct_size (fuel : nat) (h : heap) (tys : list type_ptr) : Z :=
  pad (layout_end fuel h tys 0) (max_alignment fuel h tys 0).

(** Layout in declaration order with minimal padding: starting at byte
    [e], every field sits at the first multiple of its alignment that is
    not below the end of the field before it. *)
Inductive packed_in (fuel : nat) (h : heap)
  : Z → list member_t → Z → Prop :=
| packed_in_nil e : packed_in fuel h e [] e
| packed_in_cons e f fs a sz e' :
    type_alignment fuel h (m_type f) = Some a →
    size_of h (m_type f) = Some sz →
    0 < a → 0 ≤ sz →
    Z.rem (m_offset f) a = 0 →
    e ≤ m_offset f < e + a →
    packed_in fuel h (m_offset f + sz) fs e' →
    packed_in fuel h e (f :: fs) e'.

Lemma pad_int_fits size a :
  0 ≤ size → 0 < a → pad size a ≤ INT_MAX → pad_int size a = pad size a.
Proof.
  intros Hs Ha. unfold pad_int, pad.
  pose proof (pad_spec size a Hs Ha) as [_ Hr]. unfold pad in Hr.
  destruct (Z.rem size a =? 0) eqn:E; [reflexivity|]. intros Hfit.
  assert (Hrem : 0 ≤ Z.rem size a < a) by (apply Z.rem_bound_pos; lia).
  rewrite (to_int_small (a - Z.rem size a)) by (unfold INT_MIN, INT_MAX in *; lia).
  apply to_int_small. unfold INT_MIN, INT_MAX in *. lia.
Qed.

Lemma layout_end_app fuel h xs :
  ∀ ys size, layout_end fuel h (xs ++ ys) size =
             layout_end fuel h ys (layout_end fuel h xs size).
Proof. induction xs as [|x xs IH]; intros ys size; cbn; auto. Qed.

Lemma layout_end_ge fuel h tys :
  Forall (layable fuel h) tys →
  ∀ size, 0 ≤ size → size ≤ layout_end fuel h tys size.
Proof.
  induction 1 as [|ty tys (a & sz & Ha & Hpos & Hsz & Hnn) _ IH]; intros size Hs;
    cbn [layout_end]; [lia|].
  unfold alignment_of, size_in. rewrite Ha, Hsz. cbn beta iota.
  pose proof (pad_spec size a Hs Hpos) as [_ Hr].
  etransitivity; [|apply IH]; lia.
Qed.

Lemma max_alignment_app fuel h xs :
  ∀ ys m, max_alignment fuel h (xs ++ ys) m =
          max_alignment fuel h ys (max_alignment fuel h xs m).
Proof. induction xs as [|x xs IH]; intros ys m; cbn; auto. Qed.

Lemma max_alignment_ge fuel h tys :
  ∀ m, m ≤ max_alignment fuel h tys m.
Proof.
  induction tys as [|ty tys IH]; intros m; cbn [max_alignment]; [lia|].
  cbn zeta. etransitivity; [|apply IH].
  destruct (Z.gtb_spec (alignment_of fuel h ty) m); lia.
Qed.

Lemma max_alignment_pos fuel h tys :
  Forall (layable fuel h) tys → tys ≠ [] →
  ∀ m, 0 ≤ m → 0 < max_alignment fuel h tys m.
Proof.
  intros Hall Hne m Hm. destruct Hall as [|ty tys (a & sz & Ha & Hpos & _) _];
    [congruence|].
  cbn [max_alignment]. cbn zeta. unfold alignment_of at 1 2. rewrite Ha.
  cbn beta iota.
  eapply Z.lt_le_trans; [|apply max_alignment_ge].
  destruct (Z.gtb_spec a m); lia.
Qed.

Lemma laid_types fuel h fs :
  ∀ size, m_type <$> laid fuel h fs size = m_type <$> fs.
Proof. induction fs as [|f fs IH]; intros size; cbn; [|rewrite IH]; auto. Qed.

Lemma laid_names fuel h fs :
  ∀ size, m_name <$> laid fuel h fs size = m_name <$> fs.
Proof. induction fs as [|f fs IH]; intros size; cbn; [|rewrite IH]; auto. Qed.

Lemma laid_app fuel h fs :
  ∀ gs size,
    laid fuel h (fs ++ gs) size =
    laid fuel h fs size ++
    laid fuel h gs (layout_end fuel h (m_type <$> fs) size).
Proof.
  induction fs as [|f fs IH]; intros gs size; [reflexivity|].
  cbn [app laid fmap list_fmap layout_end]. cbn zeta. now rewrite IH.
Qed.

(** What the loop of [align_struct_members] returns where the layout fits
    an [int]. *)
Lemma align_fields_laid fuel h fields :
  ∀ size m,
    Forall (λ f, layable fuel h (m_type f)) fields → 0 ≤ size →
    layout_end fuel h (m_type <$> fields) size ≤ INT_MAX →
    align_fields fuel h fields size m =
      Some (laid fuel h fields size,
            layout_end fuel h (m_type <$> fields) size,
            max_alignment fuel h (m_type <$> fields) m).
Proof.
  induction fields as [|f fs IH]; intros size m Hall Hs Hfit; [reflexivity|].
  inversion Hall as [|? ? (a & sz & Ha & Hpos & Hsz & Hnn) Hrest]; subst.
  cbn [fmap list_fmap layout_end] in Hfit.
  cbn [align_fields laid layout_end max_alignment fmap list_fmap]. cbn zeta.
  unfold alignment_of, size_in in *. rewrite Ha, Hsz in *. cbn beta iota in *.
  cbn [mbind option_bind].
  pose proof (pad_spec size a Hs Hpos) as [Hrem Hr].
  assert (Hge : pad size a + sz ≤ INT_MAX).
  { etransitivity; [|exact Hfit]. apply layout_end_ge; [|lia].
    apply Forall_fmap. exact Hrest. }
  rewrite option_guard_True by lia. cbn [mbind option_bind].
  rewrite pad_int_fits by lia.
  rewrite option_guard_True by exact Hrem.
  cbn [mbind option_bind set_offset m_type]. rewrite Hsz.
  cbn [mbind option_bind].
  rewrite to_int_small by (unfold INT_MIN, INT_MAX in *; lia).
  rewrite IH by (auto; lia). reflexivity.
Qed.

Lemma members_alignment_max fuel h fields :
  ∀ m, Forall (λ f, layable fuel h (m_type f)) fields →
       members_alignment (type_alignment fuel h) fields m =
         Some (max_alignment fuel h (m_type <$> fields) m).
Proof.
  induction fields as [|f fs IH]; intros m Hall; [reflexivity|].
  inversion Hall as [|? ? (a & sz & Ha & _) Hrest]; subst.
  cbn [members_alignment max_alignment fmap list_fmap]. cbn zeta.
  unfold alignment_of. rewrite Ha. cbn [mbind option_bind].
  now apply IH.
Qed.

Lemma laid_packed fuel h fields :
  ∀ size, Forall (λ f, layable fuel h (m_type f)) fields → 0 ≤ size →
          packed_in fuel h size (laid fuel h fields size)
                    (layout_end fuel h (m_type <$> fields) size).
Proof.
  induction fields as [|f fs IH]; intros size Hall Hs; [constructor|].
  inversion Hall as [|? ? (a & sz & Ha & Hpos & Hsz & Hnn) Hrest]; subst.
  cbn [laid layout_end fmap list_fmap]. cbn zeta.
  unfold alignment_of, size_in. rewrite Ha, Hsz. cbn beta iota.
  pose proof (pad_spec size a Hs Hpos) as [Hrem Hr].
  econstructor; cbn [set_offset m_type m_offset]; eauto.
  apply IH; [exact Hrest|lia].
Qed.

(** The members of a packed list lie between its start and its end. *)
Lemma packed_in_bounds fuel h e fs e' :
  packed_in fuel h e fs e' →
  e ≤ e' ∧
  Forall (λ f, ∃ sz, size_of h (m_type f) = Some sz ∧
                     e ≤ m_offset f ∧ m_offset f + sz ≤ e') fs.
Proof.
  induction 1 as [|e f fs a sz e' Ha Hsz Hpos Hnn Hrem Hoff Hpk [Hle Hall]].
  - split; [lia|constructor].
  - split; [lia|]. constructor; [exists sz; split; [exact Hsz|lia]|].
    eapply Forall_impl; [exact Hall|]. cbn. intros g (z & Hz & ?).
    exists z. split; [exact Hz|lia].
Qed.

Lemma packed_in_app_inv fuel h fs :
  ∀ e gs e', packed_in fuel h e (fs ++ gs) e' →
             ∃ e1, packed_in fuel h e fs e1 ∧ packed_in fuel h e1 gs e'.
Proof.
  induction fs as [|f fs IH]; intros e gs e' H; cbn in H.
  - exists e. split; [constructor|exact H].
  - inversion H as [|? ? ? a sz ? Ha Hsz Hpos Hnn Hrem Hoff Hpk]; subst.
    destruct (IH _ _ _ Hpk) as (e1 & H1 & H2).
    exists e1. split; [econstructor; eauto|exact H2].
Qed.

Lemma laid_idem fuel h fs :
  ∀ size, laid fuel h (laid fuel h fs size) size = laid fuel h fs size.
Proof.
  induction fs as [|f fs IH]; intros size; [reflexivity|].
  cbn [laid set_offset m_type]. cbn zeta. now rewrite IH.
Qed.

Lemma add_members_snoc fuel s fs :
  ∀ h n ty,
    add_members fuel h s (fs ++ [(n, ty)]) =
    h' ← add_members fuel h s fs; type_add_member fuel h' s n (Some ty).
Proof.
  induction fs as [|[n0 ty0] fs IH]; intros h n ty; cbn [app add_members].
  - cbn [mbind option_bind].
    destruct (type_add_member fuel h s n (Some ty)); reflexivity.
  - destruct (type_add_member fuel h s n0 (Some ty0)); [apply IH|reflexivity].
Qed.

Section Struct.

Variable T : type_ptr → Prop.
Variable L : list_ptr → Prop.

Lemma align_fields_agree fuel h h' fields :
  closed_in T L h → agree T L h h' →
  Forall (λ f, T (m_type f)) fields →
  ∀ size m, align_fields fuel h' fields size m =
            align_fields fuel h fields size m.
Proof.
  intros Hc Ha. induction 1 as [|f fs Hf _ IH]; intros size m; [reflexivity|].
  cbn [align_fields].
  rewrite (type_alignment_agree T L h h' Hc Ha fuel _ Hf).
  destruct (type_alignment fuel h (m_type f)) as [a|]; [|reflexivity].
  cbn [mbind option_bind].
  destruct (guard (a ≠ 0)); [|reflexivity]. cbn [mbind option_bind].
  match goal with |- context [guard ?P] => destruct (guard P) end;
    [|reflexivity].
  cbn [mbind option_bind set_offset m_type].
  rewrite (size_of_agree T L h h' _ Hc Ha Hf).
  destruct (size_of h (m_type f)) as [sz|]; [|reflexivity].
  cbn [mbind option_bind]. now rewrite IH.
Qed.

Lemma packed_in_agree fuel h h' :
  closed_in T L h → agree T L h h' →
  ∀ e fs e', Forall (λ f, T (m_type f)) fs →
             packed_in fuel h e fs e' → packed_in fuel h' e fs e'.
Proof.
  intros Hc Ha e fs e' Hall Hpk. induction Hpk; [constructor|].
  inversion Hall; subst. econstructor; eauto.
  - now rewrite (type_alignment_agree T L h h' Hc Ha).
  - now rewrite (size_of_agree T L h h' _ Hc Ha).
Qed.

Variable fuel : nat.
Variable h0 : heap.
Variable s : type_ptr.

Hypothesis closed : closed_in T L h0.
Hypothesis outside : ¬ T s.

(** The struct under declaration at [s], in a store [h] that holds in
    the part what [h0] holds: its members have their types in the part,
    and the offsets that [align_struct_members] gives them. *)
Definition struct_inv (h : heap) (ms : list member_t) : Prop :=
  agree T L h0 h ∧
  (∃ t, open_at h s t ms ∧ is_struct t = true ∧
        ∀ l, t_member_list t = Some l → ¬ L l) ∧
  Forall (λ f, T (m_type f) ∧ layable fuel h0 (m_type f)) ms ∧
  laid fuel h0 ms 0 = ms.

Lemma type_add_member_struct_in h ms n ty :
  struct_inv h ms → T ty → layable fuel h0 ty →
  layout_end fuel h0 ((m_type <$> ms) ++ [ty]) 0 ≤ INT_MAX →
  let o := pad (layout_end fuel h0 (m_type <$> ms) 0) (alignment_of fuel h0 ty) in
  let e := layout_end fuel h0 ((m_type <$> ms) ++ [ty]) 0 in
  let M := max_alignment fuel h0 ((m_type <$> ms) ++ [ty]) 0 in
  ∃ h' t',
    type_add_member fuel h s n (Some ty) = Some h' ∧
    struct_inv h' (ms ++ [Member n ty o]) ∧
    (∀ p, p ≠ s → deref h' p = deref h p) ∧
    deref h' s = Some t' ∧ is_struct t' = true ∧ t_next t' = None ∧
    t_size t' = pad_int e M ∧ 0 < M ∧ 0 ≤ e.
Proof.
  intros (Hag & (t & Ho & Hst & HnL) & Hall & Hlaid) HT Hlay Hfit o e M.
  destruct (type_add_member_open fuel h s t ms n ty Ho)
    as (h1 & l & fv & E & Hl & Hs1 & Hadd).
  destruct (member_list_of_open h s t ms Ho)
    as (h1' & l' & fv' & E' & _ & _ & Hfr & Hlfr & Hcase).
  rewrite E in E'. injection E' as <- <-. clear fv'.
  cbn zeta in Hadd. rewrite Hst in Hadd.
  pose proof (closed_in_agree T L h0 h closed Hag) as Hch.
  assert (HlL : ¬ L l).
  { destruct Hcase as [Hc|[_ ->]]; [now apply HnL|].
    intros HL. destruct Hch as [_ Hcl]. destruct (Hcl _ HL) as (ml & Hml & _).
    apply lookup_lt_Some in Hml. lia. }
  set (m0 := Member n ty 0) in *.
  set (h2 := set_list h1 l (MemberList fv (ms ++ [m0]))) in *.
  set (t2 := set_member_list t l) in *.
  assert (Hag1 : agree T L h h1).
  { split.
    - intros p Hp. apply Hfr. congruence.
    - intros l' Hl'. apply Hlfr. congruence. }
  assert (Hag2 : agree T L h0 h2).
  { eapply agree_trans; [exact Hag|]. eapply agree_trans; [exact Hag1|].
    apply agree_set_list. exact HlL. }
  assert (Hall' : Forall (λ f, T (m_type f) ∧ layable fuel h0 (m_type f))
                         (ms ++ [m0]))
    by (apply Forall_app; split; [exact Hall|repeat constructor; assumption]).
  assert (HallT : Forall (λ f, T (m_type f)) (ms ++ [m0]))
    by (eapply Forall_impl; [exact Hall'|]; cbn; tauto).
  assert (HallL : Forall (λ f, layable fuel h0 (m_type f)) (ms ++ [m0]))
    by (eapply Forall_impl; [exact Hall'|]; cbn; tauto).
  assert (Htys : m_type <$> (ms ++ [m0]) = (m_type <$> ms) ++ [ty])
    by (now rewrite fmap_app).
  assert (Hal : align_fields fuel h2 (ms ++ [m0]) 0 0 =
                Some (laid fuel h0 (ms ++ [m0]) 0, e, M)).
  { rewrite (align_fields_agree fuel h0 h2 _ closed Hag2 HallT).
    rewrite align_fields_laid; [now rewrite Htys|exact HallL|lia|].
    now rewrite Htys. }
  assert (HM : 0 < M).
  { unfold M. rewrite <- Htys. apply max_alignment_pos; [|now destruct ms|lia].
    apply Forall_fmap. exact HallL. }
  assert (He : 0 ≤ e).
  { unfold e. rewrite <- Htys. apply layout_end_ge; [|lia].
    apply Forall_fmap. exact HallL. }
  assert (Hl2 : lists h2 !! l = Some (MemberList fv (ms ++ [m0])))
    by (apply lists_set_list_eq; eauto).
  assert (Hnew : laid fuel h0 (ms ++ [m0]) 0 = ms ++ [Member n ty o]).
  { rewrite laid_app, Hlaid. reflexivity. }
  unfold align_struct_members in Hadd. rewrite Hl2 in Hadd.
  cbn [mbind option_bind member func_vararg] in Hadd. rewrite Hal in Hadd.
  cbn [mbind option_bind] in Hadd.
  rewrite option_guard_True in Hadd by lia. cbn [mbind option_bind] in Hadd.
  rewrite Hnew in Hadd.
  set (h3 := set_list h2 l (MemberList fv (ms ++ [Member n ty o]))) in *.
  set (t3 := set_size t2 (pad_int e M)) in *.
  destruct Ho as (Hs & Hk & Hnx & _).
  assert (Hs3 : deref h3 s = Some t2) by exact Hs1.
  exists (set_node h3 s t3), t3. split; [exact Hadd|].
  assert (Hs' : deref (set_node h3 s t3) s = Some t3)
    by (apply deref_set_node_eq; eauto).
  split; [|split; [|repeat split; auto]].
  - split; [|split; [|split]].
    + eapply agree_trans; [exact Hag2|].
      eapply agree_trans; [apply agree_set_list; exact HlL|].
      apply agree_set_node. exact outside.
    + exists t3. split; [|split; [exact Hst|]].
      * split; [exact Hs'|]. split; [exact Hk|]. split; [exact Hnx|].
        change (∃ fv0, lists h3 !! l =
                         Some (MemberList fv0 (ms ++ [Member n ty o]))).
        exists fv. apply (lists_set_list_eq h2). eauto.
      * cbn. intros ? [= <-]. exact HlL.
    + apply Forall_app. split; [exact Hall|]. repeat constructor; assumption.
    + rewrite <- Hnew. apply laid_idem.
  - intros p Hp. rewrite deref_set_node_ne by exact Hp. apply Hfr. exact Hp.
Qed.

Lemma add_members_struct_in fields :
  ∀ h ms,
    struct_inv h ms →
    Forall (λ f, T f.2 ∧ layable fuel h0 f.2) fields →
    layout_end fuel h0 ((m_type <$> ms) ++ (snd <$> fields)) 0 ≤ INT_MAX →
    ∃ h' ms',
      add_members fuel h s fields = Some h' ∧
      struct_inv h' (ms ++ ms') ∧
      (λ f, (m_name f, m_type f)) <$> ms' = fields ∧
      (∀ p, p ≠ s → deref h' p = deref h p).
Proof.
  induction fields as [|[n ty] fs IH]; intros h ms Hinv Hall Hfit.
  - exists h, []. rewrite app_nil_r. auto.
  - inversion Hall as [|? ? [HT Hlay] Hrest]; subst. cbn [fst snd] in *.
    assert (Hms : Forall (layable fuel h0) (snd <$> fs)).
    { apply Forall_fmap. eapply Forall_impl; [exact Hrest|]. cbn. tauto. }
    assert (Hfit1 : layout_end fuel h0 ((m_type <$> ms) ++ [ty]) 0 ≤ INT_MAX).
    { rewrite fmap_cons, cons_middle, app_assoc, layout_end_app in Hfit.
      cbn [snd] in Hfit. eapply Z.le_trans; [|exact Hfit].
      apply layout_end_ge; [exact Hms|].
      destruct Hinv as (_ & _ & Hl & _).
      apply layout_end_ge; [|lia]. apply Forall_app. split.
      - apply Forall_fmap. eapply Forall_impl; [exact Hl|]. cbn. tauto.
      - repeat constructor. exact Hlay. }
    destruct (type_add_member_struct_in h ms n ty Hinv HT Hlay Hfit1)
      as (h1 & t1 & E1 & Hinv1 & Hfr1 & _).
    destruct (IH h1 _ Hinv1 Hrest) as (h' & ms' & E' & Hinv' & Hsig & Hfr').
    { rewrite fmap_app. cbn [fmap list_fmap m_type].
      rewrite <- app_assoc. exact Hfit. }
    exists h', (Member n ty
                  (pad (layout_end fuel h0 (m_type <$> ms) 0)
                       (alignment_of fuel h0 ty)) :: ms').
    cbn [add_members]. rewrite E1. cbn [mbind option_bind].
    split; [exact E'|]. split; [|split].
    + rewrite <- app_assoc in Hinv'. exact Hinv'.
    + rewrite fmap_cons, Hsig. reflexivity.
    + intros p Hp. rewrite Hfr' by exact Hp. auto.
Qed.

End Struct.

Lemma is_struct_kind t : is_struct t = true → t_type t = T_STRUCT.
Proof. unfold is_struct. destruct (t_type t); cbn; congruence. Qed.

Lemma type_alignment_struct_at fuel h s t ms M :
  open_at h s t ms → is_struct t = true →
  members_alignment (type_alignment fuel h) ms 0 = Some M → M ≠ 0 →
  type_alignment (S fuel) h s = Some M.
Proof.
  intros Ho Hst Hma HM. pose proof (open_at_members h s t ms Ho) as Hms.
  destruct Ho as (Hs & Hk & Hnx & _). unfold members_of in Hms.
  rewrite Hs in Hms. cbn [mbind option_bind] in Hms.
  cbn [type_alignment]. rewrite Hs. cbn [mbind option_bind].
  unfold is_object. rewrite (struct_or_union_object t Hk). cbn [negb].
  rewrite option_guard_True by reflexivity. cbn [mbind option_bind].
  rewrite (is_struct_kind t Hst). unfold unwrapped. rewrite Hs.
  cbn [mbind option_bind]. rewrite (is_tagged_open t Hnx).
  cbn [mbind option_bind]. rewrite Hs.
  cbn [mbind option_bind]. rewrite Hms. cbn [mbind option_bind].
  rewrite Hma. cbn [mbind option_bind].
  now rewrite option_guard_True by exact HM.
Qed.

(** X2.  A struct built by [type_add_member] calls on a node as
    [type_init] leaves it, where the types of the members are in a part of
    the store that is closed under the pointers and does not hold the
    struct (no member's type leads back to the struct), have a positive
    alignment and a size that is not negative, and where the size of the
    struct fits an [int].  Adding one more member moves no member that is
    there: the members of the longer struct are those of the shorter one,
    with their names, types and offsets, followed by the new member, which
    starts at or after the end of every member before it.  The members of
    the longer struct are packed in declaration order with minimal
    padding, each at a multiple of the alignment of its type; the size of
    the struct is the end of its last member rounded up to a multiple of
    the alignment of the struct; no node but the struct is written to. *)
Theorem struct_member_added (T : type_ptr → Prop) (L : list_ptr → Prop)
    (fuel : nat) (h : heap) (s : type_ptr) (q : Z) (tag : option string)
    (fields : list (option string * type_ptr))
    (n : option string) (ty : type_ptr) :
  closed_in T L h → ¬ T s →
  deref h s = Some (Typetree T_STRUCT 0 q None tag None) →
  Forall (λ f, T f.2 ∧ layable fuel h f.2) (fields ++ [(n, ty)]) →
  struct_size fuel h (snd <$> fields ++ [(n, ty)]) ≤ INT_MAX →
  ∃ h1 h2 ms m e M sz,
    add_members fuel h s fields = Some h1 ∧
    add_members fuel h s (fields ++ [(n, ty)]) = Some h2 ∧
    members_of h1 s = Some ms ∧
    members_of h2 s = Some (ms ++ [m]) ∧
    (λ f, (m_name f, m_type f)) <$> ms = fields ∧
    m_name m = n ∧ m_type m = ty ∧
    Forall (λ f, ∃ z, size_of h2 (m_type f) = Some z ∧
                      m_offset f + z ≤ m_offset m) ms ∧
    packed_in fuel h2 0 (ms ++ [m]) e ∧
    type_alignment (S fuel) h2 s = Some M ∧
    size_of h2 s = Some sz ∧ Z.rem sz M = 0 ∧ e ≤ sz < e + M ∧
    (∀ p, p ≠ s → deref h2 p = deref h p).
Proof.
  intros Hc HsT Hs Hall Hfit.
  apply Forall_app in Hall as [Hfs Hty].
  inversion Hty as [|? ? [HT Hlay] _]; subst. cbn [snd] in HT, Hlay.
  rewrite fmap_app in Hfit. cbn [fmap list_fmap snd] in Hfit.
  assert (Hfl : Forall (layable fuel h) (snd <$> fields)).
  { apply Forall_fmap. eapply Forall_impl; [exact Hfs|]. cbn. tauto. }
  assert (Hal : Forall (layable fuel h) ((snd <$> fields) ++ [ty])).
  { apply Forall_app. split; [exact Hfl|]. repeat constructor. exact Hlay. }
  assert (HM0 : 0 < max_alignment fuel h ((snd <$> fields) ++ [ty]) 0)
    by (apply max_alignment_pos; [exact Hal|now destruct (snd <$> fields)|lia]).
  assert (He0 : 0 ≤ layout_end fuel h ((snd <$> fields) ++ [ty]) 0)
    by (apply layout_end_ge; [exact Hal|lia]).
  pose proof (pad_spec _ _ He0 HM0) as [Hrem Hrange].
  fold (struct_size fuel h ((snd <$> fields) ++ [ty])) in Hrem, Hrange.
  assert (Hfit1 : layout_end fuel h ((snd <$> fields) ++ [ty]) 0 ≤ INT_MAX)
    by lia.
  assert (Hinv0 : struct_inv T L fuel h s h []).
  { split; [apply agree_refl|]. split; [|split; [constructor|reflexivity]].
    exists (Typetree T_STRUCT 0 q None tag None).
    split; [|split; [reflexivity|discriminate]].
    split; [exact Hs|]. repeat split. }
  destruct (add_members_struct_in T L fuel h s Hc HsT fields h [] Hinv0 Hfs)
    as (h1 & ms & E1 & Hinv1 & Hsig & Hfr1).
  { cbn [fmap list_fmap app]. eapply Z.le_trans; [|exact Hfit1].
    rewrite layout_end_app. apply layout_end_ge.
    - repeat constructor. exact Hlay.
    - apply layout_end_ge; [exact Hfl|lia]. }
  rewrite app_nil_l in Hinv1.
  assert (Htys : m_type <$> ms = snd <$> fields).
  { rewrite <- Hsig, <- list_fmap_compose. reflexivity. }
  destruct (type_add_member_struct_in T L fuel h s Hc HsT h1 ms n ty
              Hinv1 HT Hlay) as (h2 & t2 & E2 & Hinv2 & Hfr2 & Hs2 & Hst2 &
                                 Hnx2 & Hsz2 & HM & He).
  { rewrite Htys. exact Hfit1. }
  rewrite Htys in *.
  set (m := Member n ty
              (pad (layout_end fuel h (snd <$> fields) 0)
                   (alignment_of fuel h ty))) in *.
  set (e := layout_end fuel h ((snd <$> fields) ++ [ty]) 0) in *.
  set (M := max_alignment fuel h ((snd <$> fields) ++ [ty]) 0) in *.
  destruct Hinv1 as (_ & (t1 & Ho1 & _) & _).
  destruct Hinv2 as (Hag2 & (t2' & Ho2 & _) & Hall2 & Hlaid2).
  assert (t2' = t2) as -> by (destruct Ho2 as [Hd _]; congruence).
  assert (HT2 : Forall (λ f, T (m_type f)) (ms ++ [m]))
    by (eapply Forall_impl; [exact Hall2|]; cbn; tauto).
  assert (HL2 : Forall (λ f, layable fuel h (m_type f)) (ms ++ [m]))
    by (eapply Forall_impl; [exact Hall2|]; cbn; tauto).
  assert (Htys2 : m_type <$> ms ++ [m] = (snd <$> fields) ++ [ty])
    by (now rewrite fmap_app, Htys).
  assert (Hpk : packed_in fuel h2 0 (ms ++ [m]) e).
  { apply (packed_in_agree T L fuel h h2 Hc Hag2); [exact HT2|].
    rewrite <- Hlaid2. unfold e. rewrite <- Htys2.
    apply laid_packed; [exact HL2|lia]. }
  exists h1, h2, ms, m, e, M, (struct_size fuel h ((snd <$> fields) ++ [ty])).
  split; [exact E1|]. split; [rewrite add_members_snoc, E1; exact E2|].
  split; [exact (open_at_members _ _ _ _ Ho1)|].
  split; [exact (open_at_members _ _ _ _ Ho2)|].
  split; [exact Hsig|]. split; [reflexivity|]. split; [reflexivity|].
  split.
  { apply packed_in_app_inv in Hpk as (e1 & Hp1 & Hp2).
    inversion Hp2 as [|? ? ? a z0 ? _ _ _ _ _ Hoff _]; subst.
    apply packed_in_bounds in Hp1 as [_ Hb].
    eapply Forall_impl; [exact Hb|]. cbn beta. intros f (z & Hz & ? & ?).
    exists z. split; [exact Hz|]. cbn [m_offset] in *. lia. }
  split; [exact Hpk|]. split.
  { apply (type_alignment_struct_at fuel h2 s t2 (ms ++ [m]) M Ho2 Hst2);
      [|lia].
    rewrite (members_alignment_ext (type_alignment fuel h2)
               (type_alignment fuel h)).
    - rewrite members_alignment_max by exact HL2. now rewrite Htys2.
    - eapply Forall_impl; [exact HT2|]. cbn. intros f Hf.
      now apply (type_alignment_agree T L h h2 Hc Hag2). }
  split.
  { unfold size_of. rewrite Hs2. cbn [mbind option_bind].
    rewrite (is_tagged_open t2 Hnx2), Hsz2. f_equal.
    apply pad_int_fits; [exact He|exact HM|exact Hfit]. }
  split; [exact Hrem|]. split; [exact Hrange|].
  intros p Hp. rewrite Hfr2 by exact Hp. auto.
Qed.

(** The store with [char], [long], the struct [{ char a; long b; }] and a
    node as [type_init(T_STRUCT)] leaves it, at places 0 to 3. *)
Definition struct_store : heap :=
  HeapOf
    [Typetree T_SIGNED 1 Q_NONE None None None;
     Typetree T_SIGNED 8 Q_NONE None None None;
     Typetree T_STRUCT 16 Q_NONE (Some 0%nat) None None;
     Typetree T_STRUCT 0 Q_NONE None None None]
    [MemberList false [Member (Some "a"%string) 0%nat 0;
                       Member (Some "b"%string) 1%nat 8]].

Lemma struct_member_added_witness :
  ∃ h1 h2 ms m e M sz,
    add_members 2 struct_store 3%nat [(Some "c"%string, 0%nat)] = Some h1 ∧
    add_members 2 struct_store 3%nat
      ([(Some "c"%string, 0%nat)] ++ [(Some "s"%string, 2%nat)]) = Some h2 ∧
    members_of h1 3%nat = Some ms ∧
    members_of h2 3%nat = Some (ms ++ [m]) ∧
    (λ f, (m_name f, m_type f)) <$> ms = [(Some "c"%string, 0%nat)] ∧
    m_name m = Some "s"%string ∧ m_type m = 2%nat ∧
    Forall (λ f, ∃ z, size_of h2 (m_type f) = Some z ∧
                      m_offset f + z ≤ m_offset m) ms ∧
    packed_in 2 h2 0 (ms ++ [m]) e ∧
    type_alignment 3 h2 3%nat = Some M ∧
    size_of h2 3%nat = Some sz ∧ Z.rem sz M = 0 ∧ e ≤ sz < e + M ∧
    (∀ p, p ≠ 3%nat → deref h2 p = deref struct_store p).
Proof.
  apply (struct_member_added (λ p, (p < 3)%nat) (λ l, (l < 1)%nat) 2
           struct_store 3%nat Q_NONE None).
  - split.
    + intros [|[|[|p]]] Hp; try lia; eexists; (split; [reflexivity|]);
        split; intros x [= <-]; lia.
    + intros [|l] Hl; [|lia]. eexists. split; [reflexivity|].
      repeat constructor.
  - lia.
  - reflexivity.
  - repeat constructor; cbn [snd]; try lia.
    + exists 1, 1. repeat split; vm_compute; congruence.
    + exists 8, 16. repeat split; vm_compute; congruence.
  - vm_compute. discriminate.
Defined.

(** A struct whose size does not fit an [int],
    [struct { char a[2147483645]; int b; }]: the padding in front of [b]
    takes the size to 2^31, which the model keeps as the [int] -2^31. *)
Definition wide_store : heap :=
  HeapOf
    [Typetree T_SIGNED 1 Q_NONE None None None;
     Typetree T_ARRAY 2147483645 Q_NONE None None (Some 0%nat);
     Typetree T_SIGNED 4 Q_NONE None None None;
     Typetree T_STRUCT 0 Q_NONE None None None]
    [].

Example struct_size_out_of_int :
  ∃ h' ms,
    add_members 2 wide_store 3%nat
      [(Some "a"%string, 1%nat); (Some "b"%string, 2%nat)] = Some h' ∧
    members_of h' 3%nat = Some ms ∧
    m_offset <$> ms = [0; -2147483648] ∧
    size_of h' 3%nat = Some (-2147483644) ∧
    struct_size 2 wide_store [1%nat; 2%nat] = 2147483652.
Proof. do 2 eexists. repeat split; vm_compute; reflexivity. Qed.

(** The store with [int], [double], [char], [char [5]] and a node as
    [type_init(T_UNION)] leaves it, at places 0 to 4. *)
Definition union_store : heap :=
  HeapOf
    [Typetree T_SIGNED 4 Q_NONE None None None;
     Typetree T_REAL 8 Q_NONE None None None;
     Typetree T_SIGNED 1 Q_NONE None None None;
     Typetree T_ARRAY 5 Q_NONE None None (Some 2%nat);
     Typetree T_UNION 0 Q_NONE None None None]
    [].

Lemma union_members_added_witness :
  ∃ h' sz,
    add_members 0 union_store 4%nat
      [(Some "i"%string, 0%nat); (Some "d"%string, 1%nat);
       (Some "s"%string, 3%nat)] = Some h' ∧
    members_of h' 4%nat =
      Some ((λ f, Member f.1 f.2 0) <$>
              [(Some "i"%string, 0%nat); (Some "d"%string, 1%nat);
               (Some "s"%string, 3%nat)]) ∧
    size_of h' 4%nat = Some sz ∧ 0 ≤ sz ∧
    Forall (λ f, ∃ z, size_of h' f.2 = Some z ∧ z ≤ sz)
      [(Some "i"%string, 0%nat); (Some "d"%string, 1%nat);
       (Some "s"%string, 3%nat)] ∧
    (sz = 0 ∨ ∃ f, f ∈ [(Some "i"%string, 0%nat); (Some "d"%string, 1%nat);
                         (Some "s"%string, 3%nat)] ∧
                   size_of h' f.2 = Some sz) ∧
    (∀ p, p ≠ 4%nat → deref h' p = deref union_store p).
Proof.
  apply (union_members_added 0 union_store 4%nat Q_NONE None).
  - reflexivity.
  - repeat (constructor; [eexists; reflexivity|]). constructor.
Defined.

(** The same union, evaluated: size 8, all offsets 0. *)
Example union_store_layout :
  ∃ h' ms,
    add_members 0 union_store 4%nat
      [(Some "i"%string, 0%nat); (Some "d"%string, 1%nat);
       (Some "s"%string, 3%nat)] = Some h' ∧
    size_of h' 4%nat = Some 8 ∧
    type_alignment 3 h' 4%nat = Some 8 ∧
    members_of h' 4%nat = Some ms ∧ m_offset <$> ms = [0; 0; 0].
Proof. do 2 eexists. repeat split; vm_compute; reflexivity. Qed.

(** The union of
    [struct In { char a; union U { struct In in; } *p; long b; };]
    after the declaration: [U] got the size 1 that [In] had when [in] was
    added, and [In] has size 24 in the end. *)
Definition struct_In_union_U (fuel : nat)
  : option (heap * type_ptr * type_ptr * type_ptr) :=
  let h := HeapOf [] [] in
  '(h, In) ← new_tag h T_STRUCT;
  '(h, char_a) ← basic_specifier h T_SIGNED 1;
  h ← member_declarator fuel h In "a" char_a;
  '(h, U) ← new_tag h T_UNION;
  '(h, tag_In) ← type_tagged_copy h In (Some "In"%string);
  h ← member_declarator fuel h U "in" tag_In;
  '(h, tag_U) ← close_tag h U "U";
  '(h, pointer) ← type_init h T_POINTER (Some tag_U) 0;
  h ← member_declarator fuel h In "p" pointer;
  '(h, long_b) ← basic_specifier h T_SIGNED 8;
  h ← member_declarator fuel h In "b" long_b;
  '(h, _) ← close_tag h In "In";
  Some (h, In, U, tag_In).

Example union_member_extended_after_add (k : nat) :
  ∃ h In U tag_In,
    struct_In_union_U (3 + k) = Some (h, In, U, tag_In) ∧
    members_of h U = Some [Member (Some "in"%string) tag_In 0] ∧
    size_of h U = Some 1 ∧ size_of h tag_In = Some 24.
Proof.
  do 4 eexists. cbn [Nat.add].
  split; [vm_compute; reflexivity|]. repeat split.
Qed.

End Heap.

(** ** backend/x86_64/instructions.c *)

Module Encoder.
Import Reg.

(** *** Operands, instructions and the code buffer *)

(** Modelled from the spec: the types of the header [instructions.h]
    (Instruction, Operand, Register, Code buffer), which is not among the
    sources.  A symbol is known to the encoder by its name; the ELF
    collaborator may know the text offset of a label. *)
Record symbol : Type := Symbol {
  sym_name : string;
  sym_text_offset : option Z }.

Record registr : Type := Registr { reg_r : reg; reg_w : Z }.

Record address : Type := Address {
  sym : option symbol;
  base : reg;
  offset : reg;
  mult : Z;
  disp : Z }.

Record memory : Type := Memory { addr : address; mem_w : Z }.

Inductive imm_kind : Type := IMM_INT | IMM_ADDR.

(** The union [d] of an immediate holds an integer, read through its
    members [byte], [word], [dword] and [qword], which share their low
    bytes on x86-64, or an address. *)
Record immediate : Type := Immediate {
  imm_type : imm_kind;
  imm_w : Z;
  d_int : Z;
  d_addr : address }.

(** [union operand]: a builder reads the member that [optype] selects.  The
    three members are kept side by side, so that what is proved of a
    builder holds whatever the members it does not read contain. *)
Record operand : Type := Operand {
  reg_ : registr;
  mem : memory;
  imm : immediate }.

Inductive instr_optype : Type :=
| OPT_NONE | OPT_REG | OPT_MEM | OPT_IMM
| OPT_REG_REG | OPT_REG_MEM | OPT_MEM_REG | OPT_IMM_REG | OPT_IMM_MEM.

(** The opcodes that [encode] dispatches on; [INSTR_OTHER] stands for any
    other value of the enumeration. *)
Inductive instr_opcode : Type :=
| INSTR_ADD | INSTR_NOT | INSTR_MUL | INSTR_XOR | INSTR_DIV | INSTR_AND
| INSTR_OR | INSTR_SHL | INSTR_SHR | INSTR_SAR | INSTR_CALL | INSTR_CMP
| INSTR_MOV | INSTR_MOVSX | INSTR_MOVZX | INSTR_MOVAPS | INSTR_PUSH
| INSTR_SUB | INSTR_LEA | INSTR_LEAVE | INSTR_REP_MOVSQ | INSTR_RET
| INSTR_JMP | INSTR_JA | INSTR_JG | INSTR_JZ | INSTR_JAE | INSTR_JGE
| INSTR_SETZ | INSTR_SETA | INSTR_SETG | INSTR_SETAE | INSTR_SETGE
| INSTR_TEST
| INSTR_OTHER (n : Z).

Record instruction : Type := Instruction {
  opcode : instr_opcode;
  optype : instr_optype;
  source : operand;
  dest : operand }.

#[export] Instance instr_optype_eq_dec : EqDecision instr_optype.
Proof. solve_decision. Defined.
#[export] Instance imm_kind_eq_dec : EqDecision imm_kind.
Proof. solve_decision. Defined.

(** [struct code]: sixteen bytes and the number of them in use. *)
Record code : Type := Code { val : list Z; len : Z }.

(** The bytes of an encoded instruction: the first [len] of the buffer. *)
Definition bytes (c : code) : list Z := take (Z.to_nat (len c)) (val c).

(** *** The ELF collaborator *)

Inductive reloc_type : Type := R_X86_64_PC32 | R_X86_64_32S.

Record reloc : Type := Reloc {
  r_sym : option symbol;
  r_type : reloc_type;
  r_offset : Z;
  r_addend : Z }.

(** The state of the text section that the two hooks work on: the current
    write position, the relocations recorded so far, and the places that
    wait for the offset of a label. *)
Record elf_text : Type := ElfText {
  text_offset : Z;
  relocs : list reloc;
  pending : list (symbol * Z) }.

(** *** The encoder's effects

    A builder works on its local [struct code] and on the text section.
    It ends by returning ([Done]), by a failed [assert], or would write
    outside the buffer. *)
Inductive fault : Type := AssertFailed | OutOfBounds.

Record state : Type := State { cd : code; elf : elf_text }.

Inductive outcome (A : Type) : Type :=
| Done (a : A) (s : state)
| Fault (f : fault).
Arguments Done {A} a s.
Arguments Fault {A} f.

Definition enc (A : Type) : Type := state → outcome A.

#[export] Instance enc_ret : MRet enc := λ A a s, Done a s.
#[export] Instance enc_bind : MBind enc := λ A B f m s,
  match m s with
  | Done a s' => f a s'
  | Fault e => Fault e
  end.

Definition assert (b : bool) : enc unit :=
  λ s, if b then Done () s else Fault AssertFailed.

Definition when (b : bool) (m : enc unit) : enc unit :=
  if b then m else mret ().

Definition get_len : enc Z := λ s, Done (len (cd s)) s.

Definition set_len (n : Z) : enc unit :=
  λ s, Done () (State (Code (val (cd s)) n) (elf s)).

Definition add_len (n : Z) : enc unit :=
  λ s, Done () (State (Code (val (cd s)) (len (cd s) + n)) (elf s)).

Definition in_buffer (i : Z) : bool := (0 <=? i) && (i <? 16).

(** [c.val[i] = x], the value converted to [unsigned char]. *)
Definition set_val (i x : Z) : enc unit :=
  λ s, if in_buffer i
       then Done () (State (Code (<[Z.to_nat i := x mod 256]> (val (cd s)))
                                 (len (cd s))) (elf s))
       else Fault OutOfBounds.

(** [c.val[i] |= x] *)
Definition or_val (i x : Z) : enc unit :=
  λ s, match (if in_buffer i then val (cd s) !! Z.to_nat i else None) with
       | Some v => set_val i (Z.lor v x) s
       | None => Fault OutOfBounds
       end.

(** [c.val[c.len++] = x] *)
Definition emit (x : Z) : enc unit :=
  i ← get_len; set_val i x;; add_len 1.

(** The [n] low bytes of [x], least significant first. *)
Fixpoint le_bytes (n : nat) (x : Z) : list Z :=
  match n with
  | O => []
  | S n => x mod 256 :: le_bytes n (Z.shiftr x 8)
  end.

Fixpoint set_vals (i : Z) (bs : list Z) : enc unit :=
  match bs with
  | [] => mret ()
  | b :: bs => set_val i b;; set_vals (i + 1) bs
  end.

(** [memcpy(&c.val[i], &x, n)] for an integer object [x]; also the store
    of an [int] through a pointer into the buffer. *)
Definition memcpy_at (i : Z) (x : Z) (n : nat) : enc unit :=
  set_vals i (le_bytes n x).

(** [memset(&c.val[i], 0, n)] *)
Definition memset0_at (i : Z) (n : nat) : enc unit :=
  set_vals i (replicate n 0).

(** [struct code c = {{b0, b1, ...}, n}]: the bytes given, the rest zero. *)
Definition init_code (bs : list Z) (n : Z) : enc unit :=
  λ s, Done () (State (Code (take 16 (bs ++ replicate 16 0)) n) (elf s)).

(** Modelled from the spec: [elf_add_reloc_text] of elf.c, which is not
    among the sources: it registers a relocation of the given kind against
    [sym] at the current text position plus [offset_in_instr]. *)
Definition elf_add_reloc_text (sym : option symbol) (kind : reloc_type)
    (offset_in_instr addend : Z) : enc unit :=
  λ s, Done ()
    (State (cd s)
       (ElfText (text_offset (elf s))
          (relocs (elf s) ++
             [Reloc sym kind (text_offset (elf s) + offset_in_instr) addend])
          (pending (elf s)))).

(** Modelled from the spec: [elf_text_displacement] of elf.c, which is not
    among the sources: for a label with a resolved text offset it returns
    the signed distance from the position written to that offset;
    otherwise it returns 0 and notes the position for a later fixup. *)
Definition elf_text_displacement (sym : symbol) (offset_in_instr : Z) : enc Z :=
  λ s,
    match sym_text_offset sym with
    | Some target =>
        Done (target - (text_offset (elf s) + offset_in_instr)) s
    | None =>
        Done 0
          (State (cd s)
             (ElfText (text_offset (elf s)) (relocs (elf s))
                (pending (elf s) ++
                   [(sym, text_offset (elf s) + offset_in_instr)])))
    end.

(** *** Macros *)

(** A C integer used as a condition. *)
Definition truthy (x : Z) : bool := negb (x =? 0).

(** Operands with a width field [w]: registers and memory operands. *)
Class Sized (A : Type) : Type := w_of : A → Z.
#[export] Instance registr_sized : Sized registr := reg_w.
#[export] Instance memory_sized : Sized memory := mem_w.

(** [reg(arg)] is [(arg.r - 1) % 8] on an enumeration without negative
    values: the difference and the remainder are unsigned, and since 2^32
    is a multiple of 8 the result is [(r - 1) mod 8], also at [r = 0]. *)
Definition reg (arg : registr) : Z := (reg_r arg - 1) mod 8.
Definition is_64_bit `{Sized A} (arg : A) : Z := Z.shiftr (w_of arg) 3.
Definition is_32_bit `{Sized A} (arg : A) : Z := Z.land (Z.shiftr (w_of arg) 2) 1.
Definition is_16_bit `{Sized A} (arg : A) : Z := Z.land (Z.shiftr (w_of arg) 1) 1.
Definition is_64_bit_reg (arg : Reg.reg) : Z := Z.b2z (DI <? arg).

Definition REX : Z := 0x40.
Definition W `{Sized A} (arg : A) : Z := Z.shiftl (is_64_bit arg) 3.
Definition R (arg : registr) : Z := Z.shiftl (is_64_bit_reg (reg_r arg)) 2.
Definition B (arg : registr) : Z := is_64_bit_reg (reg_r arg).
Definition w `{Sized A} (arg : A) : Z := Z.land (Z.lnot (w_of arg)) 1.

Definition in_byte_range (arg : Z) : bool := (-128 <=? arg) && (arg <=? 127).
Definition in_32bit_range (arg : Z) : bool :=
  (-2147483648 <=? arg) && (arg <=? 2147483647).

Definition PREFIX_SSE : Z := 0x0F.

Definition TEST_AE : Z := 0x3.
Definition TEST_Z : Z := 0x4.
Definition TEST_A : Z := 0x7.
Definition TEST_GE : Z := 0xD.
Definition TEST_G : Z := 0xF.

(** The signed integer held in the [n] low bits of [x]. *)
Definition sext (n : Z) (x : Z) : Z :=
  (x + 2 ^ (n - 1)) mod 2 ^ n - 2 ^ (n - 1).

Definition d_byte (i : immediate) : Z := sext 8 (d_int i).
Definition d_word (i : immediate) : Z := sext 16 (d_int i).
Definition d_dword (i : immediate) : Z := sext 32 (d_int i).
Definition d_qword (i : immediate) : Z := sext 64 (d_int i).

Infix "|||" := Z.lor (at level 50, left associativity).
Infix "<<" := Z.shiftl (at level 35).

Definition is_imm_int (i : immediate) : bool := bool_decide (imm_type i = IMM_INT).
Definition is_imm_addr (i : immediate) : bool := bool_decide (imm_type i = IMM_ADDR).
Definition is_opt (a b : instr_optype) : bool := bool_decide (a = b).

(** *** Builders *)

Definition requires_prefix (addr : address) : bool :=
  match sym addr with
  | Some _ => false
  | None => truthy (is_64_bit_reg (base addr)) || truthy (is_64_bit_reg (offset addr))
  end.

Definition encode_sib_addr (reg : Z) (addr : address) : enc unit :=
  let reg := reg mod 256 in
  match sym addr with
  | Some s =>
      (* 2.2.1.6 RIP-relative addressing *)
      emit ((Z.land reg 0x7 << 3) ||| 0x5);;
      n ← get_len;
      elf_add_reloc_text (Some s) R_X86_64_PC32 n (disp addr);;
      memset0_at n 4;;
      add_len 4
  | None =>
      n ← get_len;
      set_val n ((Z.land reg 0x7 << 3) ||| (base addr - 1) mod 8);;
      if truthy (disp addr) then
        if in_byte_range (disp addr) then
          or_val n 0x40;; add_len 1;;
          emit (disp addr)
        else
          or_val n 0x80;; add_len 1;;
          n ← get_len;
          memcpy_at n (disp addr) 4;;
          add_len 4
      else add_len 1
  end.

Definition is_byte_imm (imm : immediate) : bool :=
  is_imm_int imm &&
  ((imm_w imm =? 1) ||
   ((imm_w imm =? 2) && in_byte_range (d_word imm)) ||
   ((imm_w imm =? 4) && in_byte_range (d_dword imm)) ||
   in_byte_range (d_qword imm)).

Definition is_32bit_imm (imm : immediate) : bool :=
  is_imm_int imm && ((imm_w imm <? 8) || in_32bit_range (d_qword imm)).

Definition nop : enc unit := init_code [0x90] 1.

Definition mov (optype : instr_optype) (a b : operand) : enc unit :=
  nop;;
  match optype with
  | OPT_IMM_REG =>
      (* Alternative encoding (shorter). *)
      set_len 0;;
      when (truthy (is_64_bit (reg_ b)) || truthy (is_64_bit_reg (reg_r (reg_ b))))
        (emit (REX ||| W (reg_ b) ||| B (reg_ b)));;
      emit (0xB8 ||| (w (reg_ b) << 3) ||| reg (reg_ b));;
      if imm_w (imm a) =? 1 then
        assert (is_imm_int (imm a));;
        emit (d_byte (imm a))
      else if imm_w (imm a) =? 2 then
        assert (is_imm_int (imm a));;
        n ← get_len;
        memcpy_at n (d_word (imm a)) 2;;
        add_len 2
      else if is_32bit_imm (imm a) || is_imm_addr (imm a) then
        when (truthy (is_64_bit (reg_ b)))
          ((* Special case, not using alternative encoding. *)
           set_val 1 0xC7;;
           set_val 2 (0xC0 ||| reg (reg_ b));;
           set_len 3);;
        if is_imm_int (imm a) then
          n ← get_len;
          memcpy_at n (d_dword (imm a)) 4;;
          add_len 4
        else
          assert (is_imm_addr (imm a));;
          n ← get_len;
          elf_add_reloc_text (sym (d_addr (imm a))) R_X86_64_32S n
            (disp (d_addr (imm a)));;
          memset0_at n 4;;
          add_len 4
      else
        assert (imm_w (imm a) =? 8);;
        assert (is_imm_int (imm a));;
        n ← get_len;
        memcpy_at n (d_qword (imm a)) 8;;
        add_len 8
  | OPT_REG_REG =>
      assert (reg_w (reg_ a) =? reg_w (reg_ b));;
      set_len 3;;
      set_val 0 (REX ||| W (reg_ a) ||| R (reg_ a) ||| B (reg_ b));;
      set_val 1 (0x88 + is_64_bit (reg_ a));;
      set_val 2 (0xC0 ||| (reg (reg_ a) << 3) ||| reg (reg_ b))
  | OPT_REG_MEM =>
      set_len 0;;
      (if truthy (is_16_bit (reg_ a)) then
         emit 0x66 (* Legacy prefix *)
       else
         when (truthy (is_64_bit (reg_ a)) ||
               truthy (is_64_bit_reg (reg_r (reg_ a))) ||
               requires_prefix (addr (mem b)))
           (emit (REX ||| W (reg_ a) ||| is_64_bit_reg (base (addr (mem b))))));;
      emit (0x88 + w (reg_ a));;
      encode_sib_addr (reg (reg_ a)) (addr (mem b))
  | OPT_MEM_REG =>
      set_len 0;;
      when (truthy (is_64_bit (reg_ b)) || truthy (is_64_bit_reg (reg_r (reg_ b))))
        (emit (REX ||| W (reg_ b) ||| R (reg_ b)));;
      emit (0x8A + w (reg_ b));;
      encode_sib_addr (reg (reg_ b)) (addr (mem a))
  | _ => mret ()
  end.

Definition movsx (optype : instr_optype) (a b : operand) : enc unit :=
  init_code [0] 0;;
  assert (is_opt optype OPT_MEM_REG);;
  when (truthy (is_64_bit (reg_ b)) || truthy (is_64_bit_reg (reg_r (reg_ b))) ||
        truthy (is_64_bit_reg (base (addr (mem a)))))
    (n ← get_len;
     set_val n (REX ||| W (reg_ b) ||| R (reg_ b));;
     or_val n (is_64_bit_reg (base (addr (mem a))));; (* B(..) *)
     add_len 1);;
  (if truthy (is_32_bit (mem a)) && truthy (is_64_bit (reg_ b)) then
     emit 0x63
   else
     emit 0x0F;;
     emit (0xBE ||| w (mem a)));;
  encode_sib_addr (reg (reg_ b)) (addr (mem a)).

Definition movzx (optype : instr_optype) (a b : operand) : enc unit :=
  init_code [0] 0;;
  when (truthy (is_64_bit (reg_ b)))
    (emit (REX ||| W (reg_ b) ||| R (reg_ b)));;
  emit 0x0F;;
  if is_opt optype OPT_REG_REG then
    emit (0xB6 ||| w (reg_ a));;
    emit (0xC0 ||| (reg (reg_ b) << 3) ||| reg (reg_ a))
  else
    assert (is_opt optype OPT_MEM_REG);;
    emit (0xB6 ||| w (mem a));;
    encode_sib_addr (reg (reg_ b)) (addr (mem a)).

Definition movaps (optype : instr_optype) (a b : operand) : enc unit :=
  init_code [PREFIX_SSE; 0x29] 2;;
  assert (is_opt optype OPT_REG_MEM);;
  assert ((XMM0 <=? reg_r (reg_ a)) && (reg_r (reg_ a) <=? XMM7));;
  encode_sib_addr (reg_r (reg_ a) - XMM0) (addr (mem b)).

Definition push (optype : instr_optype) (op : operand) : enc unit :=
  nop;;
  when (is_opt optype OPT_REG)
    (set_val 0 (0x50 + reg (reg_ op))).

Definition sub (optype : instr_optype) (a b : operand) : enc unit :=
  nop;;
  match optype with
  | OPT_IMM_REG =>
      assert (truthy (is_64_bit (reg_ b)));;
      set_val 0 (REX ||| W (reg_ b) ||| B (reg_ b));;
      set_val 1 (0x81 ||| (Z.b2z (is_byte_imm (imm a)) << 1));;
      set_val 2 (0xE8 ||| reg (reg_ b));;
      if is_byte_imm (imm a) then
        set_val 3 (d_byte (imm a));;
        set_len 4
      else
        when (is_32bit_imm (imm a))
          (memcpy_at 3 (d_dword (imm a)) 4;;
           set_len 7)
  | OPT_REG_REG =>
      set_len 0;;
      when (truthy (is_64_bit (reg_ a)))
        (set_val 0 (REX ||| W (reg_ a) ||| R (reg_ a) ||| B (reg_ b));;
         set_len 1);;
      emit (0x28 ||| w (reg_ a));;
      emit (0xC0 ||| (reg (reg_ a) << 3) ||| reg (reg_ b))
  | _ => assert false
  end.

Definition add (optype : instr_optype) (a b : operand) : enc unit :=
  nop;;
  match optype with
  | OPT_REG_REG =>
      set_len 0;;
      when (truthy (is_64_bit (reg_ a)))
        (emit (REX ||| W (reg_ a) ||| R (reg_ a) ||| B (reg_ b)));;
      emit (0x00 ||| w (reg_ a));;
      emit (0xC0 ||| (reg (reg_ a) << 3) ||| reg (reg_ b))
  | OPT_IMM_REG => mret ()
  | OPT_IMM_MEM => mret ()
  | _ => assert false
  end.

Definition call (optype : instr_optype) (op : operand) : enc unit :=
  init_code [0] 0;;
  if is_opt optype OPT_IMM then
    assert (is_imm_addr (imm op));;
    assert (bool_decide (is_Some (sym (d_addr (imm op)))));;
    emit 0xE8;;
    n ← get_len;
    elf_add_reloc_text (sym (d_addr (imm op))) R_X86_64_PC32 n
      (disp (d_addr (imm op)));;
    add_len 4
  else
    assert (is_opt optype OPT_REG);;
    assert (truthy (is_64_bit_reg (reg_r (reg_ op))));;
    emit (REX ||| w (reg_ op));;
    emit 0xFF;;
    emit (0xD0 ||| reg (reg_ op)).

Definition cmp (optype : instr_optype) (a b : operand) : enc unit :=
  nop;;
  set_len 0;;
  match optype with
  | OPT_IMM_REG =>
      if negb (truthy (is_64_bit (reg_ b))) &&
         negb (truthy (is_64_bit_reg (reg_r (reg_ b)))) then
        emit (0x80 ||| w (reg_ b));;
        emit (0xF8 ||| reg (reg_ b));;
        if is_byte_imm (imm a) then
          or_val 0 2;; (* Sign extend byte to 32 bit *)
          emit (d_byte (imm a))
        else
          assert (imm_w (imm a) =? 4);;
          n ← get_len;
          memcpy_at n (d_dword (imm a)) 4;;
          add_len 4
      else assert false
  | OPT_REG_REG =>
      assert (reg_w (reg_ a) =? reg_w (reg_ b));;
      if negb (truthy (is_64_bit (reg_ a))) &&
         negb (truthy (is_64_bit_reg (reg_r (reg_ a)))) then
        emit (0x38 ||| w (reg_ a));;
        emit (0xC0 ||| (reg (reg_ a) << 3) ||| reg (reg_ b))
      else assert false
  | _ => assert false
  end.

(** [jcc] and [jmp] read the address member of the immediate whatever its
    kind; [disp] is the [int] stored through [ptr]. *)
Definition jcc (optype : instr_optype) (cond : Z) (op : operand) : enc unit :=
  init_code [0x0F; 0x80] 2;;
  let addr := d_addr (imm op) in
  assert (is_opt optype OPT_IMM);;
  match sym addr with
  | None => assert false
  | Some s =>
      or_val 1 cond;;
      (* Existing value will be added to offset. Subtract 4 to account for
         instruction length, offset is counted after the immediate. *)
      n ← get_len;
      d ← elf_text_displacement s n;
      let disp := d + disp addr - 4 in
      memcpy_at n disp 4;;
      add_len 4
  end.

Definition jmp (optype : instr_optype) (op : operand) : enc unit :=
  init_code [0xE9] 1;;
  let addr := d_addr (imm op) in
  assert (is_opt optype OPT_IMM);;
  match sym addr with
  | None => assert false
  | Some s =>
      n ← get_len;
      d ← elf_text_displacement s n;
      let disp := d + disp addr - 4 in
      memcpy_at n disp 4;;
      add_len 4
  end.

Definition leave : enc unit := init_code [0xC9] 1.

Definition lea (optype : instr_optype) (a b : operand) : enc unit :=
  init_code [0] 0;;
  assert (is_opt optype OPT_MEM_REG);;
  assert (truthy (is_64_bit (reg_ b)));;
  emit (REX ||| W (reg_ b) ||| R (reg_ b));;
  emit 0x8D;;
  encode_sib_addr (reg (reg_ b)) (addr (mem a)).

Definition rep_movsq : enc unit := init_code [0xF3; REX + 8; 0xA5] 3.

Definition ret : enc unit := init_code [0xC3] 1.

Definition setcc (optype : instr_optype) (cond : Z) (op : operand) : enc unit :=
  init_code [0] 0;;
  assert (is_opt optype OPT_REG && negb (truthy (is_64_bit (reg_ op))));;
  emit 0x0F;;
  emit (0x90 ||| cond);;
  emit (0xC0 ||| reg (reg_ op)).

Definition test (optype : instr_optype) (a b : operand) : enc unit :=
  init_code [0] 0;;
  assert (is_opt optype OPT_REG_REG &&
          negb (truthy (is_64_bit_reg (reg_r (reg_ a)))));;
  emit (0x84 ||| w (reg_ a));;
  emit (0xC0 ||| (reg (reg_ a) << 3) ||| reg (reg_ b)).

Definition not (optype : instr_optype) (op : operand) : enc unit :=
  init_code [0] 0;;
  assert (is_opt optype OPT_REG);;
  when (truthy (is_64_bit_reg (reg_r (reg_ op))) || (reg_w (reg_ op) >? 4))
    (emit (REX ||| W (reg_ op) ||| B (reg_ op)));;
  emit (0xF6 ||| w (reg_ op));;
  emit (0xD0 ||| reg (reg_ op)).

Definition mul (optype : instr_optype) (op : operand) : enc unit :=
  init_code [0] 0;;
  if is_opt optype OPT_REG then
    when (truthy (is_64_bit_reg (reg_r (reg_ op))) || (reg_w (reg_ op) >? 4))
      (emit (REX ||| W (reg_ op) ||| B (reg_ op)));;
    emit (0xF6 ||| w (reg_ op));;
    emit (0xE0 ||| reg (reg_ op))
  else
    assert (is_opt optype OPT_MEM);;
    when (mem_w (mem op) >? 4)
      (emit (REX ||| W (mem op) ||| is_64_bit_reg (base (addr (mem op)))));;
    emit (0xF6 ||| w (mem op));;
    encode_sib_addr 0x4 (addr (mem op)).

Definition encode_div (optype : instr_optype) (op : operand) : enc unit :=
  init_code [0] 0;;
  if is_opt optype OPT_REG then
    when (truthy (is_64_bit_reg (reg_r (reg_ op))) || (reg_w (reg_ op) >? 4))
      (emit (REX ||| W (reg_ op) ||| B (reg_ op)));;
    emit (0xF6 ||| w (reg_ op));;
    emit (0xF0 ||| reg (reg_ op))
  else
    assert (is_opt optype OPT_MEM);;
    when (mem_w (mem op) >? 4)
      (emit (REX ||| W (mem op) ||| is_64_bit_reg (base (addr (mem op)))));;
    emit (0xF6 ||| w (mem op));;
    encode_sib_addr 0x6 (addr (mem op)).

Definition basic_register_only_encode (opcode : Z) (a b : registr) : enc unit :=
  init_code [0] 0;;
  when (truthy (is_64_bit_reg (reg_r a)) || (reg_w a >? 4))
    (emit (REX ||| W a ||| R a ||| B b));;
  emit (opcode ||| w a);;
  emit (0xC0 ||| (reg a << 3) ||| reg b).

Definition xor (optype : instr_optype) (a b : operand) : enc unit :=
  assert (is_opt optype OPT_REG_REG);;
  basic_register_only_encode 0x30 (reg_ a) (reg_ b).

Definition and (optype : instr_optype) (a b : operand) : enc unit :=
  assert (is_opt optype OPT_REG_REG);;
  basic_register_only_encode 0x20 (reg_ a) (reg_ b).

Definition or (optype : instr_optype) (a b : operand) : enc unit :=
  assert (is_opt optype OPT_REG_REG);;
  basic_register_only_encode 0x08 (reg_ a) (reg_ b).

Definition shl (optype : instr_optype) (a b : operand) : enc unit :=
  init_code [0] 0;;
  assert (is_opt optype OPT_REG_REG);;
  assert ((reg_r (reg_ a) =? CX) && (reg_w (reg_ a) =? 1));;
  when (truthy (is_64_bit_reg (reg_r (reg_ b))) || (reg_w (reg_ b) >? 4))
    (emit (REX ||| W (reg_ b) ||| B (reg_ b)));;
  emit (0xD2 ||| w (reg_ b));;
  emit (0xE0 ||| reg (reg_ b)).

Definition shr (optype : instr_optype) (a b : operand) : enc unit :=
  init_code [0] 0;;
  assert (is_opt optype OPT_REG_REG);;
  assert ((reg_r (reg_ a) =? CX) && (reg_w (reg_ a) =? 1));;
  when (truthy (is_64_bit_reg (reg_r (reg_ b))) || (reg_w (reg_ b) >? 4))
    (emit (REX ||| W (reg_ b) ||| B (reg_ b)));;
  emit (0xD2 ||| w (reg_ b));;
  emit (0xF8 ||| reg (reg_ b)).

Definition sar (optype : instr_optype) (a b : operand) : enc unit :=
  init_code [0] 0;;
  assert (is_opt optype OPT_REG_REG);;
  assert ((reg_r (reg_ a) =? CX) && (reg_w (reg_ a) =? 1));;
  when (truthy (is_64_bit_reg (reg_r (reg_ b))) || (reg_w (reg_ b) >? 4))
    (emit (REX ||| W (reg_ b) ||| B (reg_ b)));;
  emit (0xD2 ||| w (reg_ b));;
  emit (0xF8 ||| reg (reg_ b)).

Definition encode (instr : instruction) : enc unit :=
  match opcode instr with
  | INSTR_ADD => add (optype instr) (source instr) (dest instr)
  | INSTR_NOT => not (optype instr) (source instr)
  | INSTR_MUL => mul (optype instr) (source instr)
  | INSTR_XOR => xor (optype instr) (source instr) (dest instr)
  | INSTR_DIV => encode_div (optype instr) (source instr)
  | INSTR_AND => and (optype instr) (source instr) (dest instr)
  | INSTR_OR => or (optype instr) (source instr) (dest instr)
  | INSTR_SHL => shl (optype instr) (source instr) (dest instr)
  | INSTR_SHR => shr (optype instr) (source instr) (dest instr)
  | INSTR_SAR => sar (optype instr) (source instr) (dest instr)
  | INSTR_CALL => call (optype instr) (source instr)
  | INSTR_CMP => cmp (optype instr) (source instr) (dest instr)
  | INSTR_MOV => mov (optype instr) (source instr) (dest instr)
  | INSTR_MOVSX => movsx (optype instr) (source instr) (dest instr)
  | INSTR_MOVZX => movzx (optype instr) (source instr) (dest instr)
  | INSTR_MOVAPS => movaps (optype instr) (source instr) (dest instr)
  | INSTR_PUSH => push (optype instr) (source instr)
  | INSTR_SUB => sub (optype instr) (source instr) (dest instr)
  | INSTR_LEA => lea (optype instr) (source instr) (dest instr)
  | INSTR_LEAVE => leave
  | INSTR_REP_MOVSQ =>
      assert (is_opt (optype instr) OPT_NONE);;
      rep_movsq
  | INSTR_RET => ret
  | INSTR_JMP => jmp (optype instr) (source instr)
  | INSTR_JA => jcc (optype instr) TEST_A (source instr)
  | INSTR_JG => jcc (optype instr) TEST_G (source instr)
  | INSTR_JZ => jcc (optype instr) TEST_Z (source instr)
  | INSTR_JAE => jcc (optype instr) TEST_AE (source instr)
  | INSTR_JGE => jcc (optype instr) TEST_GE (source instr)
  | INSTR_SETZ => setcc (optype instr) TEST_Z (source instr)
  | INSTR_SETA => setcc (optype instr) TEST_A (source instr)
  | INSTR_SETG => setcc (optype instr) TEST_G (source instr)
  | INSTR_SETAE => setcc (optype instr) TEST_AE (source instr)
  | INSTR_SETGE => setcc (optype instr) TEST_GE (source instr)
  | INSTR_TEST => test (optype instr) (source instr) (dest instr)
  | INSTR_OTHER _ => nop
  end.

(** [encode] is called on a text section [e]; its local [struct code] does
    not exist before the call. *)
Definition run_encode (instr : instruction) (e : elf_text) : outcome unit :=
  encode instr (State (Code [] 0) e).

(** *** A program logic for builders

    [triple P m Q]: run from a state that satisfies [P], the computation
    [m] either returns a value and a state that satisfy [Q], or stops at a
    failed [assert]; it never writes outside the buffer. *)

Definition triple {A} (P : state → Prop) (m : enc A) (Q : A → state → Prop)
  : Prop :=
  ∀ s, P s →
    match m s with
    | Done a s' => Q a s'
    | Fault f => f = AssertFailed
    end.

Lemma triple_ret {A} (P : state → Prop) (a : A) :
  triple P (mret a) (λ _, P).
Proof. intros s H. exact H. Qed.

Lemma triple_bind {A B} (P : state → Prop) (Q : A → state → Prop)
    (R : B → state → Prop) (m : enc A) (f : A → enc B) :
  triple P m Q → (∀ a, triple (Q a) (f a) R) → triple P (m ≫= f) R.
Proof.
  intros Hm Hf s HP. specialize (Hm s HP).
  unfold mbind, enc_bind. destruct (m s) as [a s'|e]; [|exact Hm].
  exact (Hf a s' Hm).
Qed.

Lemma triple_conseq {A} (P P' : state → Prop) (Q Q' : A → state → Prop) m :
  triple P' m Q' → (∀ s, P s → P' s) → (∀ a s, Q' a s → Q a s) →
  triple P m Q.
Proof.
  intros Hm HP HQ s H. specialize (Hm s (HP s H)).
  destruct (m s); auto.
Qed.

Lemma triple_post {A} (P : state → Prop) (Q Q' : A → state → Prop) m :
  triple P m Q' → (∀ a s, Q' a s → Q a s) → triple P m Q.
Proof. intros Hm HQ. eapply triple_conseq; eauto. Qed.

Lemma triple_pure {A} (P : state → Prop) (φ : Prop) (m : enc A) Q :
  (φ → triple P m Q) → triple (λ s, P s ∧ φ) m Q.
Proof. intros H s [HP Hφ]. exact (H Hφ s HP). Qed.

Lemma triple_assert (P : state → Prop) b : triple P (assert b) (λ _, P).
Proof. intros s H. unfold assert. destruct b; auto. Qed.

Section Bounds.

(** The relocations of the text section before the instruction. *)
Context (r0 : list reloc).

(** At most [k] relocations have been added. *)
Definition rel (k : Z) (s : state) : Prop :=
  ∃ rs, relocs (elf s) = r0 ++ rs ∧ Z.of_nat (length rs) ≤ k.

(** Moreover the buffer has its sixteen bytes and [len] lies between [lo]
    and [hi]. *)
Definition inv (lo hi k : Z) (s : state) : Prop :=
  rel k s ∧ length (val (cd s)) = 16%nat ∧ lo ≤ len (cd s) ≤ hi.

Lemma inv_weaken lo hi k lo' hi' k' s :
  inv lo hi k s → lo' ≤ lo → hi ≤ hi' → k ≤ k' → inv lo' hi' k' s.
Proof.
  intros ((rs & Hrs & Hk) & Hv & Hl) ? ? ?.
  split; [exists rs; split; [exact Hrs|lia]|]. split; [exact Hv|lia].
Qed.

Lemma triple_init k bs n :
  triple (rel k) (init_code bs n) (λ _, inv n n k).
Proof.
  intros s H. unfold init_code. cbn [cd val len elf]. split; [exact H|].
  cbn [cd val len elf]. split; [|lia].
  rewrite length_take, length_app, length_replicate. lia.
Qed.

Lemma triple_set_len lo hi k n :
  triple (inv lo hi k) (set_len n) (λ _, inv n n k).
Proof.
  intros s (H & Hv & _). unfold set_len, inv. cbn [cd val len elf].
  split; [exact H|]. split; [exact Hv|lia].
Qed.

Lemma triple_add_len lo hi k n :
  triple (inv lo hi k) (add_len n) (λ _, inv (lo + n) (hi + n) k).
Proof.
  intros s (H & Hv & ?). unfold add_len, inv. cbn [cd val len elf].
  split; [exact H|]. split; [exact Hv|lia].
Qed.

Lemma triple_get_len lo hi k :
  triple (inv lo hi k) get_len (λ n s, inv lo hi k s ∧ lo ≤ n ≤ hi).
Proof. intros s H. unfold get_len. split; [exact H|apply H]. Qed.

Lemma in_buffer_true i : 0 ≤ i < 16 → in_buffer i = true.
Proof. intros ?. unfold in_buffer. apply andb_true_iff. lia. Qed.

Lemma triple_set_val lo hi k i x :
  0 ≤ i < 16 → triple (inv lo hi k) (set_val i x) (λ _, inv lo hi k).
Proof.
  intros Hi s (H & Hv & Hl). unfold set_val. rewrite in_buffer_true by exact Hi.
  unfold inv. cbn [cd val len elf]. rewrite length_insert. auto.
Qed.

Lemma triple_or_val lo hi k i x :
  0 ≤ i < 16 → triple (inv lo hi k) (or_val i x) (λ _, inv lo hi k).
Proof.
  intros Hi s Hs. unfold or_val. rewrite in_buffer_true by exact Hi.
  destruct (val (cd s) !! Z.to_nat i) as [v|] eqn:E.
  - now apply triple_set_val.
  - exfalso. apply lookup_ge_None in E. destruct Hs as (_ & Hv & _). lia.
Qed.

Lemma triple_emit lo hi k x :
  0 ≤ lo → hi < 16 →
  triple (inv lo hi k) (emit x) (λ _, inv (lo + 1) (hi + 1) k).
Proof.
  intros Hlo Hhi. unfold emit.
  eapply triple_bind; [apply triple_get_len|]. intros n. cbv beta.
  apply triple_pure. intros Hn.
  eapply triple_bind; [apply triple_set_val; lia|]. intros ?.
  apply triple_add_len.
Qed.

Lemma triple_set_vals lo hi k bs :
  ∀ i, 0 ≤ i → i + Z.of_nat (length bs) ≤ 16 →
       triple (inv lo hi k) (set_vals i bs) (λ _, inv lo hi k).
Proof.
  induction bs as [|b bs IH]; intros i Hi Hn; cbn [set_vals].
  - apply triple_ret.
  - cbn [length] in Hn.
    eapply triple_bind; [apply triple_set_val; lia|]. intros ?.
    apply IH; lia.
Qed.

Lemma length_le_bytes n x : length (le_bytes n x) = n.
Proof. revert x. induction n; intros x; cbn; auto. Qed.

Lemma triple_memcpy_at lo hi k i x n :
  0 ≤ i → i + Z.of_nat n ≤ 16 →
  triple (inv lo hi k) (memcpy_at i x n) (λ _, inv lo hi k).
Proof.
  intros. apply triple_set_vals; [assumption|]. now rewrite length_le_bytes.
Qed.

Lemma triple_memset0_at lo hi k i n :
  0 ≤ i → i + Z.of_nat n ≤ 16 →
  triple (inv lo hi k) (memset0_at i n) (λ _, inv lo hi k).
Proof.
  intros. apply triple_set_vals; [assumption|]. now rewrite length_replicate.
Qed.

Lemma triple_reloc lo hi k sy kind o a :
  triple (inv lo hi k) (elf_add_reloc_text sy kind o a)
         (λ _, inv lo hi (k + 1)).
Proof.
  intros s ((rs & Hrs & Hk) & Hv & Hl). unfold elf_add_reloc_text, inv, rel.
  cbn [cd val len elf relocs].
  split; [|auto]. exists (rs ++ [Reloc sy kind (text_offset (elf s) + o) a]).
  rewrite Hrs, app_assoc, length_app. cbn [length]. split; [reflexivity|lia].
Qed.

Lemma triple_disp lo hi k sy o :
  triple (inv lo hi k) (elf_text_displacement sy o) (λ _, inv lo hi k).
Proof.
  intros s H. unfold elf_text_displacement.
  destruct (sym_text_offset sy); exact H.
Qed.

Lemma triple_when lo hi k lo1 hi1 k1 b m :
  triple (inv lo hi k) m (λ _, inv lo1 hi1 k1) →
  triple (inv lo hi k) (when b m)
         (λ _, inv (Z.min lo lo1) (Z.max hi hi1) (Z.max k k1)).
Proof.
  intros Hm. destruct b; cbn [when].
  - eapply triple_post; [exact Hm|].
    intros ? s H. eapply inv_weaken; [exact H|lia..].
  - intros s H. eapply inv_weaken; [exact H|lia..].
Qed.

Lemma triple_if (P : state → Prop) lo1 hi1 k1 lo2 hi2 k2 (b : bool) m1 m2 :
  triple P m1 (λ _ : unit, inv lo1 hi1 k1) →
  triple P m2 (λ _ : unit, inv lo2 hi2 k2) →
  triple P (if b then m1 else m2)
         (λ _, inv (Z.min lo1 lo2) (Z.max hi1 hi2) (Z.max k1 k2)).
Proof.
  intros H1 H2. destruct b.
  - eapply triple_post; [exact H1|].
    intros ? s H. eapply inv_weaken; [exact H|lia..].
  - eapply triple_post; [exact H2|].
    intros ? s H. eapply inv_weaken; [exact H|lia..].
Qed.

(** A failed [assert] returns nothing: any postcondition will do. *)
Lemma triple_fail {A} (P : state → Prop) (Q : A → state → Prop) (m : enc A) :
  (∀ s, m s = Fault AssertFailed) → triple P m Q.
Proof. intros H s _. now rewrite H. Qed.

Lemma triple_assert_false (P : state → Prop) :
  triple P (assert false) (λ _, inv 1 1 0).
Proof. now apply triple_fail. Qed.

Lemma triple_option {X} (P : state → Prop) lo1 hi1 k1 lo2 hi2 k2
    (o : option X) (f : X → enc unit) (g : enc unit) :
  (∀ x, triple P (f x) (λ _, inv lo1 hi1 k1)) →
  triple P g (λ _, inv lo2 hi2 k2) →
  triple P (match o with Some x => f x | None => g end)
         (λ _, inv (Z.min lo1 lo2) (Z.max hi1 hi2) (Z.max k1 k2)).
Proof.
  intros H1 H2. destruct o as [x|].
  - eapply triple_post; [exact (H1 x)|].
    intros ? s H. eapply inv_weaken; [exact H|lia..].
  - eapply triple_post; [exact H2|].
    intros ? s H. eapply inv_weaken; [exact H|lia..].
Qed.

End Bounds.

(** One step of a proof about a builder: the rule of the construct at the
    head of the program. *)
Ltac hstep :=
  cbv beta zeta;
  lazymatch goal with
  | |- triple (λ s, _ ∧ _) _ _ => apply triple_pure; intros ?
  | |- triple _ (mbind _ _) _ => eapply triple_bind; [|intros ?]
  | |- triple _ (mret _) _ => apply triple_ret
  | |- triple (inv ?r _ _ _) (assert false) _ => apply (triple_assert_false r)
  | |- triple _ (assert _) _ => apply triple_assert
  | |- triple _ (init_code _ _) _ => apply triple_init
  | |- triple _ nop _ => unfold nop; apply triple_init
  | |- triple _ (set_len _) _ => apply triple_set_len
  | |- triple _ (add_len _) _ => apply triple_add_len
  | |- triple _ get_len _ => apply triple_get_len
  | |- triple _ (set_val _ _) _ => apply triple_set_val; lia
  | |- triple _ (or_val _ _) _ => apply triple_or_val; lia
  | |- triple _ (emit _) _ => apply triple_emit; lia
  | |- triple _ (memcpy_at _ _ _) _ => apply triple_memcpy_at; lia
  | |- triple _ (memset0_at _ _) _ => apply triple_memset0_at; lia
  | |- triple _ (elf_add_reloc_text _ _ _ _) _ => apply triple_reloc
  | |- triple _ (elf_text_displacement _ _) _ => apply triple_disp
  | |- triple _ (when _ _) _ => eapply triple_when
  | |- triple _ (if _ then _ else _) _ => eapply triple_if
  | |- triple _ (match sym _ with Some _ => _ | None => _ end) _ =>
      eapply triple_option; [intros ?|]
  end.

(** Closes [triple P m (λ _, inv r0 lo' hi' k')] for a builder [m] that
    has been unfolded: the rules give the bounds, [lia] compares them. *)
Ltac hbuilder :=
  eapply triple_post;
  [ repeat hstep
  | intros ? ? H; eapply inv_weaken; [exact H|lia..] ].

Lemma triple_sib r0 lo hi k rg a :
  0 ≤ lo → hi + 5 ≤ 16 →
  triple (inv r0 lo hi k) (encode_sib_addr rg a)
         (λ _, inv r0 (lo + 1) (hi + 5) (k + 1)).
Proof.
  intros Hlo Hhi. unfold encode_sib_addr. hbuilder.
Qed.

Ltac hstep' :=
  cbv beta zeta;
  lazymatch goal with
  | |- triple _ (encode_sib_addr _ _) _ => apply triple_sib; lia
  | |- _ => hstep
  end.

(** Every builder, from a text section with relocations [r0]: between one
    and ten bytes, at most one more relocation. *)
Lemma encode_triple r0 instr :
  triple (rel r0 0) (encode instr) (λ _, inv r0 1 10 1).
Proof.
  destruct instr as [op ot a b]. unfold encode. cbn [opcode optype source dest].
  destruct op;
    unfold add, not, mul, xor, encode_div, and, or, shl, shr, sar, call, cmp,
      mov, movsx, movzx, movaps, push, sub, lea, leave, rep_movsq, ret, jmp,
      jcc, setcc, test, basic_register_only_encode;
    try (destruct ot);
    (eapply triple_post;
     [ repeat hstep'
     | intros ? ? H; eapply inv_weaken; [exact H|lia..] ]).
Qed.

(** *** Claims on the encoder *)

(** The combinations that no builder recognises and that come back as the
    single byte of [nop]: an opcode outside the switch of [encode], a [mov]
    or a [push] with an operand type they do not handle, and the two cases
    of [add] that are left empty. *)
Definition falls_back_to_nop (instr : instruction) : bool :=
  match opcode instr, optype instr with
  | INSTR_OTHER _, _ => true
  | INSTR_MOV, (OPT_IMM_REG | OPT_REG_REG | OPT_REG_MEM | OPT_MEM_REG) => false
  | INSTR_MOV, _ => true
  | INSTR_PUSH, OPT_REG => false
  | INSTR_PUSH, _ => true
  | INSTR_ADD, (OPT_IMM_REG | OPT_IMM_MEM) => true
  | _, _ => false
  end.

Definition nop_code : code := Code (0x90 :: replicate 15 0) 1.

Lemma nop_fallback instr e :
  falls_back_to_nop instr = true →
  run_encode instr e = Done () (State nop_code e).
Proof.
  destruct instr as [op ot a b]. unfold falls_back_to_nop.
  cbn [opcode optype]. destruct op, ot; try discriminate; reflexivity.
Qed.

(** C9.  Whatever the instruction record, [encode] either stops at a failed
    [assert] or returns a code of at most 15 bytes (at least one, in fact
    at most ten) in its 16-byte buffer, having recorded at most one
    relocation; it never writes outside the buffer.  The combinations of
    [falls_back_to_nop] return the single byte 0x90 and record nothing. *)
Theorem encode_length_and_relocs (instr : instruction) (e : elf_text) :
  match run_encode instr e with
  | Done _ s =>
      length (val (cd s)) = 16%nat ∧
      1 ≤ len (cd s) ≤ 15 ∧ len (cd s) ≤ 10 ∧
      ∃ rs, relocs (elf s) = relocs e ++ rs ∧ (length rs ≤ 1)%nat
  | Fault f => f = AssertFailed
  end ∧
  (falls_back_to_nop instr = true →
   run_encode instr e = Done () (State nop_code e) ∧ bytes nop_code = [0x90]).
Proof.
  split.
  - assert (H0 : rel (relocs e) 0 (State (Code [] 0) e))
      by (exists []; split; [symmetry; apply app_nil_r | reflexivity]).
    pose proof (encode_triple (relocs e) instr _ H0) as H.
    unfold run_encode. destruct (encode instr _) as [[] s|f]; [|exact H].
    destruct H as ((rs & Hrs & Hk) & Hv & Hl).
    split; [exact Hv|]. split; [lia|]. split; [lia|].
    exists rs. split; [exact Hrs|lia].
  - intros H. split; [now apply nop_fallback | reflexivity].
Qed.

Definition no_address : address := Address None 0 0 0 0.
Definition no_registr : registr := Registr 0 0.
Definition no_memory : memory := Memory no_address 0.
Definition no_immediate : immediate := Immediate IMM_INT 0 0 no_address.

(** An operand read as a register, as an immediate. *)
Definition reg_operand (r : registr) : operand :=
  Operand r no_memory no_immediate.
Definition imm_operand (i : immediate) : operand :=
  Operand no_registr no_memory i.
Definition no_operand : operand :=
  Operand no_registr no_memory no_immediate.

Lemma encode_length_and_relocs_witness :
  falls_back_to_nop (Instruction INSTR_PUSH OPT_IMM no_operand no_operand) = true ∧
  run_encode (Instruction INSTR_PUSH OPT_IMM no_operand no_operand)
             (ElfText 0 [] []) =
    Done () (State nop_code (ElfText 0 [] [])) ∧
  bytes nop_code = [0x90].
Proof.
  split; [reflexivity|].
  apply (proj2 (encode_length_and_relocs
                  (Instruction INSTR_PUSH OPT_IMM no_operand no_operand)
                  (ElfText 0 [] []))).
  reflexivity.
Defined.

(** C8.  [MOV 0x01020304, EAX] is encoded as B8 04 03 02 01: five bytes, no
    REX prefix, the text section untouched; [MOV 0x01020304, RAX] is
    encoded as 48 C7 C0 04 03 02 01: seven bytes, REX.W and the C7 /0 form.
    The members of the operand unions that [mov] does not read are
    arbitrary. *)
Theorem mov_imm32_eax_rax (src_reg : registr) (src_mem dst_mem : memory)
    (dst_imm : immediate) (imm_addr : address) (e : elf_text) :
  (∃ c,
     run_encode
       (Instruction INSTR_MOV OPT_IMM_REG
          (Operand src_reg src_mem (Immediate IMM_INT 4 0x01020304 imm_addr))
          (Operand (Registr AX 4) dst_mem dst_imm)) e = Done () (State c e) ∧
     bytes c = [0xB8; 0x04; 0x03; 0x02; 0x01] ∧ len c = 5) ∧
  (∃ c,
     run_encode
       (Instruction INSTR_MOV OPT_IMM_REG
          (Operand src_reg src_mem (Immediate IMM_INT 4 0x01020304 imm_addr))
          (Operand (Registr AX 8) dst_mem dst_imm)) e = Done () (State c e) ∧
     bytes c = [0x48; 0xC7; 0xC0; 0x04; 0x03; 0x02; 0x01] ∧ len c = 7).
Proof.
  split; eexists; (split; [vm_compute; reflexivity|]); split; reflexivity.
Qed.

(** The instruction [JMP L] for a label [L] whose text offset is not known
    yet, with no displacement added to the label. *)
Definition jmp_forward (L : string) : instruction :=
  Instruction INSTR_JMP OPT_IMM
    (imm_operand (Immediate IMM_ADDR 8 0
                    (Address (Some (Symbol L None)) 0 0 0 0)))
    no_operand.

Lemma jmp_forward_eval L e :
  run_encode (jmp_forward L) e =
  Done ()
    (State (Code ([0xE9; 0xFC; 0xFF; 0xFF; 0xFF] ++ replicate 11 0) 5)
       (ElfText (text_offset e) (relocs e)
          (pending e ++ [(Symbol L None, text_offset e + 1)]))).
Proof. reflexivity. Qed.

(** C3 (as amended).  [JMP L] for a forward label [L] is encoded as
    E9 FC FF FF FF: the displacement field holds the bias -4 that the
    later fixup adds the distance to.  [jmp] records no relocation; it
    hands the position [current_offset + 1] to [elf_text_displacement],
    which returns 0 and notes the position for the fixup. *)
Theorem jmp_forward_label (L : string) (e : elf_text) :
  ∃ c e',
    run_encode (jmp_forward L) e = Done () (State c e') ∧
    bytes c = [0xE9; 0xFC; 0xFF; 0xFF; 0xFF] ∧
    text_offset e' = text_offset e ∧
    relocs e' = relocs e ∧
    pending e' = pending e ++ [(Symbol L None, text_offset e + 1)].
Proof.
  eexists _, _. split; [apply jmp_forward_eval|]. repeat split.
Qed.

(** C3 as stated fails: from an empty text section at offset 100 the bytes
    are not E9 00 00 00 00 and no [R_X86_64_PC32] relocation is recorded. *)
Lemma jmp_forward_label_not_zero_reloc :
  ¬ ∃ c e',
      run_encode (jmp_forward ".L1") (ElfText 100 [] []) = Done () (State c e') ∧
      bytes c = [0xE9; 0x00; 0x00; 0x00; 0x00] ∧
      relocs e' = [Reloc (Some (Symbol ".L1" None)) R_X86_64_PC32 101 (-4)].
Proof.
  intros (c & e' & Hrun & Hbytes & Hrel).
  rewrite jmp_forward_eval in Hrun. injection Hrun as <- <-.
  discriminate Hrel.
Qed.

Lemma modrm_ext7 x : Z.land (Z.shiftr ((0xF8 ||| x) mod 256) 3) 7 = 7.
Proof.
  change 256 with (2 ^ 8). rewrite <- Z.land_ones by lia.
  apply Z.bits_inj'. intros n Hn.
  rewrite Z.land_spec, Z.shiftr_spec, Z.land_spec, Z.lor_spec by lia.
  destruct (Z.ltb_spec n 3) as [Hlt|Hge].
  - assert (Hc : n = 0 ∨ n = 1 ∨ n = 2) by lia.
    destruct Hc as [-> | [-> | ->]]; reflexivity.
  - change 7 with (Z.ones 3). rewrite (Z.ones_spec_high 3 n) by lia.
    apply andb_false_r.
Qed.

(** C4.  For a source operand CL (register [CX], width 1) and any
    destination register, [shr] and [sar] return the same code: an optional
    REX prefix, the opcode byte D2 | w, and a ModR/M byte F8 | reg whose
    opcode-extension field (bits 5..3) is 7. *)
Theorem shr_sar_same_bytes (a b : operand) (s : state) :
  reg_r (reg_ a) = CX → reg_w (reg_ a) = 1 →
  shr OPT_REG_REG a b s = sar OPT_REG_REG a b s ∧
  ∃ s' prefix modrm,
    shr OPT_REG_REG a b s = Done () s' ∧
    elf s' = elf s ∧
    bytes (cd s') = prefix ++ [(0xD2 ||| w (reg_ b)) mod 256; modrm] ∧
    (length prefix ≤ 1)%nat ∧
    modrm = (0xF8 ||| reg (reg_ b)) mod 256 ∧
    Z.land (Z.shiftr modrm 3) 7 = 7.
Proof.
  intros Hr Hw. split; [reflexivity|].
  unfold shr. rewrite Hr, Hw.
  destruct (truthy (is_64_bit_reg (reg_r (reg_ b))) || (reg_w (reg_ b) >? 4)).
  - eexists _, [(REX ||| W (reg_ b) ||| B (reg_ b)) mod 256], _.
    split; [reflexivity|]. split; [reflexivity|]. split; [reflexivity|].
    split; [cbn; lia|]. split; [reflexivity|apply modrm_ext7].
  - eexists _, [], _.
    split; [reflexivity|]. split; [reflexivity|]. split; [reflexivity|].
    split; [cbn; lia|]. split; [reflexivity|apply modrm_ext7].
Qed.

Lemma shr_sar_same_bytes_witness :
  (reg_r (Registr CX 1) = CX ∧ reg_w (Registr CX 1) = 1) ∧
  ∃ s' prefix modrm,
    shr OPT_REG_REG (reg_operand (Registr CX 1)) (reg_operand (Registr R9 8))
        (State (Code [] 0) (ElfText 0 [] [])) = Done () s' ∧
    elf s' = ElfText 0 [] [] ∧
    bytes (cd s') =
      prefix ++ [(0xD2 ||| w (Registr R9 8)) mod 256; modrm] ∧
    (length prefix ≤ 1)%nat ∧
    modrm = (0xF8 ||| reg (Registr R9 8)) mod 256 ∧
    Z.land (Z.shiftr modrm 3) 7 = 7.
Proof.
  split; [split; reflexivity|].
  exact (proj2 (shr_sar_same_bytes
                  (reg_operand (Registr CX 1)) (reg_operand (Registr R9 8))
                  (State (Code [] 0) (ElfText 0 [] []))
                  eq_refl eq_refl)).
Defined.

(** ** backend/x86_64/instructions.c, continued *)

(** *** Reading an encoding back *)

(** The general purpose register with the three-bit number [idx] and the
    extension bit [ext] of a REX prefix. *)
Definition reg_of (ext : bool) (idx : Z) : Reg.reg :=
  idx + 1 + (if ext then 8 else 0).

(** A register-to-register instruction as the processor reads it: an
    optional REX prefix [0100WRXB], one opcode byte, and a ModR/M byte
    with [mod = 11], whose [reg] field is extended by [REX.R] and whose
    [r/m] field by [REX.B]. *)
Record rr_form : Type := RR {
  rr_w : bool;
  rr_opcode : Z;
  rr_reg : Reg.reg;
  rr_rm : Reg.reg }.

Definition decode_modrm_rr (w r b : bool) (op modrm : Z) : option rr_form :=
  if Z.shiftr modrm 6 =? 3 then
    Some (RR w op (reg_of r (Z.land (Z.shiftr modrm 3) 7))
             (reg_of b (Z.land modrm 7)))
  else None.

Definition decode_rr (bs : list Z) : option rr_form :=
  match bs with
  | [rex; op; modrm] =>
      if Z.shiftr rex 4 =? 4 then
        decode_modrm_rr (Z.testbit rex 3) (Z.testbit rex 2) (Z.testbit rex 0)
          op modrm
      else None
  | [op; modrm] =>
      if Z.shiftr op 4 =? 4 then None
      else decode_modrm_rr false false false op modrm
  | _ => None
  end.

Definition gpr (r : Reg.reg) : Prop := AX ≤ r ≤ R15.

Lemma gpr_cases r :
  gpr r →
  r = 1 ∨ r = 2 ∨ r = 3 ∨ r = 4 ∨ r = 5 ∨ r = 6 ∨ r = 7 ∨ r = 8 ∨
  r = 9 ∨ r = 10 ∨ r = 11 ∨ r = 12 ∨ r = 13 ∨ r = 14 ∨ r = 15 ∨ r = 16.
Proof. unfold gpr, AX, R15. lia. Qed.

Ltac each_gpr H :=
  apply gpr_cases in H;
  repeat (destruct H as [H|H]); subst.

(** The opcode byte of the 64-bit register-to-register form. *)
Definition rr_opcode_of (op : instr_opcode) : option Z :=
  match op with
  | INSTR_MOV => Some 0x89
  | INSTR_ADD => Some 0x01
  | INSTR_SUB => Some 0x29
  | INSTR_XOR => Some 0x31
  | INSTR_AND => Some 0x21
  | INSTR_OR => Some 0x09
  | _ => None
  end.


(** X15.  [mov], [add], [sub], [xor], [and] and [or] between two 64-bit
    general purpose registers are encoded in three bytes, and change
    nothing in the text section: a REX prefix with [W] set, the opcode
    [0x89], [0x01], [0x29], [0x31], [0x21] or [0x09], and a ModR/M byte.
    Read back, they give the first operand in the [reg] field and the
    second in the [r/m] field, whichever of the sixteen registers they
    are. *)
Theorem reg_reg_round_trip (op : instr_opcode) (opc : Z) (a b : operand)
    (e : elf_text) :
  rr_opcode_of op = Some opc →
  gpr (reg_r (reg_ a)) → gpr (reg_r (reg_ b)) →
  reg_w (reg_ a) = 8 → reg_w (reg_ b) = 8 →
  ∃ s, run_encode (Instruction op OPT_REG_REG a b) e = Done () s ∧
       elf s = e ∧
       decode_rr (bytes (cd s)) =
         Some (RR true opc (reg_r (reg_ a)) (reg_r (reg_ b))).
Proof.
  destruct a as [[ra wa] ma ia], b as [[rb wb] mb ib].
  cbn [reg_ reg_r reg_w]. intros Hop Ha Hb -> ->.
  destruct op; try discriminate; injection Hop as <-;
    each_gpr Ha; each_gpr Hb;
    (eexists; split; [vm_compute; reflexivity|split; vm_compute; reflexivity]).
Qed.

Lemma reg_reg_round_trip_witness :
  (rr_opcode_of INSTR_MOV = Some 0x89 ∧ gpr SI ∧ gpr R9 ∧
   reg_w (Registr SI 8) = 8 ∧ reg_w (Registr R9 8) = 8) ∧
  ∃ s, run_encode (Instruction INSTR_MOV OPT_REG_REG
                     (reg_operand (Registr SI 8)) (reg_operand (Registr R9 8)))
         (ElfText 0 [] []) = Done () s ∧
       elf s = ElfText 0 [] [] ∧
       decode_rr (bytes (cd s)) = Some (RR true 0x89 SI R9).
Proof.
  assert (H1 : gpr SI) by (unfold gpr, AX, SI, R15; lia).
  assert (H2 : gpr R9) by (unfold gpr, AX, R9, R15; lia).
  split; [repeat split; (reflexivity || apply H1 || apply H2)|].
  exact (reg_reg_round_trip INSTR_MOV 0x89 (reg_operand (Registr SI 8))
           (reg_operand (Registr R9 8)) (ElfText 0 [] []) eq_refl H1 H2
           eq_refl eq_refl).
Defined.

(** The register that has the three-bit number of [r] and no extension
    bit: [AX] for [R8], [CX] for [R9], ... *)
Definition legacy (r : Reg.reg) : Reg.reg := (r - 1) mod 8 + 1.

(** X16.  [mov] between two registers of the same width 1, 2 or 4 always has
    a REX prefix, without [W], and the opcode [0x88] of the 8-bit move,
    whatever the width; the ModR/M byte and the prefix name the two
    registers. *)
Theorem mov_reg_reg_narrow (a b : operand) (e : elf_text) :
  gpr (reg_r (reg_ a)) → gpr (reg_r (reg_ b)) →
  reg_w (reg_ a) = reg_w (reg_ b) →
  reg_w (reg_ a) = 1 ∨ reg_w (reg_ a) = 2 ∨ reg_w (reg_ a) = 4 →
  ∃ s, run_encode (Instruction INSTR_MOV OPT_REG_REG a b) e = Done () s ∧
       elf s = e ∧
       decode_rr (bytes (cd s)) =
         Some (RR false 0x88 (reg_r (reg_ a)) (reg_r (reg_ b))).
Proof.
  destruct a as [[ra wa] ma ia], b as [[rb wb] mb ib].
  cbn [reg_ reg_r reg_w]. intros Ha Hb <- Hw.
  destruct Hw as [->|[->| ->]]; each_gpr Ha; each_gpr Hb;
    (eexists; split; [vm_compute; reflexivity|split; vm_compute; reflexivity]).
Qed.

Lemma mov_reg_reg_narrow_witness :
  (gpr R10 ∧ gpr BX ∧ reg_w (Registr R10 4) = reg_w (Registr BX 4)) ∧
  ∃ s, run_encode (Instruction INSTR_MOV OPT_REG_REG
                     (reg_operand (Registr R10 4)) (reg_operand (Registr BX 4)))
         (ElfText 0 [] []) = Done () s ∧
       elf s = ElfText 0 [] [] ∧
       decode_rr (bytes (cd s)) = Some (RR false 0x88 R10 BX).
Proof.
  assert (H1 : gpr R10) by (unfold gpr, AX, R10, R15; lia).
  assert (H2 : gpr BX) by (unfold gpr, AX, BX, R15; lia).
  split; [repeat split; (reflexivity || apply H1 || apply H2)|].
  exact (mov_reg_reg_narrow (reg_operand (Registr R10 4))
           (reg_operand (Registr BX 4)) (ElfText 0 [] []) H1 H2 eq_refl
           (or_intror (or_intror eq_refl))).
Defined.

(** Whether the 32-bit form of [op] gets a REX prefix. *)
Definition alu32_opcode_of (op : instr_opcode) : option Z :=
  match op with
  | INSTR_ADD => Some 0x01
  | INSTR_SUB => Some 0x29
  | INSTR_XOR => Some 0x31
  | INSTR_AND => Some 0x21
  | INSTR_OR => Some 0x09
  | _ => None
  end.

Definition alu32_has_rex (op : instr_opcode) (first : Reg.reg) : bool :=
  match op with
  | INSTR_XOR | INSTR_AND | INSTR_OR => DI <? first
  | _ => false
  end.

(** X17.  With a first operand of width 4, [add] and [sub] never emit a REX
    prefix, and [xor], [and] and [or] emit one exactly when the first
    register is one of [R8] to [R15].  Without the prefix an extended
    register is encoded as the register that shares its low three bits:
    the instruction read back names [legacy] registers. *)
Theorem alu_reg_reg_32_bit (op : instr_opcode) (opc : Z) (a b : operand)
    (e : elf_text) :
  alu32_opcode_of op = Some opc →
  gpr (reg_r (reg_ a)) → gpr (reg_r (reg_ b)) →
  reg_w (reg_ a) = 4 →
  ∃ s, run_encode (Instruction op OPT_REG_REG a b) e = Done () s ∧
       elf s = e ∧
       decode_rr (bytes (cd s)) =
         Some (if alu32_has_rex op (reg_r (reg_ a))
               then RR false opc (reg_r (reg_ a)) (reg_r (reg_ b))
               else RR false opc (legacy (reg_r (reg_ a)))
                       (legacy (reg_r (reg_ b)))).
Proof.
  destruct a as [[ra wa] ma ia], b as [[rb wb] mb ib].
  cbn [reg_ reg_r reg_w]. intros Hop Ha Hb ->.
  destruct op; try discriminate; injection Hop as <-;
    each_gpr Ha; each_gpr Hb;
    (eexists; split; [vm_compute; reflexivity|split; vm_compute; reflexivity]).
Qed.

Lemma alu_reg_reg_32_bit_witness :
  (alu32_opcode_of INSTR_ADD = Some 0x01 ∧ gpr R8 ∧ gpr R9) ∧
  ∃ s, run_encode (Instruction INSTR_ADD OPT_REG_REG
                     (reg_operand (Registr R8 4)) (reg_operand (Registr R9 4)))
         (ElfText 0 [] []) = Done () s ∧
       elf s = ElfText 0 [] [] ∧
       decode_rr (bytes (cd s)) = Some (RR false 0x01 AX CX).
Proof.
  assert (H1 : gpr R8) by (unfold gpr, AX, R8, R15; lia).
  assert (H2 : gpr R9) by (unfold gpr, AX, R9, R15; lia).
  split; [repeat split; (reflexivity || apply H1 || apply H2)|].
  exact (alu_reg_reg_32_bit INSTR_ADD 0x01 (reg_operand (Registr R8 4))
           (reg_operand (Registr R9 4)) (ElfText 0 [] []) eq_refl H1 H2
           eq_refl).
Defined.

(** *** Memory operands *)

(** The integer that a list of bytes holds, least significant first. *)
Definition from_le (bs : list Z) : Z := foldr (λ b acc, b + 256 * acc) 0 bs.

(** A memory operand as the processor reads it from a ModR/M byte that no
    SIB byte follows: a base register (by its three-bit number) with a
    displacement of 0, 1 or 4 bytes, or an address relative to the
    instruction pointer.  [r/m = 100] announces a SIB byte, and [mod = 00]
    with [r/m = 101] is the RIP-relative form. *)
Inductive mem_form : Type :=
| Based (rm : Z) (disp : Z)
| RipRelative (disp : Z).

Definition decode_modrm_mem (bs : list Z) : option (Z * mem_form) :=
  match bs with
  | [] => None
  | modrm :: rest =>
      let md := Z.shiftr modrm 6 in
      let rg := Z.land (Z.shiftr modrm 3) 7 in
      let rm := Z.land modrm 7 in
      if rm =? 4 then None
      else if md =? 0 then
        if rm =? 5 then
          match rest with
          | [_; _; _; _] => Some (rg, RipRelative (sext 32 (from_le rest)))
          | _ => None
          end
        else
          match rest with
          | [] => Some (rg, Based rm 0)
          | _ => None
          end
      else if md =? 1 then
        match rest with
        | [d] => Some (rg, Based rm (sext 8 d))
        | _ => None
        end
      else if md =? 2 then
        match rest with
        | [_; _; _; _] => Some (rg, Based rm (sext 32 (from_le rest)))
        | _ => None
        end
      else None
  end.

Lemma from_le_le_bytes n :
  ∀ x, from_le (le_bytes n x) = x mod 2 ^ (8 * Z.of_nat n).
Proof.
  induction n as [|n IH]; intros x.
  - cbn. now rewrite Z.mod_1_r.
  - cbn [le_bytes from_le foldr]. fold (from_le (le_bytes n (Z.shiftr x 8))).
    rewrite IH, Z.shiftr_div_pow2 by lia.
    replace (8 * Z.of_nat (S n)) with (8 + 8 * Z.of_nat n) by lia.
    rewrite Z.pow_add_r by lia. change (2 ^ 8) with 256.
    rewrite Z.rem_mul_r by lia. reflexivity.
Qed.

Lemma sext_mod n x :
  0 < n → - 2 ^ (n - 1) ≤ x < 2 ^ (n - 1) → sext n (x mod 2 ^ n) = x.
Proof.
  intros Hn Hx. unfold sext.
  assert (H2 : 2 ^ n = 2 * 2 ^ (n - 1)).
  { replace n with (1 + (n - 1)) at 1 by lia. rewrite Z.pow_add_r by lia.
    reflexivity. }
  rewrite Zplus_mod_idemp_l. rewrite Z.mod_small by lia. lia.
Qed.

Lemma sext8_byte d : in_byte_range d = true → sext 8 (d mod 256) = d.
Proof.
  unfold in_byte_range. intros H. apply andb_true_iff in H as [H1 H2].
  apply (sext_mod 8 d); [lia|]. change (2 ^ (8 - 1)) with 128. lia.
Qed.

Lemma sext32_le_bytes d :
  in_32bit_range d = true → sext 32 (from_le (le_bytes 4 d)) = d.
Proof.
  unfold in_32bit_range. intros H. apply andb_true_iff in H as [H1 H2].
  rewrite from_le_le_bytes. apply (sext_mod 32 d); [lia|].
  change (2 ^ (32 - 1)) with 2147483648. lia.
Qed.

(** The bytes that [encode_sib_addr] appends for an address without a
    symbol. *)
Definition modrm_of (rg : Z) (a : address) : Z :=
  ((Z.land (rg mod 256) 0x7 << 3) ||| (base a - 1) mod 8) mod 256.

Definition sib_tail (rg : Z) (a : address) : list Z :=
  if disp a =? 0 then [modrm_of rg a]
  else if in_byte_range (disp a)
       then [(modrm_of rg a ||| 0x40) mod 256; disp a mod 256]
       else (modrm_of rg a ||| 0x80) mod 256 :: le_bytes 4 (disp a).

(** A buffer with room for a ModR/M byte and four more. *)
Definition room (s : state) : Prop :=
  length (val (cd s)) = 16%nat ∧ 0 ≤ len (cd s) ≤ 11.

Lemma take_insert_snoc {A} (l : list A) (k : nat) (x : A) :
  (k < length l)%nat → take (S k) (<[k := x]> l) = take k l ++ [x].
Proof.
  intros Hk. rewrite (take_S_r _ _ x) by (now apply list_lookup_insert_eq).
  now rewrite take_insert_ge by lia.
Qed.

Lemma set_val_done i x v n el :
  0 ≤ i < 16 →
  set_val i x (State (Code v n) el) =
  Done () (State (Code (<[Z.to_nat i := x mod 256]> v) n) el).
Proof. intros Hi. unfold set_val. now rewrite in_buffer_true. Qed.

Lemma or_val_done i x y v n el :
  0 ≤ i < 16 → v !! Z.to_nat i = Some y →
  or_val i x (State (Code v n) el) =
  Done () (State (Code (<[Z.to_nat i := (Z.lor y x) mod 256]> v) n) el).
Proof.
  intros Hi Hy. unfold or_val. rewrite in_buffer_true by exact Hi.
  cbn [cd val]. rewrite Hy. now apply set_val_done.
Qed.

Lemma emit_done x v n el :
  0 ≤ n < 16 →
  emit x (State (Code v n) el) =
  Done () (State (Code (<[Z.to_nat n := x mod 256]> v) (n + 1)) el).
Proof.
  intros Hn. unfold emit, mbind, enc_bind, get_len. cbn [cd len].
  rewrite set_val_done by exact Hn. reflexivity.
Qed.

Lemma set_vals_done bs :
  ∀ i v n el, 0 ≤ i → i + Z.of_nat (length bs) ≤ 16 →
    ∃ v', set_vals i bs (State (Code v n) el) = Done () (State (Code v' n) el) ∧
          length v' = length v ∧
          take (Z.to_nat i) v' = take (Z.to_nat i) v ∧
          ((Z.to_nat i + length bs ≤ length v)%nat →
           take (length bs) (drop (Z.to_nat i) v') = (λ b, b mod 256) <$> bs).
Proof.
  induction bs as [|b bs IH]; intros i v n el Hi Hle.
  - exists v. repeat split.
  - cbn [length] in Hle. cbn [set_vals]. unfold mbind, enc_bind.
    rewrite set_val_done by lia.
    destruct (IH (i + 1) (<[Z.to_nat i := b mod 256]> v) n el) as
      (v' & E & Hlen & Htake & Hdrop); [lia|lia|].
    exists v'. split; [exact E|]. rewrite length_insert in Hlen.
    split; [exact Hlen|].
    replace (Z.to_nat (i + 1)) with (S (Z.to_nat i)) in * by lia.
    split.
    + apply (f_equal (take (Z.to_nat i))) in Htake.
      rewrite !take_take in Htake.
      replace (Z.to_nat i `min` S (Z.to_nat i))%nat with (Z.to_nat i) in Htake
        by lia.
      rewrite Htake. apply take_insert_ge. lia.
    + intros Hfit. cbn [length] in Hfit.
      rewrite length_insert in Hdrop. specialize (Hdrop ltac:(lia)).
      assert (Hhd : v' !! Z.to_nat i = Some (b mod 256)).
      { apply (f_equal (λ l, l !! Z.to_nat i)) in Htake.
        rewrite !lookup_take_lt in Htake by lia. rewrite Htake.
        apply list_lookup_insert_eq. lia. }
      rewrite (drop_S _ _ _ Hhd). cbn [length take fmap list_fmap].
      now rewrite Hdrop.
Qed.

Lemma take_app_drop {A} (l : list A) (i k : nat) :
  take (i + k) l = take i l ++ take k (drop i l).
Proof.
  revert l. induction i as [|i IH]; intros l; [reflexivity|].
  destruct l as [|x l]; cbn; [now rewrite take_nil|]. now rewrite IH.
Qed.

Lemma le_bytes_mod n : ∀ x, (λ b, b mod 256) <$> le_bytes n x = le_bytes n x.
Proof.
  induction n as [|n IH]; intros x; [reflexivity|].
  cbn [le_bytes fmap list_fmap]. rewrite Zmod_mod. f_equal. apply IH.
Qed.

Lemma encode_sib_addr_plain rg a s :
  sym a = None → room s →
  ∃ s', encode_sib_addr rg a s = Done () s' ∧ elf s' = elf s ∧
        bytes (cd s') = bytes (cd s) ++ sib_tail rg a.
Proof.
  destruct s as [[v n] el]. unfold room. cbn [cd val len elf].
  intros Hsym [Hlen Hn]. unfold encode_sib_addr. rewrite Hsym.
  unfold mbind, enc_bind, get_len. cbn [cd len].
  rewrite set_val_done by lia. fold (modrm_of rg a).
  set (m := modrm_of rg a). set (k := Z.to_nat n).
  assert (Hk : (k < length v)%nat) by lia.
  unfold sib_tail, truthy. fold m.
  destruct (Z.eqb_spec (disp a) 0) as [Hd|Hd]; cbn [negb].
  - eexists. split; [reflexivity|]. split; [reflexivity|].
    unfold bytes, add_len. cbn [cd val len].
    replace (Z.to_nat (n + 1)) with (S k) by lia.
    now rewrite take_insert_snoc.
  - destruct (in_byte_range (disp a)).
    + rewrite (or_val_done n 0x40 m) by (lia || now apply list_lookup_insert_eq).
      unfold add_len. cbn [cd val len elf].
      rewrite emit_done by lia.
      eexists. split; [reflexivity|]. split; [reflexivity|].
      unfold bytes. cbn [cd val len]. rewrite list_insert_insert_eq.
      replace (Z.to_nat (n + 1 + 1)) with (S (S k)) by lia.
      replace (Z.to_nat (n + 1)) with (S k) by lia.
      rewrite take_insert_snoc by (rewrite length_insert; lia).
      rewrite take_insert_snoc by lia. now rewrite <- app_assoc.
    + rewrite (or_val_done n 0x80 m) by (lia || now apply list_lookup_insert_eq).
      unfold add_len. cbn [cd val len elf]. rewrite list_insert_insert_eq.
      unfold memcpy_at.
      destruct (set_vals_done (le_bytes 4 (disp a)) (n + 1)
                  (<[k := (m ||| 0x80) mod 256]> v) (n + 1) el)
        as (v' & E & Hlen' & Htake & Hdrop);
        [lia|rewrite length_le_bytes; lia|].
      rewrite E. cbn [cd val len].
      eexists. split; [reflexivity|]. split; [reflexivity|].
      unfold bytes. cbn [cd val len].
      rewrite length_insert, length_le_bytes in Hdrop.
      specialize (Hdrop ltac:(lia)). rewrite le_bytes_mod in Hdrop.
      replace (Z.to_nat (n + 1 + 4)) with (S k + 4)%nat by lia.
      replace (Z.to_nat (n + 1)) with (S k) in * by lia.
      rewrite take_app_drop, Hdrop, Htake.
      rewrite take_insert_snoc by lia. now rewrite <- app_assoc.
Qed.

Lemma small_cases k :
  0 ≤ k < 8 →
  k = 0 ∨ k = 1 ∨ k = 2 ∨ k = 3 ∨ k = 4 ∨ k = 5 ∨ k = 6 ∨ k = 7.
Proof. lia. Qed.

Ltac each_small H :=
  apply small_cases in H;
  repeat (destruct H as [H|H]); subst.

Lemma decode_based k rm :
  0 ≤ k < 8 → 0 ≤ rm < 8 →
  decode_modrm_mem [((k << 3) ||| rm) mod 256] =
    (if (rm =? 4) || (rm =? 5) then None else Some (k, Based rm 0)) ∧
  (∀ x, decode_modrm_mem [(((k << 3) ||| rm) mod 256 ||| 0x40) mod 256; x] =
        if rm =? 4 then None else Some (k, Based rm (sext 8 x))) ∧
  (∀ x0 x1 x2 x3,
     decode_modrm_mem
       [(((k << 3) ||| rm) mod 256 ||| 0x80) mod 256; x0; x1; x2; x3] =
     if rm =? 4 then None
     else Some (k, Based rm (sext 32 (from_le [x0; x1; x2; x3])))).
Proof.
  intros Hk Hrm. each_small Hk; each_small Hrm;
    (split; [reflexivity|split; intros; reflexivity]).
Qed.

(** X18.  For an address without a symbol, [encode_sib_addr] appends to the
    instruction a ModR/M byte and a displacement of 0, 1 or 4 bytes, and
    leaves the text section alone.  The bytes read back as the base
    register (by its low three bits) and the displacement, except for the
    bases [SP] and [R12], whose number announces a SIB byte that is not
    emitted, and for [BP] and [R13] with displacement 0, whose encoding is
    the RIP-relative form. *)
Theorem memory_operand_round_trip (rg : Z) (a : address) (s : state) :
  sym a = None → room s → 0 ≤ rg < 8 → gpr (base a) →
  in_32bit_range (disp a) = true →
  ∃ s' tail,
    encode_sib_addr rg a s = Done () s' ∧
    elf s' = elf s ∧
    bytes (cd s') = bytes (cd s) ++ tail ∧
    decode_modrm_mem tail =
      if ((base a - 1) mod 8 =? 4) ||
         (((base a - 1) mod 8 =? 5) && (disp a =? 0))
      then None
      else Some (rg, Based ((base a - 1) mod 8) (disp a)).
Proof.
  intros Hsym Hroom Hrg Hbase Hdisp.
  destruct (encode_sib_addr_plain rg a s Hsym Hroom) as (s' & E & Hel & Hb).
  exists s', (sib_tail rg a). split; [exact E|]. split; [exact Hel|].
  split; [exact Hb|].
  assert (Hm : modrm_of rg a = ((rg << 3) ||| ((base a - 1) mod 8)) mod 256).
  { unfold modrm_of.
    f_equal. f_equal. f_equal. clear -Hrg. each_small Hrg; reflexivity. }
  assert (Hrm : 0 ≤ (base a - 1) mod 8 < 8) by (apply Z.mod_pos_bound; lia).
  destruct (decode_based rg ((base a - 1) mod 8) Hrg Hrm) as (H0 & H1 & H4).
  unfold sib_tail. rewrite Hm.
  destruct (Z.eqb_spec (disp a) 0) as [Hd|Hd].
  - rewrite H0, Hd, andb_true_r. reflexivity.
  - rewrite andb_false_r, orb_false_r.
    destruct (in_byte_range (disp a)) eqn:Hbyte.
    + rewrite H1, sext8_byte by exact Hbyte. reflexivity.
    + cbn [le_bytes]. rewrite H4.
      change [disp a mod 256; Z.shiftr (disp a) 8 mod 256;
              Z.shiftr (Z.shiftr (disp a) 8) 8 mod 256;
              Z.shiftr (Z.shiftr (Z.shiftr (disp a) 8) 8) 8 mod 256]
        with (le_bytes 4 (disp a)).
      rewrite sext32_le_bytes by exact Hdisp. reflexivity.
Qed.

Lemma memory_operand_round_trip_witness :
  let a := Address None BP 0 0 (-8) in
  let s := State (Code (0x8B :: replicate 15 0) 1) (ElfText 0 [] []) in
  (sym a = None ∧ room s ∧ 0 ≤ 0 < 8 ∧ gpr (base a) ∧
   in_32bit_range (disp a) = true) ∧
  ∃ s' tail,
    encode_sib_addr 0 a s = Done () s' ∧
    elf s' = elf s ∧
    bytes (cd s') = bytes (cd s) ++ tail ∧
    decode_modrm_mem tail = Some (0, Based 5 (-8)).
Proof.
  intros a s.
  assert (Hroom : room s) by (split; [reflexivity|cbn [s cd len]; lia]).
  assert (Hbase : gpr (base a)) by (unfold gpr, AX, R15; cbn [a base]; unfold BP; lia).
  split; [repeat split; (reflexivity || apply Hroom || apply Hbase || lia)|].
  exact (memory_operand_round_trip 0 a s eq_refl Hroom
           (conj (Z.le_refl 0) eq_refl) Hbase eq_refl).
Defined.

(** X19.  For an address with a symbol, [encode_sib_addr] appends the
    ModR/M byte of the RIP-relative form and four zero bytes, and
    registers one [R_X86_64_PC32] relocation against the symbol, at the
    position of the four bytes within the instruction, with the
    displacement of the address as addend. *)
Theorem rip_relative_operand (rg : Z) (a : address) (sy : symbol) (s : state) :
  sym a = Some sy → room s → 0 ≤ rg < 8 →
  ∃ s' tail,
    encode_sib_addr rg a s = Done () s' ∧
    elf s' =
      ElfText (text_offset (elf s))
        (relocs (elf s) ++
           [Reloc (Some sy) R_X86_64_PC32
                  (text_offset (elf s) + (len (cd s) + 1)) (disp a)])
        (pending (elf s)) ∧
    bytes (cd s') = bytes (cd s) ++ tail ∧
    tail = [(rg << 3) ||| 5; 0; 0; 0; 0] ∧
    decode_modrm_mem tail = Some (rg, RipRelative 0).
Proof.
  destruct s as [[v n] el]. unfold room. cbn [cd val len elf].
  intros Hsym [Hlen Hn] Hrg. unfold encode_sib_addr. rewrite Hsym.
  unfold mbind, enc_bind. rewrite emit_done by lia.
  unfold get_len, elf_add_reloc_text, memset0_at. cbn [cd val len elf].
  set (k := Z.to_nat n).
  set (m := ((Z.land (rg mod 256) 7 << 3) ||| 5) mod 256).
  destruct (set_vals_done (replicate 4 0) (n + 1) (<[k := m]> v) (n + 1)
              (ElfText (text_offset el)
                 (relocs el ++
                    [Reloc (Some sy) R_X86_64_PC32 (text_offset el + (n + 1))
                           (disp a)])
                 (pending el)))
    as (v' & E & Hlen' & Htake & Hdrop); [lia|cbn; lia|].
  rewrite E. unfold add_len. cbn [cd val len elf].
  assert (Hm : m = (rg << 3) ||| 5) by (unfold m; clear -Hrg; each_small Hrg; reflexivity).
  exists (State (Code v' (n + 1 + 4))
            (ElfText (text_offset el)
               (relocs el ++
                  [Reloc (Some sy) R_X86_64_PC32 (text_offset el + (n + 1))
                         (disp a)])
               (pending el))), [(rg << 3) ||| 5; 0; 0; 0; 0].
  split; [reflexivity|]. split; [reflexivity|]. split; [|split; [reflexivity|]].
  - unfold bytes. cbn [cd val len].
    rewrite length_insert in Hdrop. cbn [length replicate] in Hdrop.
    specialize (Hdrop ltac:(lia)).
    replace (Z.to_nat (n + 1 + 4)) with (S k + 4)%nat by lia.
    replace (Z.to_nat (n + 1)) with (S k) in * by lia.
    rewrite take_app_drop, Hdrop, Htake.
    rewrite take_insert_snoc by lia. rewrite Hm, <- app_assoc. reflexivity.
  - clear -Hrg. each_small Hrg; reflexivity.
Qed.

Lemma rip_relative_operand_witness :
  let sy := Symbol "counter" None in
  let a := Address (Some sy) 0 0 0 4 in
  let s := State (Code (0x8B :: replicate 15 0) 1) (ElfText 32 [] []) in
  (sym a = Some sy ∧ room s ∧ 0 ≤ 2 < 8) ∧
  ∃ s' tail,
    encode_sib_addr 2 a s = Done () s' ∧
    elf s' = ElfText 32 [Reloc (Some sy) R_X86_64_PC32 34 4] [] ∧
    bytes (cd s') = bytes (cd s) ++ tail ∧
    tail = [0x15; 0; 0; 0; 0] ∧
    decode_modrm_mem tail = Some (2, RipRelative 0).
Proof.
  intros sy a s.
  assert (Hroom : room s) by (split; [reflexivity|cbn [s cd len]; lia]).
  split; [repeat split; (reflexivity || apply Hroom || lia)|].
  exact (rip_relative_operand 2 a sy s eq_refl Hroom
           (conj (Zle_bool_imp_le 0 2 eq_refl) eq_refl)).
Defined.

(** *** Immediates *)

(** An instruction of the immediate group as the processor reads it: REX
    prefix with [W] set, opcode [0x83] with a sign-extended byte or [0x81]
    with a sign-extended doubleword, ModR/M with [mod = 11] whose [reg]
    field selects the operation ([/5] is [sub]) and whose [r/m] field,
    extended by [REX.B], is the register. *)
Record imm_form : Type := ImmForm {
  if_op : Z;
  if_rm : Reg.reg;
  if_imm : Z }.

Definition decode_imm64 (bs : list Z) : option imm_form :=
  match bs with
  | rex :: op :: modrm :: rest =>
      if (Z.shiftr rex 4 =? 4) && Z.testbit rex 3 && (Z.shiftr modrm 6 =? 3)
      then
        let form := ImmForm (Z.land (Z.shiftr modrm 3) 7)
                            (reg_of (Z.testbit rex 0) (Z.land modrm 7)) in
        if op =? 0x83 then
          match rest with
          | [ib] => Some (form (sext 8 ib))
          | _ => None
          end
        else if op =? 0x81 then
          match rest with
          | [_; _; _; _] => Some (form (sext 32 (from_le rest)))
          | _ => None
          end
        else None
      else None
  | _ => None
  end.

(** The member of the union that the width of an immediate selects. *)
Definition imm_value (i : immediate) : Z :=
  if imm_w i =? 1 then d_byte i
  else if imm_w i =? 2 then d_word i
  else if imm_w i =? 4 then d_dword i
  else d_qword i.

Lemma sext_range n x : 0 < n → - 2 ^ (n - 1) ≤ sext n x < 2 ^ (n - 1).
Proof.
  intros Hn. unfold sext.
  assert (H2 : 2 ^ n = 2 * 2 ^ (n - 1)).
  { replace n with (1 + (n - 1)) at 1 by lia. rewrite Z.pow_add_r by lia.
    reflexivity. }
  pose proof (Z.mod_pos_bound (x + 2 ^ (n - 1)) (2 ^ n) ltac:(lia)). lia.
Qed.

Lemma sext_congr n x : 0 < n → (sext n x - x) mod 2 ^ n = 0.
Proof.
  intros Hn. unfold sext.
  replace ((x + 2 ^ (n - 1)) mod 2 ^ n - 2 ^ (n - 1) - x)
    with ((x + 2 ^ (n - 1)) mod 2 ^ n - (x + 2 ^ (n - 1))) by lia.
  rewrite Zminus_mod, Zmod_mod, <- Zminus_mod, Z.sub_diag. reflexivity.
Qed.

Lemma sext_unique n x y :
  0 < n → - 2 ^ (n - 1) ≤ y < 2 ^ (n - 1) → (y - x) mod 2 ^ n = 0 →
  sext n x = y.
Proof.
  intros Hn Hy Hc.
  pose proof (sext_range n x Hn) as Hs. pose proof (sext_congr n x Hn) as Hsc.
  assert (H2 : 2 ^ n = 2 * 2 ^ (n - 1)).
  { replace n with (1 + (n - 1)) at 1 by lia. rewrite Z.pow_add_r by lia.
    reflexivity. }
  assert (Hd : (sext n x - y) mod 2 ^ n = 0).
  { replace (sext n x - y) with ((sext n x - x) - (y - x)) by lia.
    rewrite Zminus_mod, Hsc, Hc. reflexivity. }
  apply Z.mod_divide in Hd; [|lia]. destruct Hd as [k Hk].
  assert (k = 0) by nia. lia.
Qed.

(** A narrow reading of the union agrees with a wider one that is in the
    range of the narrow one. *)
Lemma sext_narrow n m x :
  0 < n ≤ m → - 2 ^ (n - 1) ≤ sext m x < 2 ^ (n - 1) → sext n x = sext m x.
Proof.
  intros Hnm Hr. apply sext_unique; [lia|exact Hr|].
  pose proof (sext_congr m x ltac:(lia)) as Hc.
  apply Z.mod_divide in Hc; [|lia]. destruct Hc as [k Hk].
  apply Z.mod_divide; [lia|]. exists (k * 2 ^ (m - n)).
  rewrite Hk, <- Z.mul_assoc, <- Z.pow_add_r by lia. f_equal. f_equal. lia.
Qed.

Lemma is_byte_imm_value i :
  imm_w i = 1 ∨ imm_w i = 2 ∨ imm_w i = 4 ∨ imm_w i = 8 →
  is_byte_imm i = true → d_byte i = imm_value i.
Proof.
  intros Hw. unfold is_byte_imm, imm_value, d_byte, d_word, d_dword, d_qword,
    in_byte_range.
  intros H. apply andb_true_iff in H as [_ H].
  assert (Hq : - 2 ^ (8 - 1) ≤ sext 64 (d_int i) < 2 ^ (8 - 1) →
               sext 8 (d_int i) = sext 64 (d_int i) ∧
               sext 16 (d_int i) = sext 64 (d_int i) ∧
               sext 32 (d_int i) = sext 64 (d_int i)).
  { intros Hr. change (2 ^ (8 - 1)) with 128 in Hr.
    split; [apply sext_narrow; [lia|change (2 ^ (8 - 1)) with 128; lia]|].
    split; (apply sext_narrow; [lia|]).
    - change (2 ^ (16 - 1)) with 32768. lia.
    - change (2 ^ (32 - 1)) with 2147483648. lia. }
  change (2 ^ (8 - 1)) with 128 in Hq.
  destruct Hw as [Hw|[Hw|[Hw|Hw]]]; rewrite Hw in *; cbn in *;
    [reflexivity| | |].
  - repeat (apply orb_true_iff in H as [H|H]); try discriminate;
      apply andb_true_iff in H as [H1 H2].
    + apply sext_narrow; [lia|]. change (2 ^ (8 - 1)) with 128. lia.
    + destruct Hq as (-> & -> & _); [lia|reflexivity].
  - repeat (apply orb_true_iff in H as [H|H]); try discriminate;
      apply andb_true_iff in H as [H1 H2].
    + apply sext_narrow; [lia|]. change (2 ^ (8 - 1)) with 128. lia.
    + destruct Hq as (-> & _ & ->); [lia|reflexivity].
  - repeat (apply orb_true_iff in H as [H|H]); try discriminate;
      apply andb_true_iff in H as [H1 H2].
    destruct Hq as (-> & _); [lia|reflexivity].
Qed.

Lemma is_32bit_imm_value i :
  imm_w i = 4 ∨ imm_w i = 8 →
  is_32bit_imm i = true → d_dword i = imm_value i.
Proof.
  intros Hw. unfold is_32bit_imm, imm_value, d_dword, d_qword, in_32bit_range.
  intros H. apply andb_true_iff in H as [_ H].
  destruct Hw as [Hw|Hw]; rewrite Hw in *; cbn in *; [reflexivity|].
  apply andb_true_iff in H as [H1 H2].
  apply sext_narrow; [lia|]. change (2 ^ (32 - 1)) with 2147483648. lia.
Qed.

(** The REX prefix and the ModR/M byte of [sub $imm, %reg]. *)
Definition sub_rex (r : Reg.reg) : Z := 0x48 + (if DI <? r then 1 else 0).
Definition sub_modrm (r : Reg.reg) : Z := 0xE8 + (r - 1) mod 8.

Lemma sub_immediate_bytes (a b : operand) (e : elf_text) :
  gpr (reg_r (reg_ b)) → reg_w (reg_ b) = 8 →
  ∃ s, run_encode (Instruction INSTR_SUB OPT_IMM_REG a b) e = Done () s ∧
       elf s = e ∧
       bytes (cd s) =
         if is_byte_imm (imm a) then
           [sub_rex (reg_r (reg_ b)); 0x83; sub_modrm (reg_r (reg_ b));
            d_byte (imm a) mod 256]
         else if is_32bit_imm (imm a) then
           [sub_rex (reg_r (reg_ b)); 0x81; sub_modrm (reg_r (reg_ b))] ++
           le_bytes 4 (d_dword (imm a))
         else [sub_rex (reg_r (reg_ b))].
Proof.
  destruct a as [ra ma ia], b as [[rb wb] mb ib].
  cbn [reg_ reg_r reg_w imm]. intros Hb ->.
  unfold run_encode, encode, sub. cbn [opcode optype source dest reg_ imm].
  change (truthy (is_64_bit (Registr rb 8))) with true.
  assert (Hrex : (0x40 ||| W (Registr rb 8) ||| B (Registr rb 8)) mod 256
                 = sub_rex rb)
    by (each_gpr Hb; vm_compute; reflexivity).
  assert (Hmodrm : (0xE8 ||| reg (Registr rb 8)) mod 256 = sub_modrm rb)
    by (each_gpr Hb; vm_compute; reflexivity).
  destruct (is_byte_imm ia); [|destruct (is_32bit_imm ia)];
    (eexists; split; [lazy -[W B reg Z.lor Z.modulo Z.shiftr d_byte d_dword registr_sized];
                      reflexivity|]);
    (split; [reflexivity|]);
    lazy -[W B reg Z.lor Z.modulo Z.shiftr d_byte d_dword sub_rex sub_modrm
          registr_sized];
    rewrite Hrex, ?Hmodrm, ?Zmod_mod; reflexivity.
Qed.

Lemma decode_sub_imm r :
  gpr r →
  (∀ x, decode_imm64 [sub_rex r; 0x83; sub_modrm r; x] =
        Some (ImmForm 5 r (sext 8 x))) ∧
  (∀ x0 x1 x2 x3,
     decode_imm64 [sub_rex r; 0x81; sub_modrm r; x0; x1; x2; x3] =
     Some (ImmForm 5 r (sext 32 (from_le [x0; x1; x2; x3])))) ∧
  decode_imm64 [sub_rex r] = None.
Proof.
  intros Hr. each_gpr Hr; (split; [|split]; intros; reflexivity).
Qed.

(** X20.  [sub] of an immediate from a 64-bit register, whatever the
    width of the immediate: an immediate that [is_byte_imm] accepts is
    encoded in four bytes with opcode [0x83], one that only [is_32bit_imm]
    accepts in seven bytes with opcode [0x81], and they read back as [sub]
    ([/5]) from the register of the member [byte], respectively [dword],
    of the union of the immediate.  The member [byte] is the value of the
    immediate when its width is 1, 2, 4 or 8; the member [dword] is when
    its width is 4 or 8 (for a width of 2 it is still the four bytes of
    [dword] that are encoded).  For an immediate that neither accepts (an
    address, or a 64-bit integer out of the 32-bit range) the instruction
    returned is the REX prefix alone. *)
Theorem sub_immediate_round_trip (a b : operand) (e : elf_text) :
  gpr (reg_r (reg_ b)) → reg_w (reg_ b) = 8 →
  ∃ s, run_encode (Instruction INSTR_SUB OPT_IMM_REG a b) e = Done () s ∧
       elf s = e ∧
       (is_byte_imm (imm a) = true →
        length (bytes (cd s)) = 4%nat ∧
        decode_imm64 (bytes (cd s)) =
          Some (ImmForm 5 (reg_r (reg_ b)) (d_byte (imm a))) ∧
        (imm_w (imm a) = 1 ∨ imm_w (imm a) = 2 ∨ imm_w (imm a) = 4 ∨
         imm_w (imm a) = 8 →
         d_byte (imm a) = imm_value (imm a))) ∧
       (is_byte_imm (imm a) = false → is_32bit_imm (imm a) = true →
        length (bytes (cd s)) = 7%nat ∧
        decode_imm64 (bytes (cd s)) =
          Some (ImmForm 5 (reg_r (reg_ b)) (d_dword (imm a))) ∧
        (imm_w (imm a) = 4 ∨ imm_w (imm a) = 8 →
         d_dword (imm a) = imm_value (imm a))) ∧
       (is_byte_imm (imm a) = false → is_32bit_imm (imm a) = false →
        length (bytes (cd s)) = 1%nat ∧ decode_imm64 (bytes (cd s)) = None).
Proof.
  intros Hb Hw8.
  destruct (sub_immediate_bytes a b e Hb Hw8) as (s & E & Hel & Hbytes).
  destruct (decode_sub_imm _ Hb) as (D1 & D4 & D0).
  exists s. split; [exact E|]. split; [exact Hel|]. rewrite Hbytes.
  split; [|split].
  - intros Hbyte. rewrite Hbyte. split; [reflexivity|]. split.
    + rewrite D1. do 2 f_equal. unfold d_byte.
      apply (sext_mod 8); [lia|]. apply (sext_range 8). lia.
    + intros Hw. now apply is_byte_imm_value.
  - intros Hbyte H32. rewrite Hbyte, H32. split; [reflexivity|]. split.
    + cbn [app le_bytes]. rewrite D4. do 2 f_equal.
      change [d_dword (imm a) mod 256; Z.shiftr (d_dword (imm a)) 8 mod 256;
              Z.shiftr (Z.shiftr (d_dword (imm a)) 8) 8 mod 256;
              Z.shiftr (Z.shiftr (Z.shiftr (d_dword (imm a)) 8) 8) 8 mod 256]
        with (le_bytes 4 (d_dword (imm a))).
      rewrite from_le_le_bytes. apply (sext_mod 32); [lia|].
      apply (sext_range 32). lia.
    + intros Hw. now apply is_32bit_imm_value.
  - intros Hbyte H32. rewrite Hbyte, H32. split; [reflexivity|exact D0].
Qed.

Lemma sub_immediate_round_trip_witness :
  let a := imm_operand (Immediate IMM_INT 4 (-24) (Address None 0 0 0 0)) in
  let b := reg_operand (Registr SP 8) in
  (gpr (reg_r (reg_ b)) ∧ reg_w (reg_ b) = 8) ∧
  ∃ s, run_encode (Instruction INSTR_SUB OPT_IMM_REG a b) (ElfText 0 [] [])
         = Done () s ∧
       bytes (cd s) = [0x48; 0x83; 0xEC; 0xE8] ∧
       decode_imm64 (bytes (cd s)) = Some (ImmForm 5 SP (-24)) ∧
       imm_value (imm a) = -24.
Proof.
  intros a b.
  assert (Hb : gpr (reg_r (reg_ b))) by (unfold gpr, AX, R15; cbn; unfold SP; lia).
  split; [repeat split; (reflexivity || apply Hb)|].
  destruct (sub_immediate_round_trip a b (ElfText 0 [] []) Hb eq_refl)
    as (s & E & _ & Hbyte & _).
  exists s. split; [exact E|].
  destruct (Hbyte eq_refl) as (_ & Hd & _).
  split; [|split; [exact Hd|reflexivity]].
  unfold run_encode in E. vm_compute in E. injection E as <-. reflexivity.
Defined.

End Encoder.

(** ** parser/declaration.c *)

Module Parser.
Import Types CInt.

(** *** Tokens, symbols and the intermediate representation *)

(** Modelled from the spec: the token stream of the preprocessor
    ([lacc/token.h] is not among the sources).  A token is a character
    punctuator, a keyword or one of the named kinds. *)
Inductive token_kind : Type :=
| END
| IDENTIFIER
| INTEGER_CONSTANT
| STRING
| DOTS
| KEYWORD (k : string)
| CHAR (c : string).

#[export] Instance token_kind_eq_dec : EqDecision token_kind.
Proof. solve_decision. Defined.

Record token : Type := Token {
  tok : token_kind;
  strval : string;
  intval : Z }.

Definition punct (c : string) : token := Token (CHAR c) c 0.
Definition number (n : Z) : token := Token INTEGER_CONSTANT "" n.
Definition end_token : token := Token END "" 0.

(** Modelled from the spec: [struct symbol] of [lacc/symbol.h]. *)
Inductive symtype_t : Type :=
| SYM_DECLARATION | SYM_TENTATIVE | SYM_DEFINITION | SYM_TYPEDEF
| SYM_ENUM_VALUE | SYM_STRING_VALUE | SYM_LABEL.

Inductive linkage_t : Type := LINK_NONE | LINK_INTERN | LINK_EXTERN.

#[export] Instance symtype_eq_dec : EqDecision symtype_t.
Proof. solve_decision. Defined.

Record symbol : Type := Symbol {
  name : string;
  sym_type : typetree;
  symtype : symtype_t;
  linkage : linkage_t;
  depth : Z }.

(** A pointer to a symbol: its place in the symbol store. *)
Definition sym_ref : Type := nat.

(** A pointer to a type: into a symbol ([&sym->type]), to a node of the
    type registry, which nothing writes to after it is built, or null. *)
Inductive type_ref : Type :=
| SymType (s : sym_ref)
| TypeNode (t : typetree)
| NullType.

(** Modelled from the spec: [struct var], [struct op] and [struct block]
    of [lacc/ir.h] (Var, Statement and Block), as far as the initializer
    code reads and writes them. *)
Inductive var_kind : Type := DIRECT | DEREF | ADDRESS | IMMEDIATE.

#[export] Instance var_kind_eq_dec : EqDecision var_kind.
Proof. solve_decision. Defined.

Record var : Type := Var {
  kind : var_kind;
  v_symbol : option sym_ref;
  v_type : type_ref;
  v_offset : Z;
  lvalue : bool;
  imm_i : Z }.

Inductive optype : Type := IR_ASSIGN.

Record op : Type := Op {
  op_type : optype;
  op_target : var;
  op_a : var }.

Record block : Type := Block {
  label : option sym_ref;
  code : list op;
  expr : var }.

(** [struct definition]; the blocks of [nodes] are owned by it. *)
Record definition : Type := Definition_ {
  d_symbol : option sym_ref;
  d_body : option block;
  d_params : list sym_ref;
  d_locals : list sym_ref;
  d_nodes : list block }.

(** [struct definition_list]: the buffer [defs]. *)
Record definition_list : Type := DefinitionList {
  def : list definition;
  cur : Z;
  len : Z }.

(** What [memset(.., 0, ..)] leaves. *)
Definition zero_definition : definition := Definition_ None None [] [] [].
Definition zero_definition_list : definition_list := DefinitionList [] 0 0.

(** *** The parser's state and effects

    A [struct block *] stands for the block it points to: the functions
    embedded here write to no other block than the one they are given and
    return. *)

Record pstate : Type := PState {
  tokens : list token;              (* the input that is left *)
  symtab : list symbol;             (* the symbols, by address *)
  defs : definition_list;
  fallback : definition;
  last_def_returned : definition }. (* the static local of [parse] *)

(** A parser function returns, or ends the process: [error] followed by
    [exit(1)], a failed [assert], or an undefined operation (null or
    dangling pointer, division by zero).  [OutOfFuel] is not an outcome of
    the program: it says that the bound given to the model was too small. *)
Inductive perror : Type :=
| ExitError (msg : string)
| AssertionFailed
| Undefined
| OutOfFuel.

Inductive presult (A : Type) : Type :=
| Ok (a : A) (st : pstate)
| Err (e : perror).
Arguments Ok {A} a st.
Arguments Err {A} e.

Definition pm (A : Type) : Type := pstate → presult A.

#[export] Instance pm_ret : MRet pm := λ A a st, Ok a st.
#[export] Instance pm_bind : MBind pm := λ A B f m st,
  match m st with
  | Ok a st' => f a st'
  | Err e => Err e
  end.

Definition fail {A} (e : perror) : pm A := λ _, Err e.
Definition error {A} (msg : string) : pm A := fail (ExitError msg).
Definition assert (b : bool) : pm unit :=
  if b then mret () else fail AssertionFailed.
Definition defined {A} (o : option A) : pm A :=
  match o with Some a => mret a | None => fail Undefined end.

(** Modelled from the spec: [peek], [next] and [consume] of the
    preprocessor.  The stream ends with [END]; [consume] of another kind
    than the one at hand is an error. *)
Definition peek : pm token :=
  λ st, Ok (hd end_token (tokens st)) st.

Definition next : pm token :=
  λ st, Ok (hd end_token (tokens st))
           (PState (tl (tokens st)) (symtab st) (defs st) (fallback st)
                   (last_def_returned st)).

Definition consume (k : token_kind) : pm token :=
  t ← peek;
  if bool_decide (tok t = k) then next
  else error "Unexpected token".

Definition peek_is (c : string) : pm bool :=
  t ← peek; mret (bool_decide (tok t = CHAR c)).

(** Reading and writing through pointers. *)
Definition get_symbol (s : sym_ref) : pm symbol :=
  λ st, match symtab st !! s with
        | Some sym => Ok sym st
        | None => Err Undefined
        end.

Definition deref (r : type_ref) : pm typetree :=
  match r with
  | SymType s => sym ← get_symbol s; mret (sym_type sym)
  | TypeNode t => mret t
  | NullType => fail Undefined
  end.

Definition set_size (t : typetree) (sz : Z) : typetree :=
  Typetree (t_type t) sz (t_qualifier t) (t_member_list t) (t_tag_name t)
           (t_next t).

(** The write [target.symbol->type.size = sz] through the symbol pointer
    with its [const] cast away. *)
Definition set_symbol_type_size (s : sym_ref) (sz : Z) : pm unit :=
  λ st, match symtab st !! s with
        | Some sym =>
            Ok () (PState (tokens st)
                     (<[s := Symbol (name sym) (set_size (sym_type sym) sz)
                                    (symtype sym) (linkage sym) (depth sym)]>
                        (symtab st))
                     (defs st) (fallback st) (last_def_returned st))
        | None => Err Undefined
        end.

(** [unwrapped(target.type)] on pointers. *)
Definition unwrapped_ref (r : type_ref) : pm type_ref :=
  t ← deref r;
  if is_tagged t then n ← defined (t_next t); mret (TypeNode n)
  else mret r.

Definition set_type (v : var) (r : type_ref) : var :=
  Var (kind v) (v_symbol v) r (v_offset v) (lvalue v) (imm_i v).
Definition set_offset (v : var) (o : Z) : var :=
  Var (kind v) (v_symbol v) (v_type v) o (lvalue v) (imm_i v).
Definition set_lvalue (v : var) (l : bool) : var :=
  Var (kind v) (v_symbol v) (v_type v) (v_offset v) l (imm_i v).

(** Modelled from the spec: [var_direct] of the IR and the macro
    [BASIC_TYPE_SIGNED], which are not among the sources: the Direct
    reference to a symbol, of type [&sym->type]; the signed integer type
    of a given size. *)
Definition var_direct (s : sym_ref) : var :=
  Var DIRECT (Some s) (SymType s) 0 true 0.

Definition BASIC_TYPE_SIGNED (size : Z) : typetree :=
  if size =? 1 then basic_type__char
  else if size =? 2 then basic_type__short
  else if size =? 4 then basic_type__int
  else basic_type__long.

Definition is_string (val : var) : pm bool :=
  if bool_decide (kind val = IMMEDIATE) then
    match v_symbol val with
    | Some s =>
        sym ← get_symbol s;
        mret (bool_decide (symtype sym = SYM_STRING_VALUE))
    | None => mret false
    end
  else mret false.

Definition var_zero (size : Z) : var :=
  Var IMMEDIATE None (TypeNode (BASIC_TYPE_SIGNED size)) 0 false 0.

(** *** Initializers *)

Section Initializers.

(** The expression parser and the evaluator are other translation units
    (expression.c, eval.c), not among the sources; the initializer code is
    embedded over them.  [assignment_expression] parses an expression and
    leaves its value in [expr] of the block it returns; [eval_assign]
    emits the assignment of a value to a target into a block. *)
Context (assignment_expression : block → pm block).
Context (eval_assign : block → var → var → pm block).

(** [zero_initialize] on the type [ty] that [target.type] points to.  The
    loops over members and over elements are [over_members] and
    [over_elements]. *)
Fixpoint zero_initialize_at (ty : typetree) (b : block) (target : var)
  : pm block :=
  match t_type ty with
  | T_STRUCT | T_UNION =>
      let fix over_members (ms : list member_t) (b : block) : pm block :=
        match ms with
        | [] => mret b
        | m :: rest =>
            zero_initialize_at (m_type m) b
              (set_offset (set_type target (TypeNode (m_type m)))
                          (v_offset target + m_offset m))
            ≫= over_members rest
        end in
      let of_list (ml : option member_list) : pm block :=
        match ml with
        | Some ml => over_members (member ml) b
        | None => mret b
        end in
      assert (bool_decide (kind target = DIRECT));;
      match t_next ty with
      | Some n => if is_tagged ty then of_list (t_member_list n)
                  else of_list (t_member_list ty)
      | None => of_list (t_member_list ty)
      end
  | T_ARRAY =>
      assert (bool_decide (kind target = DIRECT));;
      assert (negb (t_size ty =? 0));;
      match t_next ty with
      | None => fail Undefined
      | Some n =>
          let fix over_elements (k : nat) (i : Z) (b : block) : pm block :=
            match k with
            | O => mret b
            | S k =>
                zero_initialize_at n b
                  (set_offset (set_type target (TypeNode n))
                              (v_offset target + i * t_size n))
                ≫= over_elements k (i + 1)
            end in
          assert (is_struct n ||
                  match t_next n with None => true | Some _ => false end);;
          if t_size n =? 0 then fail Undefined
          else over_elements (Z.to_nat (Z.quot (t_size ty) (t_size n))) 0 b
      end
  | T_POINTER =>
      assert (bool_decide (kind target = DIRECT));;
      ptr ← defined (type_init T_POINTER (Some basic_type__void) 0);
      eval_assign b target (set_type (var_zero 8) (TypeNode ptr))
  | T_UNSIGNED | T_SIGNED =>
      assert (bool_decide (kind target = DIRECT));;
      eval_assign b target (var_zero (t_size ty))
  | _ =>
      assert (bool_decide (kind target = DIRECT));;
      error "Invalid type to zero-initialize."
  end.

Definition zero_initialize (b : block) (target : var) : pm block :=
  ty ← deref (v_type target);
  zero_initialize_at ty b target.

(** [while (++i < n) { target.offset = ..; zero_initialize(block, target); }]
    over the members that are left, and over the elements that are left. *)
Fixpoint zero_members (ms : list member_t) (filled : Z) (b : block)
    (target : var) : pm block :=
  match ms with
  | [] => mret b
  | m :: rest =>
      b ← zero_initialize b
            (set_offset (set_type target (TypeNode (m_type m)))
                        (filled + m_offset m));
      zero_members rest filled b target
  end.

Fixpoint zero_elements (k : nat) (i : Z) (elem_size filled : Z) (b : block)
    (target : var) : pm block :=
  match k with
  | O => mret b
  | S k =>
      b ← zero_initialize b (set_offset target (filled + i * elem_size));
      zero_elements k (i + 1) elem_size filled b target
  end.

Section Object.

(** [initializer], which [object_initializer] calls for every member and
    element. *)
Context (initializer : block → var → pm block).

(** What follows an initializer in a list: [true] when the loop goes on
    to the next member or element. *)
Definition more_initializers : pm bool :=
  comma ← peek_is ",";
  if (comma : bool) then
    consume (CHAR ",");;
    close ← peek_is "}";
    mret (negb close)
  else mret false.

(** The [for] loop of the struct case from member [i] on; it returns the
    block and the value of [i] when the loop is left. *)
Fixpoint struct_loop (ms : list member_t) (i filled : Z) (b : block)
    (target : var) : pm (block * Z) :=
  match ms with
  | [] => mret (b, i)
  | m :: rest =>
      b ← initializer b
            (set_offset (set_type target (TypeNode (m_type m)))
                        (filled + m_offset m));
      more ← more_initializers;
      if (more : bool) then struct_loop rest (i + 1) filled b target
      else mret (b, i)
  end.

(** The [for] loop of the array case from element [i] on; [type] is read
    through the pointer in every test of the loop condition.  [fuel]
    bounds the number of iterations. *)
Fixpoint array_loop (fuel : nat) (type : type_ref) (i filled : Z) (b : block)
    (target : var) : pm (block * Z) :=
  ty ← deref type;
  n ← defined (t_next ty);
  go_on ← (if t_size ty =? 0 then mret true
           else if size_of n =? 0 then fail Undefined
           else mret (i <? Z.quot (t_size ty) (size_of n)));
  if (go_on : bool) then
    match fuel with
    | O => fail OutOfFuel
    | S fuel =>
        b ← initializer b (set_offset target (filled + i * size_of n));
        more ← more_initializers;
        if (more : bool) then array_loop fuel type (i + 1) filled b target
        else mret (b, i)
    end
  else mret (b, i).

Definition object_initializer (fuel : nat) (b : block) (target : var)
  : pm block :=
  let filled := v_offset target in
  let type := v_type target in
  ty ← deref type;
  assert (negb (is_tagged ty));;
  consume (CHAR "{");;
  let target := set_lvalue target true in
  b ← match t_type ty with
      | T_UNION =>
          (* C89 states that only the first element of a union can be
             initialized. Zero the whole thing first if there is padding. *)
          m0 ← defined (get_member ty 0);
          b ← (if size_of (m_type m0) <? t_size ty then
                 arr ← defined
                   (if negb (Z.rem (t_size ty) 8 =? 0)
                    then type_init T_ARRAY (Some basic_type__char) (t_size ty)
                    else type_init T_ARRAY (Some basic_type__long)
                           (Z.quot (t_size ty) 8));
                 zero_initialize b (set_type target (TypeNode arr))
               else mret b);
          b ← initializer b (set_type target (TypeNode (m_type m0)));
          close ← peek_is "}";
          if (close : bool) then mret b
          else error "Excess elements in union initializer."
      | T_STRUCT =>
          '(b, i) ← struct_loop (members ty) 0 filled b target;
          zero_members (drop (Z.to_nat (i + 1)) (members ty)) filled b target
      | T_ARRAY =>
          n ← defined (t_next ty);
          let target := set_type target (TypeNode n) in
          '(b, i) ← array_loop fuel type 0 filled b target;
          ty ← deref type;
          n ← defined (t_next ty);
          if t_size ty =? 0 then
            s ← defined (v_symbol target);
            sym ← get_symbol s;
            assert (t_size (sym_type sym) =? 0);;
            assert (is_array (sym_type sym));;
            (* Incomplete array type can only be in the root level of target
               type tree, overwrite type directly in symbol. *)
            set_symbol_type_size s ((i + 1) * size_of n);;
            mret b
          else if size_of n =? 0 then fail Undefined
          else
            zero_elements
              (Z.to_nat (Z.quot (t_size ty) (size_of n) - (i + 1))) (i + 1)
              (size_of n) filled b target
      | _ => error "Block initializer only apply to aggregate or union type."
      end;
  consume (CHAR "}");;
  mret b.

(** The body of [initializer], with the call of [object_initializer] left
    open. *)
Definition initializer_body (object_initializer : block → var → pm block)
    (b : block) (target : var) : pm block :=
  assert (bool_decide (kind target = DIRECT));;
  (* Do not care about cv-qualifiers here. *)
  type ← unwrapped_ref (v_type target);
  let target := set_type target type in
  brace ← peek_is "{";
  if (brace : bool) then object_initializer b target
  else
    b ← assignment_expression b;
    s ← defined (v_symbol target);
    sym ← get_symbol s;
    (if (depth sym =? 0) && negb (bool_decide (kind (expr b) = IMMEDIATE))
     then error "Initializer must be computable at load time."
     else mret ());;
    ty ← deref (v_type target);
    target ←
      (if bool_decide (kind target = DIRECT) && (t_size ty =? 0) then
         assert (v_offset target =? 0);;
         str ← is_string (expr b);
         assert str;;
         ety ← deref (v_type (expr b));
         assert (is_array ety);;
         (* Complete type based on string literal. Evaluation does not have
            the required context to do this logic. *)
         set_symbol_type_size s (t_size ety);;
         mret (set_type target (v_type (expr b)))
       else mret target);
    eval_assign b target (expr b).

End Object.

(** [initializer] and [object_initializer] call each other; [fuel] bounds
    the depth of the nesting of braces (and the length of a list). *)
Fixpoint initializer (fuel : nat) (b : block) (target : var) : pm block :=
  match fuel with
  | O => fail OutOfFuel
  | S fuel =>
      initializer_body (object_initializer (initializer fuel) fuel) b target
  end.

End Initializers.

(** *** More fuel does not change an outcome

    [approx m1 m2]: whatever [m1] yields, short of running out of fuel,
    [m2] yields too. *)

Definition approx {A} (m1 m2 : pm A) : Prop :=
  ∀ st r, m1 st = r → r ≠ Err OutOfFuel → m2 st = r.

Lemma approx_refl {A} (m : pm A) : approx m m.
Proof. intros st r H _. exact H. Qed.

Lemma approx_bind {A B} (m1 m2 : pm A) (f1 f2 : A → pm B) :
  approx m1 m2 → (∀ a, approx (f1 a) (f2 a)) →
  approx (m1 ≫= f1) (m2 ≫= f2).
Proof.
  intros Hm Hf st r H Hr. unfold mbind, pm_bind in *.
  destruct (m1 st) as [a st'|e] eqn:E.
  - rewrite (Hm st _ E) by discriminate. now apply Hf.
  - subst r. rewrite (Hm st _ E); [reflexivity|].
    intros [= ->]. now apply Hr.
Qed.

Lemma approx_out_of_fuel {A} (m : pm A) : approx (fail OutOfFuel) m.
Proof. intros st r <- Hr. now destruct Hr. Qed.

Ltac approx_step :=
  lazymatch goal with
  | |- approx (fail OutOfFuel) _ => apply approx_out_of_fuel
  | |- approx (mbind _ _) (mbind _ _) => apply approx_bind; [|intros ?]
  | |- approx (if ?b then _ else _) _ => destruct b
  | |- approx (match ?x with _ => _ end) _ => destruct x
  | |- approx _ _ => apply approx_refl
  end.

Section Fuel.

Context (assignment_expression : block → pm block).
Context (eval_assign : block → var → var → pm block).

Section Loops.

Context (init1 init2 : block → var → pm block).
Context (Hinit : ∀ b t, approx (init1 b t) (init2 b t)).

Lemma struct_loop_approx ms :
  ∀ i filled b target,
    approx (struct_loop init1 ms i filled b target)
           (struct_loop init2 ms i filled b target).
Proof.
  induction ms as [|m ms IH]; intros; cbn [struct_loop].
  - apply approx_refl.
  - apply approx_bind; [apply Hinit|]. intros ?.
    apply approx_bind; [apply approx_refl|]. intros [|]; [apply IH|].
    apply approx_refl.
Qed.

Lemma array_loop_approx fuel1 :
  ∀ fuel2 type i filled b target,
    (fuel1 ≤ fuel2)%nat →
    approx (array_loop init1 fuel1 type i filled b target)
           (array_loop init2 fuel2 type i filled b target).
Proof.
  induction fuel1 as [|fuel1 IH]; intros fuel2 type i filled b target Hle;
    destruct fuel2 as [|fuel2]; try lia; cbn [array_loop];
    (apply approx_bind; [apply approx_refl|]; intros ty);
    (apply approx_bind; [apply approx_refl|]; intros n);
    (apply approx_bind; [apply approx_refl|]; intros [|]);
    try apply approx_refl; try apply approx_out_of_fuel.
  apply approx_bind; [apply Hinit|]. intros ?.
  apply approx_bind; [apply approx_refl|]. intros [|]; [|apply approx_refl].
  apply IH. lia.
Qed.

Lemma object_initializer_approx fuel1 fuel2 b target :
  (fuel1 ≤ fuel2)%nat →
  approx (object_initializer eval_assign init1 fuel1 b target)
         (object_initializer eval_assign init2 fuel2 b target).
Proof.
  intros Hle. unfold object_initializer. cbv zeta.
  apply approx_bind; [apply approx_refl|]. intros ty.
  apply approx_bind; [apply approx_refl|]. intros ?.
  apply approx_bind; [apply approx_refl|]. intros ?.
  apply approx_bind; [|intros ?; apply approx_refl].
  destruct (t_type ty); try apply approx_refl.
  - apply approx_bind; [apply approx_refl|]. intros ?.
    apply approx_bind; [now apply array_loop_approx|]. intros ?.
    apply approx_refl.
  - apply approx_bind; [apply struct_loop_approx|]. intros ?.
    apply approx_refl.
  - apply approx_bind; [apply approx_refl|]. intros ?.
    apply approx_bind; [apply approx_refl|]. intros ?.
    apply approx_bind; [apply Hinit|]. intros ?.
    apply approx_refl.
Qed.

End Loops.

Lemma initializer_body_approx obj1 obj2 b target :
  (∀ b t, approx (obj1 b t) (obj2 b t)) →
  approx (initializer_body assignment_expression eval_assign obj1 b target)
         (initializer_body assignment_expression eval_assign obj2 b target).
Proof.
  intros Hobj. unfold initializer_body.
  apply approx_bind; [apply approx_refl|]. intros ?.
  apply approx_bind; [apply approx_refl|]. intros ?. cbv zeta.
  apply approx_bind; [apply approx_refl|]. intros [|]; [apply Hobj|].
  apply approx_refl.
Qed.

Lemma initializer_approx fuel1 :
  ∀ fuel2 b target,
    (fuel1 ≤ fuel2)%nat →
    approx (initializer assignment_expression eval_assign fuel1 b target)
           (initializer assignment_expression eval_assign fuel2 b target).
Proof.
  induction fuel1 as [|fuel1 IH]; intros fuel2 b target Hle.
  - apply approx_out_of_fuel.
  - destruct fuel2 as [|fuel2]; [lia|]. cbn [initializer].
    apply initializer_body_approx. intros b' t'.
    apply object_initializer_approx; [|lia].
    intros b'' t''. apply IH. lia.
Qed.

(** An outcome reached with some fuel is the outcome with any more. *)
Lemma initializer_more_fuel fuel1 fuel2 b target st r :
  (fuel1 ≤ fuel2)%nat →
  initializer assignment_expression eval_assign fuel1 b target st = r → r ≠ Err OutOfFuel →
  initializer assignment_expression eval_assign fuel2 b target st = r.
Proof. intros Hle. now apply initializer_approx. Qed.

End Fuel.

(** *** The scenario [int a[] = {1,2,3};] *)

(** Modelled from the spec: the part of the expression parser that the
    scenario needs.  An integer constant is an expression; its value is an
    Immediate of type [int].  Other expressions are outside this model. *)
Definition var_int (n : Z) : var :=
  Var IMMEDIATE None (TypeNode basic_type__int) 0 false n.

Definition integer_constant_expression (b : block) : pm block :=
  t ← peek;
  if bool_decide (tok t = INTEGER_CONSTANT) then
    next;; mret (Block (label b) (code b) (var_int (intval t)))
  else error "Expression outside the model.".

(** Modelled from the spec: the store that [eval_assign] emits for an
    initializer: one three-address statement [target = value] appended to
    the block. *)
Definition emit_assign (b : block) (target value : var) : pm block :=
  mret (Block (label b) (code b ++ [Op IR_ASSIGN target value]) (expr b)).

(** The symbol that [declaration] makes of [int a[]] at file scope, once it
    has seen [=]: an array of [int] of size 0, as [direct_declarator_array]
    builds it with [type_init(T_ARRAY, base, 0)]. *)
Definition int_array_incomplete : typetree :=
  Typetree T_ARRAY 0 Q_NONE None None (Some basic_type__int).

Definition symbol_a : symbol :=
  Symbol "a" int_array_incomplete SYM_DEFINITION LINK_EXTERN 0.

Definition empty_block : block := Block None [] (var_zero 4).

(** The tokens of a brace-enclosed list of integer constants
    [v, v1, ..., vn], without the braces. *)
Fixpoint more_values (vs : list Z) : list token :=
  match vs with
  | [] => []
  | v :: vs => punct "," :: number v :: more_values vs
  end.

Definition initializer_list (v : Z) (vs : list Z) : list token :=
  number v :: more_values vs.

(** The tokens [{ 1 , 2 , 3 } ;] that follow [int a[] =]. *)
Definition tokens_1_2_3 : list token :=
  punct "{" :: initializer_list 1 [2; 3] ++ [punct "}"; punct ";"].

Definition state_a (toks : list token) : pstate :=
  PState toks [symbol_a] zero_definition_list zero_definition zero_definition.

(** The type [int[n]] and the state in which [a] has it. *)
Definition int_array (n : Z) : typetree :=
  Typetree T_ARRAY (n * 4) Q_NONE None None (Some basic_type__int).

Definition state_completed (toks : list token) (n : Z) : pstate :=
  PState toks [Symbol "a" (int_array n) SYM_DEFINITION LINK_EXTERN 0]
         zero_definition_list zero_definition zero_definition.

(** The store of an [int] value into [a] at a byte offset. *)
Definition store_a (off n : Z) : op :=
  Op IR_ASSIGN
     (Var DIRECT (Some 0%nat) (TypeNode basic_type__int) off true 0)
     (var_int n).

(** The stores of the values [vs] into the elements [i], [i+1], ... *)
Fixpoint stores_from (i : Z) (vs : list Z) : list op :=
  match vs with
  | [] => []
  | v :: vs => store_a (i * 4) v :: stores_from (i + 1) vs
  end.

(** The index of the last element when [v :: vs] fill the elements from
    [i] on, and the last value. *)
Fixpoint last_index (i : Z) (vs : list Z) : Z :=
  match vs with
  | [] => i
  | _ :: vs => last_index (i + 1) vs
  end.

Fixpoint last_value (v : Z) (vs : list Z) : Z :=
  match vs with
  | [] => v
  | v' :: vs => last_value v' vs
  end.

(** The target that [object_initializer] passes for the elements of [a]:
    the type is the element type, the offset is set in the loop. *)
Definition element_target : var :=
  Var DIRECT (Some 0%nat) (TypeNode basic_type__int) 0 true 0.

(** *** The definition buffer and [parse] *)

Definition set_defs (d : definition_list) : pm unit :=
  λ st, Ok () (PState (tokens st) (symtab st) d (fallback st)
                      (last_def_returned st)).

Definition set_fallback (d : definition) : pm unit :=
  λ st, Ok () (PState (tokens st) (symtab st) (defs st) d
                      (last_def_returned st)).

Definition set_last_def_returned (d : definition) : pm unit :=
  λ st, Ok () (PState (tokens st) (symtab st) (defs st) (fallback st) d).

Definition get_defs : pm definition_list := λ st, Ok (defs st) st.
Definition get_fallback : pm definition := λ st, Ok (fallback st) st.
Definition get_last_def_returned : pm definition :=
  λ st, Ok (last_def_returned st) st.

(** What [calloc] leaves of a [struct var]: the kind with value 0, which
    is Direct, the first of its enumeration; a null symbol and a null
    type; offset, lvalue and immediate 0. *)
Definition zero_var : var := Var DIRECT None NullType 0 false 0.

(** [clear_definition] frees what the definition owns and zeroes it. *)
Definition clear_definition (d : definition) : definition := zero_definition.

Definition add_node (d : definition) (b : block) : definition :=
  Definition_ (d_symbol d) (d_body d) (d_params d) (d_locals d)
              (d_nodes d ++ [b]).

Section Buffer.

(** [sym_create_label] belongs to the symbol table (symtab.c). *)
Context (sym_create_label : pm sym_ref).

(** The block comes from [calloc]: but for its label it is all zero.  It
    is owned by the last definition of the buffer, or by [fallback] when
    the buffer is empty. *)
Definition cfg_block_init : pm block :=
  l ← sym_create_label;
  let b := Block (Some l) [] zero_var in
  d ← get_defs;
  (if negb (len d =? 0) then
     last ← defined (if len d - 1 <? 0 then None
                     else def d !! Z.to_nat (len d - 1));
     set_defs (DefinitionList
                 (<[Z.to_nat (len d - 1) := add_node last b]> (def d))
                 (cur d) (len d))
   else
     f ← get_fallback;
     set_fallback (add_node f b));;
  mret b.

(** [push_back_definition] returns the place of the new definition in the
    buffer. *)
Definition push_back_definition (s : sym_ref) : pm Z :=
  sym ← get_symbol s;
  assert (bool_decide (symtype sym = SYM_DEFINITION));;
  d ← get_defs;
  let i := len d in
  set_defs (DefinitionList
              (take (Z.to_nat i) (def d) ++
                 [Definition_ (Some s) None [] [] []])
              (cur d) (len d + 1));;
  b ← cfg_block_init;
  d ← get_defs;
  this ← defined (def d !! Z.to_nat i);
  set_defs (DefinitionList
              (<[Z.to_nat i := Definition_ (d_symbol this) (Some b)
                                 (d_params this) (d_locals this)
                                 (d_nodes this)]> (def d))
              (cur d) (len d));;
  mret i.

End Buffer.

Section Parse.

(** [declaration(NULL)]: the rest of the parser, which fills the buffer
    through [push_back_definition]. *)
Context (declaration : pm unit).

(** The [while] loop of [parse]; [fuel] bounds the number of declarations
    that it parses. *)
Fixpoint parse_loop (fuel : nat) : pm unit :=
  d ← get_defs;
  t ← peek;
  if (len d =? 0) && negb (bool_decide (tok t = END)) then
    match fuel with
    | O => fail OutOfFuel
    | S fuel =>
        (* Parse a declaration, which can include definitions that will fill
           up the buffer. Tentative declarations will only affect the symbol
           table. *)
        declaration;;
        f ← get_fallback;
        set_fallback (clear_definition f);;
        parse_loop fuel
    end
  else mret ().

Definition parse (fuel : nat) : pm definition :=
  parse_loop fuel;;
  d ← get_defs;
  result ←
    (if cur d <? len d then
       x ← defined (if cur d <? 0 then None else def d !! Z.to_nat (cur d));
       (if cur d + 1 =? len d then
          (* Clear definition list once the last entry is returned. *)
          set_defs zero_definition_list
        else set_defs (DefinitionList (def d) (cur d + 1) (len d)));;
       mret x
     else mret zero_definition);
  (* Clear memory allocated for previous result. *)
  last ← get_last_def_returned;
  (if bool_decide (is_Some (d_symbol last))
   then set_last_def_returned (clear_definition last)
   else mret ());;
  set_last_def_returned result;;
  mret result.

End Parse.

(** The buffer as [push_back_definition] and [parse] leave it: [len]
    definitions, each with a symbol, of which the first [cur] have been
    handed out, and never all of them. *)
Definition defs_ok (d : definition_list) : Prop :=
  len d = Z.of_nat (length (def d)) ∧
  0 ≤ cur d ≤ len d ∧ (0 < len d → cur d < len d) ∧
  Forall (λ x, is_Some (d_symbol x)) (def d).

(** What [parse] relies on from [declaration]. *)
Definition keeps_defs_ok (declaration : pm unit) : Prop :=
  ∀ st st', defs_ok (defs st) → declaration st = Ok () st' →
            defs_ok (defs st').

Definition at_end (st : pstate) : Prop := tok (hd end_token (tokens st)) = END.

Definition with_last_def_returned (st : pstate) (d : definition) : pstate :=
  PState (tokens st) (symtab st) (defs st) (fallback st) d.

Lemma insert_snoc {A} (l : list A) (x y : A) :
  <[length l := x]> (l ++ [y]) = l ++ [x].
Proof. rewrite insert_app_r_alt, Nat.sub_diag by lia. reflexivity. Qed.

Lemma zero_definition_list_ok : defs_ok zero_definition_list.
Proof. repeat split; cbn; try lia. constructor. Qed.

Lemma push_back_definition_ok sym_create_label s st i st' :
  (∀ st l st', sym_create_label st = Ok l st' → defs st' = defs st) →
  defs_ok (defs st) →
  push_back_definition sym_create_label s st = Ok i st' →
  defs_ok (defs st') ∧ ∃ x, def (defs st') !! Z.to_nat i = Some x ∧
                           d_symbol x = Some s.
Proof.
  intros Hlabel (Hlen & Hcur & Hlt & Hall).
  unfold push_back_definition, cfg_block_init, mbind, pm_bind, get_symbol,
    get_defs, set_defs, assert, defined, get_fallback, set_fallback.
  destruct (symtab st !! s) as [sym|]; [|discriminate].
  destruct (bool_decide (symtype sym = SYM_DEFINITION)); [|discriminate].
  cbn [mret pm_ret fail defs def cur len].
  destruct (sym_create_label _) as [l st1|] eqn:El; [|discriminate].
  apply Hlabel in El. rewrite El. cbn [defs def cur len].
  set (n := length (def (defs st))) in *.
  assert (Htake : take (Z.to_nat (len (defs st))) (def (defs st)) = def (defs st))
    by (apply take_ge; lia).
  rewrite Htake.
  replace (len (defs st) + 1 =? 0) with false by (symmetry; apply Z.eqb_neq; lia).
  cbn [negb].
  replace (len (defs st) + 1 - 1 <? 0) with false
    by (symmetry; apply Z.ltb_ge; lia).
  replace (len (defs st) + 1 - 1) with (len (defs st)) by lia.
  rewrite Hlen, Nat2Z.id.
  rewrite (list_lookup_middle (def (defs st)) [] _ n) by reflexivity.
  cbn [mret pm_ret defs def cur len].
  rewrite list_lookup_insert_eq by (rewrite length_app; cbn; lia).
  cbn [mret pm_ret defs def cur len].
  intros [= <- <-]. cbn [defs def cur len].
  rewrite Nat2Z.id. subst n. rewrite !insert_snoc.
  split.
  - repeat split; cbn [def cur len].
    + rewrite length_app. cbn. lia.
    + lia.
    + lia.
    + lia.
    + apply Forall_app. split; [exact Hall|]. repeat constructor. now eexists.
  - eexists. split; [apply list_lookup_middle; reflexivity|reflexivity].
Qed.

Section ParseFacts.

Context (declaration : pm unit).
Context (Hdecl : keeps_defs_ok declaration).

(** The loop ends with an ok buffer that is not empty, or at the end of
    the input. *)
Lemma parse_loop_exit fuel :
  ∀ st st', defs_ok (defs st) → parse_loop declaration fuel st = Ok () st' →
            defs_ok (defs st') ∧ (len (defs st') ≠ 0 ∨ at_end st').
Proof.
  induction fuel as [|fuel IH]; intros st st' Hok; cbn [parse_loop];
    unfold mbind, pm_bind, get_defs, peek;
    destruct (len (defs st) =? 0) eqn:El;
    destruct (bool_decide (tok (hd end_token (tokens st)) = END)) eqn:Et;
    cbn [andb negb];
    try (intros [= <-]; split; [exact Hok|];
         first [left; now apply Z.eqb_neq
               |right; now apply bool_decide_eq_true in Et]);
    try discriminate.
  destruct (declaration st) as [[] st1|] eqn:Ed; [|discriminate].
  unfold get_fallback, set_fallback. cbn [fallback].
  intros H. apply IH in H; [exact H|]. cbn [defs]. now apply (Hdecl st).
Qed.

End ParseFacts.

Lemma bind_ok {A B} (m : pm A) (f : A → pm B) st r st' :
  (m ≫= f) st = Ok r st' →
  ∃ a s1, m st = Ok a s1 ∧ f a s1 = Ok r st'.
Proof.
  unfold mbind, pm_bind. destruct (m st) as [a s1|]; [|discriminate].
  intros H. now exists a, s1.
Qed.

(** What [parse] does once its loop has ended in state [st]. *)
Lemma parse_after_loop declaration fuel st s1 :
  parse_loop declaration fuel st = Ok () s1 →
  parse declaration fuel st =
  (if cur (defs s1) <? len (defs s1) then
     match (if cur (defs s1) <? 0 then None
            else def (defs s1) !! Z.to_nat (cur (defs s1))) with
     | Some x =>
         Ok x (PState (tokens s1) (symtab s1)
                 (if cur (defs s1) + 1 =? len (defs s1)
                  then zero_definition_list
                  else DefinitionList (def (defs s1)) (cur (defs s1) + 1)
                         (len (defs s1)))
                 (fallback s1) x)
     | None => Err Undefined
     end
   else Ok zero_definition (with_last_def_returned s1 zero_definition)).
Proof.
  intros Hloop. unfold parse, mbind, pm_bind. rewrite Hloop.
  unfold get_defs, defined, set_defs, get_last_def_returned,
    set_last_def_returned, with_last_def_returned, fail, mret, pm_ret.
  destruct (cur (defs s1) <? len (defs s1));
    [destruct (if cur (defs s1) <? 0 then None
               else def (defs s1) !! Z.to_nat (cur (defs s1))) as [x|];
     [destruct (cur (defs s1) + 1 =? len (defs s1))|]|];
    cbn [last_def_returned tokens symtab defs fallback];
    try destruct (bool_decide (is_Some (d_symbol (last_def_returned s1))));
    reflexivity.
Qed.

Lemma parse_loop_at_end declaration fuel st :
  at_end st → len (defs st) = 0 → parse_loop declaration fuel st = Ok () st.
Proof.
  intros He Hl. unfold at_end in He.
  destruct fuel; cbn [parse_loop]; unfold mbind, pm_bind, get_defs, peek;
    rewrite He, Hl; reflexivity.
Qed.

(** *** Claims on the parser *)

(** C10.  When the next token is [END] and the buffer is empty, [parse]
    returns the all-zero definition, whose symbol is null, whatever the
    fuel; and [parse] returns a definition with a null symbol only then:
    it is the all-zero definition, the input is at [END] and the buffer is
    empty.  A definition taken from the buffer has a symbol. *)
Theorem parse_end_of_input (declaration : pm unit) (fuel : nat) (st : pstate) :
  keeps_defs_ok declaration → defs_ok (defs st) →
  (at_end st → len (defs st) = 0 →
   parse declaration fuel st =
     Ok zero_definition (with_last_def_returned st zero_definition) ∧
   d_symbol zero_definition = None) ∧
  (∀ result st',
     parse declaration fuel st = Ok result st' →
     d_symbol result = None →
     result = zero_definition ∧ at_end st' ∧ len (defs st') = 0).
Proof.
  intros Hdecl Hok. split.
  - intros He Hl. split; [|reflexivity].
    rewrite (parse_after_loop _ _ _ _ (parse_loop_at_end _ _ _ He Hl)).
    destruct Hok as (_ & Hcur & _). rewrite Hl in *.
    replace (cur (defs st) <? 0) with false
      by (symmetry; apply Z.ltb_ge; lia).
    reflexivity.
  - intros result st' Hparse Hnull.
    destruct (parse_loop declaration fuel st) as [[] s1|e] eqn:Hloop;
      [|unfold parse, mbind, pm_bind in Hparse; rewrite Hloop in Hparse;
        discriminate].
    destruct (parse_loop_exit declaration Hdecl fuel st s1 Hok Hloop)
      as ((Hlen & Hcur & Hlt & Hall) & Hexit).
    rewrite (parse_after_loop _ _ _ _ Hloop) in Hparse.
    destruct (Z.ltb_spec (cur (defs s1)) (len (defs s1))) as [Hin|Hout].
    + exfalso.
      replace (cur (defs s1) <? 0) with false in Hparse
        by (symmetry; apply Z.ltb_ge; lia).
      destruct (def (defs s1) !! Z.to_nat (cur (defs s1))) as [x|] eqn:Ex;
        [|discriminate].
      injection Hparse as -> _.
      rewrite Forall_forall in Hall.
      destruct (Hall result) as [sy Hsy]; [|congruence].
      apply list_elem_of_lookup. eauto.
    + injection Hparse as <- <-.
      assert (Hl0 : len (defs s1) = 0) by lia.
      split; [reflexivity|]. split; [|exact Hl0].
      destruct Hexit as [Hne|He]; [contradiction|exact He].
Qed.

(** Modelled from the spec: a declaration that defines nothing, such as
    [int x;], as far as the token stream goes: it consumes the tokens up
    to its semicolon ("tentative declarations will only affect the symbol
    table"). *)
Fixpoint after_semicolon (toks : list token) : list token :=
  match toks with
  | [] => []
  | t :: rest =>
      if bool_decide (tok t = CHAR ";") then rest else after_semicolon rest
  end.

Definition tentative_declaration : pm unit :=
  λ st, Ok () (PState (after_semicolon (tokens st)) (symtab st) (defs st)
                      (fallback st) (last_def_returned st)).

Definition state_of_tokens (toks : list token) : pstate :=
  PState toks [] zero_definition_list zero_definition zero_definition.

Lemma tentative_declaration_keeps : keeps_defs_ok tentative_declaration.
Proof. intros st st' Hok [= <-]. exact Hok. Defined.

Lemma parse_end_of_input_witness :
  (keeps_defs_ok tentative_declaration ∧
   defs_ok (defs (state_of_tokens [])) ∧
   at_end (state_of_tokens []) ∧
   len (defs (state_of_tokens [])) = 0) ∧
  parse tentative_declaration 0 (state_of_tokens []) =
    Ok zero_definition
       (with_last_def_returned (state_of_tokens []) zero_definition) ∧
  d_symbol zero_definition = None.
Proof.
  split.
  - split; [exact tentative_declaration_keeps|].
    split; [exact zero_definition_list_ok|]. split; reflexivity.
  - exact (proj1 (parse_end_of_input tentative_declaration 0
                    (state_of_tokens [])
                    tentative_declaration_keeps zero_definition_list_ok)
                 eq_refl eq_refl).
Defined.

(** [int x; int y;] and then the end of the input: two turns of the loop,
    then the all-zero definition. *)
Example parse_two_declarations :
  parse tentative_declaration 2
    (state_of_tokens
       [Token (KEYWORD "int") "int" 0; Token IDENTIFIER "x" 0; punct ";";
        Token (KEYWORD "int") "int" 0; Token IDENTIFIER "y" 0; punct ";"]) =
  Ok zero_definition (state_of_tokens []).
Proof. reflexivity. Qed.

Lemma last_index_length vs :
  ∀ i, last_index i vs = i + Z.of_nat (length vs).
Proof.
  induction vs as [|v vs IH]; intros i; cbn [last_index length]; [lia|].
  rewrite IH. lia.
Qed.

(** The array loop over a list of constants, for an array whose size is
    not known: one store per value, and [i] ends as the index of the last
    element. *)
Lemma array_loop_list f0 vs :
  ∀ v fuel i b rest,
    (length vs < fuel)%nat →
    array_loop (initializer integer_constant_expression emit_assign (S f0))
      fuel (SymType 0%nat) i 0 b element_target
      (state_a (initializer_list v vs ++ punct "}" :: rest)) =
    Ok (Block (label b) (code b ++ stores_from i (v :: vs))
              (var_int (last_value v vs)),
        last_index i vs)
       (state_a (punct "}" :: rest)).
Proof.
  induction vs as [|v' vs IH]; intros v fuel i b rest Hfuel;
    (destruct fuel as [|fuel]; [cbn in Hfuel; lia|]).
  - reflexivity.
  - cbn [length] in Hfuel.
    transitivity
      (array_loop (initializer integer_constant_expression emit_assign (S f0))
         fuel (SymType 0%nat) (i + 1) 0
         (Block (label b) (code b ++ [store_a (i * 4) v]) (var_int v))
         element_target
         (state_a (initializer_list v' vs ++ punct "}" :: rest)));
      [reflexivity|].
    rewrite IH by lia. cbn [label code]. rewrite <- app_assoc. reflexivity.
Qed.

(** [int a[] = { v, v1, ..., vn }]: the size of [a] becomes
    (index of the last element + 1) * 4, with one store per value. *)
Lemma int_array_initializer_list v vs rest fuel :
  (length vs + 2 ≤ fuel)%nat →
  initializer integer_constant_expression emit_assign fuel empty_block
    (var_direct 0%nat)
    (state_a (punct "{" :: initializer_list v vs ++ punct "}" :: rest)) =
  Ok (Block None (stores_from 0 (v :: vs)) (var_int (last_value v vs)))
     (state_completed rest (last_index 0 vs + 1)).
Proof.
  intros Hfuel. destruct fuel as [|[|f0]]; try lia.
  pose proof (array_loop_list f0 vs v (S f0) 0 empty_block rest ltac:(lia))
    as Hloop.
  change (initializer integer_constant_expression emit_assign (S (S f0)))
    with (initializer_body integer_constant_expression emit_assign
            (object_initializer emit_assign
               (initializer integer_constant_expression emit_assign (S f0))
               (S f0))).
  remember (initializer integer_constant_expression emit_assign (S f0))
    as init eqn:Hinit.
  clear Hinit.
  unfold initializer_body, object_initializer.
  lazy -[array_loop app more_values stores_from last_index last_value]
    in Hloop |- *.
  rewrite Hloop. reflexivity.
Qed.

(** C7.  The initializer of [int a[] = {1,2,3};], entered as [declaration]
    enters it with the Direct reference to the symbol [a] of incomplete
    type [int[]]: it returns, given fuel for three list elements; the type
    of the symbol has become [int[3]], of size 12 = (2 + 1) * 4; the block
    holds exactly three stores, into offsets 0, 4 and 8 of [a]; the input
    is left at the semicolon. *)
Theorem int_array_initializer (fuel : nat) :
  (4 ≤ fuel)%nat →
  ∃ b st,
    initializer integer_constant_expression emit_assign fuel empty_block
      (var_direct 0%nat) (state_a tokens_1_2_3) = Ok b st ∧
    (sym_type <$> symtab st !! 0%nat) =
      type_init T_ARRAY (Some basic_type__int) 3 ∧
    (size_of <$> (sym_type <$> symtab st !! 0%nat)) = Some ((2 + 1) * 4) ∧
    code b = [store_a 0 1; store_a 4 2; store_a 8 3] ∧
    tokens st = [punct ";"].
Proof.
  intros Hfuel. eexists _, _. split.
  - apply (int_array_initializer_list 1 [2; 3] [punct ";"] fuel).
    cbn [length]. lia.
  - repeat split.
Qed.

Lemma int_array_initializer_witness :
  (4 ≤ 4)%nat ∧
  ∃ b st,
    initializer integer_constant_expression emit_assign 4 empty_block
      (var_direct 0%nat) (state_a tokens_1_2_3) = Ok b st ∧
    (sym_type <$> symtab st !! 0%nat) =
      type_init T_ARRAY (Some basic_type__int) 3 ∧
    (size_of <$> (sym_type <$> symtab st !! 0%nat)) = Some ((2 + 1) * 4) ∧
    code b = [store_a 0 1; store_a 4 2; store_a 8 3] ∧
    tokens st = [punct ";"].
Proof.
  split; [lia|]. apply (int_array_initializer 4). lia.
Defined.

(** ** parser/declaration.c, continued *)

(** *** Handing out the buffer *)

(** While the buffer is not empty the loop of [parse] does nothing. *)
Lemma parse_loop_pending declaration fuel st :
  len (defs st) ≠ 0 → parse_loop declaration fuel st = Ok () st.
Proof.
  intros Hl. apply Z.eqb_neq in Hl.
  destruct fuel; cbn [parse_loop]; unfold mbind, pm_bind, get_defs, peek;
    rewrite Hl; reflexivity.
Qed.

(** One call of [parse] on a buffer with a definition left. *)
Lemma parse_pending declaration fuel st :
  defs_ok (defs st) → 0 < len (defs st) →
  ∃ x, def (defs st) !! Z.to_nat (cur (defs st)) = Some x ∧
       parse declaration fuel st =
         Ok x (PState (tokens st) (symtab st)
                 (if cur (defs st) + 1 =? len (defs st)
                  then zero_definition_list
                  else DefinitionList (def (defs st)) (cur (defs st) + 1)
                         (len (defs st)))
                 (fallback st) x).
Proof.
  intros (Hlen & Hcur & Hlt & Hall) Hpos.
  rewrite (parse_after_loop _ _ _ _
             (parse_loop_pending declaration fuel st ltac:(lia))).
  specialize (Hlt Hpos).
  replace (cur (defs st) <? len (defs st)) with true
    by (symmetry; apply Z.ltb_lt; lia).
  replace (cur (defs st) <? 0) with false by (symmetry; apply Z.ltb_ge; lia).
  destruct (lookup_lt_is_Some_2 (def (defs st)) (Z.to_nat (cur (defs st))))
    as [x Hx]; [lia|].
  exists x. rewrite Hx. split; reflexivity.
Qed.

(** [n] calls of [parse] in a row, with the definitions that they return,
    first to last. *)
Fixpoint parse_times (declaration : pm unit) (fuel : nat) (n : nat)
  : pm (list definition) :=
  match n with
  | O => mret []
  | S n =>
      d ← parse declaration fuel;
      ds ← parse_times declaration fuel n;
      mret (d :: ds)
  end.

Lemma defs_ok_advance d :
  defs_ok d → cur d + 1 ≠ len d → 0 < len d →
  defs_ok (DefinitionList (def d) (cur d + 1) (len d)).
Proof.
  intros (Hlen & Hcur & Hlt & Hall) Hne Hpos. specialize (Hlt Hpos).
  repeat split; cbn [def cur len]; try lia. exact Hall.
Qed.

(** X21.  The definitions that a declaration has left in the buffer are
    handed out by the next calls of [parse] in the order of the buffer,
    one per call, whatever the fuel and the rest of the parser: no token
    is read, no declaration is parsed, symbols and [fallback] are not
    touched.  With the last of them the buffer is reset to empty, and
    [last_def_returned] is the definition returned last. *)
Theorem parse_buffer_in_order (declaration : pm unit) (fuel : nat)
    (st : pstate) :
  defs_ok (defs st) → 0 < len (defs st) →
  ∃ st',
    parse_times declaration fuel
      (Z.to_nat (len (defs st) - cur (defs st))) st =
      Ok (drop (Z.to_nat (cur (defs st))) (def (defs st))) st' ∧
    tokens st' = tokens st ∧ symtab st' = symtab st ∧
    fallback st' = fallback st ∧
    defs st' = zero_definition_list ∧
    Some (last_def_returned st') = last (def (defs st)).
Proof.
  remember (Z.to_nat (len (defs st) - cur (defs st))) as n eqn:Hn.
  revert st Hn. induction n as [|n IH]; intros st Hn Hok Hpos.
  - destruct Hok as (_ & _ & Hlt & _). specialize (Hlt Hpos). lia.
  - destruct (parse_pending declaration fuel st Hok Hpos) as (x & Hx & Hp).
    cbn [parse_times]. unfold mbind, pm_bind at 1. rewrite Hp.
    pose proof Hok as (Hlen & Hcur & Hlt & Hall). specialize (Hlt Hpos).
    rewrite (drop_S _ x _ Hx).
    destruct (Z.eqb_spec (cur (defs st) + 1) (len (defs st))) as [He|Hne].
    + assert (n = 0%nat) by lia. subst n. cbn [parse_times].
      eexists. split.
      * unfold mbind, pm_bind, mret, pm_ret. f_equal. f_equal.
        symmetry. apply drop_ge. lia.
      * cbn [tokens symtab fallback defs last_def_returned].
        repeat split.
        rewrite last_lookup.
        replace (Nat.pred (length (def (defs st))))
          with (Z.to_nat (cur (defs st))) by lia.
        now rewrite Hx.
    + set (st1 := PState (tokens st) (symtab st)
                    (DefinitionList (def (defs st)) (cur (defs st) + 1)
                       (len (defs st)))
                    (fallback st) x).
      destruct (IH st1) as (st' & Hrun & Ht & Hs & Hf & Hd & Hl).
      * cbn [st1 defs def cur len]. lia.
      * apply defs_ok_advance; assumption.
      * exact Hpos.
      * cbn [st1 defs def cur len] in Hrun.
        replace (Z.to_nat (len (defs st) - (cur (defs st) + 1))) with n
          in Hrun by lia.
        replace (Z.to_nat (cur (defs st) + 1))
          with (S (Z.to_nat (cur (defs st)))) in Hrun by lia.
        exists st'. unfold mbind, pm_bind at 1. rewrite Hrun.
        split; [reflexivity|]. repeat split; assumption.
Qed.

(** A buffer of two definitions, none handed out. *)
Definition two_definitions : pstate :=
  PState [] []
    (DefinitionList [Definition_ (Some 0%nat) None [] [] [];
                     Definition_ (Some 1%nat) None [] [] []] 0 2)
    zero_definition zero_definition.

Lemma two_definitions_ok : defs_ok (defs two_definitions).
Proof.
  repeat split; cbn; try lia. repeat constructor; now eexists.
Qed.

Lemma parse_buffer_in_order_witness :
  (defs_ok (defs two_definitions) ∧ 0 < len (defs two_definitions)) ∧
  ∃ st',
    parse_times tentative_declaration 0 2 two_definitions =
      Ok [Definition_ (Some 0%nat) None [] [] [];
          Definition_ (Some 1%nat) None [] [] []] st' ∧
    tokens st' = tokens two_definitions ∧
    symtab st' = symtab two_definitions ∧
    fallback st' = fallback two_definitions ∧
    defs st' = zero_definition_list ∧
    Some (last_def_returned st') = last (def (defs two_definitions)).
Proof.
  split; [split; [exact two_definitions_ok|reflexivity]|].
  exact (parse_buffer_in_order tentative_declaration 0 two_definitions
           two_definitions_ok eq_refl).
Defined.

(** *** Filling the buffer *)

(** What the buffer code relies on from [sym_create_label]: it returns a
    label, and leaves the buffer, [fallback] and the symbols that exist
    as they are. *)
Definition label_maker (sym_create_label : pm sym_ref) : Prop :=
  ∀ st, ∃ l st',
    sym_create_label st = Ok l st' ∧
    defs st' = defs st ∧ fallback st' = fallback st ∧
    ∀ s sym, symtab st !! s = Some sym → symtab st' !! s = Some sym.

(** A definition as [push_back_definition] leaves it: the symbol, no
    parameters and no locals, and one block, which is both its body and
    the only node it owns: a block with a label, no code, and the all-zero
    expression that [calloc] leaves. *)
Definition fresh_definition (s : sym_ref) (d : definition) : Prop :=
  d_symbol d = Some s ∧ d_params d = [] ∧ d_locals d = [] ∧
  ∃ l, d_body d = Some (Block (Some l) [] zero_var) ∧
       d_nodes d = [Block (Some l) [] zero_var].

Definition is_definition (st : pstate) (s : sym_ref) : Prop :=
  ∃ sym, symtab st !! s = Some sym ∧ symtype sym = SYM_DEFINITION.

(** [push_back_definition] for each symbol of a list, in order. *)
Fixpoint push_all (sym_create_label : pm sym_ref) (ss : list sym_ref)
  : pm unit :=
  match ss with
  | [] => mret ()
  | s :: ss =>
      push_back_definition sym_create_label s;;
      push_all sym_create_label ss
  end.

Lemma push_back_definition_appends sym_create_label s st :
  label_maker sym_create_label → defs_ok (defs st) → is_definition st s →
  ∃ d st',
    push_back_definition sym_create_label s st = Ok (len (defs st)) st' ∧
    fresh_definition s d ∧
    defs st' = DefinitionList (def (defs st) ++ [d]) (cur (defs st))
                 (len (defs st) + 1) ∧
    fallback st' = fallback st ∧
    ∀ s sym, symtab st !! s = Some sym → symtab st' !! s = Some sym.
Proof.
  intros Hlabel (Hlen & Hcur & Hlt & Hall) (sym & Hs & Hdef).
  unfold push_back_definition, cfg_block_init, mbind, pm_bind, get_symbol,
    get_defs, set_defs, assert, defined, get_fallback, set_fallback.
  rewrite Hs, Hdef. rewrite bool_decide_eq_true_2 by reflexivity.
  cbn [mret pm_ret fail defs def cur len].
  match goal with
  | |- context [sym_create_label ?x] =>
      destruct (Hlabel x) as (l & st1 & El & Hd1 & Hf1 & Hs1)
  end.
  rewrite El, Hd1. cbn [defs def cur len fallback symtab] in *.
  set (n := length (def (defs st))) in *.
  assert (Htake : take (Z.to_nat (len (defs st))) (def (defs st))
                  = def (defs st)) by (apply take_ge; lia).
  rewrite Htake.
  replace (len (defs st) + 1 =? 0) with false
    by (symmetry; apply Z.eqb_neq; lia).
  cbn [negb].
  replace (len (defs st) + 1 - 1 <? 0) with false
    by (symmetry; apply Z.ltb_ge; lia).
  replace (len (defs st) + 1 - 1) with (len (defs st)) by lia.
  rewrite Hlen, Nat2Z.id.
  rewrite (list_lookup_middle (def (defs st)) [] _ n) by reflexivity.
  cbn [mret pm_ret defs def cur len].
  rewrite list_lookup_insert_eq by (rewrite length_app; cbn; lia).
  cbn [mret pm_ret defs def cur len].
  rewrite ?Nat2Z.id. subst n. rewrite !insert_snoc.
  eexists _, _. split; [reflexivity|].
  cbn [defs fallback symtab d_symbol d_params d_locals d_nodes add_node app].
  split; [|split; [reflexivity|split; [exact Hf1|exact Hs1]]].
  repeat split. now exists l.
Qed.

Lemma defs_ok_snoc d x :
  defs_ok d → is_Some (d_symbol x) →
  defs_ok (DefinitionList (def d ++ [x]) (cur d) (len d + 1)).
Proof.
  intros (Hlen & Hcur & Hlt & Hall) Hx.
  repeat split; cbn [def cur len]; try lia.
  - rewrite length_app. cbn. lia.
  - apply Forall_app. split; [exact Hall|]. now repeat constructor.
Qed.

(** X22.  [push_back_definition], called for a list of symbols that are
    definitions, appends one definition per symbol to the buffer, in the
    order of the calls.  Every new definition has its symbol, no
    parameters, no locals, and a fresh block as its body, which it owns
    alone: the block has a label, no code, and the expression that
    [calloc] leaves (all zero: a Direct var without symbol and type).  The
    definitions that were in the buffer, the read position [cur] and
    [fallback] are unchanged.  On
    a buffer that was empty the next [parse] returns the definition of
    the symbol pushed first. *)
Theorem push_back_definitions (sym_create_label : pm sym_ref)
    (ss : list sym_ref) (st : pstate) :
  label_maker sym_create_label → defs_ok (defs st) →
  Forall (is_definition st) ss →
  ∃ news st',
    push_all sym_create_label ss st = Ok () st' ∧
    Forall2 fresh_definition ss news ∧
    defs st' = DefinitionList (def (defs st) ++ news) (cur (defs st))
                 (len (defs st) + Z.of_nat (length ss)) ∧
    fallback st' = fallback st ∧
    (len (defs st) = 0 → ss ≠ [] →
     ∀ declaration fuel, ∃ d st'',
       parse declaration fuel st' = Ok d st'' ∧ head news = Some d ∧
       d_symbol d = head ss).
Proof.
  intros Hlabel. revert st.
  assert (Hgen : ∀ ss st, defs_ok (defs st) → Forall (is_definition st) ss →
    ∃ news st',
      push_all sym_create_label ss st = Ok () st' ∧
      Forall2 fresh_definition ss news ∧
      defs st' = DefinitionList (def (defs st) ++ news) (cur (defs st))
                   (len (defs st) + Z.of_nat (length ss)) ∧
      fallback st' = fallback st).
  { clear ss. induction ss as [|s ss IH]; intros st Hok Hss.
    - exists [], st. split; [reflexivity|]. split; [constructor|].
      split; [|reflexivity]. rewrite app_nil_r. cbn [length].
      rewrite Z.add_0_r. now destruct (defs st).
    - apply Forall_cons in Hss as [Hs Hss].
      destruct (push_back_definition_appends _ s st Hlabel Hok Hs)
        as (d & st1 & Hpush & Hfresh & Hd1 & Hf1 & Hs1).
      destruct (IH st1) as (news & st' & Hrun & Hall & Hd & Hf).
      + rewrite Hd1. apply defs_ok_snoc; [exact Hok|].
        destruct Hfresh as (-> & _). now eexists.
      + eapply Forall_impl; [exact Hss|].
        intros s' (sym & Hl & Ht). exists sym. split; [now apply Hs1|exact Ht].
      + exists (d :: news), st'. cbn [push_all]. unfold mbind, pm_bind.
        rewrite Hpush. split; [exact Hrun|].
        split; [now constructor|]. split; [|congruence].
        rewrite Hd, Hd1. cbn [def cur len length].
        rewrite <- app_assoc. cbn [app]. f_equal. lia. }
  intros st Hok Hss.
  destruct (Hgen ss st Hok Hss) as (news & st' & Hrun & Hall & Hd & Hf).
  exists news, st'. repeat (split; [assumption|]).
  intros Hempty Hne declaration fuel.
  destruct Hall as [|s d ss' news' Hfresh Hrest]; [contradiction|].
  pose proof Hok as (Hlen & Hcur & _).
  assert (Hnil : def (defs st) = []).
  { destruct (def (defs st)); [reflexivity|]. cbn [length] in Hlen. lia. }
  pose proof (Forall2_length _ _ _ Hrest) as Hlen'.
  destruct (parse_pending declaration fuel st') as (x & Hx & Hp).
  - rewrite Hd. replace (cur (defs st)) with 0 by lia.
    rewrite Hnil, Hempty. cbn [app length].
    split; [cbn [def len length]; lia|].
    split; [cbn [cur len]; lia|].
    split; [cbn [cur len]; lia|]. cbn [def].
    apply Forall_cons. split.
    + destruct Hfresh as (-> & _). now eexists.
    + clear -Hrest. induction Hrest as [|? ? ? ? (Hy & _)]; constructor;
        [rewrite Hy; now eexists|assumption].
  - rewrite Hd. cbn [len length]. lia.
  - rewrite Hd in Hx. cbn [def cur] in Hx.
    replace (cur (defs st)) with 0 in Hx by lia. rewrite Hnil in Hx.
    cbn in Hx. injection Hx as <-.
    eexists _, _. split; [exact Hp|]. split; [reflexivity|].
    destruct Hfresh as (-> & _). reflexivity.
Qed.

(** Modelled from the spec: [sym_create_label] of the symbol table
    (symtab.c is not among the sources): it adds a synthetic label to the
    symbols and returns its address. *)
Definition fresh_label : pm sym_ref :=
  λ st, Ok (length (symtab st))
           (PState (tokens st)
              (symtab st ++
                 [Symbol ".L" basic_type__void SYM_LABEL LINK_INTERN 0])
              (defs st) (fallback st) (last_def_returned st)).

Lemma fresh_label_maker : label_maker fresh_label.
Proof.
  intros st. eexists _, _. split; [reflexivity|].
  split; [reflexivity|]. split; [reflexivity|].
  intros s sym H. cbn [symtab]. now apply lookup_app_l_Some.
Qed.

(** The symbols of [int f = 1, g = 2;] once both have their [=]. *)
Definition state_f_g : pstate :=
  PState [] [Symbol "f" basic_type__int SYM_DEFINITION LINK_EXTERN 0;
             Symbol "g" basic_type__int SYM_DEFINITION LINK_EXTERN 0]
         zero_definition_list zero_definition zero_definition.

Lemma state_f_g_definitions : Forall (is_definition state_f_g) [0%nat; 1%nat].
Proof. repeat constructor; eexists; (split; [reflexivity|reflexivity]). Qed.

Lemma push_back_definitions_witness :
  (label_maker fresh_label ∧ defs_ok (defs state_f_g) ∧
   Forall (is_definition state_f_g) [0%nat; 1%nat]) ∧
  ∃ news st',
    push_all fresh_label [0%nat; 1%nat] state_f_g = Ok () st' ∧
    Forall2 fresh_definition [0%nat; 1%nat] news ∧
    defs st' = DefinitionList (def (defs state_f_g) ++ news)
                 (cur (defs state_f_g))
                 (len (defs state_f_g) + Z.of_nat (length [0%nat; 1%nat])) ∧
    fallback st' = fallback state_f_g ∧
    (len (defs state_f_g) = 0 → [0%nat; 1%nat] ≠ [] →
     ∀ declaration fuel, ∃ d st'',
       parse declaration fuel st' = Ok d st'' ∧ head news = Some d ∧
       d_symbol d = head [0%nat; 1%nat]).
Proof.
  split; [split; [exact fresh_label_maker|
                  split; [exact zero_definition_list_ok|
                          exact state_f_g_definitions]]|].
  exact (push_back_definitions fresh_label [0%nat; 1%nat] state_f_g
           fresh_label_maker zero_definition_list_ok state_f_g_definitions).
Defined.

(** *** The function that is being defined *)

(** [current_func]: the loop from the last definition of the buffer down
    to the read position [cur]; [k] is the number of definitions that are
    left to look at, and a definition is returned by its place. *)
Fixpoint current_func_loop (d : definition_list) (k : nat) : pm Z :=
  match k with
  | O => fail AssertionFailed
  | S k =>
      let i := cur d + Z.of_nat k in
      x ← defined (if i <? 0 then None else def d !! Z.to_nat i);
      s ← defined (d_symbol x);
      sym ← get_symbol s;
      if is_function (sym_type sym) then mret i
      else current_func_loop d k
  end.

Definition current_func : pm Z :=
  d ← get_defs;
  current_func_loop d (Z.to_nat (len d - cur d)).

(** Whether the definition at place [i] of the buffer is of a function. *)
Definition function_at (st : pstate) (i : Z) : bool :=
  match def (defs st) !! Z.to_nat i with
  | Some x =>
      match d_symbol x with
      | Some s =>
          match symtab st !! s with
          | Some sym => is_function (sym_type sym)
          | None => false
          end
      | None => false
      end
  | None => false
  end.

(** Every definition of the buffer has a symbol of the symbol table. *)
Definition symbols_known (st : pstate) : Prop :=
  Forall (λ x, ∃ s sym, d_symbol x = Some s ∧ symtab st !! s = Some sym)
         (def (defs st)).

Lemma current_func_loop_spec st :
  defs_ok (defs st) → symbols_known st →
  ∀ k, Z.of_nat k ≤ len (defs st) - cur (defs st) →
    match current_func_loop (defs st) k st with
    | Ok i st' =>
        st' = st ∧ cur (defs st) ≤ i < cur (defs st) + Z.of_nat k ∧
        function_at st i = true ∧
        ∀ j, i < j < cur (defs st) + Z.of_nat k → function_at st j = false
    | Err e =>
        e = AssertionFailed ∧
        ∀ j, cur (defs st) ≤ j < cur (defs st) + Z.of_nat k →
             function_at st j = false
    end.
Proof.
  intros (Hlen & Hcur & Hlt & Hall) Hknown k.
  induction k as [|k IH]; intros Hk.
  - cbn. split; [reflexivity|]. intros j Hj. lia.
  - cbn [current_func_loop].
    set (i := cur (defs st) + Z.of_nat k).
    assert (Hi : (Z.to_nat i < length (def (defs st)))%nat) by lia.
    destruct (lookup_lt_is_Some_2 _ _ Hi) as [x Hx].
    unfold symbols_known in Hknown. rewrite Forall_forall in Hknown.
    destruct (Hknown x) as (s & sym & Hs & Hsym);
      [apply list_elem_of_lookup; eauto|].
    unfold mbind, pm_bind, defined, get_symbol.
    replace (i <? 0) with false by (symmetry; apply Z.ltb_ge; lia).
    rewrite Hx. cbn [mret pm_ret]. rewrite Hs. cbn [mret pm_ret].
    rewrite Hsym.
    assert (Hfi : function_at st i = is_function (sym_type sym))
      by (unfold function_at; now rewrite Hx, Hs, Hsym).
    destruct (is_function (sym_type sym)) eqn:Hf.
    + cbn [mret pm_ret]. split; [reflexivity|]. split; [lia|].
      split; [exact Hfi|]. intros j Hj. lia.
    + specialize (IH ltac:(lia)).
      destruct (current_func_loop (defs st) k st) as [i' st'|e].
      * destruct IH as (-> & Hr & Hfn & Hlater).
        split; [reflexivity|]. split; [lia|]. split; [exact Hfn|].
        intros j Hj. destruct (Z.eq_dec j i) as [->|Hne]; [exact Hfi|].
        apply Hlater. lia.
      * destruct IH as (-> & Hnone). split; [reflexivity|].
        intros j Hj. destruct (Z.eq_dec j i) as [->|Hne]; [exact Hfi|].
        apply Hnone. lia.
Qed.

(** X23.  [current_func] returns, without changing anything, the definition
    of a function that is nearest to the end of the buffer among those
    not handed out yet (from [cur] on); it fails its assertion exactly
    when none of them is of a function, so also when the buffer is
    empty. *)
Theorem current_func_is_last_function (st : pstate) :
  defs_ok (defs st) → symbols_known st →
  match current_func st with
  | Ok i st' =>
      st' = st ∧ cur (defs st) ≤ i < len (defs st) ∧
      function_at st i = true ∧
      ∀ j, i < j < len (defs st) → function_at st j = false
  | Err e =>
      e = AssertionFailed ∧
      ∀ j, cur (defs st) ≤ j < len (defs st) → function_at st j = false
  end.
Proof.
  intros Hok Hknown.
  pose proof (current_func_loop_spec st Hok Hknown
                (Z.to_nat (len (defs st) - cur (defs st)))) as H.
  destruct Hok as (Hlen & Hcur & Hlt & Hall).
  unfold current_func, mbind, pm_bind, get_defs.
  replace (cur (defs st) +
           Z.of_nat (Z.to_nat (len (defs st) - cur (defs st))))
    with (len (defs st)) in H by lia.
  apply H. lia.
Qed.

(** The buffer while the body of [int f(void)] is parsed, after a
    definition of an object [x] inside it. *)
Definition state_in_f : pstate :=
  PState []
    [Symbol "f" (Typetree T_FUNCTION 0 Q_NONE (Some (MemberList false []))
                   None (Some basic_type__int))
            SYM_DEFINITION LINK_EXTERN 0;
     Symbol "x" basic_type__int SYM_DEFINITION LINK_INTERN 1]
    (DefinitionList [Definition_ (Some 0%nat) None [] [] [];
                     Definition_ (Some 1%nat) None [] [] []] 0 2)
    zero_definition zero_definition.

Lemma state_in_f_ok : defs_ok (defs state_in_f) ∧ symbols_known state_in_f.
Proof.
  split.
  - repeat split; cbn; try lia. repeat constructor; now eexists.
  - repeat constructor; eexists _, _; (split; reflexivity).
Qed.

Lemma current_func_is_last_function_witness :
  (defs_ok (defs state_in_f) ∧ symbols_known state_in_f) ∧
  current_func state_in_f = Ok 0 state_in_f ∧
  match current_func state_in_f with
  | Ok i st' =>
      st' = state_in_f ∧
      cur (defs state_in_f) ≤ i < len (defs state_in_f) ∧
      function_at state_in_f i = true ∧
      ∀ j, i < j < len (defs state_in_f) → function_at state_in_f j = false
  | Err e =>
      e = AssertionFailed ∧
      ∀ j, cur (defs state_in_f) ≤ j < len (defs state_in_f) →
           function_at state_in_f j = false
  end.
Proof.
  split; [exact state_in_f_ok|]. split; [reflexivity|].
  exact (current_func_is_last_function state_in_f (proj1 state_in_f_ok)
           (proj2 state_in_f_ok)).
Defined.

(** *** Zero initialization *)

(** The two loops of [zero_initialize] as functions of their own. *)
Definition zero_struct_members (eval_assign : block → var → var → pm block)
    (target : var) : list member_t → block → pm block :=
  fix over_members (ms : list member_t) (b : block) : pm block :=
    match ms with
    | [] => mret b
    | m :: rest =>
        zero_initialize_at eval_assign (m_type m) b
          (set_offset (set_type target (TypeNode (m_type m)))
                      (v_offset target + m_offset m))
        ≫= over_members rest
    end.

Definition zero_array_elements (eval_assign : block → var → var → pm block)
    (n : typetree) (target : var) : nat → Z → block → pm block :=
  fix over_elements (k : nat) (i : Z) (b : block) : pm block :=
    match k with
    | O => mret b
    | S k =>
        zero_initialize_at eval_assign n b
          (set_offset (set_type target (TypeNode n))
                      (v_offset target + i * t_size n))
        ≫= over_elements k (i + 1)
    end.

Lemma zero_initialize_at_unfold eval_assign ty b target :
  zero_initialize_at eval_assign ty b target =
  (assert (bool_decide (kind target = DIRECT));;
   match t_type ty with
   | T_STRUCT | T_UNION =>
       zero_struct_members eval_assign target (members (unwrapped ty)) b
   | T_ARRAY =>
       assert (negb (t_size ty =? 0));;
       match t_next ty with
       | None => fail Undefined
       | Some n =>
           assert (is_struct n ||
                   match t_next n with None => true | Some _ => false end);;
           if t_size n =? 0 then fail Undefined
           else zero_array_elements eval_assign n target
                  (Z.to_nat (Z.quot (t_size ty) (t_size n))) 0 b
       end
   | T_POINTER =>
       ptr ← defined (type_init T_POINTER (Some basic_type__void) 0);
       eval_assign b target (set_type (var_zero 8) (TypeNode ptr))
   | T_UNSIGNED | T_SIGNED => eval_assign b target (var_zero (t_size ty))
   | _ => error "Invalid type to zero-initialize."
   end).
Proof.
  destruct ty as [k sz q ml tg nx].
  destruct k; try reflexivity;
    unfold unwrapped, is_tagged, is_struct_or_union, is_struct, is_union,
      members;
    cbn; destruct nx as [[? ? ? [[]|] ? ?]|], ml as [[]|]; reflexivity.
Qed.

(** The store of a zero of the size of [int] into [a] at a byte offset. *)
Definition zero_store_a (off : Z) : op :=
  Op IR_ASSIGN
     (Var DIRECT (Some 0%nat) (TypeNode basic_type__int) off true 0)
     (var_zero 4).

(** A store of an immediate zero into the object of [target]. *)
Definition zero_store_to (target : var) (o : op) : Prop :=
  op_type o = IR_ASSIGN ∧
  kind (op_target o) = DIRECT ∧
  v_symbol (op_target o) = v_symbol target ∧
  lvalue (op_target o) = lvalue target ∧
  kind (op_a o) = IMMEDIATE ∧ v_symbol (op_a o) = None ∧ imm_i (op_a o) = 0.

(** [b'] is [b] with zero stores into the object of [target] appended. *)
Definition zero_extended (target : var) (b b' : block) : Prop :=
  label b' = label b ∧ expr b' = expr b ∧
  ∃ ops, code b' = code b ++ ops ∧ Forall (zero_store_to target) ops.

Lemma zero_extended_refl target b : zero_extended target b b.
Proof.
  split; [reflexivity|]. split; [reflexivity|]. exists [].
  now rewrite app_nil_r.
Qed.

Lemma zero_extended_trans target b1 b2 b3 :
  zero_extended target b1 b2 → zero_extended target b2 b3 →
  zero_extended target b1 b3.
Proof.
  intros (Hl1 & He1 & ops1 & Hc1 & Ho1) (Hl2 & He2 & ops2 & Hc2 & Ho2).
  split; [congruence|]. split; [congruence|].
  exists (ops1 ++ ops2). split; [now rewrite Hc2, Hc1, app_assoc|].
  now apply Forall_app.
Qed.

Lemma zero_extended_sub target target' b b' :
  v_symbol target' = v_symbol target → lvalue target' = lvalue target →
  zero_extended target' b b' → zero_extended target b b'.
Proof.
  intros Hs Hl (Hl1 & He1 & ops & Hc & Ho).
  split; [exact Hl1|]. split; [exact He1|]. exists ops. split; [exact Hc|].
  eapply Forall_impl; [exact Ho|].
  intros o (H1 & H2 & H3 & H4 & H5 & H6 & H7).
  repeat split; try assumption; congruence.
Qed.

Lemma emit_assign_zero b target value st b' st' :
  kind target = DIRECT → kind value = IMMEDIATE → v_symbol value = None →
  imm_i value = 0 →
  emit_assign b target value st = Ok b' st' →
  st' = st ∧ zero_extended target b b'.
Proof.
  intros Hk Hv Hs Hi [= <- <-]. split; [reflexivity|].
  split; [reflexivity|]. split; [reflexivity|].
  eexists. split; [reflexivity|]. repeat constructor; assumption.
Qed.

Lemma zero_initialize_at_frame ty :
  ∀ b target st b' st',
    zero_initialize_at emit_assign ty b target st = Ok b' st' →
    st' = st ∧ zero_extended target b b'.
Proof.
  remember (Abi.height ty) as h eqn:Hh. revert ty Hh.
  induction h as [h IH] using lt_wf_ind. intros ty -> b target st b' st'.
  rewrite zero_initialize_at_unfold.
  unfold mbind at 1, pm_bind at 1, assert at 1.
  destruct (bool_decide (kind target = DIRECT)) eqn:Hk; [|discriminate].
  apply bool_decide_eq_true in Hk. cbn [mret pm_ret].
  assert (Hmem : ∀ ms,
            (∀ m, m ∈ ms → (Abi.height (m_type m) < Abi.height ty)%nat) →
            ∀ b st b' st',
              zero_struct_members emit_assign target ms b st = Ok b' st' →
              st' = st ∧ zero_extended target b b').
  { induction ms as [|m ms IHms]; intros Hms b0 st0 b0' st0'; cbn.
    - intros [= <- <-]. split; [reflexivity|apply zero_extended_refl].
    - unfold mbind, pm_bind.
      destruct (zero_initialize_at emit_assign (m_type m) b0 _ st0)
        as [b1 st1|] eqn:E; [|discriminate].
      intros H. apply IHms in H as [-> H2]; [|intros; apply Hms; now right].
      eapply IH in E as [-> H1]; [|apply Hms; now left|reflexivity].
      split; [reflexivity|]. eapply zero_extended_trans; [|exact H2].
      eapply zero_extended_sub; [| |exact H1]; reflexivity. }
  assert (Harr : ∀ n, (Abi.height n < Abi.height ty)%nat →
            ∀ k i b st b' st',
              zero_array_elements emit_assign n target k i b st = Ok b' st' →
              st' = st ∧ zero_extended target b b').
  { intros n Hn. induction k as [|k IHk]; intros i b0 st0 b0' st0'; cbn.
    - intros [= <- <-]. split; [reflexivity|apply zero_extended_refl].
    - unfold mbind, pm_bind.
      destruct (zero_initialize_at emit_assign n b0 _ st0)
        as [b1 st1|] eqn:E; [|discriminate].
      intros H. apply IHk in H as [-> H2].
      eapply IH in E as [-> H1]; [|exact Hn|reflexivity].
      split; [reflexivity|]. eapply zero_extended_trans; [|exact H2].
      eapply zero_extended_sub; [| |exact H1]; reflexivity. }
  destruct (t_type ty) eqn:Ek; try discriminate.
  - now apply emit_assign_zero.
  - now apply emit_assign_zero.
  - cbn. now apply emit_assign_zero.
  - unfold mbind, pm_bind, assert.
    destruct (negb (t_size ty =? 0)); [|discriminate]. cbn [mret pm_ret].
    destruct (t_next ty) as [n|] eqn:En; [|discriminate].
    destruct (is_struct n || _); [|discriminate]. cbn [mret pm_ret].
    destruct (t_size n =? 0); [discriminate|].
    apply Harr. now apply Abi.height_next.
  - apply Hmem. intros m. apply Abi.height_unwrapped_member.
  - apply Hmem. intros m. apply Abi.height_unwrapped_member.
Qed.

(** X24.  [zero_initialize] consumes no input and changes nothing in the
    parser's state: when it returns, the block has its label and its
    expression, and its code is the code it had followed by assignments of
    an immediate zero to Direct references to the symbol of the target,
    and by nothing else. *)
Theorem zero_initialize_only_stores_zeros (b : block) (target : var)
    (st : pstate) (b' : block) (st' : pstate) :
  zero_initialize emit_assign b target st = Ok b' st' →
  st' = st ∧ label b' = label b ∧ expr b' = expr b ∧
  ∃ ops, code b' = code b ++ ops ∧ Forall (zero_store_to target) ops.
Proof.
  unfold zero_initialize, mbind, pm_bind.
  destruct (deref (v_type target) st) as [ty st1|] eqn:Ed; [|discriminate].
  assert (st1 = st) as ->.
  { unfold deref in Ed.
    destruct (v_type target); [|now injection Ed|discriminate].
    unfold mbind, pm_bind, get_symbol in Ed.
    destruct (symtab st !! s); [|discriminate]. now injection Ed. }
  intros H. apply zero_initialize_at_frame in H as [-> H].
  split; [reflexivity|exact H].
Qed.

Lemma zero_initialize_only_stores_zeros_witness :
  zero_initialize emit_assign empty_block (var_direct 0%nat)
    (state_completed [] 2) =
    Ok (Block None [zero_store_a 0; zero_store_a 4] (var_zero 4))
       (state_completed [] 2) ∧
  (state_completed [] 2 = state_completed [] 2 ∧
   label (Block None [zero_store_a 0; zero_store_a 4] (var_zero 4)) =
     label empty_block ∧
   expr (Block None [zero_store_a 0; zero_store_a 4] (var_zero 4)) =
     expr empty_block ∧
   ∃ ops,
     code (Block None [zero_store_a 0; zero_store_a 4] (var_zero 4)) =
       code empty_block ++ ops ∧
     Forall (zero_store_to (var_direct 0%nat)) ops).
Proof.
  split; [reflexivity|].
  exact (zero_initialize_only_stores_zeros empty_block (var_direct 0%nat)
           (state_completed [] 2) _ _ eq_refl).
Defined.

(** The zero store into element [i] of an array of [elem] at [target]. *)
Definition zero_element_store (target : var) (elem : typetree) (i : Z) : op :=
  Op IR_ASSIGN
     (set_offset (set_type target (TypeNode elem))
                 (v_offset target + i * t_size elem))
     (var_zero (t_size elem)).

Lemma block_eta b : Block (label b) (code b) (expr b) = b.
Proof. now destruct b. Qed.

Lemma zero_array_elements_integers elem target :
  is_integer elem = true → kind target = DIRECT →
  ∀ k i b st,
    zero_array_elements emit_assign elem target k i b st =
    Ok (Block (label b)
              (code b ++ (zero_element_store target elem <$> seqZ i (Z.of_nat k)))
              (expr b)) st.
Proof.
  intros Hint Hk. induction k as [|k IH]; intros i b st.
  - cbn. rewrite app_nil_r, block_eta. reflexivity.
  - cbn [zero_array_elements]. unfold mbind at 1, pm_bind at 1.
    rewrite zero_initialize_at_unfold.
    unfold mbind at 1, pm_bind at 1, assert at 1. cbn [kind set_offset set_type].
    rewrite bool_decide_eq_true_2 by exact Hk. cbn [mret pm_ret].
    assert (E : match t_type elem with
                | T_SIGNED | T_UNSIGNED => True | _ => False end).
    { unfold is_integer in Hint. destruct (t_type elem); try exact I;
        discriminate. }
    replace (Z.of_nat (S k)) with (Z.succ (Z.of_nat k)) by lia.
    rewrite seqZ_cons by lia. rewrite Z.pred_succ. cbn [fmap list_fmap].
    destruct (t_type elem); try contradiction;
      (unfold emit_assign at 1; cbn [mret pm_ret]; rewrite IH;
       cbn [label code expr]; rewrite <- app_assoc; reflexivity).
Qed.

Lemma zero_initialize_at_integers elem ty k b target st :
  kind target = DIRECT → type_init T_ARRAY (Some elem) k = Some ty →
  0 < k → 0 < size_of elem → is_integer elem = true → t_next elem = None →
  zero_initialize_at emit_assign ty b target st =
    Ok (Block (label b)
              (code b ++ (zero_element_store target elem <$> seqZ 0 k))
              (expr b)) st.
Proof.
  intros Hk Hty Hpos Hsz Hint Hnone. cbn in Hty. injection Hty as <-.
  assert (Hnt : is_tagged elem = false).
  { unfold is_tagged, is_struct_or_union, is_struct, is_union.
    unfold is_integer in Hint. now destruct (t_type elem). }
  assert (Hs : size_of elem = t_size elem)
    by (unfold size_of; now rewrite Hnt).
  rewrite Hs in *.
  assert (Hnext : is_struct elem ||
            match t_next elem with None => true | Some _ => false end
            = true).
  { rewrite Hnone. apply orb_true_r. }
  rewrite zero_initialize_at_unfold.
  cbn [t_type t_size t_next].
  unfold mbind, pm_bind, assert.
  rewrite bool_decide_eq_true_2 by exact Hk. cbn [mret pm_ret].
  replace (t_size elem * k =? 0) with false
    by (symmetry; apply Z.eqb_neq; nia).
  cbn [negb mret pm_ret]. rewrite Hnext. cbn [mret pm_ret].
  replace (t_size elem =? 0) with false by (symmetry; apply Z.eqb_neq; lia).
  rewrite (Z.mul_comm (t_size elem) k), Z.quot_mul by lia.
  rewrite zero_array_elements_integers by assumption.
  rewrite Z2Nat.id by lia. reflexivity.
Qed.

(** X25.  [zero_initialize] of an array of [k] integers emits [k] stores of
    a zero of the element's size, into the offsets [i * size] from the
    offset of the target, first to last, and nothing else.  On an array
    whose element type is not a struct but has a [next] (a pointer, an
    array, a function or a tagged union), it fails its assertion. *)
Theorem zero_initialize_array (elem ty : typetree) (k : Z) (b : block)
    (target : var) (st : pstate) :
  kind target = DIRECT → type_init T_ARRAY (Some elem) k = Some ty →
  0 < k → 0 < size_of elem →
  (is_integer elem = true → t_next elem = None →
   zero_initialize_at emit_assign ty b target st =
     Ok (Block (label b)
               (code b ++ (zero_element_store target elem <$> seqZ 0 k))
               (expr b)) st) ∧
  (is_struct elem = false → is_Some (t_next elem) →
   zero_initialize_at emit_assign ty b target st = Err AssertionFailed).
Proof.
  intros Hk Hty Hpos Hsz. split.
  - intros Hint Hnone. now apply zero_initialize_at_integers.
  - intros Hns [n Hn]. cbn in Hty. injection Hty as <-.
    rewrite zero_initialize_at_unfold.
    cbn [t_type t_size t_next].
    unfold mbind, pm_bind, assert.
    rewrite bool_decide_eq_true_2 by exact Hk. cbn [mret pm_ret].
    replace (size_of elem * k =? 0) with false
      by (symmetry; apply Z.eqb_neq; nia).
    cbn [negb mret pm_ret]. rewrite Hns, Hn. reflexivity.
Qed.

Lemma zero_initialize_array_witness :
  let ty := Typetree T_ARRAY 6 Q_NONE None None (Some basic_type__short) in
  let target := var_direct 0%nat in
  (kind target = DIRECT ∧
   type_init T_ARRAY (Some basic_type__short) 3 = Some ty ∧
   0 < 3 ∧ 0 < size_of basic_type__short) ∧
  (is_integer basic_type__short = true → t_next basic_type__short = None →
   zero_initialize_at emit_assign ty empty_block target
     (state_completed [] 2) =
     Ok (Block (label empty_block)
               (code empty_block ++
                  (zero_element_store target basic_type__short <$> seqZ 0 3))
               (expr empty_block)) (state_completed [] 2)) ∧
  (is_struct basic_type__short = false → is_Some (t_next basic_type__short) →
   zero_initialize_at emit_assign ty empty_block target
     (state_completed [] 2) = Err AssertionFailed).
Proof.
  intros ty target.
  split; [repeat split|].
  exact (zero_initialize_array basic_type__short ty 3 empty_block target
           (state_completed [] 2) eq_refl eq_refl eq_refl eq_refl).
Defined.

(** *** A list of initializers for an array of known size *)

Lemma initializer_element f0 b off v toks n :
  initializer integer_constant_expression emit_assign (S f0) b
    (set_offset element_target off) (state_completed (number v :: toks) n) =
  Ok (Block (label b) (code b ++ [store_a off v]) (var_int v))
     (state_completed toks n).
Proof. reflexivity. Qed.

Lemma more_initializers_comma t toks n :
  tok t ≠ CHAR "}" →
  more_initializers (state_completed (punct "," :: t :: toks) n) =
  Ok true (state_completed (t :: toks) n).
Proof.
  intros Ht. unfold more_initializers. unfold mbind at 1, pm_bind at 1.
  change (peek_is "," (state_completed (punct "," :: t :: toks) n))
    with (Ok true (state_completed (punct "," :: t :: toks) n)).
  cbn iota. unfold mbind at 1, pm_bind at 1.
  change (consume (CHAR ",") (state_completed (punct "," :: t :: toks) n))
    with (Ok (punct ",") (state_completed (t :: toks) n)).
  cbn iota. unfold peek_is, peek, mbind, pm_bind.
  cbn [state_completed tokens hd].
  rewrite bool_decide_eq_false_2 by exact Ht. reflexivity.
Qed.

Lemma more_initializers_close toks n :
  more_initializers (state_completed (punct "}" :: toks) n) =
  Ok false (state_completed (punct "}" :: toks) n).
Proof. reflexivity. Qed.

(** One turn of the array loop on [a], of type [int[n]]. *)
Lemma array_loop_turn init fuel i b toks n :
  0 < n →
  array_loop init (S fuel) (SymType 0%nat) i 0 b element_target
    (state_completed toks n) =
  if i <? n then
    (b ← init b (set_offset element_target (i * 4));
     more ← more_initializers;
     if (more : bool)
     then array_loop init fuel (SymType 0%nat) (i + 1) 0 b element_target
     else mret (b, i)) (state_completed toks n)
  else Ok (b, i) (state_completed toks n).
Proof.
  intros Hn. cbn [array_loop].
  unfold mbind at 1, pm_bind at 1.
  change (deref (SymType 0%nat) (state_completed toks n))
    with (Ok (int_array n) (state_completed toks n)).
  cbn [int_array t_next t_size]. unfold mbind at 1, pm_bind at 1.
  cbn [defined mret pm_ret].
  unfold mbind at 1, pm_bind at 1.
  replace (n * 4 =? 0) with false by (symmetry; apply Z.eqb_neq; lia).
  change (size_of basic_type__int) with 4. change (4 =? 0) with false.
  cbn [mret pm_ret]. rewrite Z.quot_mul by lia.
  destruct (i <? n); reflexivity.
Qed.

Lemma array_loop_done init fuel b toks n :
  0 < n →
  array_loop init fuel (SymType 0%nat) n 0 b element_target
    (state_completed toks n) = Ok (b, n) (state_completed toks n).
Proof.
  intros Hn. destruct fuel as [|fuel].
  - cbn [array_loop]. unfold mbind at 1, pm_bind at 1.
    change (deref (SymType 0%nat) (state_completed toks n))
      with (Ok (int_array n) (state_completed toks n)).
    cbn [int_array t_next t_size]. unfold mbind at 1, pm_bind at 1.
    cbn [defined mret pm_ret].
    unfold mbind at 1, pm_bind at 1.
    replace (n * 4 =? 0) with false by (symmetry; apply Z.eqb_neq; lia).
    change (size_of basic_type__int) with 4. change (4 =? 0) with false.
    cbn [mret pm_ret]. rewrite Z.quot_mul by lia.
    rewrite Z.ltb_irrefl. reflexivity.
  - rewrite array_loop_turn by exact Hn. now rewrite Z.ltb_irrefl.
Qed.

Lemma array_loop_values f0 vs :
  ∀ v fuel i b rest n,
    (length vs < fuel)%nat → 0 ≤ i → i + 1 + Z.of_nat (length vs) ≤ n →
    array_loop (initializer integer_constant_expression emit_assign (S f0))
      fuel (SymType 0%nat) i 0 b element_target
      (state_completed (initializer_list v vs ++ punct "}" :: rest) n) =
    Ok (Block (label b) (code b ++ stores_from i (v :: vs))
              (var_int (last_value v vs)),
        last_index i vs)
       (state_completed (punct "}" :: rest) n).
Proof.
  induction vs as [|v' vs IH]; intros v fuel i b rest n Hfuel Hi Hn;
    (destruct fuel as [|fuel]; [cbn in Hfuel; lia|]);
    rewrite array_loop_turn by lia;
    (replace (i <? n) with true by (symmetry; apply Z.ltb_lt; lia));
    unfold mbind at 1, pm_bind at 1;
    cbn [initializer_list more_values app];
    rewrite initializer_element; unfold mbind at 1, pm_bind at 1.
  - rewrite more_initializers_close. reflexivity.
  - rewrite more_initializers_comma by discriminate.
    cbn [length] in Hfuel, Hn.
    change (number v' :: more_values vs ++ punct "}" :: rest)
      with (initializer_list v' vs ++ punct "}" :: rest).
    rewrite IH by lia. cbn [label code stores_from last_value last_index].
    rewrite <- app_assoc. reflexivity.
Qed.

(** More values than elements: the loop ends at the first value in
    excess. *)
Lemma array_loop_excess f0 vs :
  ∀ v fuel i b rest n,
    (length vs ≤ fuel)%nat → 0 < n → 0 ≤ i ≤ n →
    n < i + 1 + Z.of_nat (length vs) →
    ∃ b' w toks,
      array_loop (initializer integer_constant_expression emit_assign (S f0))
        fuel (SymType 0%nat) i 0 b element_target
        (state_completed (initializer_list v vs ++ punct "}" :: rest) n) =
      Ok (b', n) (state_completed (number w :: toks) n).
Proof.
  induction vs as [|v' vs IH]; intros v fuel i b rest n Hfuel Hpos Hi Hn.
  - cbn [length] in Hn. assert (i = n) as -> by lia.
    rewrite array_loop_done by exact Hpos. now eexists _, _, _.
  - destruct (Z.eq_dec i n) as [->|Hne].
    + rewrite array_loop_done by exact Hpos. now eexists _, _, _.
    + cbn [length] in Hfuel, Hn. destruct fuel as [|fuel]; [lia|].
      rewrite array_loop_turn by lia.
      replace (i <? n) with true by (symmetry; apply Z.ltb_lt; lia).
      unfold mbind at 1, pm_bind at 1.
      cbn [initializer_list more_values app].
      rewrite initializer_element. unfold mbind at 1, pm_bind at 1.
      rewrite more_initializers_comma by discriminate.
      change (number v' :: more_values vs ++ punct "}" :: rest)
        with (initializer_list v' vs ++ punct "}" :: rest).
      apply IH; lia.
Qed.

Lemma zero_elements_int k :
  ∀ i b st,
    zero_elements emit_assign k i 4 0 b element_target st =
    Ok (Block (label b)
              (code b ++ ((λ j, zero_store_a (j * 4)) <$> seqZ i (Z.of_nat k)))
              (expr b)) st.
Proof.
  induction k as [|k IH]; intros i b st.
  - cbn. rewrite app_nil_r, block_eta. reflexivity.
  - cbn [zero_elements]. unfold mbind at 1, pm_bind at 1.
    change (zero_initialize emit_assign b
              (set_offset element_target (0 + i * 4)) st)
      with (Ok (Block (label b) (code b ++ [zero_store_a (i * 4)]) (expr b))
               st).
    cbn beta iota. rewrite IH. cbn [label code expr].
    replace (Z.of_nat (S k)) with (Z.succ (Z.of_nat k)) by lia.
    rewrite (seqZ_cons i) by lia. rewrite Z.pred_succ. cbn [fmap list_fmap].
    rewrite <- app_assoc. reflexivity.
Qed.

(** What [object_initializer] does on [a], of type [int[n]], once the
    loop over the values has ended. *)
Lemma object_initializer_int_array init fuel b toks n b1 i toks1 :
  0 < n →
  array_loop init fuel (SymType 0%nat) 0 0 b element_target
    (state_completed toks n) = Ok (b1, i) (state_completed toks1 n) →
  object_initializer emit_assign init fuel b (var_direct 0%nat)
    (state_completed (punct "{" :: toks) n) =
  (b ← zero_elements emit_assign (Z.to_nat (n - (i + 1))) (i + 1) 4 0 b1
         element_target;
   consume (CHAR "}");; mret b) (state_completed toks1 n).
Proof.
  intros Hn Hloop. unfold object_initializer.
  unfold mbind at 1, pm_bind at 1.
  change (deref (v_type (var_direct 0%nat))
            (state_completed (punct "{" :: toks) n))
    with (Ok (int_array n) (state_completed (punct "{" :: toks) n)).
  cbn iota. unfold mbind at 1, pm_bind at 1.
  change (assert (negb (is_tagged (int_array n)))
            (state_completed (punct "{" :: toks) n))
    with (Ok () (state_completed (punct "{" :: toks) n)).
  cbn iota. unfold mbind at 1, pm_bind at 1.
  change (consume (CHAR "{") (state_completed (punct "{" :: toks) n))
    with (Ok (punct "{") (state_completed toks n)).
  cbn iota. cbn [int_array t_type t_next]. unfold mbind at 1, pm_bind at 1.
  unfold mbind at 1, pm_bind at 1. cbn [defined mret pm_ret].
  unfold mbind at 1, pm_bind at 1.
  change (set_type (set_lvalue (var_direct 0%nat) true)
            (TypeNode basic_type__int)) with element_target.
  cbn [v_offset var_direct v_type]. rewrite Hloop.
  unfold mbind at 1, pm_bind at 1.
  change (deref (SymType 0%nat) (state_completed toks1 n))
    with (Ok (int_array n) (state_completed toks1 n)).
  cbn iota. cbn [int_array t_next t_size]. unfold mbind at 1, pm_bind at 1.
  cbn [defined mret pm_ret].
  replace (n * 4 =? 0) with false by (symmetry; apply Z.eqb_neq; lia).
  change (size_of basic_type__int) with 4. change (4 =? 0) with false.
  cbn iota. rewrite Z.quot_mul by lia. reflexivity.
Qed.

Lemma initializer_int_array f0 b toks n :
  initializer integer_constant_expression emit_assign (S f0) b
    (var_direct 0%nat) (state_completed (punct "{" :: toks) n) =
  object_initializer emit_assign
    (initializer integer_constant_expression emit_assign f0) f0 b
    (var_direct 0%nat) (state_completed (punct "{" :: toks) n).
Proof. reflexivity. Qed.

(** X26.  [int a[n] = { v, v1, ..., vk };] with [n] known: when there are at
    most [n] values, the initializer emits one store per value, into
    offsets 0, 4, ... of [a], then one store of zero for each element
    that is left, up to offset [4 * (n - 1)]; it consumes the list with
    its braces and leaves the type of [a] as it is.  When there are more
    than [n] values it ends with the error of [consume], which expects
    the closing brace at the first value in excess. *)
Theorem int_array_fixed_initializer (fuel : nat) (n v : Z) (vs : list Z)
    (rest : list token) :
  0 < n → (length vs + 2 ≤ fuel)%nat →
  let values := Z.of_nat (length vs) + 1 in
  let run :=
    initializer integer_constant_expression emit_assign fuel empty_block
      (var_direct 0%nat)
      (state_completed
         (punct "{" :: initializer_list v vs ++ punct "}" :: rest) n) in
  (values ≤ n →
   run = Ok (Block None
               (stores_from 0 (v :: vs) ++
                ((λ j, zero_store_a (j * 4)) <$> seqZ values (n - values)))
               (var_int (last_value v vs)))
            (state_completed rest n)) ∧
  (n < values → run = Err (ExitError "Unexpected token")).
Proof.
  intros Hn Hfuel values run. subst values run.
  destruct fuel as [|[|f0]]; try lia.
  rewrite initializer_int_array. split.
  - intros Hle.
    pose proof (array_loop_values f0 vs v (S f0) 0 empty_block rest n
                  ltac:(lia) ltac:(lia) ltac:(lia)) as Hloop.
    rewrite (object_initializer_int_array _ _ _ _ _ _ _ _ Hn Hloop).
    unfold mbind at 1, pm_bind at 1. rewrite zero_elements_int.
    rewrite last_index_length. cbn [label code expr empty_block app].
    rewrite Z2Nat.id by lia.
    replace (0 + Z.of_nat (length vs) + 1) with (Z.of_nat (length vs) + 1)
      by lia.
    replace (n - (Z.of_nat (length vs) + 1 + 1) + 1)
      with (n - (Z.of_nat (length vs) + 1)) by lia.
    reflexivity.
  - intros Hgt.
    destruct (array_loop_excess f0 vs v (S f0) 0 empty_block rest n
                ltac:(lia) Hn ltac:(lia) ltac:(lia))
      as (b' & w & toks & Hloop).
    rewrite (object_initializer_int_array _ _ _ _ _ _ _ _ Hn Hloop).
    unfold mbind at 1, pm_bind at 1. rewrite zero_elements_int.
    reflexivity.
Qed.

Lemma int_array_fixed_initializer_witness :
  (0 < 4 ∧ (length [7] + 2 ≤ 3)%nat) ∧
  let values := Z.of_nat (length [7]) + 1 in
  let run :=
    initializer integer_constant_expression emit_assign 3 empty_block
      (var_direct 0%nat)
      (state_completed
         (punct "{" :: initializer_list 5 [7] ++ punct "}" :: [punct ";"])
         4) in
  (values ≤ 4 →
   run = Ok (Block None
               (stores_from 0 (5 :: [7]) ++
                ((λ j, zero_store_a (j * 4)) <$> seqZ values (4 - values)))
               (var_int (last_value 5 [7])))
            (state_completed [punct ";"] 4)) ∧
  (4 < values → run = Err (ExitError "Unexpected token")).
Proof.
  split; [split; [reflexivity|cbn; lia]|].
  apply (int_array_fixed_initializer 3 4 5 [7] [punct ";"]);
    [reflexivity|cbn; lia].
Defined.

(** *** The initializer of a union *)

(** A union [u] at file scope, known by its type. *)
Definition state_u (ty : typetree) (toks : list token) : pstate :=
  PState toks [Symbol "u" ty SYM_DEFINITION LINK_EXTERN 0]
         zero_definition_list zero_definition zero_definition.

(** The stores that zero a union of [size] bytes whose first member has 4:
    none when there is no padding, else in units of 8 bytes when the size
    is a multiple of 8, else byte by byte. *)
Definition union_zero_fill (size : Z) : list op :=
  if size <=? 4 then []
  else if Z.rem size 8 =? 0
       then zero_element_store (var_direct 0%nat) basic_type__long
              <$> seqZ 0 (Z.quot size 8)
       else zero_element_store (var_direct 0%nat) basic_type__char
              <$> seqZ 0 size.

Lemma union_zero_fill_run size b toks ty :
  4 < size →
  (arr ← defined
          (if negb (Z.rem size 8 =? 0)
           then type_init T_ARRAY (Some basic_type__char) size
           else type_init T_ARRAY (Some basic_type__long) (Z.quot size 8));
   zero_initialize emit_assign b
     (set_type (set_lvalue (var_direct 0%nat) true) (TypeNode arr)))
    (state_u ty toks) =
  Ok (Block (label b) (code b ++ union_zero_fill size) (expr b))
     (state_u ty toks).
Proof.
  intros Hsz. unfold union_zero_fill.
  replace (size <=? 4) with false by (symmetry; apply Z.leb_gt; lia).
  destruct (Z.eqb_spec (Z.rem size 8) 0) as [Hr|Hr]; cbn [negb].
  - assert (Hq : 0 < Z.quot size 8).
    { pose proof (Z.quot_rem' size 8). lia. }
    destruct (type_init T_ARRAY (Some basic_type__long) (Z.quot size 8))
      as [arr|] eqn:Harr; [|discriminate].
    unfold mbind, pm_bind. cbn [defined mret pm_ret].
    unfold zero_initialize, mbind, pm_bind.
    cbn [deref v_type set_type mret pm_ret].
    now rewrite (zero_initialize_at_integers basic_type__long arr
                   (Z.quot size 8)).
  - destruct (type_init T_ARRAY (Some basic_type__char) size)
      as [arr|] eqn:Harr; [|discriminate].
    unfold mbind, pm_bind. cbn [defined mret pm_ret].
    unfold zero_initialize, mbind, pm_bind.
    cbn [deref v_type set_type mret pm_ret].
    rewrite (zero_initialize_at_integers basic_type__char arr size);
      [reflexivity|reflexivity|exact Harr|lia|reflexivity|reflexivity
      |reflexivity].
Qed.

Lemma bind_to {A B} (m : pm A) (f : A → pm B) st a st1 r :
  m st = Ok a st1 → f a st1 = r → (m ≫= f) st = r.
Proof. intros Hm Hf. unfold mbind, pm_bind. now rewrite Hm. Qed.

Lemma bind_err {A B} (m : pm A) (f : A → pm B) st e :
  m st = Err e → (m ≫= f) st = Err e.
Proof. intros Hm. unfold mbind, pm_bind. now rewrite Hm. Qed.

(** X27.  The initializer of a union [u] whose first member is an [int]:
    [{ v }] is consumed with its braces and gives a store of [v] into
    offset 0 of [u]; when the union is larger than its first member the
    store comes after stores of zero that cover the union, in units of 8
    bytes if its size is a multiple of 8 and byte by byte if not.  A
    second initializer, or a comma before the closing brace, ends the run
    with the error for excess elements. *)
Theorem union_initializer (fuel : nat) (ty : typetree) (m0 : member_t)
    (v : Z) (rest : list token) :
  t_type ty = T_UNION → t_next ty = None →
  get_member ty 0 = Some m0 → m_type m0 = basic_type__int →
  4 ≤ t_size ty → (2 ≤ fuel)%nat →
  let run toks :=
    initializer integer_constant_expression emit_assign fuel empty_block
      (var_direct 0%nat) (state_u ty toks) in
  run (punct "{" :: number v :: punct "}" :: rest) =
    Ok (Block None (union_zero_fill (t_size ty) ++ [store_a 0 v])
              (var_int v))
       (state_u ty rest) ∧
  ∀ t, tok t ≠ CHAR "}" →
       run (punct "{" :: number v :: t :: rest) =
       Err (ExitError "Excess elements in union initializer.").
Proof.
  destruct ty as [k sz q ml tg nx]. cbn [t_type t_next t_size].
  intros -> -> Hm Hty Hsz Hfuel.
  destruct ml as [[va [|m ms]]|]; try discriminate.
  injection Hm as ->. destruct m0 as [nm mt off]. cbn [m_type] in Hty.
  subst mt.
  destruct fuel as [|[|f0]]; try lia.
  set (ty := Typetree T_UNION sz q
               (Some (MemberList va (Member nm basic_type__int off :: ms)))
               tg None).
  assert (Hinit : ∀ toks b,
    initializer integer_constant_expression emit_assign (S (S f0)) b
      (var_direct 0%nat) (state_u ty (punct "{" :: number v :: toks)) =
    (b ← (b ← (if 4 <? sz then
                 arr ← defined
                         (if negb (Z.rem sz 8 =? 0)
                          then type_init T_ARRAY (Some basic_type__char) sz
                          else type_init T_ARRAY (Some basic_type__long)
                                 (Z.quot sz 8));
                 zero_initialize emit_assign b
                   (set_type (set_lvalue (var_direct 0%nat) true)
                             (TypeNode arr))
               else mret b);
          b ← initializer integer_constant_expression emit_assign (S f0) b
                (set_type (set_lvalue (var_direct 0%nat) true)
                          (TypeNode basic_type__int));
          close ← peek_is "}";
          if (close : bool) then mret b
          else error "Excess elements in union initializer.");
     consume (CHAR "}");; mret b)
      (state_u ty (number v :: toks))).
  { intros toks b. reflexivity. }
  assert (Hval : ∀ toks b,
    initializer integer_constant_expression emit_assign (S f0) b
      (set_type (set_lvalue (var_direct 0%nat) true)
                (TypeNode basic_type__int))
      (state_u ty (number v :: toks)) =
    Ok (Block (label b) (code b ++ [store_a 0 v]) (var_int v))
       (state_u ty toks)).
  { intros toks b. reflexivity. }
  assert (Hfill : ∀ toks,
    (if 4 <? sz then
       arr ← defined
               (if negb (Z.rem sz 8 =? 0)
                then type_init T_ARRAY (Some basic_type__char) sz
                else type_init T_ARRAY (Some basic_type__long)
                       (Z.quot sz 8));
       zero_initialize emit_assign empty_block
         (set_type (set_lvalue (var_direct 0%nat) true) (TypeNode arr))
     else mret empty_block) (state_u ty toks) =
    Ok (Block None (union_zero_fill sz) (var_zero 4)) (state_u ty toks)).
  { intros toks. destruct (Z.ltb_spec 4 sz) as [Hlt|Hge].
    - now rewrite union_zero_fill_run.
    - unfold union_zero_fill.
      replace (sz <=? 4) with true by (symmetry; apply Z.leb_le; lia).
      reflexivity. }
  split.
  - rewrite Hinit.
    eapply bind_to;
      [eapply bind_to; [apply Hfill|]; cbn beta;
       eapply bind_to; [apply Hval|]; reflexivity|].
    reflexivity.
  - intros t Ht. rewrite Hinit. apply bind_err.
    eapply bind_to; [apply Hfill|]. cbn beta.
    eapply bind_to; [apply Hval|].
    unfold peek_is, peek, mbind, pm_bind.
    cbn [state_u tokens hd mret pm_ret].
    rewrite bool_decide_eq_false_2 by exact Ht. reflexivity.
Qed.

(** [union { int i; char c[8]; } u] *)
Definition union_int_chars : typetree :=
  Typetree T_UNION 8 Q_NONE
    (Some (MemberList false
             [Member (Some "i") basic_type__int 0;
              Member (Some "c")
                (Typetree T_ARRAY 8 Q_NONE None None (Some basic_type__char))
                0]))
    None None.

Lemma union_initializer_witness :
  (t_type union_int_chars = T_UNION ∧ t_next union_int_chars = None ∧
   get_member union_int_chars 0 = Some (Member (Some "i") basic_type__int 0) ∧
   4 ≤ t_size union_int_chars ∧ (2 ≤ 2)%nat) ∧
  initializer integer_constant_expression emit_assign 2 empty_block
    (var_direct 0%nat)
    (state_u union_int_chars [punct "{"; number 5; punct "}"; punct ";"]) =
    Ok (Block None
          [zero_element_store (var_direct 0%nat) basic_type__long 0;
           store_a 0 5]
          (var_int 5))
       (state_u union_int_chars [punct ";"]).
Proof.
  split; [repeat split; (reflexivity || (cbn; lia))|].
  exact (proj1 (union_initializer 2 union_int_chars
                  (Member (Some "i") basic_type__int 0) 5 [punct ";"]
                  eq_refl eq_refl eq_refl eq_refl
                  (Zle_bool_imp_le 4 8 eq_refl) (le_n 2))).
Defined.

(** *** Array declarators *)

(** [type_init(T_ARRAY, base, length)] as [direct_declarator_array] calls
    it.  [length] is a [long]; [type_init] reads it back from its variable
    arguments with [va_arg(args, int)], which takes the low 32 bits, and
    stores the product of two [int] as the size.  The product is kept
    modulo 2^32 here, as the compiled code keeps it; what is proved of the
    result below is proved where it fits an [int]. *)
Definition type_init_array (base : typetree) (length : Z) : typetree :=
  Typetree T_ARRAY (to_int (size_of base * to_int length)) Q_NONE None None
           (Some base).

Section Declarators.

(** [constant_expression] belongs to the expression parser
    (expression.c). *)
Context (constant_expression : pm var).

(** [direct_declarator_array]; [fuel] bounds the number of dimensions. *)
Fixpoint direct_declarator_array (fuel : nat) (base : typetree)
  : pm typetree :=
  bracket ← peek_is "[";
  if (bracket : bool) then
    match fuel with
    | O => fail OutOfFuel
    | S fuel =>
        consume (CHAR "[");;
        close ← peek_is "]";
        length ←
          (if negb close then
             expr ← constant_expression;
             assert (bool_decide (kind expr = IMMEDIATE));;
             ety ← deref (v_type expr);
             if negb (is_integer ety) || (imm_i expr <? 1)
             then error "Array dimension must be a natural number."
             else mret (imm_i expr)
           else mret 0);
        consume (CHAR "]");;
        base ← direct_declarator_array fuel base;
        if size_of base =? 0 then error "Array has incomplete element type."
        else mret (type_init_array base length)
    end
  else mret base.

End Declarators.

(** The tokens [[d1][d2]...[dk]]. *)
Fixpoint brackets (dims : list Z) : list token :=
  match dims with
  | [] => []
  | d :: ds => punct "[" :: number d :: punct "]" :: brackets ds
  end.

(** The type [base [d1][d2]...[dk]]: an array of [d1] arrays of [d2] ...
    of [base]. *)
Fixpoint array_of (dims : list Z) (base : typetree) : typetree :=
  match dims with
  | [] => base
  | d :: ds =>
      Typetree T_ARRAY (size_of (array_of ds base) * d) Q_NONE None None
               (Some (array_of ds base))
  end.

Fixpoint product (dims : list Z) : Z :=
  match dims with
  | [] => 1
  | d :: ds => d * product ds
  end.

Definition with_tokens (st : pstate) (toks : list token) : pstate :=
  PState toks (symtab st) (defs st) (fallback st) (last_def_returned st).

(** What the array declarator relies on from [constant_expression]: an
    integer constant is consumed and gives its value, of type [int]. *)
Definition reads_integer_constants (constant_expression : pm var) : Prop :=
  ∀ n toks st,
    tokens st = number n :: toks →
    constant_expression st = Ok (var_int n) (with_tokens st toks).

Lemma product_pos dims : Forall (λ d, 1 ≤ d) dims → 0 < product dims.
Proof. induction 1; cbn [product]; nia. Qed.

Lemma size_of_array_of dims base :
  size_of (array_of dims base) = size_of base * product dims.
Proof.
  induction dims as [|d ds IH]; cbn [array_of product]; [lia|].
  unfold size_of at 1. cbn. rewrite IH. lia.
Qed.

Lemma peek_is_run c st :
  peek_is c st = Ok (bool_decide (tok (hd end_token (tokens st)) = CHAR c)) st.
Proof. reflexivity. Qed.

Lemma peek_is_head c st t toks :
  tokens st = t :: toks →
  peek_is c st = Ok (bool_decide (tok t = CHAR c)) st.
Proof. intros H. unfold peek_is, peek, mbind, pm_bind. now rewrite H. Qed.

Lemma consume_head c st toks :
  tokens st = punct c :: toks →
  consume (CHAR c) st = Ok (punct c) (with_tokens st toks).
Proof.
  intros H. unfold consume, peek, mbind, pm_bind, with_tokens.
  rewrite H. cbn [hd punct tok].
  rewrite bool_decide_eq_true_2 by reflexivity.
  unfold next. rewrite H. reflexivity.
Qed.

Lemma direct_declarator_array_end ce fuel base st :
  tok (hd end_token (tokens st)) ≠ CHAR "[" →
  direct_declarator_array ce fuel base st = Ok base st.
Proof.
  intros H. destruct fuel; cbn [direct_declarator_array];
    unfold mbind, pm_bind; rewrite peek_is_run;
    now rewrite bool_decide_eq_false_2 by exact H.
Qed.

(** One dimension with a size. *)
Lemma direct_declarator_array_dim ce fuel base st d toks :
  reads_integer_constants ce →
  tokens st = punct "[" :: number d :: punct "]" :: toks →
  direct_declarator_array ce (S fuel) base st =
  (if d <? 1 then Err (ExitError "Array dimension must be a natural number.")
   else
     (base ← direct_declarator_array ce fuel base;
      if size_of base =? 0 then error "Array has incomplete element type."
      else mret (type_init_array base d))
       (with_tokens st toks)).
Proof.
  intros Hce Ht. cbn [direct_declarator_array].
  erewrite bind_to; [reflexivity|now apply (peek_is_head _ _ _ _ Ht)|].
  rewrite bool_decide_eq_true_2 by reflexivity.
  erewrite bind_to; [reflexivity|now apply (consume_head _ _ _ Ht)|].
  cbn beta.
  erewrite bind_to;
    [reflexivity|now apply (peek_is_head "]" _ (number d) (punct "]" :: toks))|].
  rewrite bool_decide_eq_false_2 by discriminate. cbn [negb].
  unfold mbind at 1, pm_bind at 1.
  erewrite bind_to; [|now apply (Hce d (punct "]" :: toks))|reflexivity].
  cbn beta. unfold mbind at 1, pm_bind at 1.
  change (assert (bool_decide (kind (var_int d) = IMMEDIATE))
            (with_tokens (with_tokens st (number d :: punct "]" :: toks))
               (punct "]" :: toks)))
    with (Ok () (with_tokens (with_tokens st (number d :: punct "]" :: toks))
                   (punct "]" :: toks))).
  cbn beta iota. unfold mbind at 1, pm_bind at 1.
  cbn [deref var_int v_type mret pm_ret imm_i].
  change (negb (is_integer basic_type__int)) with false. cbn [orb].
  destruct (d <? 1); [reflexivity|]. cbn [mret pm_ret].
  erewrite bind_to; [reflexivity|now apply consume_head|]. reflexivity.
Qed.

(** One dimension without a size. *)
Lemma direct_declarator_array_open ce fuel base st toks :
  tokens st = punct "[" :: punct "]" :: toks →
  direct_declarator_array ce (S fuel) base st =
  (base ← direct_declarator_array ce fuel base;
   if size_of base =? 0 then error "Array has incomplete element type."
   else mret (type_init_array base 0))
    (with_tokens st toks).
Proof.
  intros Ht. cbn [direct_declarator_array].
  erewrite bind_to; [reflexivity|now apply (peek_is_head _ _ _ _ Ht)|].
  rewrite bool_decide_eq_true_2 by reflexivity.
  erewrite bind_to; [reflexivity|now apply (consume_head _ _ _ Ht)|].
  cbn beta.
  erewrite bind_to;
    [reflexivity|now apply (peek_is_head "]" _ (punct "]") toks)|].
  rewrite bool_decide_eq_true_2 by reflexivity. cbn [negb].
  unfold mbind at 1, pm_bind at 1. cbn [mret pm_ret].
  erewrite bind_to; [reflexivity|now apply consume_head|]. reflexivity.
Qed.

(** Where the dimension and the size fit an [int], the array is the one
    of unbounded arithmetic. *)
Lemma type_init_array_fits ds base d :
  0 < size_of base → Forall (λ d, 1 ≤ d) (d :: ds) →
  size_of base * product (d :: ds) ≤ INT_MAX →
  type_init_array (array_of ds base) d = array_of (d :: ds) base.
Proof.
  intros Hbase Hall Hfit. apply Forall_cons in Hall as [Hd Hall].
  pose proof (product_pos ds Hall) as Hp. cbn [product] in Hfit.
  unfold type_init_array. cbn [array_of]. rewrite size_of_array_of.
  unfold INT_MAX in Hfit.
  assert (H1 : d ≤ d * product ds) by nia.
  assert (H2 : d * product ds ≤ size_of base * (d * product ds)) by nia.
  rewrite (to_int_small d) by (unfold INT_MIN, INT_MAX; lia).
  rewrite to_int_small by (unfold INT_MIN, INT_MAX; nia).
  reflexivity.
Qed.

Lemma direct_declarator_array_sized ce base :
  reads_integer_constants ce → 0 < size_of base →
  ∀ dims fuel st rest,
    Forall (λ d, 1 ≤ d) dims → size_of base * product dims ≤ INT_MAX →
    (length dims ≤ fuel)%nat →
    tok (hd end_token rest) ≠ CHAR "[" →
    tokens st = brackets dims ++ rest →
    direct_declarator_array ce fuel base st =
    Ok (array_of dims base) (with_tokens st rest).
Proof.
  intros Hce Hbase.
  induction dims as [|d ds IH]; intros fuel st rest Hall Hfit Hfuel Hrest Ht.
  - cbn [brackets app] in Ht. rewrite direct_declarator_array_end
      by (now rewrite Ht).
    cbn [array_of]. unfold with_tokens. rewrite <- Ht. now destruct st.
  - cbn [brackets app length] in Ht, Hfuel.
    destruct fuel as [|fuel]; [lia|].
    pose proof Hall as Hall'. apply Forall_cons in Hall' as [Hd Hds].
    pose proof (product_pos ds Hds) as Hp.
    rewrite (direct_declarator_array_dim ce fuel base st d _ Hce Ht).
    replace (d <? 1) with false by (symmetry; apply Z.ltb_ge; lia).
    erewrite bind_to;
      [reflexivity
      |apply (IH fuel _ rest); try assumption;
       [cbn [product] in Hfit; nia|lia|reflexivity]|].
    cbn beta. rewrite size_of_array_of.
    replace (size_of base * product ds =? 0) with false
      by (symmetry; apply Z.eqb_neq; nia).
    rewrite (type_init_array_fits ds base d Hbase Hall Hfit). reflexivity.
Qed.

(** X28.  [direct_declarator_array] reads the dimensions [[d1][d2]...[dk]]
    in front of a token that is not an opening bracket.  Where the size of
    the base type times [d1 * d2 * ... * dk] fits an [int], it returns the
    array of [d1] arrays of [d2] ... of the base type, of that size; the
    tokens of the dimensions are consumed and nothing else changes.  Only
    the first dimension may be left empty, which gives an array of size 0:
    an empty dimension after another one ends the run with the error for
    an incomplete element type, and a dimension below 1 with the error for
    the array dimension.  A dimension is a [long] that [type_init] reads
    back as an [int]: [d + 2^32] gives what [d] gives. *)
Theorem direct_declarator_array_dimensions (ce : pm var) (fuel : nat)
    (base : typetree) (dims : list Z) (rest : list token) (st : pstate) :
  reads_integer_constants ce → 0 < size_of base →
  Forall (λ d, 1 ≤ d) dims → size_of base * product dims ≤ INT_MAX →
  (length dims + 2 ≤ fuel)%nat →
  tok (hd end_token rest) ≠ CHAR "[" →
  let run toks := direct_declarator_array ce fuel base (with_tokens st toks) in
  (run (brackets dims ++ rest) =
     Ok (array_of dims base) (with_tokens st rest) ∧
   size_of (array_of dims base) = size_of base * product dims) ∧
  run (punct "[" :: punct "]" :: brackets dims ++ rest) =
    Ok (Typetree T_ARRAY 0 Q_NONE None None (Some (array_of dims base)))
       (with_tokens st rest) ∧
  (∀ d, 1 ≤ d →
        run (brackets [d] ++ punct "[" :: punct "]" :: brackets dims ++ rest)
        = Err (ExitError "Array has incomplete element type.")) ∧
  (∀ d, d < 1 →
        run (brackets [d] ++ rest) =
        Err (ExitError "Array dimension must be a natural number.")) ∧
  (∀ d, 1 ≤ d →
        run (brackets [d + 2 ^ 32] ++ rest) = run (brackets [d] ++ rest)).
Proof.
  intros Hce Hbase Hall Hfit Hfuel Hrest run. subst run. cbn beta.
  pose proof (product_pos dims Hall) as Hprod.
  assert (Hsized : ∀ f, (length dims ≤ f)%nat →
            direct_declarator_array ce f base
              (with_tokens st (brackets dims ++ rest)) =
            Ok (array_of dims base) (with_tokens st rest)).
  { intros f Hf.
    now rewrite (direct_declarator_array_sized ce base Hce Hbase dims f
                   (with_tokens st (brackets dims ++ rest)) rest). }
  assert (Hopen : ∀ f, (length dims + 1 ≤ f)%nat →
            direct_declarator_array ce f base
              (with_tokens st (punct "[" :: punct "]" :: brackets dims ++ rest))
            = Ok (Typetree T_ARRAY 0 Q_NONE None None
                    (Some (array_of dims base)))
                 (with_tokens st rest)).
  { intros f Hf. destruct f as [|f]; [lia|].
    rewrite (direct_declarator_array_open ce f base _
               (brackets dims ++ rest)) by reflexivity.
    erewrite bind_to; [reflexivity|apply Hsized; lia|]. cbn beta.
    rewrite size_of_array_of.
    replace (size_of base * product dims =? 0) with false
      by (symmetry; apply Z.eqb_neq; nia).
    unfold type_init_array. rewrite size_of_array_of.
    change (to_int 0) with 0. rewrite Z.mul_0_r. reflexivity. }
  split; [split; [apply Hsized; lia|apply size_of_array_of]|].
  split; [apply Hopen; lia|]. split; [|split].
  - intros d Hd. destruct fuel as [|fuel]; [lia|].
    cbn [brackets app].
    rewrite (direct_declarator_array_dim ce fuel base _ d
               (punct "[" :: punct "]" :: brackets dims ++ rest) Hce)
      by reflexivity.
    replace (d <? 1) with false by (symmetry; apply Z.ltb_ge; lia).
    erewrite bind_to; [reflexivity|apply Hopen; lia|]. reflexivity.
  - intros d Hd. destruct fuel as [|fuel]; [lia|].
    cbn [brackets app].
    rewrite (direct_declarator_array_dim ce fuel base _ d rest Hce)
      by reflexivity.
    now replace (d <? 1) with true by (symmetry; apply Z.ltb_lt; lia).
  - intros d Hd. destruct fuel as [|fuel]; [lia|].
    cbn [brackets app].
    rewrite !(direct_declarator_array_dim ce fuel base _ _ rest Hce)
      by reflexivity.
    replace (d <? 1) with false by (symmetry; apply Z.ltb_ge; lia).
    replace (d + 2 ^ 32 <? 1) with false by (symmetry; apply Z.ltb_ge; lia).
    unfold type_init_array, mbind, pm_bind.
    destruct (direct_declarator_array ce fuel base (with_tokens _ rest))
      as [b st'|]; [|reflexivity].
    now rewrite to_int_period.
Qed.

(** Modelled from the spec: a constant expression, as far as an array
    dimension needs it: an integer constant, whose value is an Immediate
    of type [int]. *)
Definition integer_constant : pm var :=
  t ← peek;
  if bool_decide (tok t = INTEGER_CONSTANT) then
    next;; mret (var_int (intval t))
  else error "Expression outside the model.".

Lemma integer_constant_reads : reads_integer_constants integer_constant.
Proof.
  intros n toks st H. unfold integer_constant, mbind, pm_bind, peek.
  rewrite H. cbn [hd number tok intval].
  rewrite bool_decide_eq_true_2 by reflexivity.
  unfold next, with_tokens. rewrite H. reflexivity.
Qed.

Lemma direct_declarator_array_dimensions_witness :
  let st := state_of_tokens [] in
  let rest := [punct ";"] in
  (reads_integer_constants integer_constant ∧ 0 < size_of basic_type__int ∧
   Forall (λ d, 1 ≤ d) [2; 3] ∧
   size_of basic_type__int * product [2; 3] ≤ INT_MAX ∧
   (length [2; 3] + 2 ≤ 4)%nat ∧
   tok (hd end_token rest) ≠ CHAR "[") ∧
  direct_declarator_array integer_constant 4 basic_type__int
    (with_tokens st (brackets [2; 3] ++ rest)) =
    Ok (array_of [2; 3] basic_type__int) (with_tokens st rest) ∧
  size_of (array_of [2; 3] basic_type__int) = 24.
Proof.
  intros st rest.
  assert (H1 : 0 < size_of basic_type__int) by reflexivity.
  assert (H2 : Forall (λ d, 1 ≤ d) [2; 3]) by (repeat constructor; lia).
  assert (H3 : (length [2; 3] + 2 ≤ 4)%nat) by (cbn; lia).
  assert (H4 : tok (hd end_token rest) ≠ CHAR "[") by discriminate.
  assert (H5 : size_of basic_type__int * product [2; 3] ≤ INT_MAX)
    by (vm_compute; discriminate).
  split; [repeat split; assumption || exact integer_constant_reads|].
  exact (proj1 (direct_declarator_array_dimensions integer_constant 4
                  basic_type__int [2; 3] rest st integer_constant_reads
                  H1 H2 H5 H3 H4)).
Defined.

(** Two declarators whose size does not fit: [[4294967297]] on [int] is
    built with the size 4 of [[1]], and [[2][1073741824]], whose inner
    array has size 2^32, which is 0 in an [int], ends with the error for
    an incomplete element type. *)
Example direct_declarator_array_wraps :
  let st := state_of_tokens [] in
  let rest := [punct ";"] in
  direct_declarator_array integer_constant 4 basic_type__int
    (with_tokens st (brackets [4294967297] ++ rest)) =
    Ok (Typetree T_ARRAY 4 Q_NONE None None (Some basic_type__int))
       (with_tokens st rest) ∧
  direct_declarator_array integer_constant 4 basic_type__int
    (with_tokens st (brackets [2; 1073741824] ++ rest)) =
    Err (ExitError "Array has incomplete element type.").
Proof. split; vm_compute; reflexivity. Qed.

(** *** Type specifiers *)

(** [get_basic_type_from_specifier]: [spec] has one bit per keyword,
    [void] 0x001, [char] 0x002, [short] 0x004, [int] 0x008, [signed] 0x010,
    [unsigned] 0x020, [long] 0x040, a second [long] 0x080, [float] 0x100,
    [double] 0x200. *)
Definition get_basic_type_from_specifier (spec : Z) : pm typetree :=
  match spec with
  | 0x0001 => mret basic_type__void
  | 0x0002 | 0x0012 => mret basic_type__char
  | 0x0022 => mret basic_type__unsigned_char
  | 0x0004 | 0x0014 | 0x000C | 0x001C => mret basic_type__short
  | 0x0024 | 0x002C => mret basic_type__unsigned_short
  | 0x0008 | 0x0010 | 0x0018 => mret basic_type__int
  | 0x0020 | 0x0028 => mret basic_type__unsigned_int
  | 0x0040 | 0x0050 | 0x0048 | 0x0058 | 0x00C0 | 0x00D0 | 0x00D8 =>
      mret basic_type__long
  | 0x0060 | 0x0068 | 0x00E0 | 0x00E8 => mret basic_type__unsigned_long
  | 0x0100 => mret basic_type__float
  | 0x0200 | 0x0240 => mret basic_type__double
  | _ => error "Invalid type specification."
  end.

(** The type that the bits of a specifier stand for. *)
Definition specified_kind (spec : Z) : type_kind :=
  if Z.testbit spec 8 || Z.testbit spec 9 then T_REAL
  else if Z.testbit spec 0 then T_VOID
  else if Z.testbit spec 5 then T_UNSIGNED
  else T_SIGNED.

Definition specified_size (spec : Z) : Z :=
  if Z.testbit spec 0 then 0
  else if Z.testbit spec 1 then 1
  else if Z.testbit spec 2 then 2
  else if Z.testbit spec 6 || Z.testbit spec 9 then 8
  else 4.

(** X29.  A specifier that [get_basic_type_from_specifier] accepts gives the
    basic type that its bits stand for: a floating point type if [float]
    or [double] is among them, else [void], else an unsigned integer if
    [unsigned] is among them and a signed one if not, of size 1 for
    [char], 2 for [short], 8 for [long] or [double] and 4 otherwise, with
    no qualifier.  So [signed] and [int] never change the type.  The
    empty specifier, [signed] with [unsigned], and [char], [float] or
    [double] with [int] are among those that end the run with an
    error. *)
Theorem get_basic_type_from_specifier_bits (spec : Z) (st : pstate) :
  match get_basic_type_from_specifier spec st with
  | Ok t st' =>
      st' = st ∧
      t = basic (specified_kind spec) (specified_size spec) Q_NONE ∧
      0 < spec < 0x400 ∧
      (Z.testbit spec 4 && Z.testbit spec 5 = false) ∧
      (Z.testbit spec 3 &&
       (Z.testbit spec 1 || Z.testbit spec 8 || Z.testbit spec 9) = false)
  | Err e => e = ExitError "Invalid type specification."
  end.
Proof.
  destruct spec as [|p|p]; try reflexivity.
  do 10 (try (destruct p as [p|p|]; try reflexivity));
    cbn; repeat split; reflexivity.
Qed.

(** *** A list of initializers for a struct *)

(** A struct [s] at file scope, known by its type. *)
Definition state_s (ty : typetree) (toks : list token) : pstate :=
  PState toks [Symbol "s" ty SYM_DEFINITION LINK_EXTERN 0]
         zero_definition_list zero_definition zero_definition.

(** The stores of the values [vs] into the members [ms], one each, as far
    as both go. *)
Fixpoint member_stores (ms : list member_t) (vs : list Z) : list op :=
  match ms, vs with
  | m :: ms, v :: vs => store_a (m_offset m) v :: member_stores ms vs
  | _, _ => []
  end.

Definition int_member (m : member_t) : Prop := m_type m = basic_type__int.

Lemma initializer_member f0 b off v toks ty :
  initializer integer_constant_expression emit_assign (S f0) b
    (set_offset (set_type (var_direct 0%nat) (TypeNode basic_type__int)) off)
    (state_s ty (number v :: toks)) =
  Ok (Block (label b) (code b ++ [store_a off v]) (var_int v))
     (state_s ty toks).
Proof. reflexivity. Qed.

Lemma more_initializers_next t toks ty :
  tok t ≠ CHAR "}" →
  more_initializers (state_s ty (punct "," :: t :: toks)) =
  Ok true (state_s ty (t :: toks)).
Proof.
  intros Ht. unfold more_initializers.
  eapply bind_to; [reflexivity|]. cbn iota.
  eapply bind_to; [reflexivity|]. cbn beta.
  eapply bind_to; [apply peek_is_run|]. cbn [state_s tokens hd].
  now rewrite bool_decide_eq_false_2 by exact Ht.
Qed.

Lemma struct_loop_values f0 ty vs :
  ∀ ms v i b rest,
    Forall int_member ms → (length vs < length ms)%nat →
    struct_loop (initializer integer_constant_expression emit_assign (S f0))
      ms i 0 b (var_direct 0%nat)
      (state_s ty (initializer_list v vs ++ punct "}" :: rest)) =
    Ok (Block (label b) (code b ++ member_stores ms (v :: vs))
              (var_int (last_value v vs)),
        i + Z.of_nat (length vs))
       (state_s ty (punct "}" :: rest)).
Proof.
  induction vs as [|v' vs IH]; intros ms v i b rest Hms Hlen;
    (destruct ms as [|[nm mt off] ms]; [cbn in Hlen; lia|]);
    apply Forall_cons in Hms as [Hm Hms]; unfold int_member in Hm;
    cbn [m_type] in Hm; subst mt;
    cbn [struct_loop initializer_list more_values app m_type m_offset];
    (eapply bind_to; [apply initializer_member|]); cbn beta.
  - eapply bind_to; [reflexivity|]. cbn iota.
    cbn [member_stores length]. rewrite Z.add_0_r.
    destruct ms; reflexivity.
  - eapply bind_to; [now apply more_initializers_next|]. cbn iota.
    cbn [length] in Hlen.
    change (number v' :: more_values vs ++ punct "}" :: rest)
      with (initializer_list v' vs ++ punct "}" :: rest).
    rewrite (IH ms v' (i + 1) _ rest Hms ltac:(lia)).
    cbn [label code member_stores last_value m_offset].
    replace (i + Z.of_nat (length (v' :: vs)))
      with (i + 1 + Z.of_nat (length vs)) by (cbn [length]; lia).
    rewrite <- app_assoc. reflexivity.
Qed.

(** More values than members: the loop ends at the first value in
    excess, with the number of members as index. *)
Lemma struct_loop_excess f0 ty ms :
  ∀ vs v i b rest,
    Forall int_member ms → ms ≠ [] → (length ms ≤ length vs)%nat →
    ∃ b' w toks,
      struct_loop (initializer integer_constant_expression emit_assign (S f0))
        ms i 0 b (var_direct 0%nat)
        (state_s ty (initializer_list v vs ++ punct "}" :: rest)) =
      Ok (b', i + Z.of_nat (length ms)) (state_s ty (number w :: toks)).
Proof.
  induction ms as [|[nm mt off] ms IH]; intros vs v i b rest Hms Hne Hlen;
    [contradiction|].
  apply Forall_cons in Hms as [Hm Hms]. unfold int_member in Hm.
  cbn [m_type] in Hm. subst mt.
  destruct vs as [|v' vs]; [cbn in Hlen; lia|]. cbn [length] in Hlen.
  cbn [struct_loop initializer_list more_values app m_type m_offset].
  destruct ms as [|m ms'].
  - eexists _, v', _.
    eapply bind_to; [apply initializer_member|]. cbn beta.
    eapply bind_to; [now apply more_initializers_next|]. cbn iota.
    cbn [struct_loop length]. reflexivity.
  - destruct (IH vs v' (i + 1)
                (Block (label b) (code b ++ [store_a (0 + off) v])
                       (var_int v)) rest Hms ltac:(discriminate)
                ltac:(lia)) as (b' & w & toks & Hrun).
    exists b', w, toks.
    eapply bind_to; [apply initializer_member|]. cbn beta.
    eapply bind_to; [now apply more_initializers_next|]. cbn iota.
    change (number v' :: more_values vs ++ punct "}" :: rest)
      with (initializer_list v' vs ++ punct "}" :: rest).
    rewrite Hrun.
    replace (i + Z.of_nat (length (Member nm basic_type__int off :: m :: ms')))
      with (i + 1 + Z.of_nat (length (m :: ms'))) by (cbn [length]; lia).
    reflexivity.
Qed.

Lemma zero_members_int ty ms :
  Forall int_member ms →
  ∀ b toks,
    zero_members emit_assign ms 0 b (var_direct 0%nat) (state_s ty toks) =
    Ok (Block (label b)
              (code b ++ ((λ m, zero_store_a (m_offset m)) <$> ms))
              (expr b))
       (state_s ty toks).
Proof.
  induction 1 as [|[nm mt off] ms Hm Hms IH]; intros b toks.
  - cbn. now rewrite app_nil_r, block_eta.
  - unfold int_member in Hm. cbn [m_type] in Hm. subst mt.
    cbn [zero_members m_type m_offset].
    eapply bind_to; [reflexivity|]. cbn beta. rewrite IH.
    cbn [label code expr fmap list_fmap m_offset].
    rewrite <- app_assoc. reflexivity.
Qed.

(** X30.  [struct { int m1; ...; int mn; } s = { v, v1, ..., vk };]: when
    there are at most [n] values, the initializer emits one store per
    value into the offset of the member it belongs to, in order, then one
    store of zero for each member that is left; it consumes the list with
    its braces and changes nothing else.  When there are more values than
    members it ends with the error of [consume], which expects the
    closing brace at the first value in excess. *)
Theorem int_struct_initializer (fuel : nat) (ty : typetree)
    (v : Z) (vs : list Z) (rest : list token) :
  t_type ty = T_STRUCT → t_next ty = None →
  members ty ≠ [] → Forall int_member (members ty) →
  (2 ≤ fuel)%nat →
  let values := S (length vs) in
  let run :=
    initializer integer_constant_expression emit_assign fuel empty_block
      (var_direct 0%nat)
      (state_s ty
         (punct "{" :: initializer_list v vs ++ punct "}" :: rest)) in
  ((values ≤ length (members ty))%nat →
   run = Ok (Block None
               (member_stores (members ty) (v :: vs) ++
                ((λ m, zero_store_a (m_offset m))
                   <$> drop values (members ty)))
               (var_int (last_value v vs)))
            (state_s ty rest)) ∧
  ((length (members ty) < values)%nat →
   run = Err (ExitError "Unexpected token")).
Proof.
  destruct ty as [k sz q ml tg nx]. cbn [t_type t_next].
  intros -> -> Hne Hall Hfuel.
  destruct ml as [[va ms]|]; [|now contradiction Hne].
  unfold members in *. cbn [t_member_list member] in *.
  destruct fuel as [|[|f0]]; try lia.
  set (ty := Typetree T_STRUCT sz q (Some (MemberList va ms)) tg None).
  assert (Hinit : ∀ toks,
    initializer integer_constant_expression emit_assign (S (S f0))
      empty_block (var_direct 0%nat) (state_s ty (punct "{" :: toks)) =
    (b ← ('(b, i) ←
            struct_loop
              (initializer integer_constant_expression emit_assign (S f0))
              ms 0 0 empty_block (var_direct 0%nat);
          zero_members emit_assign (drop (Z.to_nat (i + 1)) ms) 0 b
            (var_direct 0%nat));
     consume (CHAR "}");; mret b) (state_s ty toks)).
  { intros toks. reflexivity. }
  split.
  - intros Hle. rewrite Hinit.
    eapply bind_to;
      [eapply bind_to; [apply struct_loop_values; [exact Hall|lia]|];
       cbn beta iota; apply zero_members_int; now apply Forall_drop|].
    cbn beta. cbn [label code expr empty_block app].
    replace (Z.to_nat (0 + Z.of_nat (length vs) + 1)) with (S (length vs))
      by lia.
    reflexivity.
  - intros Hgt. rewrite Hinit.
    destruct (struct_loop_excess f0 ty ms vs v 0 empty_block rest Hall Hne
                ltac:(lia)) as (b' & w & toks & Hrun).
    eapply bind_to;
      [eapply bind_to; [exact Hrun|];
       cbn beta iota; apply zero_members_int; now apply Forall_drop|].
    reflexivity.
Qed.

(** [struct { int x; int y; int z; } s] *)
Definition struct_xyz : typetree :=
  Typetree T_STRUCT 12 Q_NONE
    (Some (MemberList false
             [Member (Some "x") basic_type__int 0;
              Member (Some "y") basic_type__int 4;
              Member (Some "z") basic_type__int 8]))
    None None.

Lemma struct_xyz_members : Forall int_member (members struct_xyz).
Proof. repeat constructor. Qed.

Lemma int_struct_initializer_witness :
  (t_type struct_xyz = T_STRUCT ∧ t_next struct_xyz = None ∧
   members struct_xyz ≠ [] ∧ Forall int_member (members struct_xyz) ∧
   (2 ≤ 2)%nat) ∧
  initializer integer_constant_expression emit_assign 2 empty_block
    (var_direct 0%nat)
    (state_s struct_xyz [punct "{"; number 1; punct "}"; punct ";"]) =
    Ok (Block None [store_a 0 1; zero_store_a 4; zero_store_a 8] (var_int 1))
       (state_s struct_xyz [punct ";"]).
Proof.
  assert (Hne : members struct_xyz ≠ []) by discriminate.
  split; [repeat split; (reflexivity || exact Hne || exact struct_xyz_members
                         || (cbn; lia))|].
  exact (proj1 (int_struct_initializer 2 struct_xyz 1 [] [punct ";"]
                  eq_refl eq_refl Hne struct_xyz_members (le_n 2))
               ltac:(cbn; lia)).
Defined.

End Parser.
